(** * TrackEventTracker: descriptor-track reservation and resolution

    A shallow embedding of
    [src/trace_processor/importers/proto/track_event_tracker.cc]
    and the properties of it that the specification states.

    The C++ object state ([reserved_descriptor_tracks_],
    [resolved_descriptor_tracks_], the two identity-binding maps) and the
    parts of the [TraceProcessorContext] the file touches (track tables,
    statistics, track tracker, args tracker, process tracker) are gathered
    in one record that every operation threads explicitly.  Operations that
    can abort ([PERFETTO_CHECK], dereference of an empty optional, and
    [PERFETTO_DCHECK] in a build with debug checks) run in a small
    state-and-error monad; whether debug checks are compiled in is a
    parameter of the model. *)

From Stdlib Require Import ZArith List Bool Lia String.
From stdpp Require Import base option list gmap strings.

Local Open Scope Z_scope.

(** ** Scalar types *)

(** [int64_t] arithmetic: two's-complement wrap-around. *)
Definition wrap_int64 (z : Z) : Z := (z + 2 ^ 63) mod 2 ^ 64 - 2 ^ 63.

(** [static_cast<int64_t>] of a [uint64_t]. *)
Definition static_cast_int64 (z : Z) : Z := wrap_int64 z.

(** Modelled from the spec: the string pool is an external collaborator
    ([intern(string) -> interned_id]); an interned id is represented by the
    string it stands for, and [kNullStringId] is the id that [is_null]. *)
Inductive StringId : Type :=
  | kNullStringId
  | InternString (s : string).

Definition is_null (s : StringId) : bool :=
  match s with kNullStringId => true | InternString _ => false end.

Definition StringId_eqb (a b : StringId) : bool :=
  match a, b with
  | kNullStringId, kNullStringId => true
  | InternString x, InternString y => String.eqb x y
  | _, _ => false
  end.

(** Row identifiers and entity identifiers ([uint32_t] indices). *)
Abbreviation TrackId := nat.
Abbreviation UniqueTid := nat.
Abbreviation UniquePid := nat.

(** ** Reservations *)

Record DescriptorTrackReservation : Type := mkReservation {
  parent_uuid : Z;
  pid : option Z;
  tid : option Z;
  min_timestamp : Z;
  name : StringId;
  is_counter : bool;
  category : StringId;
  unit_multiplier : Z;
  is_incremental : bool;
  packet_sequence_id : Z;
  latest_value : Z
}.

(** Modelled from the spec: the struct is declared in the header, which is
    not part of the source file.  A default-constructed reservation has no
    parent (0 is "no parent", line 224), no OS identifiers, no name, is not a
    counter, and its running total starts at zero (spec, section 3 and the
    incremental-counter example of section 8).  [min_timestamp] is only
    written by the process and thread declarations. *)
Definition default_reservation : DescriptorTrackReservation :=
  {| parent_uuid := 0; pid := None; tid := None; min_timestamp := 0;
     name := kNullStringId; is_counter := false; category := kNullStringId;
     unit_multiplier := 1; is_incremental := false;
     packet_sequence_id := 0; latest_value := 0 |}.

Definition set_min_timestamp (t : Z) (r : DescriptorTrackReservation) :=
  {| parent_uuid := parent_uuid r; pid := pid r; tid := tid r;
     min_timestamp := t; name := name r; is_counter := is_counter r;
     category := category r; unit_multiplier := unit_multiplier r;
     is_incremental := is_incremental r;
     packet_sequence_id := packet_sequence_id r;
     latest_value := latest_value r |}.

Definition set_latest_value (v : Z) (r : DescriptorTrackReservation) :=
  {| parent_uuid := parent_uuid r; pid := pid r; tid := tid r;
     min_timestamp := min_timestamp r; name := name r;
     is_counter := is_counter r; category := category r;
     unit_multiplier := unit_multiplier r;
     is_incremental := is_incremental r;
     packet_sequence_id := packet_sequence_id r;
     latest_value := v |}.

(** The same-track predicate [DescriptorTrackReservation::IsForSameTrack] is
    defined in the header; the operations take it as a parameter. *)
Class SameTrack : Type :=
  IsForSameTrack :
    DescriptorTrackReservation -> DescriptorTrackReservation -> bool.

Definition option_Z_eqb (a b : option Z) : bool :=
  match a, b with
  | Some x, Some y => x =? y
  | None, None => true
  | _, _ => false
  end.

(** Modelled from the spec: [IsForSameTrack] "checks identical kind and
    identical defining identifiers (parent uuid, pid, tid, or
    counter-specific fields, as applicable -- NOT name, NOT timestamp)";
    the running total is mutable state and is not compared either. *)
Definition IsForSameTrack_spec (a b : DescriptorTrackReservation) : bool :=
  (parent_uuid a =? parent_uuid b)
  && option_Z_eqb (pid a) (pid b)
  && option_Z_eqb (tid a) (tid b)
  && Bool.eqb (is_counter a) (is_counter b)
  && StringId_eqb (category a) (category b)
  && (unit_multiplier a =? unit_multiplier b)
  && Bool.eqb (is_incremental a) (is_incremental b)
  && (packet_sequence_id a =? packet_sequence_id b).

(** Modelled from the spec: [kDefaultDescriptorTrackUuid] is a header
    constant; the comment at line 373 ("the global track with no uuid is the
    default global track") and the test [uuid] at line 376 fix it to 0. *)
Definition kDefaultDescriptorTrackUuid : Z := 0.

(** ** Storage: the track tables *)

(** The track tables share one id space: a row inserted into a child table
    is a row of the root [TrackTable] too.  A row records the table it was
    inserted into. *)
Inductive TrackTableKind : Type :=
  | TrackTable
  | CounterTrackTable
  | ThreadTrackTable
  | ThreadCounterTrackTable
  | ProcessTrackTable
  | ProcessCounterTrackTable.

Record TrackRow : Type := mkTrackRow {
  track_table : TrackTableKind;
  track_name : StringId;
  track_utid : option UniqueTid;
  track_upid : option UniquePid
}.

Definition set_track_name (n : StringId) (r : TrackRow) : TrackRow :=
  {| track_table := track_table r; track_name := n;
     track_utid := track_utid r; track_upid := track_upid r |}.

(** [Variadic] values stored by the args tracker. *)
Inductive Variadic : Type :=
  | VString (s : StringId)
  | VInteger (z : Z).

(** Interned keys and values of the constructor (lines 29-37). *)
Definition source_key_ : StringId := InternString "source".
Definition source_id_key_ : StringId := InternString "source_id".
Definition parent_track_id_key_ : StringId := InternString "parent_track_id".
Definition category_key_ : StringId := InternString "category".
Definition descriptor_source_ : StringId := InternString "descriptor".
Definition default_descriptor_track_name_ : StringId :=
  InternString "Default Track".

(** ** The process tracker (external collaborator, interface only) *)

Class ProcessTrackerOps (PT : Type) : Type := {
  UpdateThread : Z -> Z -> PT -> UniqueTid * PT;
  StartNewThread : Z -> PT -> UniqueTid * PT;
  GetOrCreateProcess : Z -> PT -> UniquePid * PT;
  StartNewProcess : Z -> PT -> UniquePid * PT
}.

(** ** Tracker state *)

Record State (PT : Type) : Type := mkState {
  reserved_descriptor_tracks_ : gmap Z DescriptorTrackReservation;
  resolved_descriptor_tracks_ : gmap Z TrackId;
  descriptor_uuids_by_utid_ : gmap nat Z;
  descriptor_uuids_by_upid_ : gmap nat Z;
  (* context_->storage *)
  tracks : list TrackRow;
  track_event_tokenizer_errors : nat;
  (* context_->track_tracker *)
  thread_tracks_ : gmap nat TrackId;
  process_tracks_ : gmap nat TrackId;
  (* context_->args_tracker *)
  args : list (TrackId * StringId * Variadic);
  (* context_->process_tracker *)
  process_tracker : PT
}.

Arguments mkState {PT}.
Arguments reserved_descriptor_tracks_ {PT}.
Arguments resolved_descriptor_tracks_ {PT}.
Arguments descriptor_uuids_by_utid_ {PT}.
Arguments descriptor_uuids_by_upid_ {PT}.
Arguments tracks {PT}.
Arguments track_event_tokenizer_errors {PT}.
Arguments thread_tracks_ {PT}.
Arguments process_tracks_ {PT}.
Arguments args {PT}.
Arguments process_tracker {PT}.

Section Setters.
Context {PT : Type}.
Implicit Types s : State PT.

Definition set_reserved (f : gmap Z DescriptorTrackReservation ->
                             gmap Z DescriptorTrackReservation) s :=
  mkState (f (reserved_descriptor_tracks_ s)) (resolved_descriptor_tracks_ s)
    (descriptor_uuids_by_utid_ s) (descriptor_uuids_by_upid_ s) (tracks s)
    (track_event_tokenizer_errors s) (thread_tracks_ s) (process_tracks_ s)
    (args s) (process_tracker s).

Definition set_resolved (f : gmap Z TrackId -> gmap Z TrackId) s :=
  mkState (reserved_descriptor_tracks_ s) (f (resolved_descriptor_tracks_ s))
    (descriptor_uuids_by_utid_ s) (descriptor_uuids_by_upid_ s) (tracks s)
    (track_event_tokenizer_errors s) (thread_tracks_ s) (process_tracks_ s)
    (args s) (process_tracker s).

Definition set_by_utid (f : gmap nat Z -> gmap nat Z) s :=
  mkState (reserved_descriptor_tracks_ s) (resolved_descriptor_tracks_ s)
    (f (descriptor_uuids_by_utid_ s)) (descriptor_uuids_by_upid_ s) (tracks s)
    (track_event_tokenizer_errors s) (thread_tracks_ s) (process_tracks_ s)
    (args s) (process_tracker s).

Definition set_by_upid (f : gmap nat Z -> gmap nat Z) s :=
  mkState (reserved_descriptor_tracks_ s) (resolved_descriptor_tracks_ s)
    (descriptor_uuids_by_utid_ s) (f (descriptor_uuids_by_upid_ s)) (tracks s)
    (track_event_tokenizer_errors s) (thread_tracks_ s) (process_tracks_ s)
    (args s) (process_tracker s).

Definition set_tracks (f : list TrackRow -> list TrackRow) s :=
  mkState (reserved_descriptor_tracks_ s) (resolved_descriptor_tracks_ s)
    (descriptor_uuids_by_utid_ s) (descriptor_uuids_by_upid_ s) (f (tracks s))
    (track_event_tokenizer_errors s) (thread_tracks_ s) (process_tracks_ s)
    (args s) (process_tracker s).

Definition set_errors (f : nat -> nat) s :=
  mkState (reserved_descriptor_tracks_ s) (resolved_descriptor_tracks_ s)
    (descriptor_uuids_by_utid_ s) (descriptor_uuids_by_upid_ s) (tracks s)
    (f (track_event_tokenizer_errors s)) (thread_tracks_ s)
    (process_tracks_ s) (args s) (process_tracker s).

Definition set_thread_tracks (f : gmap nat TrackId -> gmap nat TrackId) s :=
  mkState (reserved_descriptor_tracks_ s) (resolved_descriptor_tracks_ s)
    (descriptor_uuids_by_utid_ s) (descriptor_uuids_by_upid_ s) (tracks s)
    (track_event_tokenizer_errors s) (f (thread_tracks_ s))
    (process_tracks_ s) (args s) (process_tracker s).

Definition set_process_tracks (f : gmap nat TrackId -> gmap nat TrackId) s :=
  mkState (reserved_descriptor_tracks_ s) (resolved_descriptor_tracks_ s)
    (descriptor_uuids_by_utid_ s) (descriptor_uuids_by_upid_ s) (tracks s)
    (track_event_tokenizer_errors s) (thread_tracks_ s)
    (f (process_tracks_ s)) (args s) (process_tracker s).

Definition set_args (f : list (TrackId * StringId * Variadic) ->
                         list (TrackId * StringId * Variadic)) s :=
  mkState (reserved_descriptor_tracks_ s) (resolved_descriptor_tracks_ s)
    (descriptor_uuids_by_utid_ s) (descriptor_uuids_by_upid_ s) (tracks s)
    (track_event_tokenizer_errors s) (thread_tracks_ s) (process_tracks_ s)
    (f (args s)) (process_tracker s).

Definition set_process_tracker (pt : PT) s :=
  mkState (reserved_descriptor_tracks_ s) (resolved_descriptor_tracks_ s)
    (descriptor_uuids_by_utid_ s) (descriptor_uuids_by_upid_ s) (tracks s)
    (track_event_tokenizer_errors s) (thread_tracks_ s) (process_tracks_ s)
    (args s) pt.

(** The tracker right after construction, over a given process tracker. *)
Definition initial_state (pt : PT) : State PT :=
  mkState ∅ ∅ ∅ ∅ [] 0%nat ∅ ∅ [] pt.
End Setters.

(** ** Reservation Store (lines 39-159) *)

Section Reserve.
Context {PT : Type} {same : SameTrack}.
Implicit Types s : State PT.

(** [context_->storage->IncrementStats(stats::track_event_tokenizer_errors)] *)
Definition IncrementStats s : State PT := set_errors S s.

(** The candidate reservations built from the arguments (lines 43-46,
    75-80, 111-120, 141-143); fields that are not assigned keep the value
    of the default-constructed struct. *)
Definition process_track_reservation (name_ : StringId) (pid_ timestamp : Z)
    : DescriptorTrackReservation :=
  {| parent_uuid := parent_uuid default_reservation;
     pid := Some pid_;
     tid := tid default_reservation;
     min_timestamp := timestamp;
     name := name_;
     is_counter := is_counter default_reservation;
     category := category default_reservation;
     unit_multiplier := unit_multiplier default_reservation;
     is_incremental := is_incremental default_reservation;
     packet_sequence_id := packet_sequence_id default_reservation;
     latest_value := latest_value default_reservation |}.

Definition thread_track_reservation (parent_uuid_ : Z) (name_ : StringId)
    (pid_ tid_ timestamp : Z) : DescriptorTrackReservation :=
  {| parent_uuid := parent_uuid_;
     pid := Some pid_;
     tid := Some tid_;
     min_timestamp := timestamp;
     name := name_;
     is_counter := is_counter default_reservation;
     category := category default_reservation;
     unit_multiplier := unit_multiplier default_reservation;
     is_incremental := is_incremental default_reservation;
     packet_sequence_id := packet_sequence_id default_reservation;
     latest_value := latest_value default_reservation |}.

Definition counter_track_reservation (parent_uuid_ : Z)
    (name_ category_ : StringId) (unit_multiplier_ : Z)
    (is_incremental_ : bool) (packet_sequence_id_ : Z)
    : DescriptorTrackReservation :=
  {| parent_uuid := parent_uuid_;
     pid := pid default_reservation;
     tid := tid default_reservation;
     min_timestamp := min_timestamp default_reservation;
     name := name_;
     is_counter := true;
     category := category_;
     unit_multiplier := unit_multiplier_;
     is_incremental := is_incremental_;
     packet_sequence_id :=
       if is_incremental_ then packet_sequence_id_
       else packet_sequence_id default_reservation;
     latest_value := latest_value default_reservation |}.

Definition child_track_reservation (parent_uuid_ : Z) (name_ : StringId)
    : DescriptorTrackReservation :=
  {| parent_uuid := parent_uuid_;
     pid := pid default_reservation;
     tid := tid default_reservation;
     min_timestamp := min_timestamp default_reservation;
     name := name_;
     is_counter := is_counter default_reservation;
     category := category default_reservation;
     unit_multiplier := unit_multiplier default_reservation;
     is_incremental := is_incremental default_reservation;
     packet_sequence_id := packet_sequence_id default_reservation;
     latest_value := latest_value default_reservation |}.

Definition ReserveDescriptorProcessTrack
    (uuid : Z) (name_ : StringId) (pid_ : Z) (timestamp : Z) s : State PT :=
  let reservation := process_track_reservation name_ pid_ timestamp in
  match reserved_descriptor_tracks_ s !! uuid with
  | None => set_reserved (insert uuid reservation) s
  | Some it =>
      if negb (IsForSameTrack it reservation) then IncrementStats s
      else
        set_reserved
          (insert uuid
             (set_min_timestamp (Z.min (min_timestamp it) timestamp) it)) s
  end.

Definition ReserveDescriptorThreadTrack
    (uuid parent_uuid_ : Z) (name_ : StringId) (pid_ tid_ : Z)
    (timestamp : Z) s : State PT :=
  let reservation :=
    thread_track_reservation parent_uuid_ name_ pid_ tid_ timestamp in
  match reserved_descriptor_tracks_ s !! uuid with
  | None => set_reserved (insert uuid reservation) s
  | Some it =>
      if negb (IsForSameTrack it reservation) then IncrementStats s
      else
        set_reserved
          (insert uuid
             (set_min_timestamp (Z.min (min_timestamp it) timestamp) it)) s
  end.

Definition ReserveDescriptorCounterTrack
    (uuid parent_uuid_ : Z) (name_ category_ : StringId)
    (unit_multiplier_ : Z) (is_incremental_ : bool)
    (packet_sequence_id_ : Z) s : State PT :=
  let reservation :=
    counter_track_reservation parent_uuid_ name_ category_ unit_multiplier_
      is_incremental_ packet_sequence_id_ in
  match reserved_descriptor_tracks_ s !! uuid with
  | None => set_reserved (insert uuid reservation) s
  | Some it =>
      if IsForSameTrack it reservation then s else IncrementStats s
  end.

Definition ReserveDescriptorChildTrack
    (uuid parent_uuid_ : Z) (name_ : StringId) s : State PT :=
  let reservation := child_track_reservation parent_uuid_ name_ in
  match reserved_descriptor_tracks_ s !! uuid with
  | None => set_reserved (insert uuid reservation) s
  | Some it =>
      if IsForSameTrack it reservation then s else IncrementStats s
  end.

(** One declaration, as the tokenizer issues it: the four [Reserve...]
    entry points with their arguments. *)
Inductive Declaration : Type :=
  | DeclareProcessTrack (uuid : Z) (name_ : StringId) (pid_ timestamp : Z)
  | DeclareThreadTrack (uuid parent_uuid_ : Z) (name_ : StringId)
      (pid_ tid_ timestamp : Z)
  | DeclareCounterTrack (uuid parent_uuid_ : Z) (name_ category_ : StringId)
      (unit_multiplier_ : Z) (is_incremental_ : bool)
      (packet_sequence_id_ : Z)
  | DeclareChildTrack (uuid parent_uuid_ : Z) (name_ : StringId).

Definition declared_uuid (d : Declaration) : Z :=
  match d with
  | DeclareProcessTrack uuid _ _ _ => uuid
  | DeclareThreadTrack uuid _ _ _ _ _ => uuid
  | DeclareCounterTrack uuid _ _ _ _ _ _ => uuid
  | DeclareChildTrack uuid _ _ => uuid
  end.

Definition candidate (d : Declaration) : DescriptorTrackReservation :=
  match d with
  | DeclareProcessTrack _ n p t => process_track_reservation n p t
  | DeclareThreadTrack _ pu n p t ts => thread_track_reservation pu n p t ts
  | DeclareCounterTrack _ pu n c m i q =>
      counter_track_reservation pu n c m i q
  | DeclareChildTrack _ pu n => child_track_reservation pu n
  end.

(** The timestamp a declaration carries; counter and child-track
    declarations carry none. *)
Definition declared_timestamp (d : Declaration) : option Z :=
  match d with
  | DeclareProcessTrack _ _ _ t => Some t
  | DeclareThreadTrack _ _ _ _ _ t => Some t
  | DeclareCounterTrack _ _ _ _ _ _ _ => None
  | DeclareChildTrack _ _ _ => None
  end.

Definition Reserve (d : Declaration) s : State PT :=
  match d with
  | DeclareProcessTrack u n p t => ReserveDescriptorProcessTrack u n p t s
  | DeclareThreadTrack u pu n p t ts =>
      ReserveDescriptorThreadTrack u pu n p t ts s
  | DeclareCounterTrack u pu n c m i q =>
      ReserveDescriptorCounterTrack u pu n c m i q s
  | DeclareChildTrack u pu n => ReserveDescriptorChildTrack u pu n s
  end.

(** ** Counter Decoder (lines 419-473) *)

Definition ConvertToAbsoluteCounterValue
    (counter_track_uuid packet_sequence_id_ value : Z) s
    : option Z * State PT :=
  match reserved_descriptor_tracks_ s !! counter_track_uuid with
  | None => (None, s)
  | Some reservation =>
      if negb (is_counter reservation) then (None, s)
      else
        let value :=
          if 0 <? unit_multiplier reservation
          then wrap_int64 (value * unit_multiplier reservation)
          else value in
        if is_incremental reservation then
          if negb (packet_sequence_id reservation =? packet_sequence_id_)
          then (None, s)
          else
            let latest := wrap_int64 (latest_value reservation + value) in
            (Some latest,
             set_reserved
               (insert counter_track_uuid
                  (set_latest_value latest reservation)) s)
        else (Some value, s)
  end.

Definition OnIncrementalStateCleared (packet_sequence_id_ : Z) s
    : State PT :=
  set_reserved
    (fmap (fun reservation =>
       if negb (is_counter reservation)
          || negb (is_incremental reservation)
          || negb (packet_sequence_id reservation =? packet_sequence_id_)
       then reservation
       else set_latest_value 0 reservation)) s.
End Reserve.

(** ** State-and-error monad *)

(** How a run can stop without a result: the fuel of the model ran out, a
    [PERFETTO_CHECK] or a [PERFETTO_DCHECK] failed (tagged with its source
    line), or an empty [base::Optional] was dereferenced. *)
Inductive Error : Type :=
  | OutOfFuel
  | CheckFailed (line : nat)
  | NulloptDeref.

Inductive Result (A : Type) : Type :=
  | Ok (a : A)
  | Err (e : Error).
Arguments Ok {A} a.
Arguments Err {A} e.

(** [PERFETTO_DCHECK_IS_ON()]: whether the build compiles the debug checks
    in.  The macro belongs to perfetto's base library, not to the source
    file; the build is a parameter of the model. *)
Class BuildConfig : Type := PERFETTO_DCHECK_IS_ON : bool.

Definition debug_build : BuildConfig := true.
Definition release_build : BuildConfig := false.

Section Monad.
Context {PT : Type}.

Definition M (A : Type) : Type := State PT -> Result (A * State PT).

Definition ret {A} (a : A) : M A := fun s => Ok (a, s).

Definition bind {A B} (m : M A) (k : A -> M B) : M B :=
  fun s => match m s with
           | Ok (a, s') => k a s'
           | Err e => Err e
           end.

Definition fail {A} (e : Error) : M A := fun _ => Err e.

Definition gets {A} (f : State PT -> A) : M A := fun s => Ok (f s, s).

Definition modify (f : State PT -> State PT) : M unit :=
  fun s => Ok (tt, f s).

(** [*opt] *)
Definition deref {A} (o : option A) : M A :=
  match o with Some a => ret a | None => fail NulloptDeref end.

(** [PERFETTO_CHECK(b)] at source line [line] *)
Definition PERFETTO_CHECK (line : nat) (b : bool) : M unit :=
  if b then ret tt else fail (CheckFailed line).

(** [PERFETTO_DCHECK(b)] at source line [line]: a [PERFETTO_CHECK] in a
    build with debug checks, nothing otherwise. *)
Definition PERFETTO_DCHECK {build : BuildConfig} (line : nat) (b : bool)
    : M unit :=
  if PERFETTO_DCHECK_IS_ON then PERFETTO_CHECK line b else ret tt.

(** A call into the process tracker. *)
Definition call_process_tracker {A} (f : PT -> A * PT) : M A :=
  fun s => let '(a, pt) := f (process_tracker s) in
           Ok (a, set_process_tracker pt s).
End Monad.

Notation "'let*' x ':=' m 'in' k" := (bind m (fun x => k))
  (at level 10, x name, m at level 100, k at level 200, only parsing).

(** ** Storage and track-tracker primitives *)

Section Storage.
Context {PT : Type}.

Definition TrackTableKind_eqb (a b : TrackTableKind) : bool :=
  match a, b with
  | TrackTable, TrackTable
  | CounterTrackTable, CounterTrackTable
  | ThreadTrackTable, ThreadTrackTable
  | ThreadCounterTrackTable, ThreadCounterTrackTable
  | ProcessTrackTable, ProcessTrackTable
  | ProcessCounterTrackTable, ProcessCounterTrackTable => true
  | _, _ => false
  end.

(** [table->Insert(row).id]: the new row gets the next id. *)
Definition Insert (row : TrackRow) : M (PT:=PT) TrackId :=
  fun s => Ok (length (tracks s), set_tracks (fun l => l ++ [row]) s).

(** [tracks->id().IndexOf(id)] on the root track table. *)
Definition IndexOf (id : TrackId) : M (PT:=PT) (option nat) :=
  gets (fun s => if (id <? length (tracks s))%nat then Some id else None).

(** [table->id().IndexOf(id)] on one of the child tables: the row, when
    the id is a row of that table. *)
Definition IndexOfIn (k : TrackTableKind) (id : TrackId)
    : M (PT:=PT) (option nat) :=
  gets (fun s => match tracks s !! id with
                 | Some r =>
                     if TrackTableKind_eqb (track_table r) k
                     then Some id else None
                 | None => None
                 end).

(** [tracks->name()[row]] *)
Definition name_at (row : nat) : M (PT:=PT) StringId :=
  gets (fun s => match tracks s !! row with
                 | Some r => track_name r
                 | None => kNullStringId
                 end).

(** [thread_tracks->utid()[row]], [process_tracks->upid()[row]] *)
Definition utid_at (row : nat) : M (PT:=PT) (option UniqueTid) :=
  gets (fun s => r ← tracks s !! row; track_utid r).
Definition upid_at (row : nat) : M (PT:=PT) (option UniquePid) :=
  gets (fun s => r ← tracks s !! row; track_upid r).

(** [tracks->mutable_name()->Set(row, name)] *)
Definition SetName (row : nat) (n : StringId) : M (PT:=PT) unit :=
  modify (set_tracks (alter (set_track_name n) row)).

(** [args_tracker->AddArgsTo(track_id).AddArg(key, value)] *)
Definition AddArg (track_id : TrackId) (key : StringId) (v : Variadic)
    : M (PT:=PT) unit :=
  modify (set_args (fun l => l ++ [(track_id, key, v)])).

(** Modelled from the spec: [TrackTracker::InternThreadTrack] and
    [InternProcessTrack] belong to the track tracker, which is not part of
    the source file: "create (or reuse, if already created for that
    identity+kind) a thread track" and likewise for processes. *)
Definition InternThreadTrack (utid : UniqueTid) : M (PT:=PT) TrackId :=
  let* it := gets (fun s => thread_tracks_ s !! utid) in
  match it with
  | Some id => ret id
  | None =>
      let* id := Insert {| track_table := ThreadTrackTable;
                      track_name := kNullStringId;
                      track_utid := Some utid; track_upid := None |} in
      let* _ := modify (set_thread_tracks (insert utid id)) in
      ret id
  end.

Definition InternProcessTrack (upid : UniquePid) : M (PT:=PT) TrackId :=
  let* it := gets (fun s => process_tracks_ s !! upid) in
  match it with
  | Some id => ret id
  | None =>
      let* id := Insert {| track_table := ProcessTrackTable;
                      track_name := kNullStringId;
                      track_utid := None; track_upid := Some upid |} in
      let* _ := modify (set_process_tracks (insert upid id)) in
      ret id
  end.
End Storage.

(** ** Resolution Engine (lines 161-417) *)

Section Resolve.
Context {PT : Type} {ops : ProcessTrackerOps PT} {same : SameTrack}
        {build : BuildConfig}.

Abbreviation M := (M (PT:=PT)).

Definition kMaxAncestors : nat := 10.

(** [std::find(v.begin(), v.end(), x) != v.end()] *)
Definition std_find (v : list Z) (x : Z) : bool := existsb (Z.eqb x) v.

(** The lambda [set_track_name_and_return] (lines 208-218). *)
Definition set_track_name_and_return
    (reservation : DescriptorTrackReservation) (track_id : TrackId)
    : M TrackId :=
  if is_null (name reservation) then ret track_id
  else
    let* idx := IndexOf track_id in
    let* row := deref idx in
    let* _ := SetName row (name reservation) in
    ret track_id.

(** Lines 260-289: the reservation carries a tid.  The log statements
    ([PERFETTO_DLOG]) leave no trace in the state. *)
Definition ResolveThreadTrack (uuid : Z)
    (reservation : DescriptorTrackReservation) (tid_ : Z) : M TrackId :=
  let* pid_ := deref (pid reservation) in
  let* utid := call_process_tracker (UpdateThread tid_ pid_) in
  let* it := gets (fun s => descriptor_uuids_by_utid_ s !! utid) in
  let* utid := match it with
          | None =>
              let* _ := modify (set_by_utid (insert utid uuid)) in
              ret utid
          | Some old_uuid =>
              let* _ := PERFETTO_DCHECK 270 (negb (old_uuid =? uuid)) in
              let* utid := call_process_tracker (StartNewThread tid_) in
              let* utid' := call_process_tracker (UpdateThread tid_ pid_) in
              let* _ := PERFETTO_CHECK 282 (utid' =? utid)%nat in
              let* _ := modify (set_by_utid (insert utid uuid)) in
              ret utid
          end in
  let* track_id := InternThreadTrack utid in
  set_track_name_and_return reservation track_id.

(** Lines 291-316: the reservation carries a pid and no tid. *)
Definition ResolveProcessTrack (uuid : Z)
    (reservation : DescriptorTrackReservation) (pid_ : Z) : M TrackId :=
  let* upid := call_process_tracker (GetOrCreateProcess pid_) in
  let* it := gets (fun s => descriptor_uuids_by_upid_ s !! upid) in
  let* upid := match it with
          | None =>
              let* _ := modify (set_by_upid (insert upid uuid)) in
              ret upid
          | Some old_uuid =>
              let* _ := PERFETTO_DCHECK 301 (negb (old_uuid =? uuid)) in
              let* upid := call_process_tracker (StartNewProcess pid_) in
              let* _ := modify (set_by_upid (insert upid uuid)) in
              ret upid
          end in
  let* track_id := InternProcessTrack upid in
  set_track_name_and_return reservation track_id.

(** Lines 318-359: placement under a resolved parent. *)
Definition ResolveUnderParent (reservation : DescriptorTrackReservation)
    (parent_track_id : option TrackId) : M (option TrackId) :=
  match parent_track_id with
  | None => ret None
  | Some parent =>
      let* thread_track_index := IndexOfIn ThreadTrackTable parent in
      match thread_track_index with
      | Some idx =>
          let* utid := utid_at idx in
          let* id := Insert {| track_table :=
                            if is_counter reservation
                            then ThreadCounterTrackTable
                            else ThreadTrackTable;
                          track_name := kNullStringId;
                          track_utid := utid; track_upid := None |} in
          ret (Some id)
      | None =>
          let* process_track_index := IndexOfIn ProcessTrackTable parent in
          match process_track_index with
          | Some idx =>
              let* upid := upid_at idx in
              let* id := Insert {| track_table :=
                                if is_counter reservation
                                then ProcessCounterTrackTable
                                else ProcessTrackTable;
                              track_name := kNullStringId;
                              track_utid := None; track_upid := upid |} in
              ret (Some id)
          | None => ret None
          end
      end
  end.

(** Lines 363-372: a new global (counter) track. *)
Definition InsertGlobalTrack (reservation : DescriptorTrackReservation)
    : M TrackId :=
  Insert {| track_table :=
              if is_counter reservation then CounterTrackTable
              else TrackTable;
            track_name := kNullStringId;
            track_utid := None; track_upid := None |}.

(** Lines 392-402: provenance arguments, then the reservation's name. *)
Definition AddArgsAndName (uuid : Z)
    (reservation : DescriptorTrackReservation)
    (track_id : TrackId) (parent_track_id : option TrackId) : M TrackId :=
  let* _ := AddArg track_id source_key_ (VString descriptor_source_) in
  let* _ := AddArg track_id source_id_key_
              (VInteger (static_cast_int64 uuid)) in
  let* _ := match parent_track_id with
            | Some p =>
                AddArg track_id parent_track_id_key_
                  (VInteger (Z.of_nat p))
            | None => ret tt
            end in
  let* _ := (if negb (StringId_eqb (category reservation) kNullStringId)
             then AddArg track_id category_key_
                    (VString (category reservation))
             else ret tt) in
  set_track_name_and_return reservation track_id.

(** The four member functions that call one another.  Each body takes the
    functions it calls as arguments; the fixpoint below ties the knot.
    [descendent_uuids] is the vector of line 189, [None] for [nullptr].
    Every [push_back] of line 233 is undone by the [pop_back] of line 255
    before the callee returns, so a callee receives the extended vector and
    the caller goes on with its own. *)

(** [GetDescriptorTrackImpl] (lines 187-202) *)
Definition GetDescriptorTrackImpl_body
    (ResolveDescriptorTrack :
       Z -> DescriptorTrackReservation -> option (list Z) -> M TrackId)
    (uuid : Z) (descendent_uuids : option (list Z)) : M (option TrackId) :=
  let* it := gets (fun s => resolved_descriptor_tracks_ s !! uuid) in
  match it with
  | Some track_id => ret (Some track_id)
  | None =>
      let* reservation_it :=
        gets (fun s => reserved_descriptor_tracks_ s !! uuid) in
      match reservation_it with
      | None => ret None
      | Some reservation =>
          let* track_id :=
            ResolveDescriptorTrack uuid reservation descendent_uuids in
          let* _ := modify (set_resolved (insert uuid track_id)) in
          ret (Some track_id)
      end
  end.

(** Lines 223-258: the parent chain. *)
Definition ResolveParent
    (GetDescriptorTrackImpl : Z -> option (list Z) -> M (option TrackId))
    (uuid : Z) (reservation : DescriptorTrackReservation)
    (descendent_uuids : option (list Z)) : M (option TrackId) :=
  if parent_uuid reservation =? 0 then ret None
  else
    let pushed := default [] descendent_uuids ++ [uuid] in
    if (kMaxAncestors <? length pushed)%nat then ret None
    else if std_find pushed (parent_uuid reservation) then ret None
    else GetDescriptorTrackImpl (parent_uuid reservation) (Some pushed).

(** Lines 373-389: a global track that is not the default track becomes a
    child of the default track. *)
Definition ResolveDefaultParent
    (GetOrCreateDefaultDescriptorTrack : M TrackId)
    (uuid : Z) (descendent_uuids : option (list Z))
    (parent_track_id : option TrackId) : M (option TrackId) :=
  if negb (bool_decide (is_Some parent_track_id)) && negb (uuid =? 0)
  then
    if match descendent_uuids with
       | Some v => std_find v kDefaultDescriptorTrackUuid
       | None => false
       end
    then ret parent_track_id
    else
      let* d := GetOrCreateDefaultDescriptorTrack in
      ret (Some d)
  else ret parent_track_id.

(** [ResolveDescriptorTrack] (lines 204-403) *)
Definition ResolveDescriptorTrack_body
    (GetDescriptorTrackImpl : Z -> option (list Z) -> M (option TrackId))
    (GetOrCreateDefaultDescriptorTrack : M TrackId)
    (uuid : Z) (reservation : DescriptorTrackReservation)
    (descendent_uuids : option (list Z)) : M TrackId :=
  let* parent_track_id :=
    ResolveParent GetDescriptorTrackImpl uuid reservation descendent_uuids in
  match tid reservation with
  | Some tid_ => ResolveThreadTrack uuid reservation tid_
  | None =>
  match pid reservation with
  | Some pid_ => ResolveProcessTrack uuid reservation pid_
  | None =>
      let* track_id := ResolveUnderParent reservation parent_track_id in
      match track_id with
      | Some track_id =>
          AddArgsAndName uuid reservation track_id parent_track_id
      | None =>
          let* track_id := InsertGlobalTrack reservation in
          let* parent_track_id :=
            ResolveDefaultParent GetOrCreateDefaultDescriptorTrack uuid
              descendent_uuids parent_track_id in
          AddArgsAndName uuid reservation track_id parent_track_id
      end
  end
  end.

(** [GetOrCreateDefaultDescriptorTrack] (lines 405-417) *)
Definition GetOrCreateDefaultDescriptorTrack_body
    (GetDescriptorTrack : Z -> StringId -> M (option TrackId)) : M TrackId :=
  let* track_id :=
    GetDescriptorTrack kDefaultDescriptorTrackUuid kNullStringId in
  match track_id with
  | Some track_id => ret track_id
  | None =>
      let* _ := modify (ReserveDescriptorChildTrack
                          kDefaultDescriptorTrackUuid 0
                          default_descriptor_track_name_) in
      let* track_id :=
        GetDescriptorTrack kDefaultDescriptorTrackUuid kNullStringId in
      deref track_id
  end.

(** Lines 168-184: the name of an unnamed track is taken from the event,
    unless the track is a primary process/thread track or a counter. *)
Definition UpdateTrackName (uuid : Z) (event_name : StringId)
    (track_id : TrackId) : M (option TrackId) :=
  let* idx := IndexOf track_id in
  let* row := deref idx in
  let* nm := name_at row in
  if negb (is_null nm) then ret (Some track_id)
  else
    let* reservation_it :=
      gets (fun s => reserved_descriptor_tracks_ s !! uuid) in
    match reservation_it with
    | None => fail (CheckFailed 177)
    | Some reservation =>
        if bool_decide (is_Some (pid reservation))
           || bool_decide (is_Some (tid reservation))
           || is_counter reservation
        then ret (Some track_id)
        else
          let* _ := SetName row event_name in
          ret (Some track_id)
    end.

(** [GetDescriptorTrack] (lines 161-185) *)
Definition GetDescriptorTrack_body
    (GetDescriptorTrackImpl : Z -> option (list Z) -> M (option TrackId))
    (uuid : Z) (event_name : StringId) : M (option TrackId) :=
  let* track_id := GetDescriptorTrackImpl uuid None in
  match track_id with
  | None => ret None
  | Some id =>
      if is_null event_name then ret (Some id)
      else UpdateTrackName uuid event_name id
  end.

(** The knot: [fuel] bounds the nesting depth of the calls. *)
Fixpoint GetDescriptorTrackImpl (fuel : nat) {struct fuel}
    : Z -> option (list Z) -> M (option TrackId) :=
  match fuel with
  | O => fun _ _ => fail OutOfFuel
  | S fuel => GetDescriptorTrackImpl_body (ResolveDescriptorTrack fuel)
  end

with ResolveDescriptorTrack (fuel : nat) {struct fuel}
    : Z -> DescriptorTrackReservation -> option (list Z) -> M TrackId :=
  match fuel with
  | O => fun _ _ _ => fail OutOfFuel
  | S fuel =>
      ResolveDescriptorTrack_body (GetDescriptorTrackImpl fuel)
        (GetOrCreateDefaultDescriptorTrack fuel)
  end

with GetOrCreateDefaultDescriptorTrack (fuel : nat) {struct fuel}
    : M TrackId :=
  match fuel with
  | O => fail OutOfFuel
  | S fuel => GetOrCreateDefaultDescriptorTrack_body (GetDescriptorTrack fuel)
  end

with GetDescriptorTrack (fuel : nat) {struct fuel}
    : Z -> StringId -> M (option TrackId) :=
  match fuel with
  | O => fun _ _ => fail OutOfFuel
  | S fuel => GetDescriptorTrack_body (GetDescriptorTrackImpl fuel)
  end.

(** Fuel that always suffices (see [enough_fuel_GetDescriptorTrack]). *)
Definition enough_fuel : nat := 47.
End Resolve.

(** ** A reference process tracker

    The theorems below hold for every implementation of
    [ProcessTrackerOps].  The concrete scenarios are run over this one:
    utids and upids are positions in two append-only tables, a thread row
    holds its tid and the upid it is associated with, if any. *)

Record SimpleProcessTracker : Type := mkSimplePT {
  pt_threads : list (Z * option UniquePid);
  pt_processes : list Z
}.

(** Position of the last element that satisfies [p]. *)
Fixpoint find_last {A} (p : A -> bool) (l : list A) (i : nat) : option nat :=
  match l with
  | [] => None
  | x :: l' =>
      match find_last p l' (S i) with
      | Some j => Some j
      | None => if p x then Some i else None
      end
  end.

Definition simple_GetOrCreateProcess (pid_ : Z) (pt : SimpleProcessTracker)
    : UniquePid * SimpleProcessTracker :=
  match find_last (Z.eqb pid_) (pt_processes pt) 0%nat with
  | Some upid => (upid, pt)
  | None =>
      (length (pt_processes pt),
       mkSimplePT (pt_threads pt) (pt_processes pt ++ [pid_]))
  end.

Definition simple_StartNewProcess (pid_ : Z) (pt : SimpleProcessTracker)
    : UniquePid * SimpleProcessTracker :=
  (length (pt_processes pt),
   mkSimplePT (pt_threads pt) (pt_processes pt ++ [pid_])).

Definition simple_StartNewThread (tid_ : Z) (pt : SimpleProcessTracker)
    : UniqueTid * SimpleProcessTracker :=
  (length (pt_threads pt),
   mkSimplePT (pt_threads pt ++ [(tid_, None)]) (pt_processes pt)).

Definition simple_UpdateThread (tid_ pid_ : Z) (pt : SimpleProcessTracker)
    : UniqueTid * SimpleProcessTracker :=
  let '(upid, pt) := simple_GetOrCreateProcess pid_ pt in
  match find_last
          (fun t => (fst t =? tid_)
                    && match snd t with
                       | Some u => (u =? upid)%nat
                       | None => true
                       end)
          (pt_threads pt) 0%nat with
  | Some utid =>
      (utid,
       mkSimplePT (<[utid := (tid_, Some upid)]> (pt_threads pt))
         (pt_processes pt))
  | None =>
      (length (pt_threads pt),
       mkSimplePT (pt_threads pt ++ [(tid_, Some upid)]) (pt_processes pt))
  end.

#[export] Instance simple_process_tracker
    : ProcessTrackerOps SimpleProcessTracker :=
  {| UpdateThread := simple_UpdateThread;
     StartNewThread := simple_StartNewThread;
     GetOrCreateProcess := simple_GetOrCreateProcess;
     StartNewProcess := simple_StartNewProcess |}.

Definition empty_process_tracker : SimpleProcessTracker := mkSimplePT [] [].

(** The tracker of the concrete scenarios: freshly constructed, with the
    same-track predicate of the specification. *)
Definition fresh_tracker : State SimpleProcessTracker :=
  initial_state empty_process_tracker.

(** ** Concrete scenarios *)

(** The same-track predicate of the specification, as the parameter of the
    concrete scenarios. *)
Definition spec_same_track : SameTrack := IsForSameTrack_spec.

(** A run of declarations, in order, on the reference tracker. *)
Definition declare (ds : list Declaration)
    (s : State SimpleProcessTracker) : State SimpleProcessTracker :=
  fold_left (fun s d => Reserve (same:=spec_same_track) d s) ds s.

(** Two child tracks whose parents form the cycle 1 -> 2 -> 1. *)
Definition cycle_tracker : State SimpleProcessTracker :=
  declare [DeclareChildTrack 1 2 kNullStringId;
           DeclareChildTrack 2 1 kNullStringId] fresh_tracker.



(** A global track declared with uuid 99. *)
Definition global_tracker : State SimpleProcessTracker :=
  declare [DeclareChildTrack 99 0 kNullStringId] fresh_tracker.

(** A process track, then a thread track declared under the same uuid. *)
Definition process_tracker_state : State SimpleProcessTracker :=
  declare [DeclareProcessTrack 1 kNullStringId 10 100] fresh_tracker.

Definition thread_redeclaration : Declaration :=
  DeclareThreadTrack 1 2 kNullStringId 10 11 50.

(** The state a run of the resolution engine leaves behind ([s] itself if
    the run stopped with an error). *)
Definition state_after {PT A} (r : Result (A * State PT)) (s : State PT)
    : State PT :=
  match r with
  | Ok (_, s') => s'
  | Err _ => s
  end.

(** The cycle scenario after track 1 was resolved. *)
Definition cycle_resolved : State SimpleProcessTracker :=
  state_after
    (GetDescriptorTrack (same:=spec_same_track)
       (build:=debug_build) enough_fuel 1 kNullStringId
       cycle_tracker)
    cycle_tracker.

(** The producer declares the default track's uuid itself, under parent 5;
    tracks 5 and 99 are declared without parent. *)
Definition declared_default_tracker : State SimpleProcessTracker :=
  declare [DeclareChildTrack 0 5 kNullStringId;
           DeclareChildTrack 5 0 kNullStringId;
           DeclareChildTrack 99 0 kNullStringId] fresh_tracker.

(** That scenario after track 99 was resolved. *)
Definition declared_default_resolved : State SimpleProcessTracker :=
  state_after
    (GetDescriptorTrack (same:=spec_same_track) (build:=debug_build)
       enough_fuel 99 kNullStringId declared_default_tracker)
    declared_default_tracker.



(** A thread track 7 under parent 8, with the default track's uuid declared
    under parent 7. *)
Definition thread_under_default_tracker : State SimpleProcessTracker :=
  declare [DeclareThreadTrack 7 8 kNullStringId 10 11 100;
           DeclareChildTrack 8 0 kNullStringId;
           DeclareChildTrack 0 7 kNullStringId] fresh_tracker.

(** ** Predicates on runs and states *)

Section Predicates.
Context {PT : Type}.
Implicit Types s : State PT.

(** A computation that never stops with the error [e]. *)
Definition never {A} (e : Error) (m : M (PT:=PT) A) : Prop :=
  forall s, m s <> Err e.

(** A computation that never stops for lack of fuel. *)
Definition noOOF {A} (m : M (PT:=PT) A) : Prop := never OutOfFuel m.

(** [m2] agrees with [m1] wherever [m1] did not run out of fuel. *)
Definition fuel_le {A} (m1 m2 : M (PT:=PT) A) : Prop :=
  forall s, m1 s <> Err OutOfFuel -> m2 s = m1 s.

Definition map_state {A} (f : State PT -> State PT)
    (r : Result (A * State PT)) : Result (A * State PT) :=
  match r with
  | Ok (a, s) => Ok (a, f s)
  | Err e => Err e
  end.

(** [m] does not observe the change [f] makes to the state. *)
Definition commutes {A} (f : State PT -> State PT) (m : M (PT:=PT) A)
    : Prop :=
  forall s, m (f s) = map_state f (m s).

(** Every memoized uuid has a reservation. *)
Definition resolved_are_reserved s : Prop :=
  forall uuid t,
    resolved_descriptor_tracks_ s !! uuid = Some t ->
    is_Some (reserved_descriptor_tracks_ s !! uuid).

(** Every stored track id is a row of the track table: the memoized rows,
    the rows of the track tracker, and the rows that carry arguments. *)
Definition ids_valid s : Prop :=
  (forall uuid t, resolved_descriptor_tracks_ s !! uuid = Some t ->
                  (t < length (tracks s))%nat)
  /\ (forall k t, thread_tracks_ s !! k = Some t ->
                  (t < length (tracks s))%nat)
  /\ (forall k t, process_tracks_ s !! k = Some t ->
                  (t < length (tracks s))%nat)
  /\ (forall t key v, In (t, key, v) (args s) ->
                      (t < length (tracks s))%nat).

Definition well_formed s : Prop := resolved_are_reserved s /\ ids_valid s.

(** What every successful step guarantees: reservations are kept, the track
    table only grows, and the two invariants are kept. *)
Definition extends s s' : Prop :=
  reserved_descriptor_tracks_ s ⊆ reserved_descriptor_tracks_ s'
  /\ (length (tracks s) <= length (tracks s'))%nat
  /\ (resolved_are_reserved s -> resolved_are_reserved s')
  /\ (ids_valid s -> ids_valid s').

Definition valid_id (t : TrackId) s : Prop := (t < length (tracks s))%nat.
Definition valid_opt (o : option TrackId) s : Prop :=
  forall t, o = Some t -> (t < length (tracks s))%nat.

(** A successful run of [m] extends the state, and from a state with valid
    ids its result satisfies [V]. *)
Definition run_ok {A} (V : A -> State PT -> Prop) (m : M (PT:=PT) A) : Prop :=
  forall s a s', m s = Ok (a, s') ->
    extends s s' /\ (ids_valid s -> V a s').

(** The row arguments attached to a track. *)
Definition has_arg s (t : TrackId) (key : StringId) (v : Variadic) : Prop :=
  In (t, key, v) (args s).

Definition has_parent s (t p : TrackId) : Prop :=
  has_arg s t parent_track_id_key_ (VInteger (Z.of_nat p)).

Definition has_no_parent s (t : TrackId) : Prop :=
  forall v, ~ has_arg s t parent_track_id_key_ v.

(** Number of uuids on the current recursive path. *)
Definition depth (descendent_uuids : option (list Z)) : nat :=
  length (default [] descendent_uuids).

(** The situations in which line 387 is not reached: the track is the
    default track itself, or the default track is on the recursive path. *)
Definition default_excluded (uuid : Z) (descendent_uuids : option (list Z))
    : Prop :=
  uuid = 0
  \/ match descendent_uuids with
     | Some v => existsb (Z.eqb kDefaultDescriptorTrackUuid) v = true
     | None => False
     end.
End Predicates.

(** ** The outcome of resolving a track without OS identifiers *)

Section Outcome.
Context {PT : Type}.
Implicit Types s : State PT.

(** The row of a new global (counter) track (lines 363-372). *)
Definition global_row (r : DescriptorTrackReservation) : TrackRow :=
  {| track_table := if is_counter r then CounterTrackTable else TrackTable;
     track_name := kNullStringId;
     track_utid := None; track_upid := None |}.

Definition add_arg (t : TrackId) (key : StringId) (v : Variadic) s
    : State PT :=
  set_args (fun l => l ++ [(t, key, v)]) s.

(** The state after lines 392-402 for the row [t] with resolved parent
    [p]. *)
Definition with_provenance (uuid : Z) (r : DescriptorTrackReservation)
    (t : TrackId) (p : option TrackId) s : State PT :=
  let s := add_arg t source_key_ (VString descriptor_source_) s in
  let s := add_arg t source_id_key_ (VInteger (static_cast_int64 uuid)) s in
  let s := match p with
           | Some p => add_arg t parent_track_id_key_ (VInteger (Z.of_nat p)) s
           | None => s
           end in
  let s := if negb (StringId_eqb (category r) kNullStringId)
           then add_arg t category_key_ (VString (category r)) s
           else s in
  if is_null (name r) then s
  else set_tracks (alter (set_track_name (name r)) t) s.

(** The state after a track without OS identifiers was placed as a global
    track, given arguments and a name, and memoized. *)
Definition resolved_as_global (uuid : Z) (r : DescriptorTrackReservation)
    (p : option TrackId) (s_row s : State PT) : State PT :=
  set_resolved (insert uuid (length (tracks s_row)))
    (with_provenance uuid r (length (tracks s_row)) p s).

(** The row [p] is neither a thread track nor a process track. *)
Definition not_thread_or_process s (p : TrackId) : Prop :=
  forall row, tracks s !! p = Some row ->
    track_table row = TrackTable \/ track_table row = CounterTrackTable.

(** The reservation of the lazily created default track (line 414). *)
Definition default_track_reservation : DescriptorTrackReservation :=
  child_track_reservation 0 default_descriptor_track_name_.

(** The state after the default track was lazily created (lines 413-416). *)
Definition with_default_track s : State PT :=
  let s1 := set_reserved
              (insert kDefaultDescriptorTrackUuid default_track_reservation)
              s in
  let s2 := set_tracks (fun l => l ++ [global_row default_track_reservation])
              s1 in
  set_resolved (insert kDefaultDescriptorTrackUuid (length (tracks s)))
    (with_provenance kDefaultDescriptorTrackUuid default_track_reservation
       (length (tracks s)) None s2).
End Outcome.

(** ** Parent chains *)

Section Chains.
Context {PT : Type} {ops : ProcessTrackerOps PT} {same : SameTrack}
        {build : BuildConfig}.
Implicit Types s : State PT.

(** The default track was never declared, or it is resolved already. *)
Definition default_ready s : Prop :=
  reserved_descriptor_tracks_ s !! kDefaultDescriptorTrackUuid = None
  \/ is_Some (resolved_descriptor_tracks_ s !! kDefaultDescriptorTrackUuid).

(** The default track's row, and the state once it exists. *)
Definition ensure_default s : TrackId * State PT :=
  match resolved_descriptor_tracks_ s !! kDefaultDescriptorTrackUuid with
  | Some d => (d, s)
  | None => (length (tracks s), with_default_track s)
  end.

(** A declared, not yet resolved track without OS identifiers. *)
Definition plain_track s (uuid : Z) (r : DescriptorTrackReservation)
    : Prop :=
  reserved_descriptor_tracks_ s !! uuid = Some r
  /\ resolved_descriptor_tracks_ s !! uuid = None
  /\ pid r = None /\ tid r = None
  /\ uuid <> kDefaultDescriptorTrackUuid.

Definition is_global_row s (t : TrackId) : Prop :=
  exists row, tracks s !! t = Some row
              /\ (track_table row = TrackTable
                  \/ track_table row = CounterTrackTable).


(** A path that resolution follows from [chain]'s first track, reached with
    the descendant vector [desc], up to its last track, where the parent is
    not resolved (no parent, depth bound or loop) and the default track is
    not on the path. *)
Fixpoint chain_ok s (desc : option (list Z))
    (chain : list (Z * DescriptorTrackReservation)) : Prop :=
  match chain with
  | [] => False
  | (u, r) :: rest =>
      plain_track s u r
      /\ match rest with
         | [] =>
             (forall impl : Z -> option (list Z) -> M (PT:=PT) (option TrackId),
                ResolveParent impl u r desc s = Ok (None, s))
             /\ ~ default_excluded u desc
         | (v, _) :: _ =>
             parent_uuid r = v /\ v <> 0
             /\ (depth desc < kMaxAncestors)%nat
             /\ std_find (default [] desc ++ [u]) v = false
             /\ chain_ok s (Some (default [] desc ++ [u])) rest
         end
  end.

(** The outcome for such a path: every track is memoized as a global row
    whose parent argument is the row of the next track; the last track is
    placed as if no parent were given, under the default track. *)
Fixpoint chain_resolved s (chain : list (Z * DescriptorTrackReservation))
    (t : TrackId) : Prop :=
  match chain with
  | [] => False
  | (u, _) :: rest =>
      resolved_descriptor_tracks_ s !! u = Some t
      /\ is_global_row s t
      /\ match rest with
         | [] =>
             exists d,
               resolved_descriptor_tracks_ s !! kDefaultDescriptorTrackUuid
               = Some d
               /\ has_parent s t d
         | _ :: _ => exists p, has_parent s t p /\ chain_resolved s rest p
         end
  end.
End Chains.

(** ** Sample streams for the counter decoder *)

Section Samples.
Context {PT : Type}.
Implicit Types s : State PT.

(** The contribution of a raw sample, lines 437-438: scaled by the unit
    multiplier when that is positive. *)
Definition scaled_value (reservation : DescriptorTrackReservation)
    (value : Z) : Z :=
  if 0 <? unit_multiplier reservation
  then wrap_int64 (value * unit_multiplier reservation)
  else value.

(** [ConvertToAbsoluteCounterValue] called once per sample, in order. *)
Fixpoint ConvertAll (counter_track_uuid packet_sequence_id_ : Z)
    (values : list Z) s : list (option Z) * State PT :=
  match values with
  | [] => ([], s)
  | value :: values =>
      let (r, s1) :=
        ConvertToAbsoluteCounterValue counter_track_uuid
          packet_sequence_id_ value s in
      let (rs, s2) :=
        ConvertAll counter_track_uuid packet_sequence_id_ values s1 in
      (r :: rs, s2)
  end.

Definition sum_Z (l : list Z) : Z := foldr Z.add 0 l.

(** The reservations that [OnIncrementalStateCleared] resets. *)
Definition cleared_by (packet_sequence_id_ : Z)
    (reservation : DescriptorTrackReservation) : bool :=
  is_counter reservation && is_incremental reservation
  && (packet_sequence_id reservation =? packet_sequence_id_).
End Samples.

(** The running totals of an accumulator that starts at [acc] and adds the
    contributions in order, in 64-bit arithmetic (line 451). *)
Fixpoint running_totals (acc : Z) (contributions : list Z) : list Z :=
  match contributions with
  | [] => []
  | c :: contributions =>
      let acc := wrap_int64 (acc + c) in
      acc :: running_totals acc contributions
  end.

(** ** What resolution leaves alone *)

Section Frames.
Context {PT : Type}.
Implicit Types s : State PT.

(** The part of a row that says in which table it lives and to which
    thread or process it belongs. *)
Definition row_shape (r : TrackRow)
    : TrackTableKind * option UniqueTid * option UniquePid :=
  (track_table r, track_utid r, track_upid r).

(** From [s] to [s']: memoized rows are kept; the reservations are the
    same, or the default track's reservation was added to them; no
    inconsistency was counted; rows were only appended, and the old rows
    differ at most in their names; arguments were only appended, and only to
    rows that did not exist in [s]. *)
Definition frame s s' : Prop :=
  resolved_descriptor_tracks_ s ⊆ resolved_descriptor_tracks_ s'
  /\ (reserved_descriptor_tracks_ s' = reserved_descriptor_tracks_ s
      \/ (reserved_descriptor_tracks_ s !! kDefaultDescriptorTrackUuid = None
          /\ reserved_descriptor_tracks_ s'
             = <[kDefaultDescriptorTrackUuid := default_track_reservation]>
                 (reserved_descriptor_tracks_ s)))
  /\ track_event_tokenizer_errors s' = track_event_tokenizer_errors s
  /\ (exists rows,
        row_shape <$> tracks s' = (row_shape <$> tracks s) ++ rows)
  /\ (exists new_args,
        args s' = args s ++ new_args
        /\ forall t key v, In (t, key, v) new_args ->
                           (length (tracks s) <= t)%nat).

(** Every successful run of [m] is a [frame]. *)
Definition framed {A} (m : M (PT:=PT) A) : Prop :=
  forall s a s', m s = Ok (a, s') -> frame s s'.

(** Likewise for a lookup of [uuid], which moreover answers "unknown" only
    when the uuid has no reservation. *)
Definition framed_lookup (lookup : Z -> M (PT:=PT) (option TrackId))
    : Prop :=
  forall uuid s a s',
    lookup uuid s = Ok (a, s') ->
    frame s s'
    /\ (a = None ->
        reserved_descriptor_tracks_ s' !! uuid = None).
End Frames.

(** ** States in which resolution cannot dereference an empty optional *)

Section Sound.
Context {PT : Type}.
Implicit Types s : State PT.

(** Every reservation that carries a tid carries a pid as well: line 262
    dereferences [reservation.pid] whenever [reservation.tid] is set. *)
Definition threads_have_pid s : Prop :=
  forall uuid r,
    reserved_descriptor_tracks_ s !! uuid = Some r ->
    is_Some (tid r) -> is_Some (pid r).

Definition sound s : Prop := well_formed s /\ threads_have_pid s.

(** Every uuid that lines 264 and 295 have bound to a thread or to a
    process has a memoized row: the [PERFETTO_DCHECK]s of lines 270 and 301
    ask that a uuid does not meet its own binding again. *)
Definition bound_are_resolved s : Prop :=
  (forall utid u, descriptor_uuids_by_utid_ s !! utid = Some u ->
                  is_Some (resolved_descriptor_tracks_ s !! u))
  /\ (forall upid u, descriptor_uuids_by_upid_ s !! upid = Some u ->
                     is_Some (resolved_descriptor_tracks_ s !! u)).

(** The same between the binding of [uuid] and line 200, which memoizes its
    row. *)
Definition bound_are_resolved_but (uuid : Z) s : Prop :=
  (forall utid u, descriptor_uuids_by_utid_ s !! utid = Some u ->
                  u = uuid \/ is_Some (resolved_descriptor_tracks_ s !! u))
  /\ (forall upid u, descriptor_uuids_by_upid_ s !! upid = Some u ->
                     u = uuid
                     \/ is_Some (resolved_descriptor_tracks_ s !! u)).

(** A process track is declared without a parent (lines 39-67). *)
Definition processes_have_no_parent s : Prop :=
  forall uuid r,
    reserved_descriptor_tracks_ s !! uuid = Some r ->
    tid r = None -> is_Some (pid r) -> parent_uuid r = 0.

(** [min_timestamp] is written by the process and thread declarations
    only: a reservation without pid has the [min_timestamp] of the
    default-constructed struct. *)
Definition pidless_have_no_timestamp s : Prop :=
  forall uuid r,
    reserved_descriptor_tracks_ s !! uuid = Some r ->
    pid r = None ->
    min_timestamp r = min_timestamp default_reservation.

(** A successful run of [m] keeps the property [P] of the state. *)
Definition keeps {A} (P : State PT -> Prop) (m : M (PT:=PT) A) : Prop :=
  forall s a s', m s = Ok (a, s') -> P s -> P s'.

(** The property of the process tracker that the [PERFETTO_CHECK] of line
    282 asserts: a thread started with [StartNewThread] is the one that
    [UpdateThread] finds for its tid right afterwards. *)
Definition new_thread_is_current (ops : ProcessTrackerOps PT) : Prop :=
  forall tid_ pid_ pt,
    fst (UpdateThread tid_ pid_ (snd (StartNewThread tid_ pt)))
    = fst (StartNewThread tid_ pt).
End Sound.

(** The states a tracker can be in: it is constructed, and then the
    tokenizer and the parser call its public member functions; in between,
    other importers may use the process tracker it shares with them. *)
Inductive reachable {PT : Type} {ops : ProcessTrackerOps PT}
    {same : SameTrack} {build : BuildConfig} : State PT -> Prop :=
  | reachable_initial pt : reachable (initial_state pt)
  | reachable_Reserve d s : reachable s -> reachable (Reserve d s)
  | reachable_ConvertToAbsoluteCounterValue u q v s :
      reachable s ->
      reachable (snd (ConvertToAbsoluteCounterValue u q v s))
  | reachable_OnIncrementalStateCleared q s :
      reachable s -> reachable (OnIncrementalStateCleared q s)
  | reachable_GetDescriptorTrack fuel uuid event_name s r s' :
      reachable s ->
      GetDescriptorTrack fuel uuid event_name s = Ok (r, s') ->
      reachable s'
  | reachable_process_tracker pt s :
      reachable s -> reachable (set_process_tracker pt s).

(** ** The arguments of a row *)

Section Provenance.
Context {PT : Type}.
Implicit Types s : State PT.

(** The arguments attached to the row [t], in the order they were added. *)
Definition args_of s (t : TrackId) : list (StringId * Variadic) :=
  omap (fun a : TrackId * StringId * Variadic =>
          if decide (a.1.1 = t) then Some (a.1.2, a.2) else None)
       (args s).

(** The arguments that lines 392-400 attach to a new row. *)
Definition provenance (uuid : Z) (r : DescriptorTrackReservation)
    (parent_track_id : option TrackId) : list (StringId * Variadic) :=
  [(source_key_, VString descriptor_source_);
   (source_id_key_, VInteger (static_cast_int64 uuid))]
  ++ match parent_track_id with
     | Some p => [(parent_track_id_key_, VInteger (Z.of_nat p))]
     | None => []
     end
  ++ (if negb (StringId_eqb (category r) kNullStringId)
      then [(category_key_, VString (category r))] else []).
End Provenance.

(** ** More concrete scenarios *)

(** An incremental counter on sequence 5 with unit multiplier 2. *)
Definition counter_tracker : State SimpleProcessTracker :=
  declare [DeclareCounterTrack 7 0 kNullStringId kNullStringId 2 true 5]
    fresh_tracker.

(** A process track, a thread track of that process, a child of the thread
    track, and a track whose parent was never declared. *)
Definition thread_tracker : State SimpleProcessTracker :=
  declare [DeclareProcessTrack 1 (InternString "proc") 10 100;
           DeclareThreadTrack 2 1 (InternString "main") 10 11 100;
           DeclareChildTrack 3 2 kNullStringId;
           DeclareChildTrack 4 44 kNullStringId]
    fresh_tracker.

(** The same after the process track was resolved. *)
Definition thread_tracker_resolved : State SimpleProcessTracker :=
  state_after
    (GetDescriptorTrack (same:=spec_same_track)
       (build:=debug_build) enough_fuel 1 kNullStringId
       thread_tracker)
    thread_tracker.

(** The global track 99 after it was resolved without an event name. *)
Definition global_resolved : State SimpleProcessTracker :=
  state_after
    (GetDescriptorTrack (same:=spec_same_track)
       (build:=debug_build) enough_fuel 99 kNullStringId
       global_tracker)
    global_tracker.

(** * Proofs *)

(** ** The monad *)

Section MonadFacts.
Context {PT : Type}.
Implicit Types s : State PT.
Abbreviation M := (M (PT:=PT)).

Lemma bind_Ok {A B} (m : M A) (k : A -> M B) s b s'' :
  bind m k s = Ok (b, s'') ->
  exists a s', m s = Ok (a, s') /\ k a s' = Ok (b, s'').
Proof.
  unfold bind. destruct (m s) as [[a s']|e]; [eauto | discriminate].
Qed.

Lemma bind_Err {A B} (m : M A) (k : A -> M B) s e :
  bind m k s = Err e ->
  m s = Err e \/ exists a s', m s = Ok (a, s') /\ k a s' = Err e.
Proof.
  unfold bind. destruct (m s) as [[a s']|e']; [eauto | ].
  intros [= ->]. by left.
Qed.

Lemma bind_eq_Ok {A B} (m : M A) (k : A -> M B) s a s' :
  m s = Ok (a, s') -> bind m k s = k a s'.
Proof. unfold bind. by intros ->. Qed.

Lemma never_ret {A} e (a : A) : never (PT:=PT) e (ret a).
Proof. by intros s. Qed.

Lemma never_gets {A} e (f : State PT -> A) : never e (gets f).
Proof. by intros s. Qed.

Lemma never_modify e (f : State PT -> State PT) : never e (modify f).
Proof. by intros s. Qed.

Lemma never_fail {A} e e' : e' <> e -> never (PT:=PT) e (fail (A:=A) e').
Proof. intros He s. unfold fail. congruence. Qed.

Lemma never_bind {A B} e (m : M A) (k : A -> M B) :
  never e m -> (forall a, never e (k a)) -> never e (bind m k).
Proof.
  intros Hm Hk s H. apply bind_Err in H as [H | (a & s' & _ & H)].
  - by apply (Hm s).
  - by apply (Hk a s').
Qed.

Lemma never_deref {A} e (o : option A) :
  e <> NulloptDeref -> never (PT:=PT) e (deref o).
Proof. intros He. destruct o; [apply never_ret | by apply never_fail]. Qed.

Lemma never_PERFETTO_CHECK e line b :
  e <> CheckFailed line -> never (PT:=PT) e (PERFETTO_CHECK line b).
Proof. intros He. destruct b; [apply never_ret | by apply never_fail]. Qed.

Lemma never_PERFETTO_DCHECK {build : BuildConfig} e line b :
  (PERFETTO_DCHECK_IS_ON = true -> e <> CheckFailed line) ->
  never (PT:=PT) e (PERFETTO_DCHECK line b).
Proof.
  intros He. unfold PERFETTO_DCHECK.
  destruct PERFETTO_DCHECK_IS_ON; [by apply never_PERFETTO_CHECK, He|].
  apply never_ret.
Qed.

Lemma never_call_process_tracker {A} e (f : PT -> A * PT) :
  never e (call_process_tracker f).
Proof.
  intros s. unfold call_process_tracker. by destruct (f (process_tracker s)).
Qed.

Lemma never_Insert e row : never (PT:=PT) e (Insert row).
Proof. by intros s. Qed.
End MonadFacts.

(** Structural descent through a computation built from the combinators. *)
Ltac never_step :=
  first
    [ apply never_bind; [ | intros ? ]
    | apply never_ret | apply never_gets | apply never_modify
    | apply never_deref; congruence
    | apply never_PERFETTO_CHECK; congruence
    | apply never_PERFETTO_DCHECK; first [assumption | intros _; congruence]
    | apply never_call_process_tracker | apply never_Insert
    | apply never_fail; congruence
    | match goal with
      | |- never _ (match ?x with _ => _ end) => destruct x
      | |- never _ (if ?x then _ else _) => destruct x
      end ].

Section Never.
Context {PT : Type} {ops : ProcessTrackerOps PT} {same : SameTrack}
        {build : BuildConfig}.
Context (e : Error).
Hypothesis e_not_deref : e <> NulloptDeref.
Hypothesis e_not_check_282 : e <> CheckFailed 282.
Hypothesis e_not_dcheck_270 :
  PERFETTO_DCHECK_IS_ON = true -> e <> CheckFailed 270.
Hypothesis e_not_dcheck_301 :
  PERFETTO_DCHECK_IS_ON = true -> e <> CheckFailed 301.

Lemma never_set_track_name_and_return r t :
  never (PT:=PT) e (set_track_name_and_return r t).
Proof.
  unfold set_track_name_and_return, IndexOf, SetName. repeat never_step.
Qed.

Lemma never_ResolveThreadTrack uuid r tid_ :
  never e (ResolveThreadTrack uuid r tid_).
Proof.
  unfold ResolveThreadTrack, InternThreadTrack.
  repeat never_step; apply never_set_track_name_and_return.
Qed.

Lemma never_ResolveProcessTrack uuid r pid_ :
  never e (ResolveProcessTrack uuid r pid_).
Proof.
  unfold ResolveProcessTrack, InternProcessTrack.
  repeat never_step; apply never_set_track_name_and_return.
Qed.

Lemma never_ResolveUnderParent r p :
  never (PT:=PT) e (ResolveUnderParent r p).
Proof.
  unfold ResolveUnderParent, IndexOfIn, utid_at, upid_at.
  repeat never_step.
Qed.

Lemma never_AddArgsAndName uuid r t p :
  never (PT:=PT) e (AddArgsAndName uuid r t p).
Proof.
  unfold AddArgsAndName, AddArg.
  repeat never_step; apply never_set_track_name_and_return.
Qed.

Lemma never_UpdateTrackName uuid ev t :
  e <> CheckFailed 177 ->
  never (PT:=PT) e (UpdateTrackName uuid ev t).
Proof.
  intros He. unfold UpdateTrackName, IndexOf, name_at, SetName.
  repeat never_step.
Qed.

(** The bodies, relative to their callees. *)

Lemma never_ResolveParent
    (impl : Z -> option (list Z) -> M (PT:=PT) (option TrackId)) uuid r desc :
  (forall v, v = default [] desc ++ [uuid] ->
             (length v <= kMaxAncestors)%nat ->
             never e (impl (parent_uuid r) (Some v))) ->
  never e (ResolveParent impl uuid r desc).
Proof.
  intros Himpl. unfold ResolveParent.
  destruct (parent_uuid r =? 0); [apply never_ret|].
  destruct (kMaxAncestors <? _)%nat eqn:Hlen; [apply never_ret|].
  destruct (std_find _ _); [apply never_ret|].
  apply Himpl; [done|]. by apply Nat.ltb_ge in Hlen.
Qed.

Lemma never_ResolveDefaultParent (dflt : M (PT:=PT) TrackId) uuid desc p :
  (~ default_excluded uuid desc -> never e dflt) ->
  never e (ResolveDefaultParent dflt uuid desc p).
Proof.
  intros Hd. unfold ResolveDefaultParent.
  destruct (negb _ && negb (uuid =? 0)) eqn:Hc; [|apply never_ret].
  apply andb_true_iff in Hc as [_ Hu]. apply negb_true_iff, Z.eqb_neq in Hu.
  destruct desc as [v|].
  - unfold std_find. destruct (existsb _ v) eqn:Hf; [apply never_ret|].
    apply never_bind; [|intros; apply never_ret].
    apply Hd. intros [?|Hx]; [done|]. simpl in Hx. congruence.
  - apply never_bind; [|intros; apply never_ret].
    apply Hd. by intros [?|[]].
Qed.

Lemma never_ResolveDescriptorTrack_body
    (impl : Z -> option (list Z) -> M (PT:=PT) (option TrackId))
    (dflt : M (PT:=PT) TrackId) uuid r desc :
  (forall v, v = default [] desc ++ [uuid] ->
             (length v <= kMaxAncestors)%nat ->
             never e (impl (parent_uuid r) (Some v))) ->
  (~ default_excluded uuid desc -> never e dflt) ->
  never e (ResolveDescriptorTrack_body impl dflt uuid r desc).
Proof.
  intros Himpl Hd. unfold ResolveDescriptorTrack_body.
  apply never_bind; [by apply never_ResolveParent|intros parent].
  destruct (tid r); [apply never_ResolveThreadTrack|].
  destruct (pid r); [apply never_ResolveProcessTrack|].
  apply never_bind; [apply never_ResolveUnderParent|intros [t|]].
  - apply never_AddArgsAndName.
  - apply never_bind; [apply never_Insert|intros t].
    apply never_bind; [by apply never_ResolveDefaultParent|intros p].
    apply never_AddArgsAndName.
Qed.

Lemma never_GetDescriptorTrackImpl_body
    (resolve : Z -> DescriptorTrackReservation -> option (list Z) ->
               M (PT:=PT) TrackId) uuid desc :
  (forall r, never e (resolve uuid r desc)) ->
  never e (GetDescriptorTrackImpl_body resolve uuid desc).
Proof.
  intros Hr. unfold GetDescriptorTrackImpl_body.
  repeat never_step. apply Hr.
Qed.

Lemma never_GetDescriptorTrack_body
    (impl : Z -> option (list Z) -> M (PT:=PT) (option TrackId)) uuid ev :
  never e (impl uuid None) ->
  e <> CheckFailed 177 \/ is_null ev = true ->
  never e (GetDescriptorTrack_body impl uuid ev).
Proof.
  intros Hi He. unfold GetDescriptorTrack_body.
  apply never_bind; [done|intros [t|]]; [|apply never_ret].
  destruct (is_null ev); [apply never_ret|].
  destruct He as [He|?]; [|done]. by apply never_UpdateTrackName.
Qed.

Lemma never_GetOrCreateDefaultDescriptorTrack_body
    (getdt : Z -> StringId -> M (PT:=PT) (option TrackId)) :
  never e (getdt kDefaultDescriptorTrackUuid kNullStringId) ->
  never e (GetOrCreateDefaultDescriptorTrack_body getdt).
Proof.
  intros Hg. unfold GetOrCreateDefaultDescriptorTrack_body.
  repeat never_step; done.
Qed.
End Never.

(** ** Termination: enough fuel always suffices *)

Section Fuel.
Context {PT : Type} {ops : ProcessTrackerOps PT} {same : SameTrack}
        {build : BuildConfig}.
Abbreviation M := (M (PT:=PT)).

Lemma default_excluded_push uuid desc p :
  default_excluded uuid desc ->
  default_excluded p (Some (default [] desc ++ [uuid])).
Proof.
  intros Hx. right. rewrite existsb_app. apply orb_true_iff.
  destruct Hx as [->|Hx]; [by right|left].
  by destruct desc.
Qed.

(** While the default track is excluded, the nesting is bounded by the
    room left on the recursive path. *)
Lemma noOOF_inner k : forall fuel uuid desc,
  default_excluded uuid desc ->
  (kMaxAncestors - depth desc <= k)%nat ->
  ((2 * k + 1 <= fuel)%nat ->
   forall r, noOOF (ResolveDescriptorTrack fuel uuid r desc))
  /\ ((2 * k + 2 <= fuel)%nat ->
      noOOF (GetDescriptorTrackImpl fuel uuid desc)).
Proof.
  induction k as [|k IH]; intros fuel uuid desc Hx Hk.
  - assert (Hres : forall f r,
              noOOF (ResolveDescriptorTrack (S f) uuid r desc)).
    { intros f r. simpl.
      apply never_ResolveDescriptorTrack_body; [done..| |].
      - intros v -> Hv. rewrite length_app in Hv.
        unfold depth, kMaxAncestors in *. simpl in Hv. lia.
      - tauto. }
    split; intros Hf.
    + destruct fuel as [|f]; [lia|]. apply Hres.
    + destruct fuel as [|[|f]]; [lia..|]. simpl.
      apply never_GetDescriptorTrackImpl_body. apply Hres.
  - assert (Hres : forall f r, (2 * k + 2 <= f)%nat ->
              noOOF (ResolveDescriptorTrack (S f) uuid r desc)).
    { intros f r Hf. simpl.
      apply never_ResolveDescriptorTrack_body; [done..| |].
      - intros v -> Hv. apply IH; [by apply default_excluded_push| |done].
        rewrite length_app in Hv. unfold depth in *. simpl in *.
        rewrite length_app. simpl. lia.
      - tauto. }
    split; intros Hf.
    + destruct fuel as [|f]; [lia|]. intros r. apply Hres. lia.
    + destruct fuel as [|[|f]]; [lia..|]. simpl.
      apply never_GetDescriptorTrackImpl_body. intros r. apply Hres. lia.
Qed.

Lemma noOOF_GetOrCreateDefaultDescriptorTrack fuel :
  (24 <= fuel)%nat -> noOOF (GetOrCreateDefaultDescriptorTrack fuel).
Proof.
  intros Hf. destruct fuel as [|[|f]]; [lia..|]. simpl.
  apply never_GetOrCreateDefaultDescriptorTrack_body; [done..|].
  apply never_GetDescriptorTrack_body; [done| |by left].
  apply (noOOF_inner 10); [by left|unfold kMaxAncestors; lia|lia].
Qed.

Lemma noOOF_outer k : forall fuel uuid desc,
  (kMaxAncestors - depth desc <= k)%nat ->
  ((2 * k + 25 <= fuel)%nat ->
   forall r, noOOF (ResolveDescriptorTrack fuel uuid r desc))
  /\ ((2 * k + 26 <= fuel)%nat ->
      noOOF (GetDescriptorTrackImpl fuel uuid desc)).
Proof.
  induction k as [|k IH]; intros fuel uuid desc Hk.
  - assert (Hres : forall f r, (24 <= f)%nat ->
              noOOF (ResolveDescriptorTrack (S f) uuid r desc)).
    { intros f r Hf. simpl.
      apply never_ResolveDescriptorTrack_body; [done..| |].
      - intros v -> Hv. rewrite length_app in Hv.
        unfold depth, kMaxAncestors in *. simpl in Hv. lia.
      - intros _. by apply noOOF_GetOrCreateDefaultDescriptorTrack. }
    split; intros Hf.
    + destruct fuel as [|f]; [lia|]. intros r. apply Hres. lia.
    + destruct fuel as [|[|f]]; [lia..|]. simpl.
      apply never_GetDescriptorTrackImpl_body. intros r. apply Hres. lia.
  - assert (Hres : forall f r, (2 * k + 26 <= f)%nat ->
              noOOF (ResolveDescriptorTrack (S f) uuid r desc)).
    { intros f r Hf. simpl.
      apply never_ResolveDescriptorTrack_body; [done..| |].
      - intros v -> Hv. apply IH; [|done].
        rewrite length_app in Hv. unfold depth in *. simpl in *.
        rewrite length_app. simpl. lia.
      - intros _. apply noOOF_GetOrCreateDefaultDescriptorTrack. lia. }
    split; intros Hf.
    + destruct fuel as [|f]; [lia|]. intros r. apply Hres. lia.
    + destruct fuel as [|[|f]]; [lia..|]. simpl.
      apply never_GetDescriptorTrackImpl_body. intros r. apply Hres. lia.
Qed.

Lemma enough_fuel_GetDescriptorTrack fuel uuid ev :
  (enough_fuel <= fuel)%nat -> noOOF (GetDescriptorTrack fuel uuid ev).
Proof.
  unfold enough_fuel. intros Hf. destruct fuel as [|f]; [lia|]. simpl.
  apply never_GetDescriptorTrack_body; [done| |by left].
  apply (noOOF_outer 10); [unfold kMaxAncestors; lia|lia].
Qed.
End Fuel.

(** ** More fuel never changes a result *)

Section FuelMonotone.
Context {PT : Type} {ops : ProcessTrackerOps PT} {same : SameTrack}
        {build : BuildConfig}.
Abbreviation M := (M (PT:=PT)).

Lemma fuel_le_refl {A} (m : M A) : fuel_le m m.
Proof. by intros s _. Qed.

Lemma fuel_le_trans {A} (m1 m2 m3 : M A) :
  fuel_le m1 m2 -> fuel_le m2 m3 -> fuel_le m1 m3.
Proof.
  intros H12 H23 s H. rewrite <- (H12 s H). apply H23. by rewrite (H12 s H).
Qed.

Lemma fuel_le_fail {A} (m : M A) : fuel_le (fail OutOfFuel) m.
Proof. intros s H. by destruct H. Qed.

Lemma fuel_le_bind {A B} (m1 m2 : M A) (k1 k2 : A -> M B) :
  fuel_le m1 m2 -> (forall a, fuel_le (k1 a) (k2 a)) ->
  fuel_le (bind m1 k1) (bind m2 k2).
Proof.
  intros Hm Hk s H. unfold bind in *.
  destruct (m1 s) as [[a s']|e] eqn:E.
  - rewrite (Hm s) by congruence. rewrite E. by apply Hk.
  - rewrite (Hm s) by congruence. by rewrite E.
Qed.

Lemma fuel_le_ResolveParent
    (impl1 impl2 : Z -> option (list Z) -> M (option TrackId)) uuid r desc :
  (forall u d, fuel_le (impl1 u d) (impl2 u d)) ->
  fuel_le (ResolveParent impl1 uuid r desc)
          (ResolveParent impl2 uuid r desc).
Proof.
  intros Hi. unfold ResolveParent.
  repeat match goal with
         | |- fuel_le (if ?c then _ else _) _ => destruct c
         end; solve [apply fuel_le_refl | apply Hi].
Qed.

Lemma fuel_le_ResolveDefaultParent (d1 d2 : M TrackId) uuid desc p :
  fuel_le d1 d2 ->
  fuel_le (ResolveDefaultParent d1 uuid desc p)
          (ResolveDefaultParent d2 uuid desc p).
Proof.
  intros Hd. unfold ResolveDefaultParent.
  repeat match goal with
         | |- fuel_le (if ?c then _ else _) _ => destruct c
         end;
    solve [apply fuel_le_refl
          | apply fuel_le_bind; [done|intros; apply fuel_le_refl]].
Qed.

Lemma fuel_le_ResolveDescriptorTrack_body
    (impl1 impl2 : Z -> option (list Z) -> M (option TrackId))
    (d1 d2 : M TrackId) uuid r desc :
  (forall u d, fuel_le (impl1 u d) (impl2 u d)) ->
  fuel_le d1 d2 ->
  fuel_le (ResolveDescriptorTrack_body impl1 d1 uuid r desc)
          (ResolveDescriptorTrack_body impl2 d2 uuid r desc).
Proof.
  intros Hi Hd. unfold ResolveDescriptorTrack_body.
  apply fuel_le_bind; [by apply fuel_le_ResolveParent|intros parent].
  destruct (tid r); [apply fuel_le_refl|].
  destruct (pid r); [apply fuel_le_refl|].
  apply fuel_le_bind; [apply fuel_le_refl|intros [t|]];
    [apply fuel_le_refl|].
  apply fuel_le_bind; [apply fuel_le_refl|intros t].
  apply fuel_le_bind; [by apply fuel_le_ResolveDefaultParent|intros p].
  apply fuel_le_refl.
Qed.

Lemma fuel_le_GetDescriptorTrackImpl_body
    (r1 r2 : Z -> DescriptorTrackReservation -> option (list Z) ->
             M TrackId) uuid desc :
  (forall u r d, fuel_le (r1 u r d) (r2 u r d)) ->
  fuel_le (GetDescriptorTrackImpl_body r1 uuid desc)
          (GetDescriptorTrackImpl_body r2 uuid desc).
Proof.
  intros Hr. unfold GetDescriptorTrackImpl_body.
  apply fuel_le_bind; [apply fuel_le_refl|intros [t|]];
    [apply fuel_le_refl|].
  apply fuel_le_bind; [apply fuel_le_refl|intros [r|]];
    [|apply fuel_le_refl].
  apply fuel_le_bind; [apply Hr|intros t]. apply fuel_le_refl.
Qed.

Lemma fuel_le_GetDescriptorTrack_body
    (impl1 impl2 : Z -> option (list Z) -> M (option TrackId)) uuid ev :
  (forall u d, fuel_le (impl1 u d) (impl2 u d)) ->
  fuel_le (GetDescriptorTrack_body impl1 uuid ev)
          (GetDescriptorTrack_body impl2 uuid ev).
Proof.
  intros Hi. unfold GetDescriptorTrack_body.
  apply fuel_le_bind; [apply Hi|intros t]. apply fuel_le_refl.
Qed.

Lemma fuel_le_GetOrCreateDefaultDescriptorTrack_body
    (g1 g2 : Z -> StringId -> M (option TrackId)) :
  (forall u e, fuel_le (g1 u e) (g2 u e)) ->
  fuel_le (GetOrCreateDefaultDescriptorTrack_body g1)
          (GetOrCreateDefaultDescriptorTrack_body g2).
Proof.
  intros Hg. unfold GetOrCreateDefaultDescriptorTrack_body.
  apply fuel_le_bind; [apply Hg|intros [t|]]; [apply fuel_le_refl|].
  apply fuel_le_bind; [apply fuel_le_refl|intros _].
  apply fuel_le_bind; [apply Hg|intros t]. apply fuel_le_refl.
Qed.

Lemma fuel_le_S fuel :
  (forall u d, fuel_le (GetDescriptorTrackImpl fuel u d)
                       (GetDescriptorTrackImpl (S fuel) u d))
  /\ (forall u r d, fuel_le (ResolveDescriptorTrack fuel u r d)
                            (ResolveDescriptorTrack (S fuel) u r d))
  /\ fuel_le (GetOrCreateDefaultDescriptorTrack fuel)
             (GetOrCreateDefaultDescriptorTrack (S fuel))
  /\ (forall u e, fuel_le (GetDescriptorTrack fuel u e)
                          (GetDescriptorTrack (S fuel) u e)).
Proof.
  induction fuel as [|fuel (IHi & IHr & IHd & IHg)].
  - repeat split; intros; apply fuel_le_fail.
  - repeat split; intros.
    + apply fuel_le_GetDescriptorTrackImpl_body, IHr.
    + by apply fuel_le_ResolveDescriptorTrack_body.
    + apply fuel_le_GetOrCreateDefaultDescriptorTrack_body, IHg.
    + apply fuel_le_GetDescriptorTrack_body, IHi.
Qed.

Lemma fuel_le_GetDescriptorTrack f f' u e :
  (f <= f')%nat -> fuel_le (GetDescriptorTrack f u e)
                           (GetDescriptorTrack f' u e).
Proof.
  induction 1 as [|f' _ IH]; [apply fuel_le_refl|].
  eapply fuel_le_trans; [apply IH|apply fuel_le_S].
Qed.

Lemma fuel_le_GetDescriptorTrackImpl f f' u d :
  (f <= f')%nat -> fuel_le (GetDescriptorTrackImpl f u d)
                           (GetDescriptorTrackImpl f' u d).
Proof.
  induction 1 as [|f' _ IH]; [apply fuel_le_refl|].
  eapply fuel_le_trans; [apply IH|apply fuel_le_S].
Qed.

Lemma fuel_le_GetOrCreateDefaultDescriptorTrack f f' :
  (f <= f')%nat -> fuel_le (GetOrCreateDefaultDescriptorTrack f)
                           (GetOrCreateDefaultDescriptorTrack f').
Proof.
  induction 1 as [|f' _ IH]; [apply fuel_le_refl|].
  eapply fuel_le_trans; [apply IH|apply fuel_le_S].
Qed.

(** A result obtained with some fuel is the result with any more fuel. *)
Lemma GetDescriptorTrack_more_fuel f f' u e s x :
  GetDescriptorTrack f u e s = Ok x -> (f <= f')%nat ->
  GetDescriptorTrack f' u e s = Ok x.
Proof.
  intros H Hf. rewrite (fuel_le_GetDescriptorTrack f f' u e Hf s); [done|].
  by rewrite H.
Qed.

Lemma GetDescriptorTrackImpl_more_fuel f f' u d s x :
  GetDescriptorTrackImpl f u d s = Ok x -> (f <= f')%nat ->
  GetDescriptorTrackImpl f' u d s = Ok x.
Proof.
  intros H Hf.
  rewrite (fuel_le_GetDescriptorTrackImpl f f' u d Hf s); [done|].
  by rewrite H.
Qed.

(** With enough fuel the result does not depend on the fuel. *)
Lemma GetDescriptorTrack_fuel_irrelevant f f' u e s :
  (enough_fuel <= f)%nat -> (enough_fuel <= f')%nat ->
  GetDescriptorTrack f u e s = GetDescriptorTrack f' u e s.
Proof.
  intros Hf Hf'.
  rewrite (fuel_le_GetDescriptorTrack enough_fuel f u e Hf s)
    by by apply enough_fuel_GetDescriptorTrack.
  rewrite (fuel_le_GetDescriptorTrack enough_fuel f' u e Hf' s)
    by by apply enough_fuel_GetDescriptorTrack.
  done.
Qed.
End FuelMonotone.

(** ** Successful runs, step by step *)

Section Inversion.
Context {PT : Type}.
Implicit Types s : State PT.
Abbreviation M := (M (PT:=PT)).

Lemma ret_Ok {A} (a b : A) s s' : ret a s = Ok (b, s') -> b = a /\ s' = s.
Proof. by intros [= -> ->]. Qed.

Lemma gets_Ok {A} (f : State PT -> A) b s s' :
  gets f s = Ok (b, s') -> b = f s /\ s' = s.
Proof. by intros [= <- <-]. Qed.

Lemma modify_Ok (f : State PT -> State PT) b s s' :
  modify f s = Ok (b, s') -> s' = f s.
Proof. by intros [= <- <-]. Qed.

Lemma deref_Ok {A} (o : option A) b s s' :
  deref o s = Ok (b, s') -> o = Some b /\ s' = s.
Proof. destruct o; [by intros [= -> ->] | discriminate]. Qed.

Lemma PERFETTO_CHECK_Ok line c b s s' :
  PERFETTO_CHECK line c s = Ok (b, s') -> c = true /\ s' = s.
Proof. destruct c; [by intros [= <- <-] | discriminate]. Qed.

Lemma PERFETTO_DCHECK_Ok {build : BuildConfig} line c b s s' :
  PERFETTO_DCHECK line c s = Ok (b, s') ->
  s' = s /\ (PERFETTO_DCHECK_IS_ON = true -> c = true).
Proof.
  unfold PERFETTO_DCHECK. destruct PERFETTO_DCHECK_IS_ON.
  - intros H. by apply PERFETTO_CHECK_Ok in H as [-> ->].
  - by intros [= <- <-].
Qed.

Lemma call_process_tracker_Ok {A} (f : PT -> A * PT) b s s' :
  call_process_tracker f s = Ok (b, s') ->
  exists pt, s' = set_process_tracker pt s.
Proof.
  unfold call_process_tracker. destruct (f (process_tracker s)) as [a pt].
  intros [= <- <-]. eauto.
Qed.

Lemma Insert_Ok row b s s' :
  Insert row s = Ok (b, s') ->
  b = length (tracks s) /\ s' = set_tracks (fun l => l ++ [row]) s.
Proof. by intros [= <- <-]. Qed.
End Inversion.

(** Decompose a hypothesis stating that a computation succeeded. *)
Ltac inv_ok :=
  repeat
    match goal with
    | H : bind _ _ _ = Ok _ |- _ =>
        let a := fresh "a" in
        let s := fresh "s" in
        let H1 := fresh "Hrun" in
        apply bind_Ok in H as (a & s & H1 & H)
    | H : ret _ _ = Ok _ |- _ => apply ret_Ok in H as [? ?]; subst
    | H : gets _ _ = Ok _ |- _ => apply gets_Ok in H as [? ?]; subst
    | H : modify _ _ = Ok _ |- _ => apply modify_Ok in H; subst
    | H : fail _ _ = Ok _ |- _ => discriminate H
    | H : deref _ _ = Ok _ |- _ => apply deref_Ok in H as [? ?]; subst
    | H : PERFETTO_CHECK _ _ _ = Ok _ |- _ =>
        apply PERFETTO_CHECK_Ok in H as [? ?]; subst
    | H : PERFETTO_DCHECK _ _ _ = Ok _ |- _ =>
        apply PERFETTO_DCHECK_Ok in H as [? ?]; subst
    | H : call_process_tracker _ _ = Ok _ |- _ =>
        apply call_process_tracker_Ok in H as [? ?]; subst
    | H : Insert _ _ = Ok _ |- _ => apply Insert_Ok in H as [? ?]; subst
    | H : (match ?x with _ => _ end) _ = Ok _ |- _ => destruct x eqn:?
    | H : (if ?x then _ else _) _ = Ok _ |- _ => destruct x eqn:?
    end.

Section Invariants.
Context {PT : Type} {ops : ProcessTrackerOps PT} {same : SameTrack}
        {build : BuildConfig}.
Implicit Types s : State PT.
Abbreviation M := (M (PT:=PT)).

Lemma extends_refl s : extends s s.
Proof. unfold extends. by split_and!. Qed.

Lemma extends_trans s1 s2 s3 : extends s1 s2 -> extends s2 s3 -> extends s1 s3.
Proof.
  intros (Ha & Hb & Hc & Hd) (Ha' & Hb' & Hc' & Hd').
  unfold extends. split_and!; [by etrans|lia|auto..].
Qed.

(** The state changes of the primitives. *)

Lemma extends_same_core s s' :
  reserved_descriptor_tracks_ s' = reserved_descriptor_tracks_ s ->
  resolved_descriptor_tracks_ s' = resolved_descriptor_tracks_ s ->
  thread_tracks_ s' = thread_tracks_ s ->
  process_tracks_ s' = process_tracks_ s ->
  args s' = args s ->
  length (tracks s') = length (tracks s) ->
  extends s s'.
Proof.
  intros H1 H2 H3 H4 H5 H6.
  unfold extends, resolved_are_reserved, ids_valid.
  rewrite H1, H2, H3, H4, H5, H6. by split_and!.
Qed.

Lemma extends_set_process_tracker pt s : extends s (set_process_tracker pt s).
Proof. by apply extends_same_core. Qed.

Lemma extends_set_by_utid f s : extends s (set_by_utid f s).
Proof. by apply extends_same_core. Qed.

Lemma extends_set_by_upid f s : extends s (set_by_upid f s).
Proof. by apply extends_same_core. Qed.

Lemma extends_set_errors f s : extends s (set_errors f s).
Proof. by apply extends_same_core. Qed.

Lemma extends_SetName row n s :
  extends s (set_tracks (alter (set_track_name n) row) s).
Proof. apply extends_same_core; simpl; try done. apply length_alter. Qed.

Lemma extends_Insert row s : extends s (set_tracks (fun l => l ++ [row]) s).
Proof.
  unfold extends, resolved_are_reserved, ids_valid. simpl.
  rewrite length_app. simpl. split_and!; [done|lia|done|].
  intros (H1 & H2 & H3 & H4).
  split_and!; [intros k t Hk..|intros t key v Hk];
    [apply H1 in Hk|apply H2 in Hk|apply H3 in Hk|apply H4 in Hk]; lia.
Qed.

Lemma extends_set_thread_tracks k t s :
  (t < length (tracks s))%nat ->
  extends s (set_thread_tracks (insert k t) s).
Proof.
  intros Ht. unfold extends, resolved_are_reserved, ids_valid. simpl.
  split_and!; [done..|]. intros (H1 & H2 & H3 & H4).
  split_and!; [done| |done..].
  intros k' t'. rewrite lookup_insert. case_decide; [|apply H2].
  by intros [= <-].
Qed.

Lemma extends_set_process_tracks k t s :
  (t < length (tracks s))%nat ->
  extends s (set_process_tracks (insert k t) s).
Proof.
  intros Ht. unfold extends, resolved_are_reserved, ids_valid. simpl.
  split_and!; [done..|]. intros (H1 & H2 & H3 & H4).
  split_and!; [done..| |done].
  intros k' t'. rewrite lookup_insert. case_decide; [|apply H3].
  by intros [= <-].
Qed.

Lemma extends_set_resolved uuid t s :
  is_Some (reserved_descriptor_tracks_ s !! uuid) ->
  (ids_valid s -> (t < length (tracks s))%nat) ->
  extends s (set_resolved (insert uuid t) s).
Proof.
  intros Hr Ht. unfold extends, resolved_are_reserved. simpl.
  split_and!; [done..| |].
  - intros Hinv u t'. rewrite lookup_insert. case_decide; [|apply Hinv].
    by subst.
  - intros Hv. pose proof (Ht Hv) as Ht'.
    destruct Hv as (H1 & H2 & H3 & H4).
    unfold ids_valid. simpl. split_and!; [|done..].
    intros u t'. rewrite lookup_insert. case_decide; [|apply H1].
    by intros [= <-].
Qed.

Lemma extends_ReserveDescriptorChildTrack uuid p n s :
  extends s (ReserveDescriptorChildTrack uuid p n s).
Proof.
  unfold ReserveDescriptorChildTrack.
  destruct (reserved_descriptor_tracks_ s !! uuid) as [it|] eqn:E.
  - destruct (IsForSameTrack _ _);
      [apply extends_refl|apply extends_set_errors].
  - unfold extends, resolved_are_reserved. simpl.
    split_and!; [by apply insert_subseteq|done| |done].
    intros Hinv u t Hu. apply Hinv in Hu.
    rewrite lookup_insert_is_Some. destruct (decide (uuid = u)); auto.
Qed.
End Invariants.

(** Chains of state changes: primitive setters and known extensions. *)
Ltac ext_prim :=
  first
    [ apply extends_set_process_tracker
    | apply extends_set_by_utid
    | apply extends_set_by_upid
    | apply extends_set_errors
    | apply extends_SetName
    | apply extends_Insert
    | apply extends_ReserveDescriptorChildTrack
    | apply extends_set_thread_tracks; simpl;
      rewrite ?length_app; simpl; lia
    | apply extends_set_process_tracks; simpl;
      rewrite ?length_app; simpl; lia ].

Ltac ext_to :=
  match goal with
  | |- extends ?s ?s => apply extends_refl
  | H : extends ?s ?t |- extends ?s ?t => exact H
  | H : extends ?x ?t |- extends ?s ?t =>
      apply (extends_trans s x t); [ext_to | exact H]
  | |- extends ?s (?g ?x) => apply (extends_trans s x); [ext_to | ext_prim]
  end.

Section RunOk.
Context {PT : Type} {ops : ProcessTrackerOps PT} {same : SameTrack}
        {build : BuildConfig}.
Implicit Types s : State PT.
Abbreviation M := (M (PT:=PT)).

Lemma extends_ids_valid s s' : extends s s' -> ids_valid s -> ids_valid s'.
Proof. by intros (_ & _ & _ & H). Qed.

Lemma extends_resolved_are_reserved s s' :
  extends s s' -> resolved_are_reserved s -> resolved_are_reserved s'.
Proof. by intros (_ & _ & H & _). Qed.

Lemma extends_valid_id s s' t : extends s s' -> valid_id t s -> valid_id t s'.
Proof. intros (_ & Hl & _). unfold valid_id. lia. Qed.

Lemma extends_valid_opt s s' o :
  extends s s' -> valid_opt o s -> valid_opt o s'.
Proof. intros (_ & Hl & _) Hv t Ht. apply Hv in Ht. lia. Qed.

Lemma extends_reserved s s' uuid r :
  extends s s' ->
  reserved_descriptor_tracks_ s !! uuid = Some r ->
  reserved_descriptor_tracks_ s' !! uuid = Some r.
Proof. intros (Hsub & _) Hr. by eapply lookup_weaken. Qed.

Lemma run_ok_InternThreadTrack utid :
  run_ok (PT:=PT) valid_id (InternThreadTrack utid).
Proof.
  intros s a s' H. unfold InternThreadTrack in H. inv_ok.
  - split; [ext_to|]. intros (_ & Hv & _). by apply Hv in Heqo.
  - split; [ext_to|]. intros _. unfold valid_id. simpl.
    rewrite length_app. simpl. lia.
Qed.

Lemma run_ok_InternProcessTrack upid :
  run_ok (PT:=PT) valid_id (InternProcessTrack upid).
Proof.
  intros s a s' H. unfold InternProcessTrack in H. inv_ok.
  - split; [ext_to|]. intros (_ & _ & Hv & _). by apply Hv in Heqo.
  - split; [ext_to|]. intros _. unfold valid_id. simpl.
    rewrite length_app. simpl. lia.
Qed.

Lemma set_track_name_and_return_Ok r t s a s' :
  set_track_name_and_return r t s = Ok (a, s') ->
  a = t /\ extends s s'.
Proof.
  unfold set_track_name_and_return, IndexOf, SetName. intros H. inv_ok.
  all: split; [done|ext_to].
Qed.
End RunOk.

(** Use what is known about the callees of a successful run. *)
Ltac use_callees :=
  repeat
    match goal with
    | H : set_track_name_and_return _ _ _ = Ok _ |- _ =>
        apply set_track_name_and_return_Ok in H as [-> ?]
    | H : InternThreadTrack _ _ = Ok _ |- _ =>
        apply run_ok_InternThreadTrack in H as [? ?]
    | H : InternProcessTrack _ _ = Ok _ |- _ =>
        apply run_ok_InternProcessTrack in H as [? ?]
    end.

(** Transport [ids_valid] to the state where a callee started. *)
Ltac use_valid :=
  repeat
    match goal with
    | Hs : ids_valid ?s, H : ids_valid ?x -> _ |- _ =>
        let Hx := fresh "Hx" in
        assert (Hx : ids_valid x)
          by (apply (extends_ids_valid s x); [ext_to | exact Hs]);
        specialize (H Hx)
    end.

Section RunOk2.
Context {PT : Type} {ops : ProcessTrackerOps PT} {same : SameTrack}
        {build : BuildConfig}.
Implicit Types s : State PT.
Abbreviation M := (M (PT:=PT)).

Lemma run_ok_ResolveThreadTrack uuid r tid_ :
  run_ok valid_id (ResolveThreadTrack uuid r tid_).
Proof.
  intros s a s' H. unfold ResolveThreadTrack in H. inv_ok; use_callees.
  all: split; [ext_to|intros Hv; use_valid].
  all: eapply extends_valid_id; [|eassumption]; ext_to.
Qed.

Lemma run_ok_ResolveProcessTrack uuid r pid_ :
  run_ok valid_id (ResolveProcessTrack uuid r pid_).
Proof.
  intros s a s' H. unfold ResolveProcessTrack in H. inv_ok; use_callees.
  all: split; [ext_to|intros Hv; use_valid].
  all: eapply extends_valid_id; [|eassumption]; ext_to.
Qed.

Lemma run_ok_ResolveUnderParent r p :
  run_ok (PT:=PT) valid_opt (ResolveUnderParent r p).
Proof.
  intros s a s' H.
  unfold ResolveUnderParent, IndexOfIn, utid_at, upid_at in H. inv_ok.
  all: split; [ext_to|intros Hv x Hx; try discriminate].
  all: injection Hx as <-; simpl; rewrite length_app; simpl; lia.
Qed.

Lemma run_ok_InsertGlobalTrack r :
  run_ok (PT:=PT) valid_id (InsertGlobalTrack r).
Proof.
  intros s a s' H. unfold InsertGlobalTrack in H. inv_ok.
  split; [ext_to|intros _]. unfold valid_id. simpl.
  rewrite length_app; simpl; lia.
Qed.

Lemma extends_AddArg s0 s t key v :
  extends s0 s -> (ids_valid s0 -> valid_id t s) ->
  extends s0 (set_args (fun l => l ++ [(t, key, v)]) s).
Proof.
  intros (H1 & H2 & H3 & H4) Ht.
  unfold extends. simpl. split_and!; [done..|].
  intros Hs. pose proof (Ht Hs) as Ht'.
  destruct (H4 Hs) as (G1 & G2 & G3 & G4).
  unfold ids_valid. simpl. split_and!; [done..|].
  intros t' key' v' Hin. apply in_app_or in Hin as [Hin|[[= <- <- <-]|[]]].
  - by eapply G4.
  - done.
Qed.

Lemma AddArgsAndName_Ok uuid r t p s0 s a s' :
  extends s0 s -> (ids_valid s0 -> valid_id t s) ->
  AddArgsAndName uuid r t p s = Ok (a, s') ->
  a = t /\ extends s0 s' /\ (length (tracks s) <= length (tracks s'))%nat.
Proof.
  intros Hext Ht. unfold AddArgsAndName, AddArg. intros H.
  apply bind_Ok in H as ([] & s1 & Hm & H). apply modify_Ok in Hm as ->.
  apply bind_Ok in H as ([] & s2 & Hm & H). apply modify_Ok in Hm as ->.
  pose proof (extends_AddArg _ _ _ source_key_
                (VString descriptor_source_) Hext Ht) as Hext1.
  pose proof (extends_AddArg _ _ t source_id_key_
                (VInteger (static_cast_int64 uuid)) Hext1 Ht) as Hext2.
  apply bind_Ok in H as ([] & s3 & Hm3 & H).
  assert (Hext3 : extends s0 s3 /\ length (tracks s3) = length (tracks s)).
  { destruct p as [p|].
    - apply modify_Ok in Hm3 as ->. split; [|done].
      by apply extends_AddArg.
    - apply ret_Ok in Hm3 as [_ ->]. done. }
  destruct Hext3 as [Hext3 Hlen3].
  assert (Ht3 : ids_valid s0 -> valid_id t s3).
  { intros Hs. unfold valid_id. rewrite Hlen3. by apply Ht. }
  apply bind_Ok in H as ([] & s4 & Hm4 & H).
  assert (Hext4 : extends s0 s4 /\ length (tracks s4) = length (tracks s)).
  { destruct (negb _).
    - apply modify_Ok in Hm4 as ->. split; [|done]. by apply extends_AddArg.
    - by apply ret_Ok in Hm4 as [_ ->]. }
  destruct Hext4 as [Hext4 Hlen4].
  apply set_track_name_and_return_Ok in H as [-> Hext5].
  split_and!; [done|ext_to|]. rewrite <- Hlen4. apply Hext5.
Qed.

Lemma UpdateTrackName_Ok uuid ev t s a s' :
  UpdateTrackName uuid ev t s = Ok (a, s') ->
  a = Some t /\ extends s s' /\ valid_id t s.
Proof.
  unfold UpdateTrackName, IndexOf, name_at, SetName. intros H. inv_ok.
  all: split_and!; [done|ext_to|].
  all: match goal with
       | H : (if (?t <? ?l)%nat then _ else _) = Some _ |- _ =>
           destruct (Nat.ltb_spec t l); [done|discriminate]
       end.
Qed.
End RunOk2.

Section RunOkBodies.
Context {PT : Type} {ops : ProcessTrackerOps PT} {same : SameTrack}
        {build : BuildConfig}.
Implicit Types s : State PT.
Abbreviation M := (M (PT:=PT)).

Lemma run_ok_fail {A} (V : A -> State PT -> Prop) e : run_ok V (fail e).
Proof. intros s a s' H. discriminate. Qed.

Lemma run_ok_ResolveParent
    (impl : Z -> option (list Z) -> M (option TrackId)) uuid r desc :
  (forall u d, run_ok valid_opt (impl u d)) ->
  run_ok valid_opt (ResolveParent impl uuid r desc).
Proof.
  intros Hi s a s' H. unfold ResolveParent in H.
  repeat match type of H with
         | (if ?c then _ else _) _ = _ => destruct c
         end;
    try (by apply Hi in H);
    inv_ok; (split; [ext_to|intros _ ? [=]]).
Qed.

Lemma ResolveDefaultParent_Ok (dflt : M TrackId) uuid desc p s a s' :
  run_ok valid_id dflt ->
  ResolveDefaultParent dflt uuid desc p s = Ok (a, s') ->
  extends s s' /\ (ids_valid s -> valid_opt p s -> valid_opt a s').
Proof.
  intros Hd H. unfold ResolveDefaultParent in H.
  repeat match type of H with
         | (if ?c then _ else _) _ = _ => destruct c
         end;
    inv_ok; try (split; [ext_to|done]).
  apply Hd in Hrun as [Hext Hv]. split; [done|].
  intros Hs _ t [= <-]. by apply Hv.
Qed.

Lemma run_ok_ResolveDescriptorTrack_body
    (impl : Z -> option (list Z) -> M (option TrackId)) (dflt : M TrackId)
    uuid r desc :
  (forall u d, run_ok valid_opt (impl u d)) ->
  run_ok valid_id dflt ->
  run_ok valid_id (ResolveDescriptorTrack_body impl dflt uuid r desc).
Proof.
  intros Hi Hd s a s' H. unfold ResolveDescriptorTrack_body in H.
  apply bind_Ok in H as (parent & s1 & Hp & H).
  apply (run_ok_ResolveParent _ _ _ _ Hi) in Hp as [Hext1 Hv1].
  destruct (tid r) as [tid_|].
  { apply run_ok_ResolveThreadTrack in H as [Hext2 Hv2].
    split; [ext_to|intros Hv; use_valid; done]. }
  destruct (pid r) as [pid_|].
  { apply run_ok_ResolveProcessTrack in H as [Hext2 Hv2].
    split; [ext_to|intros Hv; use_valid; done]. }
  apply bind_Ok in H as (track_id & s2 & Hu & H).
  apply run_ok_ResolveUnderParent in Hu as [Hext2 Hv2].
  destruct track_id as [t|].
  - assert (Hs2 : extends s s2) by ext_to.
    assert (Ht : ids_valid s -> valid_id t s2).
    { intros Hv. use_valid. by apply Hv2. }
    destruct (AddArgsAndName_Ok _ _ _ _ _ _ _ _ Hs2 Ht H)
      as (-> & Hext3 & Hlen).
    split; [done|intros Hv]. specialize (Ht Hv). unfold valid_id in *. lia.
  - apply bind_Ok in H as (t & s3 & Hg & H).
    apply run_ok_InsertGlobalTrack in Hg as [Hext3 Hv3].
    apply bind_Ok in H as (p & s4 & Hdp & H).
    apply (ResolveDefaultParent_Ok _ _ _ _ _ _ _ Hd) in Hdp as [Hext4 _].
    assert (Hs4 : extends s s4) by ext_to.
    assert (Ht : ids_valid s -> valid_id t s4).
    { intros Hv. use_valid. by apply (extends_valid_id s3). }
    destruct (AddArgsAndName_Ok _ _ _ _ _ _ _ _ Hs4 Ht H)
      as (-> & Hext5 & Hlen).
    split; [done|intros Hv]. specialize (Ht Hv). unfold valid_id in *. lia.
Qed.

Lemma extends_memoize s s2 uuid t :
  extends s s2 ->
  is_Some (reserved_descriptor_tracks_ s !! uuid) ->
  (ids_valid s -> valid_id t s2) ->
  extends s (set_resolved (insert uuid t) s2).
Proof.
  intros Hext [r Hr] Hv.
  pose proof (extends_reserved _ _ _ _ Hext Hr) as Hr2.
  destruct Hext as (H1 & H2 & H3 & H4).
  unfold extends. simpl. split_and!; [done..| |].
  - intros Hinv u t'. simpl. rewrite lookup_insert.
    case_decide; [by subst|by apply H3].
  - intros Hs. destruct (H4 Hs) as (G1 & G2 & G3 & G4).
    unfold ids_valid. simpl. split_and!; [|done..].
    intros u t'. rewrite lookup_insert. case_decide; [|apply G1].
    intros [= <-]. by apply Hv.
Qed.

Lemma run_ok_GetDescriptorTrackImpl_body
    (resolve : Z -> DescriptorTrackReservation -> option (list Z) ->
               M TrackId) uuid desc :
  (forall u r d, run_ok valid_id (resolve u r d)) ->
  run_ok valid_opt (GetDescriptorTrackImpl_body resolve uuid desc).
Proof.
  intros Hr s a s' H. unfold GetDescriptorTrackImpl_body in H.
  apply bind_Ok in H as (it & s0 & Hg & H). apply gets_Ok in Hg as [-> ->].
  destruct (resolved_descriptor_tracks_ s !! uuid) as [t|] eqn:Hres.
  { apply ret_Ok in H as [-> ->]. split; [ext_to|].
    intros (Hv & _) t' [= <-]. by apply Hv in Hres. }
  apply bind_Ok in H as (rit & s0 & Hg & H). apply gets_Ok in Hg as [-> ->].
  destruct (reserved_descriptor_tracks_ s !! uuid) as [r|] eqn:Hrs.
  - apply bind_Ok in H as (t & s2 & Hrun & H).
    apply bind_Ok in H as ([] & s3 & Hm & H).
    apply modify_Ok in Hm as ->. apply ret_Ok in H as [-> ->].
    apply Hr in Hrun as [Hext Hv].
    split; [|intros Hs t' [= <-]; by apply Hv].
    apply extends_memoize; [done|by rewrite Hrs|done].
  - apply ret_Ok in H as [-> ->]. split; [ext_to|by intros _ t' [=]].
Qed.

Lemma run_ok_GetDescriptorTrack_body
    (impl : Z -> option (list Z) -> M (option TrackId)) uuid ev :
  (forall u d, run_ok valid_opt (impl u d)) ->
  run_ok valid_opt (GetDescriptorTrack_body impl uuid ev).
Proof.
  intros Hi s a s' H. unfold GetDescriptorTrack_body in H.
  apply bind_Ok in H as (o & s1 & Himpl & H).
  apply Hi in Himpl as [Hext Hv].
  destruct o as [t|]; [|inv_ok; by split].
  destruct (is_null ev); [inv_ok; by split|].
  apply UpdateTrackName_Ok in H as (-> & Hext' & Ht).
  split; [ext_to|]. intros _ t' [= <-]. by apply (extends_valid_id s1).
Qed.

Lemma run_ok_GetOrCreateDefaultDescriptorTrack_body
    (getdt : Z -> StringId -> M (option TrackId)) :
  (forall u e, run_ok valid_opt (getdt u e)) ->
  run_ok valid_id (GetOrCreateDefaultDescriptorTrack_body getdt).
Proof.
  intros Hg s a s' H. unfold GetOrCreateDefaultDescriptorTrack_body in H.
  apply bind_Ok in H as (o & s1 & Hg1 & H).
  apply Hg in Hg1 as [Hext1 Hv1].
  destruct o as [t|].
  - inv_ok. split; [done|]. intros Hs. by apply Hv1.
  - apply bind_Ok in H as ([] & s2 & Hm & H). apply modify_Ok in Hm.
    apply bind_Ok in H as (o & s3 & Hg2 & H).
    apply Hg in Hg2 as [Hext2 Hv2]. apply deref_Ok in H as [-> ->].
    subst s2. split; [ext_to|]. intros Hs. use_valid. by apply Hv2.
Qed.

Lemma run_ok_all fuel :
  (forall u d, run_ok valid_opt (GetDescriptorTrackImpl fuel u d))
  /\ (forall u r d, run_ok valid_id (ResolveDescriptorTrack fuel u r d))
  /\ run_ok valid_id (GetOrCreateDefaultDescriptorTrack fuel)
  /\ (forall u e, run_ok valid_opt (GetDescriptorTrack fuel u e)).
Proof.
  induction fuel as [|fuel (IHi & IHr & IHd & IHg)].
  - split_and!; intros; apply run_ok_fail.
  - split_and!; intros; simpl.
    + by apply run_ok_GetDescriptorTrackImpl_body.
    + by apply run_ok_ResolveDescriptorTrack_body.
    + by apply run_ok_GetOrCreateDefaultDescriptorTrack_body.
    + by apply run_ok_GetDescriptorTrack_body.
Qed.

Lemma run_ok_GetDescriptorTrack fuel u e :
  run_ok valid_opt (GetDescriptorTrack fuel u e).
Proof. apply run_ok_all. Qed.

Lemma run_ok_GetDescriptorTrackImpl fuel u d :
  run_ok valid_opt (GetDescriptorTrackImpl fuel u d).
Proof. apply run_ok_all. Qed.

Lemma run_ok_GetOrCreateDefaultDescriptorTrack fuel :
  run_ok valid_id (GetOrCreateDefaultDescriptorTrack fuel).
Proof. apply run_ok_all. Qed.
End RunOkBodies.

(** ** The reservation check of line 177 can only fail at the top level *)

Section Check177.
Context {PT : Type} {ops : ProcessTrackerOps PT} {same : SameTrack}
        {build : BuildConfig}.

Lemma never_check_177_all fuel :
  (forall u d, never (CheckFailed 177) (GetDescriptorTrackImpl fuel u d))
  /\ (forall u r d,
        never (CheckFailed 177) (ResolveDescriptorTrack fuel u r d))
  /\ never (CheckFailed 177) (GetOrCreateDefaultDescriptorTrack fuel)
  /\ (forall u, never (CheckFailed 177)
                  (GetDescriptorTrack fuel u kNullStringId)).
Proof.
  induction fuel as [|fuel (IHi & IHr & IHd & IHg)].
  - split_and!; intros; by apply never_fail.
  - split_and!; intros; simpl.
    + by apply never_GetDescriptorTrackImpl_body.
    + apply never_ResolveDescriptorTrack_body; [done..| |]; intros; done.
    + by apply never_GetOrCreateDefaultDescriptorTrack_body.
    + apply never_GetDescriptorTrack_body; [done..|]. by right.
Qed.
End Check177.

(** ** Resolution does not observe the inconsistency counter *)

Section Commutes.
Context {PT : Type} {ops : ProcessTrackerOps PT} {same : SameTrack}
        {build : BuildConfig}.
Implicit Types s : State PT.
Abbreviation M := (M (PT:=PT)).
Abbreviation bump := (IncrementStats (PT:=PT)).

Lemma commutes_ret {A} (a : A) : commutes bump (ret a).
Proof. by intros s. Qed.

Lemma commutes_fail {A} e : commutes bump (fail (A:=A) e).
Proof. by intros s. Qed.

Lemma commutes_gets {A} (f : State PT -> A) :
  (forall s, f (bump s) = f s) -> commutes bump (gets f).
Proof. intros Hf s. unfold gets. simpl. by rewrite Hf. Qed.

Lemma commutes_modify (f : State PT -> State PT) :
  (forall s, f (bump s) = bump (f s)) -> commutes bump (modify f).
Proof. intros Hf s. unfold modify. simpl. by rewrite Hf. Qed.

Lemma commutes_bind {A B} (m : M A) (k : A -> M B) :
  commutes bump m -> (forall a, commutes bump (k a)) ->
  commutes bump (bind m k).
Proof.
  intros Hm Hk s. unfold bind. rewrite Hm.
  destruct (m s) as [[a s']|e]; simpl; [apply Hk|done].
Qed.

Lemma commutes_deref {A} (o : option A) : commutes bump (deref o).
Proof. destruct o; [apply commutes_ret|apply commutes_fail]. Qed.

Lemma commutes_PERFETTO_CHECK line b :
  commutes bump (PERFETTO_CHECK line b).
Proof. destruct b; [apply commutes_ret|apply commutes_fail]. Qed.

Lemma commutes_PERFETTO_DCHECK line b :
  commutes bump (PERFETTO_DCHECK line b).
Proof.
  unfold PERFETTO_DCHECK.
  destruct PERFETTO_DCHECK_IS_ON;
    [apply commutes_PERFETTO_CHECK|apply commutes_ret].
Qed.

Lemma commutes_call_process_tracker {A} (f : PT -> A * PT) :
  commutes bump (call_process_tracker f).
Proof.
  intros s. unfold call_process_tracker. simpl.
  by destruct (f (process_tracker s)).
Qed.

Lemma commutes_Insert row : commutes bump (Insert row).
Proof. by intros s. Qed.

Lemma ReserveDescriptorChildTrack_bump uuid p n s :
  ReserveDescriptorChildTrack uuid p n (bump s)
  = bump (ReserveDescriptorChildTrack uuid p n s).
Proof.
  unfold ReserveDescriptorChildTrack. simpl.
  destruct (reserved_descriptor_tracks_ s !! uuid); [|done].
  by destruct (IsForSameTrack _ _).
Qed.
End Commutes.

Ltac commutes_step :=
  first
    [ apply commutes_bind; [ | intros ? ]
    | apply commutes_ret | apply commutes_fail
    | apply commutes_gets; intros; reflexivity
    | apply commutes_modify; intros; reflexivity
    | apply commutes_modify; intros; apply ReserveDescriptorChildTrack_bump
    | apply commutes_deref | apply commutes_PERFETTO_CHECK
    | apply commutes_PERFETTO_DCHECK
    | apply commutes_call_process_tracker | apply commutes_Insert
    | match goal with
      | |- commutes _ (match ?x with _ => _ end) => destruct x
      | |- commutes _ (if ?x then _ else _) => destruct x
      end ].

Section CommutesBodies.
Context {PT : Type} {ops : ProcessTrackerOps PT} {same : SameTrack}
        {build : BuildConfig}.
Implicit Types s : State PT.
Abbreviation M := (M (PT:=PT)).
Abbreviation bump := (IncrementStats (PT:=PT)).

Lemma commutes_set_track_name_and_return r t :
  commutes bump (set_track_name_and_return r t).
Proof.
  unfold set_track_name_and_return, IndexOf, SetName. repeat commutes_step.
Qed.

Lemma commutes_ResolveThreadTrack uuid r tid_ :
  commutes bump (ResolveThreadTrack uuid r tid_).
Proof.
  unfold ResolveThreadTrack, InternThreadTrack.
  repeat commutes_step; apply commutes_set_track_name_and_return.
Qed.

Lemma commutes_ResolveProcessTrack uuid r pid_ :
  commutes bump (ResolveProcessTrack uuid r pid_).
Proof.
  unfold ResolveProcessTrack, InternProcessTrack.
  repeat commutes_step; apply commutes_set_track_name_and_return.
Qed.

Lemma commutes_ResolveUnderParent r p :
  commutes bump (ResolveUnderParent r p).
Proof.
  unfold ResolveUnderParent, IndexOfIn, utid_at, upid_at.
  repeat commutes_step.
Qed.

Lemma commutes_AddArgsAndName uuid r t p :
  commutes bump (AddArgsAndName uuid r t p).
Proof.
  unfold AddArgsAndName, AddArg.
  repeat commutes_step; apply commutes_set_track_name_and_return.
Qed.

Lemma commutes_UpdateTrackName uuid ev t :
  commutes bump (UpdateTrackName uuid ev t).
Proof.
  unfold UpdateTrackName, IndexOf, name_at, SetName. repeat commutes_step.
Qed.

Lemma commutes_ResolveDescriptorTrack_body
    (impl : Z -> option (list Z) -> M (option TrackId)) (dflt : M TrackId)
    uuid r desc :
  (forall u d, commutes bump (impl u d)) ->
  commutes bump dflt ->
  commutes bump (ResolveDescriptorTrack_body impl dflt uuid r desc).
Proof.
  intros Hi Hd.
  unfold ResolveDescriptorTrack_body, ResolveParent, ResolveDefaultParent,
    InsertGlobalTrack.
  repeat first
    [ apply Hi | apply Hd
    | apply commutes_ResolveThreadTrack | apply commutes_ResolveProcessTrack
    | apply commutes_ResolveUnderParent | apply commutes_AddArgsAndName
    | commutes_step ].
Qed.

Lemma commutes_GetDescriptorTrackImpl_body
    (resolve : Z -> DescriptorTrackReservation -> option (list Z) ->
               M TrackId) uuid desc :
  (forall u r d, commutes bump (resolve u r d)) ->
  commutes bump (GetDescriptorTrackImpl_body resolve uuid desc).
Proof.
  intros Hr. unfold GetDescriptorTrackImpl_body.
  repeat first [ apply Hr | commutes_step ].
Qed.

Lemma commutes_GetDescriptorTrack_body
    (impl : Z -> option (list Z) -> M (option TrackId)) uuid ev :
  (forall u d, commutes bump (impl u d)) ->
  commutes bump (GetDescriptorTrack_body impl uuid ev).
Proof.
  intros Hi. unfold GetDescriptorTrack_body.
  repeat first [ apply Hi | apply commutes_UpdateTrackName | commutes_step ].
Qed.

Lemma commutes_GetOrCreateDefaultDescriptorTrack_body
    (getdt : Z -> StringId -> M (option TrackId)) :
  (forall u e, commutes bump (getdt u e)) ->
  commutes bump (GetOrCreateDefaultDescriptorTrack_body getdt).
Proof.
  intros Hg. unfold GetOrCreateDefaultDescriptorTrack_body.
  repeat first [ apply Hg | commutes_step ].
Qed.

Lemma commutes_all fuel :
  (forall u d, commutes bump (GetDescriptorTrackImpl fuel u d))
  /\ (forall u r d, commutes bump (ResolveDescriptorTrack fuel u r d))
  /\ commutes bump (GetOrCreateDefaultDescriptorTrack fuel)
  /\ (forall u e, commutes bump (GetDescriptorTrack fuel u e)).
Proof.
  induction fuel as [|fuel (IHi & IHr & IHd & IHg)].
  - split_and!; intros; apply commutes_fail.
  - split_and!; intros; simpl.
    + by apply commutes_GetDescriptorTrackImpl_body.
    + by apply commutes_ResolveDescriptorTrack_body.
    + by apply commutes_GetOrCreateDefaultDescriptorTrack_body.
    + by apply commutes_GetDescriptorTrack_body.
Qed.

Lemma commutes_GetDescriptorTrack fuel u e :
  commutes bump (GetDescriptorTrack fuel u e).
Proof. apply commutes_all. Qed.
End CommutesBodies.

(** * The claims *)

(** ** Reservation Store *)

Section ReserveFacts.
Context {PT : Type} {ops : ProcessTrackerOps PT} {same : SameTrack}
        {build : BuildConfig}.
Implicit Types s : State PT.

Lemma Reserve_mismatch (d : Declaration) s it :
  reserved_descriptor_tracks_ s !! declared_uuid d = Some it ->
  IsForSameTrack it (candidate d) = false ->
  Reserve d s = IncrementStats s.
Proof.
  intros Hit Hsame.
  destruct d; simpl in *;
    unfold ReserveDescriptorProcessTrack, ReserveDescriptorThreadTrack,
      ReserveDescriptorCounterTrack, ReserveDescriptorChildTrack;
    rewrite Hit; simpl; by rewrite Hsame.
Qed.

Lemma Reserve_match (d : Declaration) s it :
  reserved_descriptor_tracks_ s !! declared_uuid d = Some it ->
  IsForSameTrack it (candidate d) = true ->
  Reserve d s =
    match declared_timestamp d with
    | Some ts =>
        set_reserved
          (insert (declared_uuid d)
             (set_min_timestamp (Z.min (min_timestamp it) ts) it)) s
    | None => s
    end.
Proof.
  intros Hit Hsame.
  destruct d; simpl in *;
    unfold ReserveDescriptorProcessTrack, ReserveDescriptorThreadTrack,
      ReserveDescriptorCounterTrack, ReserveDescriptorChildTrack;
    rewrite Hit; simpl; by rewrite Hsame.
Qed.

Lemma Reserve_fresh (d : Declaration) s :
  reserved_descriptor_tracks_ s !! declared_uuid d = None ->
  Reserve d s = set_reserved (insert (declared_uuid d) (candidate d)) s.
Proof.
  intros Hit.
  destruct d; simpl in *;
    unfold ReserveDescriptorProcessTrack, ReserveDescriptorThreadTrack,
      ReserveDescriptorCounterTrack, ReserveDescriptorChildTrack;
    by rewrite Hit.
Qed.

(** C2: for every uuid that already has a reservation, a declaration whose
    candidate fails the same-track predicate leaves the whole tracker as it
    was except for the inconsistency counter, which goes up by one: the
    stored reservation is unchanged, and resolving any uuid afterwards
    gives the row, and the state, it would have given without the rejected
    declaration (up to that counter). *)
Theorem mismatching_redeclaration_is_rejected (d : Declaration) s it :
  reserved_descriptor_tracks_ s !! declared_uuid d = Some it ->
  IsForSameTrack it (candidate d) = false ->
  reserved_descriptor_tracks_ (Reserve d s) = reserved_descriptor_tracks_ s
  /\ track_event_tokenizer_errors (Reserve d s)
     = S (track_event_tokenizer_errors s)
  /\ Reserve d s = IncrementStats s
  /\ forall fuel uuid event_name,
       GetDescriptorTrack fuel uuid event_name (Reserve d s)
       = map_state IncrementStats (GetDescriptorTrack fuel uuid event_name s).
Proof.
  intros Hit Hsame. rewrite (Reserve_mismatch d s it Hit Hsame).
  split_and!; [done..|]. intros fuel uuid ev.
  apply commutes_GetDescriptorTrack.
Qed.

(** C8 (amended): the stored [min_timestamp] after a redeclaration is the
    minimum of the stored and the declared timestamp when the declaration
    is accepted and carries a timestamp, and is the stored value otherwise:
    the timestamp of a rejected declaration is not merged. *)
Theorem min_timestamp_after_redeclaration (d : Declaration) s it :
  reserved_descriptor_tracks_ s !! declared_uuid d = Some it ->
  min_timestamp <$> reserved_descriptor_tracks_ (Reserve d s)
                      !! declared_uuid d
  = Some (match declared_timestamp d with
          | Some timestamp =>
              if IsForSameTrack it (candidate d)
              then Z.min (min_timestamp it) timestamp
              else min_timestamp it
          | None => min_timestamp it
          end).
Proof.
  intros Hit. destruct (IsForSameTrack it (candidate d)) eqn:Hsame.
  - rewrite (Reserve_match d s it Hit Hsame).
    destruct (declared_timestamp d); simpl.
    + by rewrite lookup_insert_eq.
    + by rewrite Hit.
  - rewrite (Reserve_mismatch d s it Hit Hsame). simpl. rewrite Hit.
    by destruct (declared_timestamp d).
Qed.

(** ** Counter Decoder *)

(** C3: a counter declared incremental on sequence 5 with unit multiplier 2
    turns the raw sample 3 into 6 and a following raw sample 4 into 14; a
    sample from sequence 9 is rejected and changes nothing, the running
    total stays 14; after the incremental state of sequence 5 is cleared,
    the raw sample 2 gives 4. *)
Theorem incremental_counter_scenario
    (C parent : Z) (name_ category_ : StringId) s :
  reserved_descriptor_tracks_ s !! C = None ->
  let s0 := ReserveDescriptorCounterTrack C parent name_ category_ 2 true 5 s in
  let r1 := ConvertToAbsoluteCounterValue C 5 3 s0 in
  let r2 := ConvertToAbsoluteCounterValue C 5 4 (snd r1) in
  let r3 := ConvertToAbsoluteCounterValue C 9 1 (snd r2) in
  let s4 := OnIncrementalStateCleared 5 (snd r3) in
  let r5 := ConvertToAbsoluteCounterValue C 5 2 s4 in
  fst r1 = Some 6
  /\ fst r2 = Some 14
  /\ fst r3 = None
  /\ snd r3 = snd r2
  /\ latest_value <$> reserved_descriptor_tracks_ (snd r3) !! C = Some 14
  /\ fst r5 = Some 4.
Proof.
  intros Hfresh s0 r1 r2 r3 s4 r5.
  set (c := counter_track_reservation parent name_ category_ 2 true 5).
  assert (E0 : s0 = set_reserved (insert C c) s).
  { unfold s0, ReserveDescriptorCounterTrack. by rewrite Hfresh. }
  assert (E1 : r1 = (Some 6,
                     set_reserved (insert C (set_latest_value 6 c)) s0)).
  { unfold r1, ConvertToAbsoluteCounterValue. rewrite E0. simpl.
    by rewrite lookup_insert_eq. }
  assert (E2 : r2 = (Some 14,
                     set_reserved (insert C (set_latest_value 14 c))
                       (snd r1))).
  { unfold r2, ConvertToAbsoluteCounterValue. rewrite E1. simpl.
    by rewrite lookup_insert_eq. }
  assert (E3 : r3 = (None, snd r2)).
  { unfold r3, ConvertToAbsoluteCounterValue. rewrite E2. simpl.
    by rewrite lookup_insert_eq. }
  assert (E5 : r5 = (Some 4,
                     set_reserved (insert C (set_latest_value 4 c)) s4)).
  { unfold r5, ConvertToAbsoluteCounterValue, s4, OnIncrementalStateCleared.
    rewrite E3, E2. simpl. rewrite lookup_fmap, lookup_insert_eq. done. }
  rewrite E5, E3, E2, E1. simpl. split_and!; try done.
  by rewrite lookup_insert_eq.
Qed.
End ReserveFacts.


(** ** Evaluating the monad, one step at a time *)

Section Eval.
Context {PT : Type}.
Implicit Types s : State PT.
Abbreviation M := (M (PT:=PT)).

Lemma bind_ret {A B} (a : A) (k : A -> M B) s : bind (ret a) k s = k a s.
Proof. done. Qed.

Lemma bind_gets {A B} (f : State PT -> A) (k : A -> M B) s :
  bind (gets f) k s = k (f s) s.
Proof. done. Qed.

Lemma bind_modify {B} (f : State PT -> State PT) (k : unit -> M B) s :
  bind (modify f) k s = k tt (f s).
Proof. done. Qed.

Lemma bind_Insert {B} row (k : TrackId -> M B) s :
  bind (Insert row) k s
  = k (length (tracks s)) (set_tracks (fun l => l ++ [row]) s).
Proof. done. Qed.

Lemma bind_deref_Some {A B} (a : A) (k : A -> M B) s :
  bind (deref (Some a)) k s = k a s.
Proof. done. Qed.

Lemma bind_assoc {A B C} (m : M A) (k : A -> M B) (h : B -> M C) s :
  bind (bind m k) h s = bind m (fun a => bind (k a) h) s.
Proof. unfold bind. by destruct (m s) as [[a s']|e]. Qed.
End Eval.

(** Run the leading primitive of a computation. *)
Ltac mstep :=
  repeat
    (progress
       (rewrite ?bind_assoc, ?bind_gets, ?bind_modify, ?bind_ret,
          ?bind_Insert, ?bind_deref_Some;
        lazy beta iota)).

(** ** Resolution Engine: memoization and the event name *)

Section Memo.
Context {PT : Type} {ops : ProcessTrackerOps PT} {same : SameTrack}
        {build : BuildConfig}.
Implicit Types s : State PT.

Lemma GetDescriptorTrackImpl_memo f u d s t :
  resolved_descriptor_tracks_ s !! u = Some t ->
  GetDescriptorTrackImpl (S f) u d s = Ok (Some t, s).
Proof.
  intros H. simpl. unfold GetDescriptorTrackImpl_body, bind, gets.
  by rewrite H.
Qed.

Lemma GetDescriptorTrackImpl_unknown f u d s :
  resolved_descriptor_tracks_ s !! u = None ->
  reserved_descriptor_tracks_ s !! u = None ->
  GetDescriptorTrackImpl (S f) u d s = Ok (None, s).
Proof.
  intros H1 H2. simpl. unfold GetDescriptorTrackImpl_body, bind, gets.
  by rewrite H1, H2.
Qed.

Lemma GetDescriptorTrackImpl_fresh f u d s r t s1 :
  resolved_descriptor_tracks_ s !! u = None ->
  reserved_descriptor_tracks_ s !! u = Some r ->
  ResolveDescriptorTrack f u r d s = Ok (t, s1) ->
  GetDescriptorTrackImpl (S f) u d s
  = Ok (Some t, set_resolved (insert u t) s1).
Proof.
  intros H1 H2 H3. simpl. unfold GetDescriptorTrackImpl_body, bind, gets.
  by rewrite H1, H2, H3.
Qed.

Lemma GetDescriptorTrackImpl_Some fuel u d s t s' :
  GetDescriptorTrackImpl fuel u d s = Ok (Some t, s') ->
  resolved_descriptor_tracks_ s' !! u = Some t.
Proof.
  destruct fuel as [|f]; [discriminate|]. simpl.
  unfold GetDescriptorTrackImpl_body. intros H.
  apply bind_Ok in H as (it & s0 & Hg & H). apply gets_Ok in Hg as [-> ->].
  destruct (resolved_descriptor_tracks_ s !! u) as [t0|] eqn:Hres.
  { apply ret_Ok in H as [[= ->] ->]. done. }
  apply bind_Ok in H as (rit & s0 & Hg & H). apply gets_Ok in Hg as [-> ->].
  destruct (reserved_descriptor_tracks_ s !! u) as [r|];
    [|apply ret_Ok in H as [? _]; discriminate].
  apply bind_Ok in H as (t0 & s2 & Hrun & H).
  apply bind_Ok in H as ([] & s3 & Hm & H).
  apply modify_Ok in Hm as ->. apply ret_Ok in H as [[= ->] ->].
  simpl. apply lookup_insert_eq.
Qed.

Lemma GetDescriptorTrackImpl_None fuel u d s s' :
  GetDescriptorTrackImpl fuel u d s = Ok (None, s') ->
  s' = s
  /\ resolved_descriptor_tracks_ s !! u = None
  /\ reserved_descriptor_tracks_ s !! u = None.
Proof.
  destruct fuel as [|f]; [discriminate|]. simpl.
  unfold GetDescriptorTrackImpl_body. intros H.
  apply bind_Ok in H as (it & s0 & Hg & H). apply gets_Ok in Hg as [-> ->].
  destruct (resolved_descriptor_tracks_ s !! u) as [t0|] eqn:Hres.
  { apply ret_Ok in H as [? _]. discriminate. }
  apply bind_Ok in H as (rit & s0 & Hg & H). apply gets_Ok in Hg as [-> ->].
  destruct (reserved_descriptor_tracks_ s !! u) as [r|] eqn:Hr.
  - apply bind_Ok in H as (t0 & s2 & Hrun & H).
    apply bind_Ok in H as ([] & s3 & Hm & H).
    apply ret_Ok in H as [? _]. discriminate.
  - by apply ret_Ok in H as [_ ->].
Qed.

(** The three ways [UpdateTrackName] can succeed. *)
Lemma UpdateTrackName_cases uuid ev t s a s' :
  UpdateTrackName uuid ev t s = Ok (a, s') ->
  a = Some t
  /\ exists row, tracks s !! t = Some row
     /\ ((s' = s /\ is_null (track_name row) = false)
         \/ (exists res,
               reserved_descriptor_tracks_ s !! uuid = Some res
               /\ is_null (track_name row) = true
               /\ ((s' = s
                    /\ (is_Some (pid res) \/ is_Some (tid res)
                        \/ is_counter res = true))
                   \/ (s' = set_tracks (alter (set_track_name ev) t) s
                       /\ pid res = None /\ tid res = None
                       /\ is_counter res = false)))).
Proof.
  unfold UpdateTrackName, IndexOf, name_at, SetName. intros H.
  apply bind_Ok in H as (idx & s0 & Hg & H). apply gets_Ok in Hg as [-> ->].
  apply bind_Ok in H as (row & s0 & Hg & H). apply deref_Ok in Hg as [Hi ->].
  destruct (Nat.ltb_spec t (length (tracks s))) as [Hlt|]; [|discriminate].
  injection Hi as <-.
  destruct (lookup_lt_is_Some_2 _ _ Hlt) as [row Hrow].
  apply bind_Ok in H as (nm & s0 & Hg & H). apply gets_Ok in Hg as [-> ->].
  rewrite Hrow in H.
  destruct (is_null (track_name row)) eqn:Hnull; simpl in H.
  2:{ apply ret_Ok in H as [-> ->]. split; [done|]. exists row. auto. }
  apply bind_Ok in H as (rit & s0 & Hg & H). apply gets_Ok in Hg as [-> ->].
  destruct (reserved_descriptor_tracks_ s !! uuid) as [res|] eqn:Hres;
    [|discriminate].
  destruct (pid res) as [p|] eqn:Hp; simpl in H.
  { apply ret_Ok in H as [-> ->]. split; [done|]. exists row.
    split; [done|]. right. exists res. rewrite Hp. naive_solver. }
  destruct (tid res) as [q|] eqn:Hq; simpl in H.
  { apply ret_Ok in H as [-> ->]. split; [done|]. exists row.
    split; [done|]. right. exists res. rewrite Hq. naive_solver. }
  destruct (is_counter res) eqn:Hc; simpl in H.
  { apply ret_Ok in H as [-> ->]. split; [done|]. exists row.
    split; [done|]. right. exists res. naive_solver. }
  apply bind_Ok in H as ([] & s0 & Hm & H). apply modify_Ok in Hm as ->.
  apply ret_Ok in H as [-> ->]. split; [done|]. exists row.
  split; [done|]. right. exists res. rewrite Hp, Hq. naive_solver.
Qed.

Lemma UpdateTrackName_named uuid ev t s row :
  tracks s !! t = Some row -> is_null (track_name row) = false ->
  UpdateTrackName uuid ev t s = Ok (Some t, s).
Proof.
  intros Hrow Hn. unfold UpdateTrackName, IndexOf, name_at.
  apply lookup_lt_Some in Hrow as Hlt. apply Nat.ltb_lt in Hlt.
  mstep. rewrite Hlt. mstep. rewrite Hrow. mstep. by rewrite Hn.
Qed.

Lemma UpdateTrackName_primary uuid ev t s row res :
  tracks s !! t = Some row ->
  reserved_descriptor_tracks_ s !! uuid = Some res ->
  is_Some (pid res) \/ is_Some (tid res) \/ is_counter res = true ->
  UpdateTrackName uuid ev t s = Ok (Some t, s).
Proof.
  intros Hrow Hres Hp.
  destruct (is_null (track_name row)) eqn:Hn;
    [|by eapply UpdateTrackName_named].
  unfold UpdateTrackName, IndexOf, name_at.
  apply lookup_lt_Some in Hrow as Hlt. apply Nat.ltb_lt in Hlt.
  mstep. rewrite Hlt. mstep. rewrite Hrow. mstep. rewrite Hn.
  cbn [negb]. mstep. rewrite Hres. mstep.
  assert (bool_decide (is_Some (pid res)) || bool_decide (is_Some (tid res))
          || is_counter res = true) as ->; [|done].
  destruct Hp as [Hp|[Hp|Hp]].
  - by rewrite (bool_decide_eq_true_2 _ Hp).
  - rewrite (bool_decide_eq_true_2 _ Hp). by rewrite orb_true_r.
  - rewrite Hp. by rewrite orb_true_r.
Qed.

Lemma UpdateTrackName_total uuid ev t s :
  valid_id t s -> is_Some (reserved_descriptor_tracks_ s !! uuid) ->
  exists s', UpdateTrackName uuid ev t s = Ok (Some t, s')
             /\ (s' = s \/ s' = set_tracks (alter (set_track_name ev) t) s).
Proof.
  intros Hlt [res Hres]. unfold valid_id in Hlt.
  destruct (lookup_lt_is_Some_2 _ _ Hlt) as [row Hrow].
  unfold UpdateTrackName, IndexOf, name_at, SetName.
  apply Nat.ltb_lt in Hlt.
  mstep. rewrite Hlt. mstep. rewrite Hrow. mstep.
  destruct (negb (is_null (track_name row))); [eauto|].
  mstep. rewrite Hres. mstep.
  destruct (_ || _ || _); [eauto|]. mstep. eauto.
Qed.

(** What a successful [GetDescriptorTrack] did: the (possibly memoized)
    resolution, then at most the event-name update. *)
Lemma GetDescriptorTrack_Ok fuel uuid ev s r s1 :
  GetDescriptorTrack fuel uuid ev s = Ok (r, s1) ->
  exists fuel0 s0,
    fuel = S fuel0
    /\ GetDescriptorTrackImpl fuel0 uuid None s = Ok (r, s0)
    /\ match r with
       | None => s1 = s0
       | Some t =>
           (is_null ev = true /\ s1 = s0)
           \/ (is_null ev = false
               /\ UpdateTrackName uuid ev t s0 = Ok (Some t, s1))
       end.
Proof.
  destruct fuel as [|f]; [discriminate|]. simpl.
  unfold GetDescriptorTrack_body. intros H.
  apply bind_Ok in H as (o & s0 & Hi & H). exists f, s0.
  destruct o as [t|].
  - destruct (is_null ev) eqn:Hn.
    + apply ret_Ok in H as [-> ->]. auto.
    + pose proof (UpdateTrackName_cases _ _ _ _ _ _ H) as [-> _]. auto.
  - apply ret_Ok in H as [-> ->]. auto.
Qed.

Lemma GetDescriptorTrack_memo f uuid ev s t s' :
  resolved_descriptor_tracks_ s !! uuid = Some t ->
  (if is_null ev then s' = s
   else UpdateTrackName uuid ev t s = Ok (Some t, s')) ->
  GetDescriptorTrack (S (S f)) uuid ev s = Ok (Some t, s').
Proof.
  intros Hres Hev.
  change (GetDescriptorTrack (S (S f)) uuid ev s)
    with (bind (GetDescriptorTrackImpl (S f) uuid None)
            (fun track_id =>
               match track_id with
               | None => ret None
               | Some id => if is_null ev then ret (Some id)
                            else UpdateTrackName uuid ev id
               end) s).
  rewrite (bind_eq_Ok _ _ _ _ _ (GetDescriptorTrackImpl_memo f _ _ _ _ Hres)).
  destruct (is_null ev); [by subst|done].
Qed.
End Memo.

Section ResolveClaims.
Context {PT : Type} {ops : ProcessTrackerOps PT} {same : SameTrack}
        {build : BuildConfig}.
Implicit Types s : State PT.

Lemma name_after_SetName t ev s row :
  tracks s !! t = Some row ->
  tracks (set_tracks (alter (set_track_name ev) t) s) !! t
  = Some (set_track_name ev row).
Proof. intros Hrow. simpl. by rewrite list_lookup_alter_eq, Hrow. Qed.

(** Once [GetDescriptorTrack] has succeeded with a non-empty event name,
    a later call for the same uuid changes nothing. *)
Lemma UpdateTrackName_settled uuid ev ev' t s0 s1 :
  is_null ev = false ->
  UpdateTrackName uuid ev t s0 = Ok (Some t, s1) ->
  UpdateTrackName uuid ev' t s1 = Ok (Some t, s1).
Proof.
  intros Hev H.
  apply UpdateTrackName_cases in H as (_ & row & Hrow & Hc).
  destruct Hc as [[-> Hn]|(res & Hres & Hn & [[-> Hp]|(-> & _)])].
  - by eapply UpdateTrackName_named.
  - by eapply UpdateTrackName_primary.
  - eapply UpdateTrackName_named; [by apply name_after_SetName|done].
Qed.

(** C9: a call of [GetDescriptorTrack] with a non-empty event name writes
    that name into the resolved row exactly when the row's name is still
    unset and the reservation carries no pid, no tid and is not a counter:
    then the row is named after the event and nothing else changes.  In
    every other case the call writes nothing; in particular a row that has
    a name keeps it, and the row of a reservation with a pid, a tid or
    [is_counter] is never named after an event.  After the call every
    later call for that uuid, whatever its event name, leaves the tracker
    unchanged: the first non-empty name wins and the name is set at most
    once. *)
Theorem event_name_is_set_at_most_once fuel uuid event_name s r s1 :
  GetDescriptorTrack fuel uuid event_name s = Ok (r, s1) ->
  is_null event_name = false ->
  exists fuel0 s0,
    fuel = S fuel0
    /\ GetDescriptorTrackImpl fuel0 uuid None s = Ok (r, s0)
    /\ (s1 = s0
        \/ exists t row res,
             r = Some t
             /\ s1 = set_tracks (alter (set_track_name event_name) t) s0
             /\ tracks s0 !! t = Some row
             /\ is_null (track_name row) = true
             /\ reserved_descriptor_tracks_ s0 !! uuid = Some res
             /\ pid res = None /\ tid res = None /\ is_counter res = false)
    /\ (forall res,
          reserved_descriptor_tracks_ s0 !! uuid = Some res ->
          is_Some (pid res) \/ is_Some (tid res) \/ is_counter res = true ->
          s1 = s0)
    /\ (forall t row res,
          r = Some t ->
          tracks s0 !! t = Some row ->
          is_null (track_name row) = true ->
          reserved_descriptor_tracks_ s0 !! uuid = Some res ->
          pid res = None -> tid res = None -> is_counter res = false ->
          s1 = set_tracks (alter (set_track_name event_name) t) s0
          /\ tracks s1 !! t = Some (set_track_name event_name row)
          /\ track_name <$> tracks s1 !! t = Some event_name)
    /\ (forall t row,
          r = Some t ->
          tracks s0 !! t = Some row ->
          is_null (track_name row) = false ->
          s1 = s0)
    /\ (forall fuel' event_name',
          (2 <= fuel')%nat ->
          GetDescriptorTrack fuel' uuid event_name' s1 = Ok (r, s1)).
Proof.
  intros H Hev.
  apply GetDescriptorTrack_Ok in H as (fuel0 & s0 & -> & Himpl & Hr).
  exists fuel0, s0. split; [done|]. split; [done|].
  destruct r as [t|].
  - destruct Hr as [[Hn _]|[_ Hupd]]; [congruence|].
    pose proof (GetDescriptorTrackImpl_Some _ _ _ _ _ _ Himpl) as Hres0.
    pose proof (UpdateTrackName_cases _ _ _ _ _ _ Hupd)
      as (_ & row & Hrow & Hc).
    assert (Hres1 : resolved_descriptor_tracks_ s1 !! uuid = Some t).
    { destruct Hc as [[-> _]|(res & _ & _ & [[-> _]|(-> & _)])]; done. }
    split_and!.
    + destruct Hc as [[-> Hn]|(res & Hres & Hn & [[-> Hp]|(-> & Hp)])];
        [by left..|].
      right. exists t, row, res. destruct Hp as (? & ? & ?). by split_and!.
    + intros res Hres Hp.
      destruct Hc as [[-> Hn]|(res' & Hres' & Hn & [[-> _]|(-> & Hq)])];
        [done..|].
      rewrite Hres in Hres'. injection Hres' as <-.
      destruct Hq as (Hq1 & Hq2 & Hq3). rewrite Hq1, Hq2, Hq3 in Hp.
      destruct Hp as [[? ?]|[[? ?]|?]]; discriminate.
    + intros t' row' res [= <-] Hrow' Hnull Hres Hpid Htid Hcounter.
      rewrite Hrow in Hrow'. injection Hrow' as <-.
      assert (Hs1 : s1 = set_tracks (alter (set_track_name event_name) t) s0).
      { destruct Hc as [[_ Hn]|(res' & Hres' & _ & [[_ Hp]|[Hs1 _]])];
          [congruence| |done].
        rewrite Hres in Hres'. injection Hres' as <-.
        rewrite Hpid, Htid, Hcounter in Hp.
        destruct Hp as [[? ?]|[[? ?]|?]]; discriminate. }
      split; [done|]. rewrite Hs1.
      rewrite (name_after_SetName _ _ _ _ Hrow). done.
    + intros t' row' [= <-] Hrow' Hnamed.
      rewrite Hrow in Hrow'. injection Hrow' as <-.
      destruct Hc as [[Hs1 _]|(res' & _ & Hn & _)]; [done|congruence].
    + intros fuel' ev' Hf. destruct fuel' as [|[|f]]; [lia..|].
      apply GetDescriptorTrack_memo; [done|].
      destruct (is_null ev'); [done|].
      by eapply UpdateTrackName_settled.
  - subst s1.
    apply GetDescriptorTrackImpl_None in Himpl as (-> & Hres & Hrsv).
    split_and!; [by left|done|done|done|].
    intros fuel' ev' Hf. destruct fuel' as [|[|f]]; [lia..|].
    simpl. unfold GetDescriptorTrack_body, GetDescriptorTrackImpl_body.
    mstep. rewrite Hres. mstep. by rewrite Hrsv.
Qed.

(** C1: [GetDescriptorTrack] is idempotent.  After a successful call, a
    second call for the same uuid returns the same row: the lookup finds
    the memoized row and leaves the tracker untouched, and the whole call
    leaves it untouched when it is given the same event name; with another
    event name the only possible change is that name, written into the
    memoized row.  No reservation is resolved again: track table size,
    arguments, maps and process tracker are those the first call left. *)
Theorem GetDescriptorTrack_is_idempotent fuel uuid event_name s r s1 :
  well_formed s ->
  GetDescriptorTrack fuel uuid event_name s = Ok (r, s1) ->
  forall fuel', (2 <= fuel')%nat ->
    GetDescriptorTrackImpl (fuel' - 1) uuid None s1 = Ok (r, s1)
    /\ GetDescriptorTrack fuel' uuid event_name s1 = Ok (r, s1)
    /\ forall event_name',
         exists s2,
           GetDescriptorTrack fuel' uuid event_name' s1 = Ok (r, s2)
           /\ (s2 = s1
               \/ exists t,
                    r = Some t
                    /\ s2 = set_tracks
                              (alter (set_track_name event_name') t) s1).
Proof.
  intros [Hrr Hiv] H fuel' Hf.
  pose proof (run_ok_GetDescriptorTrack _ _ _ _ _ _ H) as [Hext Hval].
  pose proof (extends_resolved_are_reserved _ _ Hext Hrr) as Hrr1.
  specialize (Hval Hiv).
  pose proof (GetDescriptorTrack_Ok _ _ _ _ _ _ H)
    as (fuel0 & s0 & -> & Himpl & Hr).
  destruct fuel' as [|[|f]]; [lia..|].
  replace (S (S f) - 1)%nat with (S f) by lia.
  destruct r as [t|].
  - pose proof (GetDescriptorTrackImpl_Some _ _ _ _ _ _ Himpl) as Hres0.
    assert (Hres1 : resolved_descriptor_tracks_ s1 !! uuid = Some t).
    { destruct Hr as [[_ ->]|[_ Hupd]]; [done|].
      apply UpdateTrackName_cases in Hupd as (_ & row & Hrow & Hc).
      destruct Hc as [[-> _]|(res & _ & _ & [[-> _]|(-> & _)])]; done. }
    split_and!.
    + by apply GetDescriptorTrackImpl_memo.
    + apply GetDescriptorTrack_memo; [done|].
      destruct Hr as [[-> _]|[Hn Hupd]]; [done|]. rewrite Hn.
      by eapply UpdateTrackName_settled.
    + intros ev'. destruct (is_null ev') eqn:Hn'.
      * exists s1. split; [|by left].
        apply GetDescriptorTrack_memo; [done|]. by rewrite Hn'.
      * destruct (UpdateTrackName_total uuid ev' t s1) as (s2 & Hupd & Hs2).
        { by apply Hval. }
        { by eapply Hrr1. }
        exists s2. split.
        -- apply GetDescriptorTrack_memo; [done|]. by rewrite Hn'.
        -- destruct Hs2 as [->| ->]; [by left|right; eauto].
  - subst s1.
    apply GetDescriptorTrackImpl_None in Himpl as (-> & Hres & Hrsv).
    assert (Hget : forall ev', GetDescriptorTrack (S (S f)) uuid ev' s
                               = Ok (None, s)).
    { intros ev'. simpl.
      unfold GetDescriptorTrack_body, GetDescriptorTrackImpl_body.
      mstep. rewrite Hres. mstep. by rewrite Hrsv. }
    split_and!; [by apply GetDescriptorTrackImpl_unknown|done|].
    intros ev'. exists s. auto.
Qed.
End ResolveClaims.

Section InvariantClaim.
Context {PT : Type} {ops : ProcessTrackerOps PT} {same : SameTrack}
        {build : BuildConfig}.
Implicit Types s : State PT.

Lemma resolved_are_reserved_initial (pt : PT) :
  resolved_are_reserved (initial_state pt).
Proof. intros uuid t H. simpl in H. by rewrite lookup_empty in H. Qed.

Lemma resolved_are_reserved_Reserve (d : Declaration) s :
  resolved_are_reserved s -> resolved_are_reserved (Reserve d s).
Proof.
  intros Hinv.
  destruct (reserved_descriptor_tracks_ s !! declared_uuid d) as [it|] eqn:E.
  - destruct (IsForSameTrack it (candidate d)) eqn:Hsame.
    + rewrite (Reserve_match d s it E Hsame).
      destruct (declared_timestamp d); [|done].
      intros u t Hu. simpl in *. rewrite lookup_insert_is_Some.
      destruct (decide (declared_uuid d = u)); [by left|right].
      split; [done|]. by eapply Hinv.
    + rewrite (Reserve_mismatch d s it E Hsame). done.
  - rewrite (Reserve_fresh d s E).
    intros u t Hu. simpl in *. rewrite lookup_insert_is_Some.
    destruct (decide (declared_uuid d = u)); [by left|right].
    split; [done|]. by eapply Hinv.
Qed.

Lemma resolved_are_reserved_ConvertToAbsoluteCounterValue u q v s :
  resolved_are_reserved s ->
  resolved_are_reserved (snd (ConvertToAbsoluteCounterValue u q v s)).
Proof.
  intros Hinv. unfold ConvertToAbsoluteCounterValue.
  destruct (reserved_descriptor_tracks_ s !! u) as [r|] eqn:E; [|done].
  destruct (negb (is_counter r)); [done|].
  destruct (is_incremental r); [|done].
  destruct (negb (packet_sequence_id r =? q)); [done|].
  intros u' t Hu. simpl in *. rewrite lookup_insert_is_Some.
  destruct (decide (u = u')); [by left|right].
  split; [done|]. by eapply Hinv.
Qed.

Lemma resolved_are_reserved_OnIncrementalStateCleared q s :
  resolved_are_reserved s ->
  resolved_are_reserved (OnIncrementalStateCleared q s).
Proof.
  intros Hinv u t Hu. simpl in *. rewrite lookup_fmap.
  apply fmap_is_Some. by eapply Hinv.
Qed.

(** C10: every memoized uuid has a reservation.  The invariant holds in a
    freshly constructed tracker and is kept by every operation (the four
    declarations, the counter decoder and its reset, resolution and the
    default-track accessor); and wherever it holds, [GetDescriptorTrack]
    never fails the [PERFETTO_CHECK] of line 177. *)
Theorem resolved_uuids_have_reservations :
  (forall pt : PT, resolved_are_reserved (initial_state pt))
  /\ (forall (d : Declaration) s,
        resolved_are_reserved s -> resolved_are_reserved (Reserve d s))
  /\ (forall u q v s,
        resolved_are_reserved s ->
        resolved_are_reserved (snd (ConvertToAbsoluteCounterValue u q v s)))
  /\ (forall q s,
        resolved_are_reserved s ->
        resolved_are_reserved (OnIncrementalStateCleared q s))
  /\ (forall fuel uuid event_name s r s',
        resolved_are_reserved s ->
        GetDescriptorTrack fuel uuid event_name s = Ok (r, s') ->
        resolved_are_reserved s')
  /\ (forall fuel s t s',
        resolved_are_reserved s ->
        GetOrCreateDefaultDescriptorTrack fuel s = Ok (t, s') ->
        resolved_are_reserved s')
  /\ (forall fuel uuid event_name s,
        resolved_are_reserved s ->
        GetDescriptorTrack fuel uuid event_name s <> Err (CheckFailed 177)).
Proof.
  split_and!.
  - apply resolved_are_reserved_initial.
  - apply resolved_are_reserved_Reserve.
  - apply resolved_are_reserved_ConvertToAbsoluteCounterValue.
  - apply resolved_are_reserved_OnIncrementalStateCleared.
  - intros fuel uuid ev s r s' Hinv H.
    apply run_ok_GetDescriptorTrack in H as [Hext _].
    by apply (extends_resolved_are_reserved s).
  - intros fuel s t s' Hinv H.
    apply run_ok_GetOrCreateDefaultDescriptorTrack in H as [Hext _].
    by apply (extends_resolved_are_reserved s).
  - intros fuel uuid ev s Hinv H.
    destruct fuel as [|f]; [discriminate|]. simpl in H.
    unfold GetDescriptorTrack_body in H.
    apply bind_Err in H as [H|(o & s0 & Himpl & H)].
    { by apply (never_check_177_all f) in H. }
    destruct o as [t|]; [|discriminate].
    destruct (is_null ev); [discriminate|].
    pose proof (run_ok_GetDescriptorTrackImpl _ _ _ _ _ _ Himpl) as [Hext _].
    pose proof (extends_resolved_are_reserved _ _ Hext Hinv) as Hinv0.
    pose proof (GetDescriptorTrackImpl_Some _ _ _ _ _ _ Himpl) as Hres.
    destruct (Hinv0 _ _ Hres) as [res Hrsv].
    revert H. unfold UpdateTrackName, IndexOf, name_at, SetName.
    mstep. destruct (t <? _)%nat; [|discriminate]. mstep.
    destruct (negb _); [discriminate|]. mstep. rewrite Hrsv. mstep.
    destruct (_ || _ || _); [discriminate|]. mstep. discriminate.
Qed.
End InvariantClaim.

(** ** Evaluating resolution on tracks without OS identifiers *)

Section EvalResolve.
Context {PT : Type} {ops : ProcessTrackerOps PT} {same : SameTrack}
        {build : BuildConfig}.
Implicit Types s : State PT.
Abbreviation M := (M (PT:=PT)).

Lemma tracks_with_provenance_length uuid r t p s :
  length (tracks (with_provenance uuid r t p s)) = length (tracks s).
Proof.
  unfold with_provenance, add_arg.
  destruct p, (negb _), (is_null _); simpl; by rewrite ?length_alter.
Qed.

Lemma reserved_with_provenance uuid r t p s :
  reserved_descriptor_tracks_ (with_provenance uuid r t p s)
  = reserved_descriptor_tracks_ s.
Proof.
  unfold with_provenance, add_arg. by destruct p, (negb _), (is_null _).
Qed.

Lemma resolved_with_provenance uuid r t p s :
  resolved_descriptor_tracks_ (with_provenance uuid r t p s)
  = resolved_descriptor_tracks_ s.
Proof.
  unfold with_provenance, add_arg. by destruct p, (negb _), (is_null _).
Qed.

Lemma args_with_provenance uuid r t p s :
  args (with_provenance uuid r t p s)
  = args s
    ++ [(t, source_key_, VString descriptor_source_);
        (t, source_id_key_, VInteger (static_cast_int64 uuid))]
    ++ match p with
       | Some p => [(t, parent_track_id_key_, VInteger (Z.of_nat p))]
       | None => []
       end
    ++ (if negb (StringId_eqb (category r) kNullStringId)
        then [(t, category_key_, VString (category r))] else []).
Proof.
  unfold with_provenance, add_arg.
  destruct p, (negb _), (is_null _); simpl;
    by rewrite <- ?app_assoc, ?app_nil_r.
Qed.

Lemma AddArgsAndName_eval uuid r t p s :
  valid_id t s ->
  AddArgsAndName uuid r t p s = Ok (t, with_provenance uuid r t p s).
Proof.
  intros Ht. unfold AddArgsAndName, AddArg, with_provenance, add_arg.
  mstep.
  assert (Hname : forall s', length (tracks s') = length (tracks s) ->
            set_track_name_and_return r t s'
            = Ok (t, if is_null (name r) then s'
                     else set_tracks (alter (set_track_name (name r)) t) s')).
  { intros s' Hlen. unfold set_track_name_and_return, IndexOf, SetName.
    destruct (is_null (name r)); [done|]. mstep.
    unfold valid_id in Ht. rewrite Hlen.
    apply Nat.ltb_lt in Ht. rewrite Ht. by mstep. }
  destruct p as [p|]; mstep; destruct (negb _); mstep; by apply Hname.
Qed.

(** The parent chain (lines 223-258). *)

Lemma ResolveParent_no_parent
    (impl : Z -> option (list Z) -> M (option TrackId)) uuid r desc s :
  parent_uuid r = 0 -> ResolveParent impl uuid r desc s = Ok (None, s).
Proof. intros H. unfold ResolveParent. by rewrite H. Qed.


Lemma ResolveParent_loop
    (impl : Z -> option (list Z) -> M (option TrackId)) uuid r desc s :
  (depth desc < kMaxAncestors)%nat ->
  std_find (default [] desc ++ [uuid]) (parent_uuid r) = true ->
  ResolveParent impl uuid r desc s = Ok (None, s).
Proof.
  intros Hd Hf. unfold ResolveParent.
  destruct (parent_uuid r =? 0); [done|]. lazy zeta. rewrite Hf.
  by destruct (kMaxAncestors <? _)%nat.
Qed.

Lemma ResolveParent_recurse
    (impl : Z -> option (list Z) -> M (option TrackId)) uuid r desc s :
  parent_uuid r <> 0 -> (depth desc < kMaxAncestors)%nat ->
  std_find (default [] desc ++ [uuid]) (parent_uuid r) = false ->
  ResolveParent impl uuid r desc s
  = impl (parent_uuid r) (Some (default [] desc ++ [uuid])) s.
Proof.
  intros H Hd Hf. unfold ResolveParent. apply Z.eqb_neq in H. rewrite H.
  lazy zeta. rewrite Hf. rewrite length_app. simpl.
  assert ((kMaxAncestors <? length (default [] desc) + 1)%nat = false) as ->;
    [|done].
  apply Nat.ltb_ge. unfold depth in Hd. lia.
Qed.

(** The default parent (lines 373-389). *)

Lemma ResolveDefaultParent_has_parent (dflt : M TrackId) uuid desc p s :
  ResolveDefaultParent dflt uuid desc (Some p) s = Ok (Some p, s).
Proof. done. Qed.

Lemma ResolveDefaultParent_excluded (dflt : M TrackId) uuid desc s :
  default_excluded uuid desc ->
  ResolveDefaultParent dflt uuid desc None s = Ok (None, s).
Proof.
  intros [->|Hx]; unfold ResolveDefaultParent; [done|].
  destruct desc as [v|]; [|done]. unfold std_find. rewrite Hx.
  by destruct (_ && _).
Qed.

Lemma ResolveDefaultParent_default (dflt : M TrackId) uuid desc s :
  uuid <> 0 ->
  match desc with
  | Some v => std_find v kDefaultDescriptorTrackUuid = false
  | None => True
  end ->
  ResolveDefaultParent dflt uuid desc None s
  = bind dflt (fun d => ret (Some d)) s.
Proof.
  intros Hu Hd. unfold ResolveDefaultParent. apply Z.eqb_neq in Hu.
  rewrite Hu. simpl. destruct desc as [v|]; [by rewrite Hd|done].
Qed.

(** Placement (lines 318-372) of a track without OS identifiers whose
    parent, if any, is neither a thread nor a process track. *)
Lemma ResolveUnderParent_global r p s :
  (forall t, p = Some t -> not_thread_or_process s t) ->
  ResolveUnderParent r p s = Ok (None, s).
Proof.
  intros Hp. destruct p as [t|]; [|done].
  unfold ResolveUnderParent, IndexOfIn.
  destruct (tracks s !! t) as [row|] eqn:Hrow.
  - destruct (Hp t eq_refl row Hrow) as [Hk|Hk];
      mstep; rewrite Hrow, Hk; cbn [TrackTableKind_eqb]; mstep;
      rewrite Hrow, Hk; cbn [TrackTableKind_eqb]; by mstep.
  - mstep. rewrite Hrow. mstep. rewrite Hrow. by mstep.
Qed.

(** [ResolveDescriptorTrack] on a reservation without OS identifiers that
    ends up as a global track. *)
Lemma ResolveDescriptorTrack_global f uuid r desc s parent s1 parent' s3 :
  tid r = None -> pid r = None ->
  ResolveParent (GetDescriptorTrackImpl f) uuid r desc s = Ok (parent, s1) ->
  (forall t, parent = Some t -> not_thread_or_process s1 t) ->
  ResolveDefaultParent (GetOrCreateDefaultDescriptorTrack f) uuid desc parent
    (set_tracks (fun l => l ++ [global_row r]) s1) = Ok (parent', s3) ->
  ResolveDescriptorTrack (S f) uuid r desc s
  = Ok (length (tracks s1),
        with_provenance uuid r (length (tracks s1)) parent' s3).
Proof.
  intros Htid Hpid Hparent Hrow Hdflt. simpl.
  unfold ResolveDescriptorTrack_body.
  rewrite (bind_eq_Ok _ _ _ _ _ Hparent). rewrite Htid, Hpid.
  rewrite (bind_eq_Ok _ _ _ _ _ (ResolveUnderParent_global r parent s1 Hrow)).
  unfold InsertGlobalTrack. mstep.
  fold (global_row r).
  rewrite (bind_eq_Ok _ _ _ _ _ Hdflt).
  apply AddArgsAndName_eval.
  apply ResolveDefaultParent_Ok in Hdflt as [(_ & Hlen & _) _];
    [|apply run_ok_GetOrCreateDefaultDescriptorTrack].
  unfold valid_id. simpl in Hlen. rewrite length_app in Hlen. simpl in Hlen.
  lia.
Qed.
End EvalResolve.

Section DefaultTrack.
Context {PT : Type} {ops : ProcessTrackerOps PT} {same : SameTrack}
        {build : BuildConfig}.
Implicit Types s : State PT.
Abbreviation M := (M (PT:=PT)).

Lemma GetOrCreateDefaultDescriptorTrack_memo f s d :
  resolved_descriptor_tracks_ s !! kDefaultDescriptorTrackUuid = Some d ->
  GetOrCreateDefaultDescriptorTrack (S (S (S f))) s = Ok (d, s).
Proof.
  intros Hd.
  change (GetOrCreateDefaultDescriptorTrack (S (S (S f))))
    with (GetOrCreateDefaultDescriptorTrack_body
            (GetDescriptorTrack (S (S f)))).
  unfold GetOrCreateDefaultDescriptorTrack_body.
  rewrite (bind_eq_Ok _ _ _ _ _
             (GetDescriptorTrack_memo f _ kNullStringId s d s Hd eq_refl)).
  done.
Qed.

Lemma GetOrCreateDefaultDescriptorTrack_create f s :
  reserved_descriptor_tracks_ s !! kDefaultDescriptorTrackUuid = None ->
  resolved_descriptor_tracks_ s !! kDefaultDescriptorTrackUuid = None ->
  GetOrCreateDefaultDescriptorTrack (S (S (S (S f)))) s
  = Ok (length (tracks s), with_default_track s).
Proof.
  intros Hrsv Hres.
  change (GetOrCreateDefaultDescriptorTrack (S (S (S (S f)))))
    with (GetOrCreateDefaultDescriptorTrack_body
            (GetDescriptorTrack_body (GetDescriptorTrackImpl (S (S f))))).
  unfold GetOrCreateDefaultDescriptorTrack_body.
  unfold GetDescriptorTrack_body at 1.
  rewrite bind_assoc.
  rewrite (bind_eq_Ok _ _ _ _ _
             (GetDescriptorTrackImpl_unknown _ _ None s Hres Hrsv)).
  mstep.
  assert (Hr : ReserveDescriptorChildTrack kDefaultDescriptorTrackUuid 0
                 default_descriptor_track_name_ s
               = set_reserved
                   (insert kDefaultDescriptorTrackUuid
                      default_track_reservation) s).
  { unfold ReserveDescriptorChildTrack. by rewrite Hrsv. }
  rewrite Hr. set (s1 := set_reserved _ s).
  assert (Hres1 : resolved_descriptor_tracks_ s1
                    !! kDefaultDescriptorTrackUuid = None) by done.
  assert (Hrsv1 : reserved_descriptor_tracks_ s1
                    !! kDefaultDescriptorTrackUuid
                  = Some default_track_reservation).
  { unfold s1. simpl. apply lookup_insert_eq. }
  assert (Hresolve :
            ResolveDescriptorTrack (S f) kDefaultDescriptorTrackUuid
              default_track_reservation None s1
            = Ok (length (tracks s1),
                  with_provenance kDefaultDescriptorTrackUuid
                    default_track_reservation (length (tracks s1)) None
                    (set_tracks
                       (fun l => l ++ [global_row default_track_reservation])
                       s1))).
  { apply (ResolveDescriptorTrack_global f _ _ None s1 None s1 None);
      [done|done| |done|].
    - by apply ResolveParent_no_parent.
    - apply ResolveDefaultParent_excluded. by left. }
  unfold GetDescriptorTrack_body. rewrite bind_assoc.
  rewrite (bind_eq_Ok _ _ _ _ _
             (GetDescriptorTrackImpl_fresh _ _ None _ _ _ _
                Hres1 Hrsv1 Hresolve)).
  done.
Qed.

Lemma GetOrCreateDefaultDescriptorTrack_Ok fuel s d s' :
  GetOrCreateDefaultDescriptorTrack fuel s = Ok (d, s') ->
  resolved_descriptor_tracks_ s' !! kDefaultDescriptorTrackUuid = Some d.
Proof.
  destruct fuel as [|f]; [discriminate|]. simpl.
  unfold GetOrCreateDefaultDescriptorTrack_body. intros H.
  assert (Hget : forall s0 t s1,
            GetDescriptorTrack f kDefaultDescriptorTrackUuid kNullStringId s0
            = Ok (Some t, s1) ->
            resolved_descriptor_tracks_ s1 !! kDefaultDescriptorTrackUuid
            = Some t).
  { intros s0 t s1 Hg.
    apply GetDescriptorTrack_Ok in Hg as (f0 & s2 & _ & Hi & [[_ ->]|[? _]]);
      [|discriminate].
    by eapply GetDescriptorTrackImpl_Some. }
  apply bind_Ok in H as (o & s1 & Hg & H). destruct o as [t|].
  - apply ret_Ok in H as [-> ->]. by eapply Hget.
  - apply bind_Ok in H as ([] & s2 & Hm & H). apply modify_Ok in Hm as ->.
    apply bind_Ok in H as (o & s3 & Hg2 & H).
    apply deref_Ok in H as [-> ->]. by eapply Hget.
Qed.

(** Facts about the lazily created default track. *)

Lemma resolved_with_default_track s u :
  resolved_descriptor_tracks_ (with_default_track s) !! u
  = if decide (kDefaultDescriptorTrackUuid = u)
    then Some (length (tracks s))
    else resolved_descriptor_tracks_ s !! u.
Proof.
  unfold with_default_track.
  cbn [resolved_descriptor_tracks_ set_resolved]. rewrite lookup_insert.
  case_decide; [done|]. by rewrite resolved_with_provenance.
Qed.

Lemma reserved_with_default_track s :
  reserved_descriptor_tracks_ (with_default_track s)
  = <[kDefaultDescriptorTrackUuid := default_track_reservation]>
      (reserved_descriptor_tracks_ s).
Proof.
  unfold with_default_track.
  cbn [reserved_descriptor_tracks_ set_resolved].
  by rewrite reserved_with_provenance.
Qed.

Lemma tracks_with_default_track s :
  tracks (with_default_track s)
  = tracks s ++ [{| track_table := TrackTable;
                    track_name := default_descriptor_track_name_;
                    track_utid := None; track_upid := None |}].
Proof.
  unfold with_default_track, with_provenance, add_arg. simpl.
  replace (length (tracks s)) with (length (tracks s) + 0)%nat by lia.
  by rewrite alter_app_r.
Qed.

Lemma args_with_default_track s :
  args (with_default_track s)
  = args s
    ++ [(length (tracks s), source_key_, VString descriptor_source_);
        (length (tracks s), source_id_key_, VInteger 0)].
Proof.
  unfold with_default_track. cbn [args set_resolved].
  by rewrite args_with_provenance.
Qed.
End DefaultTrack.

Section GlobalTracks.
Context {PT : Type} {ops : ProcessTrackerOps PT} {same : SameTrack}
        {build : BuildConfig}.
Implicit Types s : State PT.
Abbreviation M := (M (PT:=PT)).

Lemma GetDescriptorTrackImpl_global f uuid r desc s parent s1 parent' s3 :
  resolved_descriptor_tracks_ s !! uuid = None ->
  reserved_descriptor_tracks_ s !! uuid = Some r ->
  tid r = None -> pid r = None ->
  ResolveParent (GetDescriptorTrackImpl f) uuid r desc s = Ok (parent, s1) ->
  (forall t, parent = Some t -> not_thread_or_process s1 t) ->
  ResolveDefaultParent (GetOrCreateDefaultDescriptorTrack f) uuid desc parent
    (set_tracks (fun l => l ++ [global_row r]) s1) = Ok (parent', s3) ->
  GetDescriptorTrackImpl (S (S f)) uuid desc s
  = Ok (Some (length (tracks s1)), resolved_as_global uuid r parent' s1 s3).
Proof.
  intros Hres Hrsv Htid Hpid Hp Hrow Hd.
  apply (GetDescriptorTrackImpl_fresh _ _ _ _ r); [done..|].
  by eapply ResolveDescriptorTrack_global.
Qed.

(** The event-name update changes nothing but track names. *)
Lemma GetDescriptorTrack_of_Impl f uuid ev s t s0 :
  GetDescriptorTrackImpl f uuid None s = Ok (Some t, s0) ->
  valid_id t s0 ->
  is_Some (reserved_descriptor_tracks_ s0 !! uuid) ->
  exists s',
    GetDescriptorTrack (S f) uuid ev s = Ok (Some t, s')
    /\ (s' = s0 \/ s' = set_tracks (alter (set_track_name ev) t) s0).
Proof.
  intros Hi Ht Hr. simpl. unfold GetDescriptorTrack_body.
  rewrite (bind_eq_Ok _ _ _ _ _ Hi).
  destruct (is_null ev); [by eauto|].
  by apply UpdateTrackName_total.
Qed.

Lemma has_parent_with_provenance uuid r t p s :
  has_parent (with_provenance uuid r t (Some p) s) t p.
Proof.
  unfold has_parent, has_arg. rewrite args_with_provenance.
  apply in_or_app. right. simpl. auto.
Qed.

Lemma GetDescriptorTrack_global_Ok fuel uuid ev s r o s' :
  uuid <> 0 ->
  reserved_descriptor_tracks_ s !! uuid = Some r ->
  resolved_descriptor_tracks_ s !! uuid = None ->
  parent_uuid r = 0 -> pid r = None -> tid r = None ->
  GetDescriptorTrack fuel uuid ev s = Ok (o, s') ->
  o = Some (length (tracks s))
  /\ exists d,
       resolved_descriptor_tracks_ s' !! kDefaultDescriptorTrackUuid = Some d
       /\ has_parent s' (length (tracks s)) d.
Proof.
  intros Hu Hrsv Hres Hpar Hpid Htid H.
  apply GetDescriptorTrack_Ok in H as (f0 & s0 & -> & Himpl & Hr).
  destruct f0 as [|f1]; [discriminate|]. simpl in Himpl.
  unfold GetDescriptorTrackImpl_body in Himpl.
  rewrite bind_gets, Hres in Himpl. lazy beta iota in Himpl.
  rewrite bind_gets, Hrsv in Himpl. lazy beta iota in Himpl.
  apply bind_Ok in Himpl as (t & s2 & Hrun & Himpl).
  rewrite bind_modify in Himpl. apply ret_Ok in Himpl as [-> ->].
  destruct f1 as [|f2]; [discriminate|]. simpl in Hrun.
  unfold ResolveDescriptorTrack_body in Hrun.
  rewrite (bind_eq_Ok _ _ _ _ _
             (ResolveParent_no_parent _ uuid r None s Hpar)) in Hrun.
  rewrite Htid, Hpid in Hrun.
  rewrite (bind_eq_Ok _ _ _ _ _
             (ResolveUnderParent_global r None s
                ltac:(intros ? [=]))) in Hrun.
  unfold InsertGlobalTrack in Hrun. rewrite bind_Insert in Hrun.
  fold (global_row r) in Hrun.
  apply bind_Ok in Hrun as (p' & s3' & Hd & Hrun).
  rewrite ResolveDefaultParent_default in Hd by done.
  apply bind_Ok in Hd as (d & s3 & Hd & Hret).
  apply ret_Ok in Hret as [-> ->].
  pose proof (run_ok_GetOrCreateDefaultDescriptorTrack _ _ _ _ Hd)
    as [(_ & Hlen & _) _].
  simpl in Hlen. rewrite length_app in Hlen. simpl in Hlen.
  rewrite AddArgsAndName_eval in Hrun by (unfold valid_id; lia).
  injection Hrun as <- <-.
  apply GetOrCreateDefaultDescriptorTrack_Ok in Hd.
  assert (Hfinal :
    resolved_descriptor_tracks_
      (set_resolved (insert uuid (length (tracks s)))
         (with_provenance uuid r (length (tracks s)) (Some d) s3))
      !! kDefaultDescriptorTrackUuid = Some d
    /\ has_parent
         (set_resolved (insert uuid (length (tracks s)))
            (with_provenance uuid r (length (tracks s)) (Some d) s3))
         (length (tracks s)) d).
  { split.
    - cbn [resolved_descriptor_tracks_ set_resolved].
      rewrite lookup_insert_ne by done. by rewrite resolved_with_provenance.
    - apply has_parent_with_provenance. }
  split; [done|]. exists d.
  destruct Hr as [[_ ->]|[_ Hupd]]; [done|].
  apply UpdateTrackName_cases in Hupd as (_ & row & _ & Hc).
  destruct Hc as [[-> _]|(res & _ & _ & [[-> _]|(-> & _)])]; done.
Qed.
End GlobalTracks.

Section DefaultParentClaim.
Context {PT : Type} {ops : ProcessTrackerOps PT} {same : SameTrack}
        {build : BuildConfig}.
Implicit Types s : State PT.

Lemma tracks_with_provenance_other uuid r t p s j :
  j <> t ->
  tracks (with_provenance uuid r t p s) !! j = tracks s !! j.
Proof.
  intros Hj. unfold with_provenance, add_arg.
  destruct p, (negb _), (is_null _); simpl;
    by rewrite ?list_lookup_alter_ne.
Qed.

(** What the event-name update leaves alone. *)
Lemma event_name_frame (s0 s' : State PT) ev t :
  s' = s0 \/ s' = set_tracks (alter (set_track_name ev) t) s0 ->
  resolved_descriptor_tracks_ s' = resolved_descriptor_tracks_ s0
  /\ reserved_descriptor_tracks_ s' = reserved_descriptor_tracks_ s0
  /\ args s' = args s0
  /\ length (tracks s') = length (tracks s0)
  /\ forall j, j <> t -> tracks s' !! j = tracks s0 !! j.
Proof.
  intros [-> | ->]; [done|]. simpl. split_and!; try done.
  - apply length_alter.
  - intros j Hj. by rewrite list_lookup_alter_ne.
Qed.

(** C6 (amended): a declared, not yet resolved track without OS identifiers
    and without parent, whose uuid is not the default track's, is placed
    in a new global row.  Resolved by a call of [GetDescriptorTrack], it
    gets the default global track as parent: whenever the call succeeds
    the parent argument names the row memoized for the default track; when
    the default track is already resolved, or was never declared, the call
    does succeed; in the latter case the default track is created on the
    spot, as a global track named "Default Track" that has no parent.
    Resolved while the default track itself is being resolved (its uuid
    is on the recursive path, lines 377-386), the track gets no parent and
    no default track is created for it. *)
Theorem global_track_parent_is_default_track fuel uuid event_name s r :
  well_formed s ->
  (enough_fuel <= fuel)%nat ->
  uuid <> kDefaultDescriptorTrackUuid ->
  reserved_descriptor_tracks_ s !! uuid = Some r ->
  resolved_descriptor_tracks_ s !! uuid = None ->
  parent_uuid r = 0 -> pid r = None -> tid r = None ->
  let t := length (tracks s) in
  (forall o s',
     GetDescriptorTrack fuel uuid event_name s = Ok (o, s') ->
     o = Some t
     /\ exists d,
          resolved_descriptor_tracks_ s' !! kDefaultDescriptorTrackUuid
          = Some d
          /\ has_parent s' t d)
  /\ (forall d,
        resolved_descriptor_tracks_ s !! kDefaultDescriptorTrackUuid = Some d ->
        exists s',
          GetDescriptorTrack fuel uuid event_name s = Ok (Some t, s')
          /\ resolved_descriptor_tracks_ s' !! kDefaultDescriptorTrackUuid
             = Some d
          /\ has_parent s' t d)
  /\ (reserved_descriptor_tracks_ s !! kDefaultDescriptorTrackUuid = None ->
      exists s',
        GetDescriptorTrack fuel uuid event_name s = Ok (Some t, s')
        /\ resolved_descriptor_tracks_ s' !! kDefaultDescriptorTrackUuid
           = Some (S t)
        /\ reserved_descriptor_tracks_ s' !! kDefaultDescriptorTrackUuid
           = Some default_track_reservation
        /\ tracks s' !! S t
           = Some {| track_table := TrackTable;
                     track_name := default_descriptor_track_name_;
                     track_utid := None; track_upid := None |}
        /\ has_parent s' t (S t)
        /\ has_no_parent s' (S t))
  /\ (forall descendent_uuids,
        std_find descendent_uuids kDefaultDescriptorTrackUuid = true ->
        exists s',
          GetDescriptorTrackImpl fuel uuid (Some descendent_uuids) s
          = Ok (Some t, s')
          /\ has_no_parent s' t
          /\ resolved_descriptor_tracks_ s'
             = <[uuid := t]> (resolved_descriptor_tracks_ s)
          /\ reserved_descriptor_tracks_ s' = reserved_descriptor_tracks_ s
          /\ length (tracks s') = S t).
Proof.
  intros [Hrr Hiv] Hfuel Hu Hrsv Hres Hpar Hpid Htid t.
  unfold enough_fuel in Hfuel.
  pose proof (ResolveParent_no_parent
                (GetDescriptorTrackImpl 5) uuid r None s Hpar) as Hparent.
  set (s_row := set_tracks (fun l => l ++ [global_row r]) s).
  assert (Hlen_row : length (tracks s_row) = S t).
  { unfold s_row, t. simpl. rewrite length_app. simpl. lia. }
  split_and!.
  - intros o s' H. by eapply GetDescriptorTrack_global_Ok.
  - intros d Hd.
    assert (Hdflt :
      ResolveDefaultParent (GetOrCreateDefaultDescriptorTrack 5) uuid None
        None s_row = Ok (Some d, s_row)).
    { rewrite ResolveDefaultParent_default by done.
      by rewrite (bind_eq_Ok _ _ _ _ _
                    (GetOrCreateDefaultDescriptorTrack_memo 2 s_row d Hd)). }
    pose proof (GetDescriptorTrackImpl_global 5 uuid r None s None s
                  (Some d) s_row Hres Hrsv Htid Hpid Hparent
                  ltac:(intros ? [=]) Hdflt) as Himpl.
    destruct (GetDescriptorTrack_of_Impl _ uuid event_name s _ _ Himpl)
      as (s' & Hget & Hs').
    { unfold valid_id, resolved_as_global. simpl.
      rewrite tracks_with_provenance_length. fold t. lia. }
    { unfold resolved_as_global. simpl.
      rewrite reserved_with_provenance. simpl. by rewrite Hrsv. }
    exists s'. split; [eapply GetDescriptorTrack_more_fuel; [done|lia]|].
    apply event_name_frame in Hs' as (-> & _ & Hargs & _).
    unfold has_parent, has_arg. rewrite Hargs.
    unfold resolved_as_global.
    cbn [resolved_descriptor_tracks_ args set_resolved].
    rewrite lookup_insert_ne by done. rewrite resolved_with_provenance.
    split; [done|]. apply has_parent_with_provenance.
  - intros Hrsv0.
    assert (Hres0 : resolved_descriptor_tracks_ s
                      !! kDefaultDescriptorTrackUuid = None).
    { destruct (resolved_descriptor_tracks_ s !! kDefaultDescriptorTrackUuid)
        as [d|] eqn:Hd; [|done].
      apply Hrr in Hd as [? Hd]. congruence. }
    assert (Hdflt :
      ResolveDefaultParent (GetOrCreateDefaultDescriptorTrack 5) uuid None
        None s_row = Ok (Some (S t), with_default_track s_row)).
    { rewrite ResolveDefaultParent_default by done.
      rewrite (bind_eq_Ok _ _ _ _ _
                 (GetOrCreateDefaultDescriptorTrack_create 1 s_row
                    Hrsv0 Hres0)).
      by rewrite Hlen_row. }
    pose proof (GetDescriptorTrackImpl_global 5 uuid r None s None s
                  (Some (S t)) (with_default_track s_row) Hres Hrsv Htid Hpid
                  Hparent ltac:(intros ? [=]) Hdflt) as Himpl.
    fold t in Himpl.
    assert (Hlen : length (tracks (with_default_track s_row)) = S (S t)).
    { rewrite tracks_with_default_track, length_app, Hlen_row. simpl. lia. }
    destruct (GetDescriptorTrack_of_Impl _ uuid event_name s _ _ Himpl)
      as (s' & Hget & Hs').
    { unfold valid_id, resolved_as_global. simpl.
      rewrite tracks_with_provenance_length, Hlen. lia. }
    { unfold resolved_as_global. simpl.
      rewrite reserved_with_provenance, reserved_with_default_track.
      rewrite lookup_insert_ne by done. simpl. by rewrite Hrsv. }
    exists s'. split; [eapply GetDescriptorTrack_more_fuel; [done|lia]|].
    apply event_name_frame in Hs' as (-> & -> & Hargs & _ & Htracks).
    unfold has_parent, has_no_parent, has_arg. rewrite Hargs.
    rewrite Htracks by lia.
    unfold resolved_as_global.
    cbn [resolved_descriptor_tracks_ reserved_descriptor_tracks_ args
           tracks set_resolved].
    rewrite lookup_insert_ne by done.
    rewrite resolved_with_provenance, reserved_with_provenance.
    rewrite tracks_with_provenance_other by lia.
    rewrite resolved_with_default_track, reserved_with_default_track.
    rewrite tracks_with_default_track, Hlen_row.
    split_and!.
    + by rewrite decide_True.
    + apply lookup_insert_eq.
    + rewrite <- Hlen_row. by rewrite list_lookup_middle.
    + apply has_parent_with_provenance.
    + intros v Hin. rewrite args_with_provenance in Hin.
      rewrite args_with_default_track in Hin.
      rewrite Hlen_row in Hin. simpl in Hin.
      apply in_app_or in Hin as [Hin|Hin].
      * apply in_app_or in Hin as [Hin|Hin].
        -- destruct Hiv as (_ & _ & _ & Hargs_valid).
           apply Hargs_valid in Hin. fold t in Hin. lia.
        -- simpl in Hin. destruct Hin as [[=]|[[=]|[]]].
      * fold t in Hin. simpl in Hin.
        destruct Hin as [[=]|[[=]|[[=]|Hin]]]; try lia.
        destruct (negb (StringId_eqb (category r) kNullStringId));
          simpl in Hin; try done.
        destruct Hin as [[=]|[]].
  - intros desc Hdesc.
    pose proof (ResolveParent_no_parent
                  (GetDescriptorTrackImpl 5) uuid r (Some desc) s Hpar)
      as Hparent'.
    assert (Hdflt :
      ResolveDefaultParent (GetOrCreateDefaultDescriptorTrack 5) uuid
        (Some desc) None s_row = Ok (None, s_row)).
    { apply ResolveDefaultParent_excluded. right. exact Hdesc. }
    pose proof (GetDescriptorTrackImpl_global 5 uuid r (Some desc) s None s
                  None s_row Hres Hrsv Htid Hpid Hparent'
                  ltac:(intros ? [=]) Hdflt) as Himpl.
    fold t in Himpl.
    exists (resolved_as_global uuid r None s s_row).
    split; [eapply GetDescriptorTrackImpl_more_fuel; [done|lia]|].
    unfold has_no_parent, has_arg, resolved_as_global.
    cbn [resolved_descriptor_tracks_ reserved_descriptor_tracks_ args
           tracks set_resolved].
    rewrite resolved_with_provenance, reserved_with_provenance.
    rewrite tracks_with_provenance_length.
    split_and!; try done.
    intros v Hin. rewrite args_with_provenance in Hin. fold t in Hin.
    apply in_app_or in Hin as [Hin|Hin].
    + destruct Hiv as (_ & _ & _ & Hargs_valid).
      apply Hargs_valid in Hin. fold t in Hin. lia.
    + simpl in Hin.
      destruct Hin as [[=]|[[=]|Hin]].
      destruct (negb (StringId_eqb (category r) kNullStringId));
        simpl in Hin; try done.
      destruct Hin as [[=]|[]].
Qed.
End DefaultParentClaim.

(** ** Parent chains *)

Section ChainFacts.
Context {PT : Type} {ops : ProcessTrackerOps PT} {same : SameTrack}
        {build : BuildConfig}.
Implicit Types s : State PT.

Lemma resolved_resolved_as_global uuid r p s_row s :
  resolved_descriptor_tracks_ (resolved_as_global uuid r p s_row s)
  = <[uuid := length (tracks s_row)]> (resolved_descriptor_tracks_ s).
Proof.
  unfold resolved_as_global. cbn [resolved_descriptor_tracks_ set_resolved].
  by rewrite resolved_with_provenance.
Qed.

Lemma reserved_resolved_as_global uuid r p s_row s :
  reserved_descriptor_tracks_ (resolved_as_global uuid r p s_row s)
  = reserved_descriptor_tracks_ s.
Proof.
  unfold resolved_as_global. cbn [reserved_descriptor_tracks_ set_resolved].
  by rewrite reserved_with_provenance.
Qed.

Lemma args_resolved_as_global uuid r p s_row s :
  args (resolved_as_global uuid r p s_row s)
  = args (with_provenance uuid r (length (tracks s_row)) p s).
Proof. done. Qed.

Lemma tracks_resolved_as_global uuid r p s_row s :
  tracks (resolved_as_global uuid r p s_row s)
  = tracks (with_provenance uuid r (length (tracks s_row)) p s).
Proof. done. Qed.

Lemma incl_args_with_provenance uuid r t p s :
  incl (args s) (args (with_provenance uuid r t p s)).
Proof. rewrite args_with_provenance. apply incl_appl, incl_refl. Qed.

Lemma track_table_with_provenance uuid r t p s j row :
  tracks s !! j = Some row ->
  exists row', tracks (with_provenance uuid r t p s) !! j = Some row'
               /\ track_table row' = track_table row.
Proof.
  intros Hrow. unfold with_provenance, add_arg.
  assert (forall n (l : list TrackRow),
            l !! j = Some row ->
            exists row', alter (set_track_name n) t l !! j = Some row'
                         /\ track_table row' = track_table row) as Halter.
  { intros n l Hl. destruct (decide (t = j)) as [->|Hne].
    - rewrite list_lookup_alter_eq, Hl. simpl. eauto.
    - rewrite list_lookup_alter_ne by done. eauto. }
  destruct p, (negb _), (is_null _); simpl; eauto.
Qed.

(** The default track, whichever way it comes to exist. *)

Lemma ensure_default_eval f s :
  (4 <= f)%nat -> resolved_are_reserved s -> default_ready s ->
  GetOrCreateDefaultDescriptorTrack f s = Ok (ensure_default s).
Proof.
  intros Hf Hrr Hready. unfold ensure_default.
  rewrite (fuel_le_GetOrCreateDefaultDescriptorTrack 4 f Hf s).
  - destruct (resolved_descriptor_tracks_ s !! kDefaultDescriptorTrackUuid)
      as [d|] eqn:Hd.
    + by apply GetOrCreateDefaultDescriptorTrack_memo.
    + apply GetOrCreateDefaultDescriptorTrack_create; [|done].
      destruct Hready as [?|[? ?]]; [done|congruence].
  - destruct (resolved_descriptor_tracks_ s !! kDefaultDescriptorTrackUuid)
      as [d|] eqn:Hd.
    + by rewrite (GetOrCreateDefaultDescriptorTrack_memo 1 s d Hd).
    + rewrite (GetOrCreateDefaultDescriptorTrack_create 0 s); [done| |done].
      destruct Hready as [?|[? ?]]; [done|congruence].
Qed.

Lemma ensure_default_facts s d sd :
  default_ready s ->
  ensure_default s = (d, sd) ->
  resolved_descriptor_tracks_ sd !! kDefaultDescriptorTrackUuid = Some d
  /\ (forall y, y <> kDefaultDescriptorTrackUuid ->
        resolved_descriptor_tracks_ sd !! y
        = resolved_descriptor_tracks_ s !! y)
  /\ (forall y r, reserved_descriptor_tracks_ s !! y = Some r ->
        reserved_descriptor_tracks_ sd !! y = Some r)
  /\ incl (args s) (args sd)
  /\ (length (tracks s) <= length (tracks sd))%nat
  /\ (forall j, (j < length (tracks s))%nat ->
        tracks sd !! j = tracks s !! j).
Proof.
  intros Hready. unfold ensure_default.
  destruct (resolved_descriptor_tracks_ s !! kDefaultDescriptorTrackUuid)
    as [d'|] eqn:Hd; intros [= <- <-].
  - split_and!; try done. apply incl_refl.
  - assert (Hrsv : reserved_descriptor_tracks_ s
                     !! kDefaultDescriptorTrackUuid = None).
    { destruct Hready as [?|[? ?]]; [done|congruence]. }
    split_and!.
    + rewrite resolved_with_default_track. by rewrite decide_True.
    + intros y Hy. rewrite resolved_with_default_track.
      by rewrite decide_False.
    + intros y r Hr. rewrite reserved_with_default_track.
      destruct (decide (kDefaultDescriptorTrackUuid = y)) as [<-|Hne].
      * congruence.
      * by rewrite lookup_insert_ne.
    + rewrite args_with_default_track. apply incl_appl, incl_refl.
    + rewrite tracks_with_default_track, length_app. lia.
    + intros j Hj. rewrite tracks_with_default_track.
      by rewrite lookup_app_l.
Qed.

Lemma has_parent_incl s s' t p :
  incl (args s) (args s') -> has_parent s t p -> has_parent s' t p.
Proof. intros Hincl H. by apply Hincl. Qed.

Lemma chain_resolved_mono s1 s' chain : forall p,
  chain_resolved s1 chain p ->
  (forall x, In x (map fst chain) \/ x = kDefaultDescriptorTrackUuid ->
             resolved_descriptor_tracks_ s' !! x
             = resolved_descriptor_tracks_ s1 !! x) ->
  incl (args s1) (args s') ->
  (forall j row, tracks s1 !! j = Some row ->
     exists row', tracks s' !! j = Some row'
                  /\ track_table row' = track_table row) ->
  chain_resolved s' chain p.
Proof.
  induction chain as [|[u r] rest IH]; intros p Hc Hres Hargs Htracks;
    [done|].
  destruct Hc as (Hu & (row & Hrow & Hkind) & Hrest).
  cbn [chain_resolved]. split_and!.
  - rewrite Hres; [done|]. left. simpl. auto.
  - destruct (Htracks _ _ Hrow) as (row' & Hrow' & Hk).
    exists row'. by rewrite Hk.
  - destruct rest as [|[v rv] rest'].
    + destruct Hrest as (d & Hd & Hp). exists d.
      split; [|by eapply has_parent_incl]. rewrite Hres; [done|by right].
    + destruct Hrest as (q & Hq & Hc). exists q.
      split; [by eapply has_parent_incl|].
      apply IH; [done| |done..].
      intros x Hx. apply Hres. destruct Hx as [Hx|Hx]; [|by right].
      left. simpl. right. exact Hx.
Qed.

(** The uuids on the descendant vector do not occur further up the path. *)
Lemma chain_ok_fresh s : forall rest u r desc,
  chain_ok s desc ((u, r) :: rest) ->
  forall x, In x (default [] desc ++ [u]) -> ~ In x (map fst rest).
Proof.
  induction rest as [|[v rv] rest' IH]; intros u r desc Hok x Hx Hin;
    [done|].
  destruct Hok as (_ & _ & _ & _ & Hfind & Hok).
  simpl in Hin. destruct Hin as [<-|Hin].
  - unfold std_find in Hfind.
    assert (existsb (Z.eqb v) (default [] desc ++ [u]) = true); [|congruence].
    apply existsb_exists. exists v. split; [done|apply Z.eqb_refl].
  - apply (IH v rv _ Hok x); [|done].
    cbn [default]. apply in_or_app. by left.
Qed.

Lemma is_global_row_global_row uuid r p s sd :
  (forall j, (j < S (length (tracks s)))%nat ->
     tracks sd !! j = (tracks s ++ [global_row r]) !! j) ->
  is_global_row (resolved_as_global uuid r p s sd) (length (tracks s)).
Proof.
  intros Hsd. unfold is_global_row. rewrite tracks_resolved_as_global.
  assert (Hrow : tracks sd !! length (tracks s) = Some (global_row r)).
  { rewrite Hsd by lia. by rewrite list_lookup_middle. }
  destruct (track_table_with_provenance uuid r (length (tracks s)) p sd _ _
              Hrow) as (row' & Hrow' & Hk).
  exists row'. split; [done|]. rewrite Hk. unfold global_row. simpl.
  destruct (is_counter r); auto.
Qed.

(** Resolution along a path. *)
Lemma resolve_chain s :
  resolved_are_reserved s -> default_ready s ->
  forall rest u r desc fuel,
    chain_ok s desc ((u, r) :: rest) ->
    (2 * length ((u, r) :: rest) + 4 <= fuel)%nat ->
    exists t s',
      GetDescriptorTrackImpl fuel u desc s = Ok (Some t, s')
      /\ chain_resolved s' ((u, r) :: rest) t
      /\ (forall y, ~ In y (map fst ((u, r) :: rest)) ->
                    y <> kDefaultDescriptorTrackUuid ->
                    resolved_descriptor_tracks_ s' !! y
                    = resolved_descriptor_tracks_ s !! y)
      /\ incl (args s) (args s')
      /\ (forall j row, tracks s !! j = Some row ->
            exists row', tracks s' !! j = Some row'
                         /\ track_table row' = track_table row)
      /\ (forall y ry, reserved_descriptor_tracks_ s !! y = Some ry ->
            reserved_descriptor_tracks_ s' !! y = Some ry).
Proof.
  intros Hrr Hready.
  induction rest as [|[v rv] rest' IH]; intros u r desc fuel Hok Hfuel.
  - (* the last track of the path *)
    destruct Hok as ((Hrsv & Hres & Hpid & Htid & Hu) & Hparent & Hex).
    simpl in Hfuel. destruct fuel as [|[|f]]; [lia..|].
    set (s_row := set_tracks (fun l => l ++ [global_row r]) s).
    destruct (ensure_default s_row) as [d sd] eqn:Hens.
    assert (Hready_row : default_ready s_row) by exact Hready.
    destruct (ensure_default_facts s_row d sd Hready_row Hens)
      as (Hd0 & Hdres & Hdrsv & Hdargs & Hdlen & Hdtracks).
    assert (Hdflt :
      ResolveDefaultParent (GetOrCreateDefaultDescriptorTrack f) u desc None
        s_row = Ok (Some d, sd)).
    { rewrite ResolveDefaultParent_default.
      - rewrite (bind_eq_Ok _ _ _ d sd); [done|].
        rewrite <- Hens. apply ensure_default_eval; [lia|exact Hrr|done].
      - done.
      - destruct desc as [l|]; [|done]. unfold std_find.
        destruct (existsb _ l) eqn:Hl; [|done].
        destruct Hex. by right. }
    exists (length (tracks s)), (resolved_as_global u r (Some d) s sd).
    split_and!.
    + by apply (GetDescriptorTrackImpl_global f u r desc s None s).
    + cbn [chain_resolved]. split_and!.
      * rewrite resolved_resolved_as_global. apply lookup_insert_eq.
      * apply is_global_row_global_row. intros j Hj. apply Hdtracks.
        unfold s_row. simpl. rewrite length_app. simpl. lia.
      * exists d. rewrite resolved_resolved_as_global.
        rewrite lookup_insert_ne by done. split; [done|].
        apply has_parent_with_provenance.
    + intros y Hy Hy0. rewrite resolved_resolved_as_global.
      rewrite lookup_insert_ne by (simpl in Hy; tauto).
      by rewrite Hdres.
    + rewrite args_resolved_as_global.
      eapply incl_tran; [|apply incl_args_with_provenance]. exact Hdargs.
    + intros j row Hrow. rewrite tracks_resolved_as_global.
      apply track_table_with_provenance.
      rewrite Hdtracks.
      * unfold s_row. simpl. rewrite lookup_app_l; [done|].
        by eapply lookup_lt_Some.
      * unfold s_row. simpl. rewrite length_app.
        apply lookup_lt_Some in Hrow. lia.
    + intros y ry Hy. rewrite reserved_resolved_as_global. by apply Hdrsv.
  - (* a track whose parent is resolved first *)
    pose proof (chain_ok_fresh s _ _ _ _ Hok) as Hfresh.
    destruct Hok as ((Hrsv & Hres & Hpid & Htid & Hu)
                     & Hpar & Hv & Hdepth & Hfind & Hok).
    cbn [length] in Hfuel. destruct fuel as [|[|f]]; [lia..|].
    destruct (IH v rv (Some (default [] desc ++ [u])) f Hok)
      as (p & s1 & Himpl & Hc & Hframe & Hargs & Htracks & Hrsv1).
    { cbn [length]. lia. }
    assert (Hparent :
      ResolveParent (GetDescriptorTrackImpl f) u r desc s = Ok (Some p, s1)).
    { rewrite ResolveParent_recurse; [by rewrite Hpar|by rewrite Hpar|done|].
      by rewrite Hpar. }
    set (s_row := set_tracks (fun l => l ++ [global_row r]) s1).
    exists (length (tracks s1)), (resolved_as_global u r (Some p) s1 s_row).
    assert (Hglobal : is_global_row s1 p) by apply Hc.
    split_and!.
    + apply (GetDescriptorTrackImpl_global f u r desc s (Some p) s1);
        [done..| |done].
      intros t [= <-] row Hrow. destruct Hglobal as (row' & Hrow' & Hk).
      congruence.
    + cbn [chain_resolved]. split_and!.
      * rewrite resolved_resolved_as_global. apply lookup_insert_eq.
      * apply is_global_row_global_row. intros j Hj. done.
      * exists p. split; [apply has_parent_with_provenance|].
        refine (chain_resolved_mono s1 _ ((v, rv) :: rest') p Hc _ _ _).
        -- intros x Hx. rewrite resolved_resolved_as_global.
           rewrite lookup_insert_ne; [done|]. intros <-.
           destruct Hx as [Hx|Hx]; [|done].
           apply (Hfresh u); [|done]. apply in_or_app. right. simpl. auto.
        -- rewrite args_resolved_as_global.
           apply (incl_args_with_provenance u r _ (Some p) s_row).
        -- intros j row Hrow. rewrite tracks_resolved_as_global.
           apply track_table_with_provenance. unfold s_row. simpl.
           rewrite lookup_app_l; [done|]. by eapply lookup_lt_Some.
    + intros y Hy Hy0. rewrite resolved_resolved_as_global.
      rewrite lookup_insert_ne by (simpl in Hy; tauto).
      apply Hframe; [|done]. simpl in Hy. simpl. tauto.
    + rewrite args_resolved_as_global.
      eapply incl_tran; [|apply incl_args_with_provenance]. exact Hargs.
    + intros j row Hrow. rewrite tracks_resolved_as_global.
      destruct (Htracks _ _ Hrow) as (row1 & Hrow1 & Hk1).
      destruct (track_table_with_provenance u r (length (tracks s1))
                  (Some p) s_row j row1) as (row' & Hrow' & Hk').
      { unfold s_row. simpl. rewrite lookup_app_l; [done|].
        by eapply lookup_lt_Some. }
      exists row'. split; [done|congruence].
    + intros y ry Hy. rewrite reserved_resolved_as_global. by apply Hrsv1.
Qed.
End ChainFacts.

Section ChainClaims.
Context {PT : Type} {ops : ProcessTrackerOps PT} {same : SameTrack}
        {build : BuildConfig}.
Implicit Types s : State PT.

Lemma is_global_row_valid s t : is_global_row s t -> valid_id t s.
Proof. intros (row & Hrow & _). by eapply lookup_lt_Some. Qed.

Lemma track_table_event_name (s0 s' : State PT) ev t :
  s' = s0 \/ s' = set_tracks (alter (set_track_name ev) t) s0 ->
  forall j row, tracks s0 !! j = Some row ->
    exists row', tracks s' !! j = Some row'
                 /\ track_table row' = track_table row.
Proof.
  intros [-> | ->] j row Hrow; [eauto|]. simpl.
  destruct (decide (t = j)) as [->|Hne].
  - rewrite list_lookup_alter_eq, Hrow. simpl. eauto.
  - rewrite list_lookup_alter_ne by done. eauto.
Qed.

(** Resolution along a path, through the public entry point. *)
Lemma resolve_chain_top s rest u r fuel ev :
  resolved_are_reserved s -> default_ready s ->
  chain_ok s None ((u, r) :: rest) ->
  (2 * length ((u, r) :: rest) + 5 <= fuel)%nat ->
  exists t s',
    GetDescriptorTrack fuel u ev s = Ok (Some t, s')
    /\ chain_resolved s' ((u, r) :: rest) t
    /\ (forall y, ~ In y (map fst ((u, r) :: rest)) ->
                  y <> kDefaultDescriptorTrackUuid ->
                  resolved_descriptor_tracks_ s' !! y
                  = resolved_descriptor_tracks_ s !! y)
    /\ (forall y ry, reserved_descriptor_tracks_ s !! y = Some ry ->
          reserved_descriptor_tracks_ s' !! y = Some ry).
Proof.
  intros Hrr Hready Hok Hfuel. destruct fuel as [|f]; [lia|].
  destruct (resolve_chain s Hrr Hready rest u r None f Hok)
    as (t & s0 & Himpl & Hc & Hframe & _ & _ & Hrsv); [lia|].
  assert (Hplain : plain_track s u r) by apply Hok.
  destruct (GetDescriptorTrack_of_Impl f u ev s t s0 Himpl)
    as (s' & Hget & Hs').
  { apply is_global_row_valid. apply Hc. }
  { destruct Hplain as (Hu & _). apply Hrsv in Hu. by rewrite Hu. }
  exists t, s'. split; [done|].
  pose proof (track_table_event_name _ _ _ _ Hs') as Htracks.
  apply event_name_frame in Hs' as (Hres' & Hrsv' & Hargs' & _ & _).
  split_and!.
  - refine (chain_resolved_mono s0 s' _ t Hc _ _ Htracks).
    + intros x _. by rewrite Hres'.
    + rewrite Hargs'. apply incl_refl.
  - intros y Hy Hy0. rewrite Hres'. by apply Hframe.
  - intros y ry Hy. rewrite Hrsv'. by apply Hrsv.
Qed.

Lemma std_find_false l x : ~ In x l -> std_find l x = false.
Proof.
  intros Hx. unfold std_find. destruct (existsb _ l) eqn:E; [|done].
  apply existsb_exists in E as (y & Hy & Heq). apply Z.eqb_eq in Heq.
  by subst.
Qed.

Lemma std_find_true l x : In x l -> std_find l x = true.
Proof.
  intros Hx. unfold std_find. apply existsb_exists. exists x.
  split; [done|apply Z.eqb_refl].
Qed.

End ChainClaims.

Section ChainTheorems.
Context {PT : Type} {ops : ProcessTrackerOps PT} {same : SameTrack}
        {build : BuildConfig}.
Implicit Types s : State PT.



(** C4 (amended): for two declared child tracks A and B whose parents form
    the cycle A -> B -> A, resolving A succeeds and so does resolving B
    afterwards.  The cycle is cut where it is detected, at B: B is placed
    as if no parent were given and therefore becomes a child of the default
    track, while A keeps B's row as its parent. *)
Theorem parent_cycle_is_cut_where_detected fuel A B rA rB event_name s :
  well_formed s -> default_ready s -> (enough_fuel <= fuel)%nat ->
  A <> B ->
  plain_track s A rA -> plain_track s B rB ->
  parent_uuid rA = B -> parent_uuid rB = A ->
  exists tA tB d s',
    GetDescriptorTrack fuel A event_name s = Ok (Some tA, s')
    /\ resolved_descriptor_tracks_ s' !! A = Some tA
    /\ resolved_descriptor_tracks_ s' !! B = Some tB
    /\ resolved_descriptor_tracks_ s' !! kDefaultDescriptorTrackUuid = Some d
    /\ has_parent s' tA tB
    /\ has_parent s' tB d
    /\ forall fuel' event_name',
         (2 <= fuel')%nat ->
         exists s'',
           GetDescriptorTrack fuel' B event_name' s' = Ok (Some tB, s'').
Proof.
  intros [Hrr _] Hready Hfuel HAB HA HB HpA HpB.
  assert (HA0 : A <> 0) by apply HA. assert (HB0 : B <> 0) by apply HB.
  assert (Hok : chain_ok s None [(A, rA); (B, rB)]).
  { cbn [chain_ok]. split_and!; try done.
    - unfold depth, kMaxAncestors. simpl. lia.
    - apply std_find_false. simpl. intros [?|[]]. done.
    - intros impl. apply ResolveParent_loop.
      + unfold depth, kMaxAncestors. simpl. lia.
      + rewrite HpB. apply std_find_true. simpl. auto.
    - intros [?|Hx]; [done|].
      apply existsb_exists in Hx as (y & [<-|[]] & Hy).
      apply Z.eqb_eq in Hy. unfold kDefaultDescriptorTrackUuid in Hy.
      congruence. }
  destruct (resolve_chain_top s [(B, rB)] A rA fuel event_name Hrr Hready Hok)
    as (tA & s' & Hget & Hc & _ & Hrsv).
  { unfold enough_fuel in Hfuel. simpl. lia. }
  destruct Hc as (HtA & _ & tB & HpAB & HtB & HgB & d & Hd & HpBd).
  exists tA, tB, d, s'. split_and!; try done.
  intros fuel' ev' Hf. destruct fuel' as [|[|f]]; [lia..|].
  destruct (UpdateTrackName_total B ev' tB s') as (s'' & Hupd & _).
  { by apply is_global_row_valid. }
  { destruct HB as (HB & _). apply Hrsv in HB. by rewrite HB. }
  destruct (is_null ev') eqn:Hn.
  - exists s'. apply GetDescriptorTrack_memo; [done|]. by rewrite Hn.
  - exists s''. apply GetDescriptorTrack_memo; [done|]. by rewrite Hn.
Qed.

End ChainTheorems.

(** ** Well-formed states *)

Section WellFormed.
Context {PT : Type} {ops : ProcessTrackerOps PT} {same : SameTrack}
        {build : BuildConfig}.
Implicit Types s : State PT.

Lemma well_formed_initial (pt : PT) : well_formed (initial_state pt).
Proof.
  split; [apply resolved_are_reserved_initial|].
  unfold ids_valid. simpl. split_and!; intros ? ?; try done.
  all: by rewrite lookup_empty.
Qed.

Lemma ids_valid_Reserve (d : Declaration) s :
  ids_valid s -> ids_valid (Reserve d s).
Proof.
  intros Hv.
  destruct (reserved_descriptor_tracks_ s !! declared_uuid d) as [it|] eqn:E.
  - destruct (IsForSameTrack it (candidate d)) eqn:Hsame.
    + rewrite (Reserve_match d s it E Hsame).
      by destruct (declared_timestamp d).
    + by rewrite (Reserve_mismatch d s it E Hsame).
  - by rewrite (Reserve_fresh d s E).
Qed.

Lemma well_formed_Reserve (d : Declaration) s :
  well_formed s -> well_formed (Reserve d s).
Proof.
  intros [Hrr Hv].
  split; [by apply resolved_are_reserved_Reserve|by apply ids_valid_Reserve].
Qed.

Lemma well_formed_ConvertToAbsoluteCounterValue u q v s :
  well_formed s -> well_formed (snd (ConvertToAbsoluteCounterValue u q v s)).
Proof.
  intros [Hrr Hv].
  split; [by apply resolved_are_reserved_ConvertToAbsoluteCounterValue|].
  unfold ConvertToAbsoluteCounterValue.
  destruct (reserved_descriptor_tracks_ s !! u) as [r|]; [|done].
  destruct (negb (is_counter r)); [done|].
  destruct (is_incremental r); [|done].
  by destruct (negb (packet_sequence_id r =? q)).
Qed.

Lemma well_formed_OnIncrementalStateCleared q s :
  well_formed s -> well_formed (OnIncrementalStateCleared q s).
Proof.
  intros [Hrr Hv].
  split; [by apply resolved_are_reserved_OnIncrementalStateCleared|done].
Qed.

Lemma well_formed_GetDescriptorTrack fuel uuid ev s r s' :
  well_formed s -> GetDescriptorTrack fuel uuid ev s = Ok (r, s') ->
  well_formed s'.
Proof.
  intros [Hrr Hv] H. apply run_ok_GetDescriptorTrack in H as [Hext _].
  split; [by eapply extends_resolved_are_reserved
         |by eapply extends_ids_valid].
Qed.

Lemma well_formed_GetOrCreateDefaultDescriptorTrack fuel s t s' :
  well_formed s -> GetOrCreateDefaultDescriptorTrack fuel s = Ok (t, s') ->
  well_formed s'.
Proof.
  intros [Hrr Hv] H.
  apply run_ok_GetOrCreateDefaultDescriptorTrack in H as [Hext _].
  split; [by eapply extends_resolved_are_reserved
         |by eapply extends_ids_valid].
Qed.
End WellFormed.

Lemma well_formed_declare ds s :
  well_formed s -> well_formed (declare ds s).
Proof.
  revert s. induction ds as [|d ds IH]; intros s Hs; [done|].
  simpl. apply IH. by apply well_formed_Reserve.
Qed.

Lemma well_formed_fresh_tracker : well_formed fresh_tracker.
Proof. apply well_formed_initial. Qed.

(** * Concrete scenarios: counterexamples and instances *)

(** C4, as stated, fails: in the cycle 1 -> 2 -> 1, resolving track 1 gives
    it row 2 with the parent argument 0, the row of track 2; and track 2's
    row has a parent too, row 1, the default track.  Neither is a track
    with no parent. *)
Lemma parent_cycle_tracks_have_parents :
  GetDescriptorTrack (same:=spec_same_track)
    (build:=debug_build) enough_fuel 1 kNullStringId
    cycle_tracker = Ok (Some 2%nat, cycle_resolved)
  /\ resolved_descriptor_tracks_ cycle_resolved !! 2 = Some 0%nat
  /\ resolved_descriptor_tracks_ cycle_resolved
       !! kDefaultDescriptorTrackUuid = Some 1%nat
  /\ GetDescriptorTrack (same:=spec_same_track)
       (build:=debug_build) enough_fuel 2 kNullStringId
       cycle_resolved = Ok (Some 0%nat, cycle_resolved)
  /\ ~ has_no_parent cycle_resolved 2
  /\ ~ has_no_parent cycle_resolved 0.
Proof.
  assert (Hargs : args cycle_resolved
                  = [(1%nat, source_key_, VString descriptor_source_);
                     (1%nat, source_id_key_, VInteger 0);
                     (0%nat, source_key_, VString descriptor_source_);
                     (0%nat, source_id_key_, VInteger 2);
                     (0%nat, parent_track_id_key_, VInteger 1);
                     (2%nat, source_key_, VString descriptor_source_);
                     (2%nat, source_id_key_, VInteger 1);
                     (2%nat, parent_track_id_key_, VInteger 0)]).
  { vm_compute. reflexivity. }
  split_and!.
  - vm_compute. reflexivity.
  - vm_compute. reflexivity.
  - vm_compute. reflexivity.
  - vm_compute. reflexivity.
  - intros H. apply (H (VInteger 0)). unfold has_arg. rewrite Hargs.
    simpl. tauto.
  - intros H. apply (H (VInteger 1)). unfold has_arg. rewrite Hargs.
    simpl. tauto.
Qed.

(** C8, as stated, fails: the thread declaration for uuid 1 is rejected (it
    names a parent and a tid that the stored process reservation does not
    have), and its timestamp 50 is not merged: the stored [min_timestamp]
    stays 100, which is not the minimum of the declared timestamps. *)
Lemma rejected_timestamp_is_not_merged :
  let s := process_tracker_state in
  let s' := Reserve (same:=spec_same_track) thread_redeclaration s in
  min_timestamp <$> reserved_descriptor_tracks_ s !! 1 = Some 100
  /\ track_event_tokenizer_errors s' = S (track_event_tokenizer_errors s)
  /\ min_timestamp <$> reserved_descriptor_tracks_ s' !! 1 = Some 100
  /\ Some 100 <> Some (Z.min 100 50).
Proof. split_and!; [vm_compute; reflexivity..|]. vm_compute. discriminate. Qed.

(** ** Instances of the theorems on the concrete scenarios *)

Lemma mismatching_redeclaration_is_rejected_witness :
  let s := process_tracker_state in
  let d := thread_redeclaration in
  reserved_descriptor_tracks_ (Reserve (same:=spec_same_track) d s)
  = reserved_descriptor_tracks_ s
  /\ track_event_tokenizer_errors (Reserve (same:=spec_same_track) d s)
     = S (track_event_tokenizer_errors s)
  /\ Reserve (same:=spec_same_track) d s = IncrementStats s
  /\ forall fuel uuid event_name,
       GetDescriptorTrack (same:=spec_same_track)
         (build:=debug_build) fuel uuid event_name
         (Reserve (same:=spec_same_track) d s)
       = map_state IncrementStats
           (GetDescriptorTrack (same:=spec_same_track)
                 (build:=debug_build) fuel uuid event_name s).
Proof.
  apply (mismatching_redeclaration_is_rejected (same:=spec_same_track)
           thread_redeclaration process_tracker_state
           (process_track_reservation kNullStringId 10 100)).
  - vm_compute. reflexivity.
  - vm_compute. reflexivity.
Defined.

Lemma min_timestamp_after_redeclaration_witness :
  min_timestamp
    <$> reserved_descriptor_tracks_
          (Reserve (same:=spec_same_track) thread_redeclaration
             process_tracker_state) !! 1
  = Some 100.
Proof.
  apply (min_timestamp_after_redeclaration (same:=spec_same_track)
           thread_redeclaration process_tracker_state
           (process_track_reservation kNullStringId 10 100)).
  vm_compute. reflexivity.
Defined.

Lemma incremental_counter_scenario_witness :
  let s0 := ReserveDescriptorCounterTrack (same:=spec_same_track)
              7 0 kNullStringId kNullStringId 2 true 5 fresh_tracker in
  let r1 := ConvertToAbsoluteCounterValue 7 5 3 s0 in
  let r2 := ConvertToAbsoluteCounterValue 7 5 4 (snd r1) in
  let r3 := ConvertToAbsoluteCounterValue 7 9 1 (snd r2) in
  let s4 := OnIncrementalStateCleared 5 (snd r3) in
  let r5 := ConvertToAbsoluteCounterValue 7 5 2 s4 in
  fst r1 = Some 6
  /\ fst r2 = Some 14
  /\ fst r3 = None
  /\ snd r3 = snd r2
  /\ latest_value <$> reserved_descriptor_tracks_ (snd r3) !! 7 = Some 14
  /\ fst r5 = Some 4.
Proof.
  apply (incremental_counter_scenario (same:=spec_same_track)
           7 0 kNullStringId kNullStringId fresh_tracker).
  vm_compute. reflexivity.
Defined.

Lemma well_formed_global_tracker : well_formed global_tracker.
Proof. apply well_formed_declare, well_formed_fresh_tracker. Qed.

Lemma GetDescriptorTrack_is_idempotent_witness :
  match GetDescriptorTrack (same:=spec_same_track)
          (build:=debug_build) enough_fuel 99
          (InternString "event") global_tracker with
  | Ok (r, s1) =>
      GetDescriptorTrackImpl (same:=spec_same_track)
        (build:=debug_build) (enough_fuel - 1) 99
        None s1 = Ok (r, s1)
      /\ GetDescriptorTrack (same:=spec_same_track)
           (build:=debug_build) enough_fuel 99
           (InternString "event") s1 = Ok (r, s1)
      /\ forall event_name',
           exists s2,
             GetDescriptorTrack (same:=spec_same_track)
               (build:=debug_build) enough_fuel 99
               event_name' s1 = Ok (r, s2)
             /\ (s2 = s1
                 \/ exists t,
                      r = Some t
                      /\ s2 = set_tracks
                                (alter (set_track_name event_name') t) s1)
  | Err _ => False
  end.
Proof.
  destruct (GetDescriptorTrack (same:=spec_same_track)
              (build:=debug_build) enough_fuel 99
              (InternString "event") global_tracker)
    as [[r s1]|e] eqn:H.
  - apply (GetDescriptorTrack_is_idempotent (same:=spec_same_track)
             (build:=debug_build)
             enough_fuel 99 (InternString "event") global_tracker r s1).
    + apply well_formed_global_tracker.
    + exact H.
    + unfold enough_fuel. lia.
  - vm_compute in H. discriminate H.
Defined.

Lemma event_name_is_set_at_most_once_witness :
  match GetDescriptorTrack (same:=spec_same_track) (build:=debug_build)
          enough_fuel 99 (InternString "event") global_tracker with
  | Ok (r, s1) =>
      (exists t,
         r = Some t
         /\ track_name <$> tracks s1 !! t = Some (InternString "event"))
      /\ forall event_name',
           GetDescriptorTrack (same:=spec_same_track) (build:=debug_build)
             enough_fuel 99 event_name' s1 = Ok (r, s1)
  | Err _ => False
  end.
Proof.
  destruct (GetDescriptorTrack (same:=spec_same_track) (build:=debug_build)
              enough_fuel 99 (InternString "event") global_tracker)
    as [[r s1]|e] eqn:H.
  - destruct (event_name_is_set_at_most_once (same:=spec_same_track)
                (build:=debug_build)
                enough_fuel 99 (InternString "event") global_tracker r s1
                H eq_refl)
      as (fuel0 & s0 & Hfuel & Himpl & _ & _ & Hwritten & _ & Honce).
    split.
    + injection Hfuel as <-. vm_compute in Himpl.
      injection Himpl as <- <-. exists 0%nat. split; [reflexivity|].
      eapply Hwritten.
      * reflexivity.
      * vm_compute. reflexivity.
      * reflexivity.
      * vm_compute. reflexivity.
      * reflexivity.
      * reflexivity.
      * reflexivity.
    + intros ev'. apply Honce. unfold enough_fuel. lia.
  - vm_compute in H. discriminate H.
Defined.

Lemma resolved_uuids_have_reservations_witness :
  resolved_are_reserved global_tracker
  /\ GetDescriptorTrack (same:=spec_same_track)
       (build:=debug_build) enough_fuel 99
       (InternString "event") global_tracker <> Err (CheckFailed 177).
Proof.
  destruct (resolved_uuids_have_reservations
              (PT:=SimpleProcessTracker) (same:=spec_same_track)
              (build:=debug_build))
    as (_ & _ & _ & _ & _ & _ & Hcheck).
  split; [apply well_formed_global_tracker|].
  apply Hcheck. apply well_formed_global_tracker.
Defined.

(** C6, as stated, fails when the producer declares the default track's
    uuid itself.  With uuid 0 declared under parent 5, resolving track 99
    resolves the default track, hence its parent 5 with the default uuid
    on the recursive path: track 5, declared without OS identifiers and
    without parent, is memoized as row 1, which has no parent argument;
    and the default track, row 2, has row 1 as parent. *)
Lemma declared_default_track_breaks_default_parent :
  reserved_descriptor_tracks_ declared_default_tracker !! 5
  = Some (child_track_reservation 0 kNullStringId)
  /\ GetDescriptorTrack (same:=spec_same_track) (build:=debug_build)
       enough_fuel 99 kNullStringId declared_default_tracker
     = Ok (Some 0%nat, declared_default_resolved)
  /\ GetDescriptorTrack (same:=spec_same_track) (build:=debug_build)
       enough_fuel 5 kNullStringId declared_default_resolved
     = Ok (Some 1%nat, declared_default_resolved)
  /\ has_no_parent declared_default_resolved 1
  /\ GetDescriptorTrack (same:=spec_same_track) (build:=debug_build)
       enough_fuel kDefaultDescriptorTrackUuid kNullStringId
       declared_default_resolved
     = Ok (Some 2%nat, declared_default_resolved)
  /\ has_parent declared_default_resolved 2 1
  /\ ~ has_no_parent declared_default_resolved 2.
Proof.
  assert (Hargs : args declared_default_resolved
                  = [(1%nat, source_key_, VString descriptor_source_);
                     (1%nat, source_id_key_, VInteger 5);
                     (2%nat, source_key_, VString descriptor_source_);
                     (2%nat, source_id_key_, VInteger 0);
                     (2%nat, parent_track_id_key_, VInteger 1);
                     (0%nat, source_key_, VString descriptor_source_);
                     (0%nat, source_id_key_, VInteger 99);
                     (0%nat, parent_track_id_key_, VInteger 2)]).
  { vm_compute. reflexivity. }
  assert (Hparent : has_parent declared_default_resolved 2 1).
  { unfold has_parent, has_arg. rewrite Hargs. simpl. tauto. }
  split_and!.
  - vm_compute. reflexivity.
  - vm_compute. reflexivity.
  - vm_compute. reflexivity.
  - intros v Hin. unfold has_arg in Hin. rewrite Hargs in Hin.
    simpl in Hin.
    repeat (destruct Hin as [Hin|Hin]; [discriminate Hin|]). exact Hin.
  - vm_compute. reflexivity.
  - exact Hparent.
  - intros H. exact (H _ Hparent).
Qed.

Lemma global_track_parent_is_default_track_witness :
  exists s',
    GetDescriptorTrack (same:=spec_same_track)
      (build:=debug_build) enough_fuel 99 kNullStringId
      global_tracker = Ok (Some 0%nat, s')
    /\ resolved_descriptor_tracks_ s' !! kDefaultDescriptorTrackUuid
       = Some 1%nat
    /\ reserved_descriptor_tracks_ s' !! kDefaultDescriptorTrackUuid
       = Some default_track_reservation
    /\ tracks s' !! 1%nat
       = Some {| track_table := TrackTable;
                 track_name := default_descriptor_track_name_;
                 track_utid := None; track_upid := None |}
    /\ has_parent s' 0 1
    /\ has_no_parent s' 1.
Proof.
  destruct (global_track_parent_is_default_track (same:=spec_same_track)
              (build:=debug_build)
              enough_fuel 99 kNullStringId global_tracker
              (child_track_reservation 0 kNullStringId))
    as (_ & _ & Hlazy & _).
  - apply well_formed_global_tracker.
  - lia.
  - discriminate.
  - vm_compute. reflexivity.
  - vm_compute. reflexivity.
  - reflexivity.
  - reflexivity.
  - reflexivity.
  - apply Hlazy. vm_compute. reflexivity.
Defined.

Lemma well_formed_cycle_tracker : well_formed cycle_tracker.
Proof. apply well_formed_declare, well_formed_fresh_tracker. Qed.

Lemma parent_cycle_is_cut_where_detected_witness :
  exists tA tB d s',
    GetDescriptorTrack (same:=spec_same_track)
      (build:=debug_build) enough_fuel 1 kNullStringId
      cycle_tracker = Ok (Some tA, s')
    /\ resolved_descriptor_tracks_ s' !! 1 = Some tA
    /\ resolved_descriptor_tracks_ s' !! 2 = Some tB
    /\ resolved_descriptor_tracks_ s' !! kDefaultDescriptorTrackUuid = Some d
    /\ has_parent s' tA tB
    /\ has_parent s' tB d
    /\ forall fuel' event_name',
         (2 <= fuel')%nat ->
         exists s'',
           GetDescriptorTrack (same:=spec_same_track)
                 (build:=debug_build) fuel' 2 event_name' s'
           = Ok (Some tB, s'').
Proof.
  apply (parent_cycle_is_cut_where_detected (same:=spec_same_track)
           (build:=debug_build)
           enough_fuel 1 2 (child_track_reservation 2 kNullStringId)
           (child_track_reservation 1 kNullStringId) kNullStringId
           cycle_tracker).
  - apply well_formed_cycle_tracker.
  - left. vm_compute. reflexivity.
  - lia.
  - discriminate.
  - unfold plain_track. split_and!; try (vm_compute; reflexivity).
    discriminate.
  - unfold plain_track. split_and!; try (vm_compute; reflexivity).
    discriminate.
  - reflexivity.
  - reflexivity.
Defined.


(** * Further properties of the code *)

(** ** Reservation Store: what a declaration can and cannot change *)

Section ReserveExtras.
Context {PT : Type} {same : SameTrack}.
Implicit Types s : State PT.

Lemma set_min_timestamp_same it : set_min_timestamp (min_timestamp it) it = it.
Proof. by destruct it. Qed.

Lemma Reserve_cases (d : Declaration) s :
  match reserved_descriptor_tracks_ s !! declared_uuid d with
  | None =>
      Reserve d s = set_reserved (insert (declared_uuid d) (candidate d)) s
  | Some it =>
      if IsForSameTrack it (candidate d)
      then match declared_timestamp d with
           | Some ts =>
               Reserve d s
               = set_reserved
                   (insert (declared_uuid d)
                      (set_min_timestamp (Z.min (min_timestamp it) ts) it)) s
           | None => Reserve d s = s
           end
      else Reserve d s = IncrementStats s
  end.
Proof.
  destruct d; simpl;
    unfold ReserveDescriptorProcessTrack, ReserveDescriptorThreadTrack,
      ReserveDescriptorCounterTrack, ReserveDescriptorChildTrack;
    destruct (reserved_descriptor_tracks_ s !! _) as [it|]; try done;
    simpl; by destruct (IsForSameTrack _ _).
Qed.

(** X1: the kind of a reservation is fixed by its first declaration: whatever
    is declared later, under the same uuid or another, a stored reservation
    keeps every field except [min_timestamp], and [min_timestamp] never
    goes up; it changes only when the declaration is for this uuid, carries
    a timestamp and passes the same-track predicate. *)
Theorem Reserve_keeps_stored_reservation (d : Declaration) s uuid it :
  reserved_descriptor_tracks_ s !! uuid = Some it ->
  exists ts,
    reserved_descriptor_tracks_ (Reserve d s) !! uuid
    = Some (set_min_timestamp ts it)
    /\ ts <= min_timestamp it
    /\ (ts = min_timestamp it
        \/ (uuid = declared_uuid d
            /\ IsForSameTrack it (candidate d) = true
            /\ declared_timestamp d = Some ts)).
Proof.
  intros Hit. pose proof (Reserve_cases d s) as Hc.
  destruct (decide (uuid = declared_uuid d)) as [->|Hne].
  - rewrite Hit in Hc. destruct (IsForSameTrack it (candidate d)) eqn:Hsame.
    + destruct (declared_timestamp d) as [t|] eqn:Hts.
      * rewrite Hc. simpl. rewrite lookup_insert_eq.
        destruct (Z.min_spec (min_timestamp it) t) as [[Hlt ->]|[Hle ->]].
        -- exists (min_timestamp it). split_and!; [done|lia|by left].
        -- exists t. split_and!; [done|lia|]. right. done.
      * rewrite Hc. exists (min_timestamp it).
        rewrite set_min_timestamp_same. split_and!; [done|lia|by left].
    + rewrite Hc. simpl. exists (min_timestamp it).
      rewrite set_min_timestamp_same. split_and!; [done|lia|by left].
  - exists (min_timestamp it). rewrite set_min_timestamp_same.
    split_and!; [|lia|by left].
    destruct (reserved_descriptor_tracks_ s !! declared_uuid d) as [it'|].
    + destruct (IsForSameTrack it' (candidate d)).
      * destruct (declared_timestamp d); rewrite Hc; [|done].
        simpl. by rewrite lookup_insert_ne.
      * by rewrite Hc.
    + rewrite Hc. simpl. by rewrite lookup_insert_ne.
Qed.

(** X2: a declaration counts an inconsistency exactly when its uuid is already
    bound to a reservation that fails the same-track predicate; a first
    declaration and a matching redeclaration never do.  Nothing is
    remembered about a rejected declaration, so repeating it counts it
    again. *)
Theorem Reserve_counts_exactly_the_mismatches (d : Declaration) s :
  let mismatch :=
    match reserved_descriptor_tracks_ s !! declared_uuid d with
    | Some it => negb (IsForSameTrack it (candidate d))
    | None => false
    end in
  track_event_tokenizer_errors (Reserve d s)
  = (if mismatch then S (track_event_tokenizer_errors s)
     else track_event_tokenizer_errors s)
  /\ (mismatch = true ->
      track_event_tokenizer_errors (Reserve d (Reserve d s))
      = S (S (track_event_tokenizer_errors s))).
Proof.
  intros mismatch. unfold mismatch. pose proof (Reserve_cases d s) as Hc.
  destruct (reserved_descriptor_tracks_ s !! declared_uuid d) as [it|] eqn:Hit.
  - destruct (IsForSameTrack it (candidate d)) eqn:Hsame; simpl.
    + split; [|done]. destruct (declared_timestamp d); by rewrite Hc.
    + split; [by rewrite Hc|]. intros _. rewrite Hc.
      pose proof (Reserve_cases d (IncrementStats s)) as Hc2.
      simpl in Hc2. rewrite Hit, Hsame in Hc2. by rewrite Hc2.
  - split; [|done]. by rewrite Hc.
Qed.

(** X3: declaring twice is declaring once, as long as the declaration is not
    rejected: for a same-track predicate that accepts a candidate against
    itself and does not look at [min_timestamp], repeating a declaration
    that was a first declaration or a matching one changes nothing. *)
Theorem Reserve_is_idempotent_when_accepted (d : Declaration) s :
  IsForSameTrack (candidate d) (candidate d) = true ->
  (forall it ts,
     IsForSameTrack (set_min_timestamp ts it) (candidate d)
     = IsForSameTrack it (candidate d)) ->
  (forall it,
     reserved_descriptor_tracks_ s !! declared_uuid d = Some it ->
     IsForSameTrack it (candidate d) = true) ->
  Reserve d (Reserve d s) = Reserve d s.
Proof.
  intros Hrefl Hts Hacc. pose proof (Reserve_cases d s) as Hc.
  pose proof (Reserve_cases d (Reserve d s)) as Hc2.
  destruct (reserved_descriptor_tracks_ s !! declared_uuid d) as [it|] eqn:Hit.
  - rewrite (Hacc it eq_refl) in Hc.
    destruct (declared_timestamp d) as [t|] eqn:Hd.
    + rewrite Hc in Hc2 |- *. simpl in Hc2. rewrite lookup_insert_eq in Hc2.
      rewrite Hts, (Hacc it eq_refl) in Hc2. rewrite Hc2.
      destruct s. unfold set_reserved. simpl. f_equal.
      rewrite insert_insert_eq. f_equal. destruct it. unfold set_min_timestamp.
      simpl. f_equal. lia.
    + by rewrite Hc.
  - rewrite Hc in Hc2 |- *. simpl in Hc2. rewrite lookup_insert_eq in Hc2.
    rewrite Hrefl in Hc2.
    destruct (declared_timestamp d) as [t|] eqn:Hd; [|done].
    rewrite Hc2. destruct s. unfold set_reserved. simpl. f_equal.
    rewrite insert_insert_eq. f_equal.
    assert (min_timestamp (candidate d) = t) as Hm.
    { destruct d; simpl in *; congruence. }
    rewrite Hm, Z.min_id. rewrite <- Hm. apply set_min_timestamp_same.
Qed.

(** X4: declarations for different uuids are independent: they can be applied
    in either order. *)
Theorem Reserve_commutes_on_different_uuids (d1 d2 : Declaration) s :
  declared_uuid d1 <> declared_uuid d2 ->
  Reserve d1 (Reserve d2 s) = Reserve d2 (Reserve d1 s).
Proof.
  intros Hne.
  assert (Hl : forall (d d' : Declaration) s,
             declared_uuid d <> declared_uuid d' ->
             reserved_descriptor_tracks_ (Reserve d' s) !! declared_uuid d
             = reserved_descriptor_tracks_ s !! declared_uuid d).
  { clear. intros d d' s Hne. pose proof (Reserve_cases d' s) as Hc.
    destruct (reserved_descriptor_tracks_ s !! declared_uuid d') as [it|].
    - destruct (IsForSameTrack it (candidate d')).
      + destruct (declared_timestamp d'); rewrite Hc; [|done].
        simpl. by rewrite lookup_insert_ne.
      + by rewrite Hc.
    - rewrite Hc. simpl. by rewrite lookup_insert_ne. }
  pose proof (Reserve_cases d1 s) as H1.
  pose proof (Reserve_cases d2 s) as H2.
  pose proof (Reserve_cases d1 (Reserve d2 s)) as H12.
  pose proof (Reserve_cases d2 (Reserve d1 s)) as H21.
  rewrite (Hl d1 d2 s Hne) in H12.
  rewrite (Hl d2 d1 s (not_eq_sym Hne)) in H21.
  assert (Hins : forall (a b : DescriptorTrackReservation),
             set_reserved (insert (declared_uuid d1) a)
               (set_reserved (insert (declared_uuid d2) b) s)
             = set_reserved (insert (declared_uuid d2) b)
                 (set_reserved (insert (declared_uuid d1) a) s)).
  { intros a b. destruct s. unfold set_reserved. simpl. f_equal.
    by apply insert_insert_ne. }
  destruct (reserved_descriptor_tracks_ s !! declared_uuid d1) as [it1|];
    destruct (reserved_descriptor_tracks_ s !! declared_uuid d2) as [it2|];
    repeat match goal with
           | H : context [IsForSameTrack ?a ?b] |- _ =>
               destruct (IsForSameTrack a b)
           | H : context [declared_timestamp ?d] |- _ =>
               destruct (declared_timestamp d)
           end;
    rewrite H12, H21, ?H1, ?H2; try done; try apply Hins.
Qed.

End ReserveExtras.

(** ** Counter Decoder: sample streams and resets *)

Section CounterExtras.
Context {PT : Type}.
Implicit Types s : State PT.

Lemma wrap_int64_add_l a b :
  wrap_int64 (wrap_int64 a + b) = wrap_int64 (a + b).
Proof.
  unfold wrap_int64. f_equal.
  replace ((a + 2 ^ 63) mod 2 ^ 64 - 2 ^ 63 + b + 2 ^ 63)
    with ((a + 2 ^ 63) mod 2 ^ 64 + b) by lia.
  rewrite Zplus_mod_idemp_l. f_equal. lia.
Qed.

Lemma running_totals_lookup l : forall acc k,
  (k < length l)%nat ->
  running_totals acc l !! k = Some (wrap_int64 (acc + sum_Z (take (S k) l))).
Proof.
  induction l as [|c l IH]; intros acc k Hk; simpl in *; [lia|].
  destruct k as [|k]; simpl.
  - unfold sum_Z. simpl. do 2 f_equal. lia.
  - rewrite IH by lia. f_equal. rewrite wrap_int64_add_l. f_equal.
    change (sum_Z (c :: take (S k) l)) with (c + sum_Z (take (S k) l)). lia.
Qed.

Lemma set_latest_value_twice a b r :
  set_latest_value a (set_latest_value b r) = set_latest_value a r.
Proof. done. Qed.

Lemma ConvertAll_incremental u q : forall vs s r,
  reserved_descriptor_tracks_ s !! u = Some r ->
  is_counter r = true -> is_incremental r = true ->
  packet_sequence_id r = q ->
  let totals := running_totals (latest_value r) (map (scaled_value r) vs) in
  ConvertAll u q vs s
  = (map Some totals,
     match last totals with
     | Some total =>
         set_reserved (insert u (set_latest_value total r)) s
     | None => s
     end).
Proof.
  induction vs as [|v vs IH]; intros s r Hr Hc Hi Hq; [done|].
  simpl. unfold ConvertToAbsoluteCounterValue at 1.
  rewrite Hr, Hc, Hi, Hq, Z.eqb_refl. simpl.
  fold (scaled_value r v).
  set (r1 := set_latest_value (wrap_int64 (latest_value r + scaled_value r v))
               r).
  set (s1 := set_reserved (insert u r1) s).
  specialize (IH s1 r1).
  rewrite IH; [|by (unfold s1; simpl; rewrite lookup_insert_eq)|done..].
  cbn zeta. change (map (scaled_value r1) vs) with (map (scaled_value r) vs).
  change (latest_value r1)
    with (wrap_int64 (latest_value r + scaled_value r v)).
  cbn [map running_totals]. f_equal. rewrite last_cons.
  destruct (last _) as [total|]; [|done].
  unfold s1, set_reserved. destruct s. simpl. f_equal.
  by rewrite insert_insert_eq.
Qed.

(** X5: a sample is rejected exactly when the uuid has no reservation, the
    reservation is not a counter, or the counter is incremental and owned
    by another packet sequence; and a rejected sample leaves the tracker
    as it was. *)
Theorem ConvertToAbsoluteCounterValue_rejects u q v s :
  (fst (ConvertToAbsoluteCounterValue u q v s) = None <->
   match reserved_descriptor_tracks_ s !! u with
   | None => True
   | Some r =>
       is_counter r = false
       \/ (is_incremental r = true /\ packet_sequence_id r <> q)
   end)
  /\ (fst (ConvertToAbsoluteCounterValue u q v s) = None ->
      snd (ConvertToAbsoluteCounterValue u q v s) = s).
Proof.
  unfold ConvertToAbsoluteCounterValue.
  destruct (reserved_descriptor_tracks_ s !! u) as [r|]; [|done].
  destruct (is_counter r); simpl; [|by split; [split; auto|]].
  destruct (is_incremental r); simpl.
  - destruct (Z.eqb_spec (packet_sequence_id r) q) as [->|Hne]; simpl.
    + split; [|done]. split; [done|]. intros [?|[_ ?]]; done.
    + split; [|done]. split; auto.
  - split; [|done]. split; [done|]. intros [?|[? _]]; done.
Qed.

Lemma ConvertAll_answers u q vs s r k :
  reserved_descriptor_tracks_ s !! u = Some r ->
  is_counter r = true -> is_incremental r = true ->
  packet_sequence_id r = q ->
  (k < length vs)%nat ->
  fst (ConvertAll u q vs s) !! k
  = Some (Some (wrap_int64
                  (latest_value r
                   + sum_Z (take (S k) (map (scaled_value r) vs)))))
  /\ latest_value
       <$> reserved_descriptor_tracks_ (snd (ConvertAll u q vs s)) !! u
     = Some (wrap_int64
               (latest_value r + sum_Z (map (scaled_value r) vs))).
Proof.
  intros Hr Hc Hi Hq Hk.
  rewrite (ConvertAll_incremental u q vs s r Hr Hc Hi Hq). simpl.
  assert (Hlen : length (map (scaled_value r) vs) = length vs)
    by apply length_map.
  split.
  - rewrite list_lookup_fmap, running_totals_lookup by lia. done.
  - assert (Hlast : last (running_totals (latest_value r)
                            (map (scaled_value r) vs))
                    = Some (wrap_int64
                              (latest_value r
                               + sum_Z (map (scaled_value r) vs)))).
    { rewrite last_lookup.
      assert (Hl : forall l acc, length (running_totals acc l) = length l).
      { clear. induction l; intros; simpl; [done|]. by rewrite IHl. }
      rewrite Hl, Hlen.
      destruct (length vs) as [|n] eqn:Hn; [lia|]. simpl.
      rewrite running_totals_lookup by lia.
      rewrite firstn_all2 by lia. done. }
    rewrite Hlast. simpl. by rewrite lookup_insert_eq.
Qed.

(** X6: an incremental counter fed a stream of samples on its own sequence
    answers the k-th sample with its stored total plus the sum of the
    first k contributions, in 64-bit arithmetic, where a contribution is
    the raw value times the unit multiplier when that is positive and the
    raw value otherwise. *)
Theorem incremental_counter_accumulates u q vs s r k :
  reserved_descriptor_tracks_ s !! u = Some r ->
  is_counter r = true -> is_incremental r = true ->
  packet_sequence_id r = q ->
  (k < length vs)%nat ->
  fst (ConvertAll u q vs s) !! k
  = Some (Some (wrap_int64
                  (latest_value r
                   + sum_Z (take (S k) (map (scaled_value r) vs)))))
  /\ latest_value
       <$> reserved_descriptor_tracks_ (snd (ConvertAll u q vs s)) !! u
     = Some (wrap_int64
               (latest_value r + sum_Z (map (scaled_value r) vs))).
Proof. apply ConvertAll_answers. Qed.

Lemma OnIncrementalStateCleared_lookup q s u :
  reserved_descriptor_tracks_ (OnIncrementalStateCleared q s) !! u
  = (fun r => if cleared_by q r then set_latest_value 0 r else r)
      <$> reserved_descriptor_tracks_ s !! u.
Proof.
  simpl. rewrite lookup_fmap.
  destruct (reserved_descriptor_tracks_ s !! u) as [r|]; [|done]. simpl.
  f_equal. unfold cleared_by.
  destruct (is_counter r), (is_incremental r),
    (packet_sequence_id r =? q); done.
Qed.

(** X7: after the incremental state of a sequence is cleared, an incremental
    counter of that sequence starts again from zero: the k-th sample after
    the reset is answered with the sum of the first k contributions since
    the reset, whatever the total was before. *)
Theorem cleared_counter_restarts_from_zero u q vs s r k :
  reserved_descriptor_tracks_ s !! u = Some r ->
  is_counter r = true -> is_incremental r = true ->
  packet_sequence_id r = q ->
  (k < length vs)%nat ->
  fst (ConvertAll u q vs (OnIncrementalStateCleared q s)) !! k
  = Some (Some (wrap_int64
                  (sum_Z (take (S k) (map (scaled_value r) vs))))).
Proof.
  intros Hr Hc Hi Hq Hk.
  pose proof (OnIncrementalStateCleared_lookup q s u) as Hl.
  rewrite Hr in Hl. cbn [fmap option_fmap option_map] in Hl.
  assert (cleared_by q r = true) as Hcl.
  { unfold cleared_by. rewrite Hc, Hi, Hq, Z.eqb_refl. done. }
  rewrite Hcl in Hl.
  destruct (ConvertAll_answers u q vs (OnIncrementalStateCleared q s)
              (set_latest_value 0 r) k Hl Hc Hi Hq Hk) as [-> _].
  done.
Qed.

(** X8: clearing a sequence twice is clearing it once, and clears of two
    sequences can be applied in either order. *)
Theorem OnIncrementalStateCleared_idempotent_commutative q q' s :
  OnIncrementalStateCleared q (OnIncrementalStateCleared q s)
  = OnIncrementalStateCleared q s
  /\ OnIncrementalStateCleared q (OnIncrementalStateCleared q' s)
     = OnIncrementalStateCleared q' (OnIncrementalStateCleared q s).
Proof.
  assert (Heq : forall a b : State PT,
             reserved_descriptor_tracks_ a = reserved_descriptor_tracks_ b ->
             resolved_descriptor_tracks_ a = resolved_descriptor_tracks_ b ->
             descriptor_uuids_by_utid_ a = descriptor_uuids_by_utid_ b ->
             descriptor_uuids_by_upid_ a = descriptor_uuids_by_upid_ b ->
             tracks a = tracks b ->
             track_event_tokenizer_errors a = track_event_tokenizer_errors b ->
             thread_tracks_ a = thread_tracks_ b ->
             process_tracks_ a = process_tracks_ b ->
             args a = args b ->
             process_tracker a = process_tracker b -> a = b).
  { intros [] []. simpl. by intros -> -> -> -> -> -> -> -> -> ->. }
  split; apply Heq; try done; apply map_eq; intros u;
    rewrite !OnIncrementalStateCleared_lookup;
    destruct (reserved_descriptor_tracks_ s !! u) as [r|]; simpl; try done;
    f_equal; unfold cleared_by, set_latest_value;
    destruct r as [? ? ? ? ? c ? ? i p ?]; simpl;
    destruct c, i, (p =? q) eqn:E1, (p =? q') eqn:E2; simpl;
    rewrite ?E1, ?E2; done.
Qed.

(** X9: a clear only concerns the incremental counters of its sequence: for a
    uuid that is not such a counter (an absolute counter, a counter of
    another sequence, a track that is no counter, an unknown uuid), a
    sample gives the same answer before and after the clear, and sample
    and clear can be applied in either order. *)
Theorem clear_leaves_other_counters_alone u q v q' s :
  (forall r, reserved_descriptor_tracks_ s !! u = Some r ->
             cleared_by q' r = false) ->
  ConvertToAbsoluteCounterValue u q v (OnIncrementalStateCleared q' s)
  = (fst (ConvertToAbsoluteCounterValue u q v s),
     OnIncrementalStateCleared q'
       (snd (ConvertToAbsoluteCounterValue u q v s))).
Proof.
  intros Hn. unfold ConvertToAbsoluteCounterValue at 1.
  rewrite OnIncrementalStateCleared_lookup.
  unfold ConvertToAbsoluteCounterValue.
  destruct (reserved_descriptor_tracks_ s !! u) as [r|] eqn:Hr; [|done].
  simpl. pose proof (Hn r eq_refl) as Hcl. rewrite Hcl.
  destruct (is_counter r) eqn:Hc; simpl; [|done].
  destruct (is_incremental r) eqn:Hi; simpl; [|done].
  destruct (packet_sequence_id r =? q) eqn:Hq; simpl; [|done].
  f_equal. unfold OnIncrementalStateCleared, set_reserved. destruct s. simpl.
  f_equal. rewrite fmap_insert. f_equal. simpl.
  unfold cleared_by in Hcl. rewrite Hc, Hi in Hcl. simpl in Hcl.
  by rewrite Hc, Hi, Hcl.
Qed.
End CounterExtras.

(** ** Resolution Engine: what a resolution leaves alone *)

Section FrameSteps.
Context {PT : Type} {ops : ProcessTrackerOps PT} {same : SameTrack}
        {build : BuildConfig}.
Implicit Types s : State PT.

Lemma frame_refl s : frame s s.
Proof.
  unfold frame. split_and!; [done|by left|done| |].
  - exists []. by rewrite app_nil_r.
  - exists []. rewrite app_nil_r. split; [done|]. intros ? ? ? [].
Qed.

Lemma frame_length s s' :
  frame s s' -> (length (tracks s) <= length (tracks s'))%nat.
Proof.
  intros (_ & _ & _ & [rows Hrows] & _).
  apply (f_equal length) in Hrows.
  rewrite length_app, !length_fmap in Hrows. lia.
Qed.

Lemma frame_trans s1 s2 s3 : frame s1 s2 -> frame s2 s3 -> frame s1 s3.
Proof.
  intros H12 H23. pose proof (frame_length _ _ H12) as Hlen.
  destruct H12 as (A1 & B1 & C1 & [r1 D1] & [a1 [E1 F1]]).
  destruct H23 as (A2 & B2 & C2 & [r2 D2] & [a2 [E2 F2]]).
  unfold frame. split_and!.
  - by etrans.
  - destruct B1 as [B1|[B1 B1']], B2 as [B2|[B2 B2']].
    + left. congruence.
    + right. rewrite <- B1. done.
    + right. split; [done|]. congruence.
    + rewrite B1', lookup_insert_eq in B2. discriminate.
  - congruence.
  - exists (r1 ++ r2). rewrite D2, D1. by rewrite app_assoc.
  - exists (a1 ++ a2). split; [rewrite E2, E1; by rewrite app_assoc|].
    intros t key v Hin. apply in_app_or in Hin as [Hin|Hin].
    + by eapply F1.
    + apply F2 in Hin. lia.
Qed.

Lemma frame_same_core s s' :
  reserved_descriptor_tracks_ s' = reserved_descriptor_tracks_ s ->
  resolved_descriptor_tracks_ s' = resolved_descriptor_tracks_ s ->
  track_event_tokenizer_errors s' = track_event_tokenizer_errors s ->
  args s' = args s ->
  row_shape <$> tracks s' = row_shape <$> tracks s ->
  frame s s'.
Proof.
  intros H1 H2 H3 H4 H5. unfold frame. rewrite H1, H2, H3, H4, H5.
  apply frame_refl.
Qed.

Lemma frame_set_process_tracker pt s : frame s (set_process_tracker pt s).
Proof. by apply frame_same_core. Qed.

Lemma frame_set_by_utid f s : frame s (set_by_utid f s).
Proof. by apply frame_same_core. Qed.

Lemma frame_set_by_upid f s : frame s (set_by_upid f s).
Proof. by apply frame_same_core. Qed.

Lemma frame_set_thread_tracks f s : frame s (set_thread_tracks f s).
Proof. by apply frame_same_core. Qed.

Lemma frame_set_process_tracks f s : frame s (set_process_tracks f s).
Proof. by apply frame_same_core. Qed.

Lemma row_shape_set_track_name n (l : list TrackRow) row :
  row_shape <$> alter (set_track_name n) row l = row_shape <$> l.
Proof.
  apply list_eq. intros i. rewrite !list_lookup_fmap.
  destruct (decide (i = row)) as [->|Hne].
  - rewrite list_lookup_alter_eq. by destruct (l !! row).
  - by rewrite list_lookup_alter_ne.
Qed.

Lemma frame_SetName row n s :
  frame s (set_tracks (alter (set_track_name n) row) s).
Proof.
  apply frame_same_core; try done. simpl. apply row_shape_set_track_name.
Qed.

Lemma frame_Insert row s : frame s (set_tracks (fun l => l ++ [row]) s).
Proof.
  unfold frame. simpl. split_and!; [done|by left|done| |].
  - exists [row_shape row]. by rewrite fmap_app.
  - exists []. rewrite app_nil_r. split; [done|]. intros ? ? ? [].
Qed.

Lemma frame_AddArg s0 s t key v :
  frame s0 s -> (length (tracks s0) <= t)%nat ->
  frame s0 (set_args (fun l => l ++ [(t, key, v)]) s).
Proof.
  intros (A & B & C & D & [a [E F]]) Ht.
  unfold frame. simpl. split_and!; [done..|].
  exists (a ++ [(t, key, v)]). split; [by rewrite E, app_assoc|].
  intros t' key' v' Hin. apply in_app_or in Hin as [Hin|[[= <- <- <-]|[]]].
  - by eapply F.
  - done.
Qed.

Lemma frame_memoize s s2 uuid t :
  frame s s2 ->
  resolved_descriptor_tracks_ s !! uuid = None ->
  frame s (set_resolved (insert uuid t) s2).
Proof.
  intros (A & B & C & D & E) Hnone.
  unfold frame. simpl. split_and!; [|done..].
  by apply insert_subseteq_r.
Qed.

Lemma frame_reserve_default s :
  reserved_descriptor_tracks_ s !! kDefaultDescriptorTrackUuid = None ->
  frame s (ReserveDescriptorChildTrack kDefaultDescriptorTrackUuid 0
             default_descriptor_track_name_ s).
Proof.
  intros Hnone. unfold ReserveDescriptorChildTrack. rewrite Hnone.
  unfold frame. simpl. split_and!; [done| |done| |].
  - right. done.
  - exists []. by rewrite app_nil_r.
  - exists []. rewrite app_nil_r. split; [done|]. intros ? ? ? [].
Qed.
End FrameSteps.

Ltac frm_prim :=
  first
    [ apply frame_set_process_tracker
    | apply frame_set_by_utid
    | apply frame_set_by_upid
    | apply frame_set_thread_tracks
    | apply frame_set_process_tracks
    | apply frame_SetName
    | apply frame_Insert ].

Ltac frm_to :=
  match goal with
  | |- frame ?s ?s => apply frame_refl
  | H : frame ?s ?t |- frame ?s ?t => exact H
  | H : frame ?x ?t |- frame ?s ?t =>
      apply (frame_trans s x t); [frm_to | exact H]
  | |- frame ?s (?g ?x) => apply (frame_trans s x); [frm_to | frm_prim]
  end.

Section FrameBodies.
Context {PT : Type} {ops : ProcessTrackerOps PT} {same : SameTrack}
        {build : BuildConfig}.
Implicit Types s : State PT.
Abbreviation M := (M (PT:=PT)).

Lemma framed_fail {A} e : framed (PT:=PT) (fail (A:=A) e).
Proof. intros s a s' H. discriminate. Qed.

Lemma framed_InternThreadTrack utid :
  framed (PT:=PT) (InternThreadTrack utid).
Proof.
  intros s a s' H. unfold InternThreadTrack in H. inv_ok; frm_to.
Qed.

Lemma framed_InternProcessTrack upid :
  framed (PT:=PT) (InternProcessTrack upid).
Proof.
  intros s a s' H. unfold InternProcessTrack in H. inv_ok; frm_to.
Qed.

Lemma framed_set_track_name_and_return r t :
  framed (PT:=PT) (set_track_name_and_return r t).
Proof.
  intros s a s' H. unfold set_track_name_and_return, IndexOf, SetName in H.
  inv_ok; frm_to.
Qed.

Lemma framed_ResolveThreadTrack uuid r tid_ :
  framed (ResolveThreadTrack uuid r tid_).
Proof.
  intros s a s' H. unfold ResolveThreadTrack in H. inv_ok.
  all: repeat match goal with
         | H : InternThreadTrack _ _ = Ok _ |- _ =>
             apply framed_InternThreadTrack in H
         | H : set_track_name_and_return _ _ _ = Ok _ |- _ =>
             apply framed_set_track_name_and_return in H
         end.
  all: frm_to.
Qed.

Lemma framed_ResolveProcessTrack uuid r pid_ :
  framed (ResolveProcessTrack uuid r pid_).
Proof.
  intros s a s' H. unfold ResolveProcessTrack in H. inv_ok.
  all: repeat match goal with
         | H : InternProcessTrack _ _ = Ok _ |- _ =>
             apply framed_InternProcessTrack in H
         | H : set_track_name_and_return _ _ _ = Ok _ |- _ =>
             apply framed_set_track_name_and_return in H
         end.
  all: frm_to.
Qed.

Lemma ResolveUnderParent_frame r p s a s' :
  ResolveUnderParent r p s = Ok (a, s') ->
  frame s s' /\ forall t, a = Some t -> t = length (tracks s).
Proof.
  intros H. unfold ResolveUnderParent, IndexOfIn, utid_at, upid_at in H.
  inv_ok; (split; [frm_to|]); intros t' [=]; done.
Qed.

Lemma AddArgsAndName_frame uuid r t p s0 s a s' :
  frame s0 s -> (length (tracks s0) <= t)%nat ->
  AddArgsAndName uuid r t p s = Ok (a, s') ->
  frame s0 s'.
Proof.
  intros Hf Ht. unfold AddArgsAndName, AddArg. intros H.
  apply bind_Ok in H as ([] & s1 & Hm & H). apply modify_Ok in Hm as ->.
  apply bind_Ok in H as ([] & s2 & Hm & H). apply modify_Ok in Hm as ->.
  pose proof (frame_AddArg _ _ _ source_key_
                (VString descriptor_source_) Hf Ht) as Hf1.
  pose proof (frame_AddArg _ _ _ source_id_key_
                (VInteger (static_cast_int64 uuid)) Hf1 Ht) as Hf2.
  apply bind_Ok in H as ([] & s3 & Hm3 & H).
  assert (Hf3 : frame s0 s3).
  { destruct p as [p|].
    - apply modify_Ok in Hm3 as ->. by apply frame_AddArg.
    - by apply ret_Ok in Hm3 as [_ ->]. }
  apply bind_Ok in H as ([] & s4 & Hm4 & H).
  assert (Hf4 : frame s0 s4).
  { destruct (negb _).
    - apply modify_Ok in Hm4 as ->. by apply frame_AddArg.
    - by apply ret_Ok in Hm4 as [_ ->]. }
  apply framed_set_track_name_and_return in H. frm_to.
Qed.

Lemma framed_UpdateTrackName uuid ev t :
  framed (PT:=PT) (UpdateTrackName uuid ev t).
Proof.
  intros s a s' H. unfold UpdateTrackName, IndexOf, name_at, SetName in H.
  inv_ok; frm_to.
Qed.

Lemma framed_ResolveParent
    (impl : Z -> option (list Z) -> M (option TrackId)) uuid r desc :
  (forall d, framed_lookup (fun u => impl u d)) ->
  framed (ResolveParent impl uuid r desc).
Proof.
  intros Hi s a s' H. unfold ResolveParent in H.
  repeat match type of H with
         | (if ?c then _ else _) _ = _ => destruct c
         end;
    try (by apply (Hi _ _ _ _ _) in H as [? _]);
    inv_ok; frm_to.
Qed.

Lemma framed_ResolveDefaultParent (dflt : M TrackId) uuid desc p :
  framed dflt -> framed (ResolveDefaultParent dflt uuid desc p).
Proof.
  intros Hd s a s' H. unfold ResolveDefaultParent in H.
  repeat match type of H with
         | (if ?c then _ else _) _ = _ => destruct c
         end;
    inv_ok; try frm_to.
  by apply Hd in Hrun.
Qed.

Lemma framed_ResolveDescriptorTrack_body
    (impl : Z -> option (list Z) -> M (option TrackId)) (dflt : M TrackId)
    uuid r desc :
  (forall d, framed_lookup (fun u => impl u d)) ->
  framed dflt ->
  framed (ResolveDescriptorTrack_body impl dflt uuid r desc).
Proof.
  intros Hi Hd s a s' H. unfold ResolveDescriptorTrack_body in H.
  apply bind_Ok in H as (parent & s1 & Hp & H).
  apply (framed_ResolveParent _ _ _ _ Hi) in Hp.
  destruct (tid r) as [tid_|].
  { apply framed_ResolveThreadTrack in H. frm_to. }
  destruct (pid r) as [pid_|].
  { apply framed_ResolveProcessTrack in H. frm_to. }
  apply bind_Ok in H as (track_id & s2 & Hu & H).
  apply ResolveUnderParent_frame in Hu as [Hf2 Ht].
  pose proof (frame_length _ _ Hp) as Hlen1.
  destruct track_id as [t|].
  - apply (AddArgsAndName_frame uuid r t parent s s2 a s'); [| |exact H].
    + frm_to.
    + rewrite (Ht t eq_refl). lia.
  - apply bind_Ok in H as (t & s3 & Hg & H).
    unfold InsertGlobalTrack in Hg. apply Insert_Ok in Hg as [-> ->].
    apply bind_Ok in H as (p & s4 & Hdp & H).
    apply (framed_ResolveDefaultParent _ _ _ _ Hd) in Hdp.
    pose proof (frame_length _ _ Hf2) as Hlen2.
    apply (AddArgsAndName_frame uuid r (length (tracks s2)) p s s4 a s');
      [| |exact H].
    + frm_to.
    + lia.
Qed.

Lemma framed_GetDescriptorTrackImpl_body
    (resolve : Z -> DescriptorTrackReservation -> option (list Z) ->
               M TrackId) desc :
  (forall u r d, framed (resolve u r d)) ->
  framed_lookup (fun uuid => GetDescriptorTrackImpl_body resolve uuid desc).
Proof.
  intros Hr uuid s a s' H. unfold GetDescriptorTrackImpl_body in H.
  apply bind_Ok in H as (it & s0 & Hg & H). apply gets_Ok in Hg as [-> ->].
  destruct (resolved_descriptor_tracks_ s !! uuid) as [t|] eqn:Hres.
  { apply ret_Ok in H as [-> ->]. split; [frm_to|done]. }
  apply bind_Ok in H as (rit & s0 & Hg & H). apply gets_Ok in Hg as [-> ->].
  destruct (reserved_descriptor_tracks_ s !! uuid) as [r|] eqn:Hrs.
  - apply bind_Ok in H as (t & s2 & Hrun & H).
    apply bind_Ok in H as ([] & s3 & Hm & H).
    apply modify_Ok in Hm as ->. apply ret_Ok in H as [-> ->].
    apply Hr in Hrun. split; [|done]. by apply frame_memoize.
  - apply ret_Ok in H as [-> ->]. split; [frm_to|done].
Qed.

Lemma framed_GetDescriptorTrack_body
    (impl : Z -> option (list Z) -> M (option TrackId)) ev :
  (forall d, framed_lookup (fun u => impl u d)) ->
  framed_lookup (fun uuid => GetDescriptorTrack_body impl uuid ev).
Proof.
  intros Hi uuid s a s' H. unfold GetDescriptorTrack_body in H.
  apply bind_Ok in H as (o & s1 & Himpl & H).
  apply (Hi None) in Himpl as [Hf Hnone].
  destruct o as [t|]; [|inv_ok; by split].
  destruct (is_null ev); [inv_ok; by split|].
  pose proof (UpdateTrackName_cases _ _ _ _ _ _ H) as [-> _].
  apply framed_UpdateTrackName in H. split; [frm_to|done].
Qed.

Lemma frame_reserved_Some s s' uuid r :
  frame s s' ->
  reserved_descriptor_tracks_ s !! uuid = Some r ->
  reserved_descriptor_tracks_ s' !! uuid = Some r.
Proof.
  intros (_ & [->|[Hn ->]] & _) Hr; [done|].
  rewrite lookup_insert_ne; [done|]. intros <-. congruence.
Qed.

Lemma framed_GetOrCreateDefaultDescriptorTrack_body
    (getdt : Z -> StringId -> M (option TrackId)) :
  (forall e, framed_lookup (fun u => getdt u e)) ->
  framed (GetOrCreateDefaultDescriptorTrack_body getdt).
Proof.
  intros Hg s a s' H. unfold GetOrCreateDefaultDescriptorTrack_body in H.
  apply bind_Ok in H as (o & s1 & Hg1 & H).
  apply (Hg kNullStringId) in Hg1 as [Hf1 Hn1].
  destruct o as [t|].
  - inv_ok. done.
  - apply bind_Ok in H as ([] & s2 & Hm & H). apply modify_Ok in Hm.
    apply bind_Ok in H as (o & s3 & Hg2 & H).
    apply (Hg kNullStringId) in Hg2 as [Hf2 _].
    apply deref_Ok in H as [-> ->]. subst s2.
    pose proof (frame_reserve_default s1 (Hn1 eq_refl)) as Hf.
    frm_to.
Qed.

Lemma framed_all fuel :
  (forall d, framed_lookup (fun u => GetDescriptorTrackImpl fuel u d))
  /\ (forall u r d, framed (ResolveDescriptorTrack fuel u r d))
  /\ framed (GetOrCreateDefaultDescriptorTrack fuel)
  /\ (forall e, framed_lookup (fun u => GetDescriptorTrack fuel u e)).
Proof.
  induction fuel as [|fuel (IHi & IHr & IHd & IHg)].
  - split_and!; intros; try apply framed_fail;
      intros ? ? ? ? H; discriminate H.
  - split_and!; intros; simpl.
    + by apply framed_GetDescriptorTrackImpl_body.
    + by apply framed_ResolveDescriptorTrack_body.
    + by apply framed_GetOrCreateDefaultDescriptorTrack_body.
    + by apply framed_GetDescriptorTrack_body.
Qed.

Lemma frame_GetDescriptorTrack fuel uuid ev s a s' :
  GetDescriptorTrack fuel uuid ev s = Ok (a, s') -> frame s s'.
Proof.
  intros H. by apply (proj2 (proj2 (proj2 (framed_all fuel))) ev) in H as [? _].
Qed.

Lemma frame_GetOrCreateDefaultDescriptorTrack fuel s a s' :
  GetOrCreateDefaultDescriptorTrack fuel s = Ok (a, s') -> frame s s'.
Proof. apply framed_all. Qed.
End FrameBodies.

Section FrameTheorems.
Context {PT : Type} {ops : ProcessTrackerOps PT} {same : SameTrack}
        {build : BuildConfig}.
Implicit Types s : State PT.

(** X10: memoization is permanent: whatever uuid is resolved, with whatever
    event name, every uuid that was memoized before is still memoized to
    the same row afterwards, and every row that existed before is still
    there, in the same table and for the same thread or process; at most
    its name has changed. *)
Theorem resolution_keeps_memoized_rows fuel uuid event_name s r s' :
  GetDescriptorTrack fuel uuid event_name s = Ok (r, s') ->
  (forall u t,
     resolved_descriptor_tracks_ s !! u = Some t ->
     resolved_descriptor_tracks_ s' !! u = Some t)
  /\ (forall t row,
        tracks s !! t = Some row ->
        exists row',
          tracks s' !! t = Some row'
          /\ track_table row' = track_table row
          /\ track_utid row' = track_utid row
          /\ track_upid row' = track_upid row).
Proof.
  intros H. apply frame_GetDescriptorTrack in H
    as (Hres & _ & _ & [rows Hrows] & _).
  split.
  - intros u t Hu. by eapply lookup_weaken.
  - intros t row Hrow.
    assert (Hl : (row_shape <$> tracks s') !! t = Some (row_shape row)).
    { rewrite Hrows. apply lookup_app_l_Some.
      by rewrite list_lookup_fmap, Hrow. }
    rewrite list_lookup_fmap in Hl.
    destruct (tracks s' !! t) as [row'|]; [|discriminate].
    exists row'. injection Hl as H1 H2 H3. done.
Qed.

(** X11: resolution reads the reservations and never rewrites them: every
    reservation is found unchanged afterwards, the only reservation that a
    resolution can add is that of the default track (under its uuid, which
    was not reserved before), and no inconsistency is counted. *)
Theorem resolution_never_rewrites_reservations fuel uuid event_name s r s' :
  GetDescriptorTrack fuel uuid event_name s = Ok (r, s') ->
  (forall u res,
     reserved_descriptor_tracks_ s !! u = Some res ->
     reserved_descriptor_tracks_ s' !! u = Some res)
  /\ (forall u res,
        reserved_descriptor_tracks_ s' !! u = Some res ->
        reserved_descriptor_tracks_ s !! u = Some res
        \/ (u = kDefaultDescriptorTrackUuid
            /\ res = child_track_reservation 0 default_descriptor_track_name_
            /\ reserved_descriptor_tracks_ s !! kDefaultDescriptorTrackUuid
               = None))
  /\ track_event_tokenizer_errors s' = track_event_tokenizer_errors s.
Proof.
  intros H. apply frame_GetDescriptorTrack in H as Hf.
  split_and!.
  - intros u res. by apply frame_reserved_Some.
  - destruct Hf as (_ & [->|[Hn ->]] & _); intros u res Hu; [by left|].
    destruct (decide (u = kDefaultDescriptorTrackUuid)) as [->|Hne].
    + rewrite lookup_insert_eq in Hu. injection Hu as <-. by right.
    + rewrite lookup_insert_ne in Hu by done. by left.
  - by destruct Hf as (_ & _ & ? & _).
Qed.

(** X12: resolution only annotates the rows it creates: the arguments stored
    before are found unchanged, in the same order, and every argument that
    a resolution adds is attached to a row that did not exist before. *)
Theorem resolution_only_annotates_new_rows fuel uuid event_name s r s' :
  well_formed s ->
  GetDescriptorTrack fuel uuid event_name s = Ok (r, s') ->
  exists new_args,
    args s' = args s ++ new_args
    /\ forall t key v,
         In (t, key, v) new_args ->
         (length (tracks s) <= t < length (tracks s'))%nat.
Proof.
  intros [_ Hiv] H. apply frame_GetDescriptorTrack in H as Hf.
  apply run_ok_GetDescriptorTrack in H as [Hext _].
  apply (extends_ids_valid _ _ Hext) in Hiv as (_ & _ & _ & Hargs).
  destruct Hf as (_ & _ & _ & _ & [new_args [Ha Hnew]]).
  exists new_args. split; [done|]. intros t key v Hin. split.
  - by eapply Hnew.
  - apply (Hargs t key v). rewrite Ha. apply in_or_app. by right.
Qed.
End FrameTheorems.

(** ** Resolution Engine: the ways a resolution can stop *)

Section Safety.
Context {PT : Type} {ops : ProcessTrackerOps PT} {same : SameTrack}
        {build : BuildConfig}.
Implicit Types s : State PT.
Abbreviation M := (M (PT:=PT)).

Lemma bind_not_Err {A B} (m : M A) (k : A -> M B) s e :
  m s <> Err e ->
  (forall a s', m s = Ok (a, s') -> k a s' <> Err e) ->
  bind m k s <> Err e.
Proof.
  intros Hm Hk H. apply bind_Err in H as [H|(a & s' & Hrun & H)]; [done|].
  by eapply Hk.
Qed.

Lemma safe_set_track_name_and_return r t s :
  valid_id t s -> set_track_name_and_return r t s <> Err NulloptDeref.
Proof.
  intros Hv. unfold set_track_name_and_return, IndexOf, SetName.
  destruct (is_null _); [done|]. mstep.
  unfold valid_id in Hv. apply Nat.ltb_lt in Hv. rewrite Hv. by mstep.
Qed.

Lemma never_InternThreadTrack e utid :
  never (PT:=PT) e (InternThreadTrack utid).
Proof. unfold InternThreadTrack. repeat never_step. Qed.

Lemma never_InternProcessTrack e upid :
  never (PT:=PT) e (InternProcessTrack upid).
Proof. unfold InternProcessTrack. repeat never_step. Qed.

Lemma safe_ResolveThreadTrack uuid r tid_ s :
  ids_valid s -> is_Some (pid r) ->
  ResolveThreadTrack uuid r tid_ s <> Err NulloptDeref.
Proof.
  intros Hv [p Hp]. unfold ResolveThreadTrack. rewrite Hp. mstep.
  apply bind_not_Err; [apply never_call_process_tracker|].
  intros utid s1 H1. apply call_process_tracker_Ok in H1 as [pt ->].
  mstep. apply bind_not_Err.
  { destruct (descriptor_uuids_by_utid_ _ !! utid);
      generalize (set_process_tracker pt s); repeat never_step. }
  intros utid' s2 H2.
  assert (Hext : extends (set_process_tracker pt s) s2).
  { inv_ok; ext_to. }
  apply bind_not_Err; [apply never_InternThreadTrack|].
  intros t s3 H3. apply run_ok_InternThreadTrack in H3 as [_ Ht].
  apply safe_set_track_name_and_return, Ht.
  apply (extends_ids_valid _ _ Hext).
  apply (extends_ids_valid s); [apply extends_set_process_tracker|done].
Qed.

Lemma safe_ResolveProcessTrack uuid r pid_ s :
  ids_valid s -> ResolveProcessTrack uuid r pid_ s <> Err NulloptDeref.
Proof.
  intros Hv. unfold ResolveProcessTrack.
  apply bind_not_Err; [apply never_call_process_tracker|].
  intros upid s1 H1. apply call_process_tracker_Ok in H1 as [pt ->].
  mstep. apply bind_not_Err.
  { destruct (descriptor_uuids_by_upid_ _ !! upid);
      generalize (set_process_tracker pt s); repeat never_step. }
  intros upid' s2 H2.
  assert (Hext : extends (set_process_tracker pt s) s2).
  { inv_ok; ext_to. }
  apply bind_not_Err; [apply never_InternProcessTrack|].
  intros t s3 H3. apply run_ok_InternProcessTrack in H3 as [_ Ht].
  apply safe_set_track_name_and_return, Ht.
  apply (extends_ids_valid _ _ Hext).
  apply (extends_ids_valid s); [apply extends_set_process_tracker|done].
Qed.

Lemma safe_AddArgsAndName uuid r t p s :
  valid_id t s -> AddArgsAndName uuid r t p s <> Err NulloptDeref.
Proof. intros Hv. by rewrite AddArgsAndName_eval. Qed.

Lemma safe_UpdateTrackName uuid ev t s :
  valid_id t s -> UpdateTrackName uuid ev t s <> Err NulloptDeref.
Proof.
  intros Hv. unfold UpdateTrackName, IndexOf, name_at, SetName. mstep.
  unfold valid_id in Hv. apply Nat.ltb_lt in Hv. rewrite Hv. mstep.
  destruct (negb _); [done|]. mstep.
  destruct (reserved_descriptor_tracks_ s !! uuid); [|done].
  destruct (_ || _ || _); [done|]. by mstep.
Qed.

Lemma never_ResolveUnderParent_any e r p :
  never (PT:=PT) e (ResolveUnderParent r p).
Proof.
  unfold ResolveUnderParent, IndexOfIn, utid_at, upid_at.
  repeat never_step.
Qed.

Lemma threads_have_pid_frame s s' :
  frame s s' -> threads_have_pid s -> threads_have_pid s'.
Proof.
  unfold threads_have_pid.
  intros (_ & [->|[_ ->]] & _) Hs; [done|]. intros u r Hu Ht.
  destruct (decide (u = kDefaultDescriptorTrackUuid)) as [->|Hne].
  - rewrite lookup_insert_eq in Hu. injection Hu as <-.
    by destruct Ht.
  - rewrite lookup_insert_ne in Hu by done. by eapply Hs.
Qed.

Lemma sound_step s s' : sound s -> extends s s' -> frame s s' -> sound s'.
Proof.
  intros [[Hrr Hiv] Hth] Hext Hf. split; [split|].
  - by eapply extends_resolved_are_reserved.
  - by eapply extends_ids_valid.
  - by eapply threads_have_pid_frame.
Qed.

Lemma safe_all fuel :
  (forall u d s, sound s ->
                 GetDescriptorTrackImpl fuel u d s <> Err NulloptDeref)
  /\ (forall u r d s,
        sound s -> (is_Some (tid r) -> is_Some (pid r)) ->
        ResolveDescriptorTrack fuel u r d s <> Err NulloptDeref)
  /\ (forall s, sound s ->
                GetOrCreateDefaultDescriptorTrack fuel s <> Err NulloptDeref)
  /\ (forall u e s, sound s ->
                    GetDescriptorTrack fuel u e s <> Err NulloptDeref).
Proof.
  induction fuel as [|fuel (IHi & IHr & IHd & IHg)].
  - split_and!; intros; discriminate.
  - destruct (framed_all fuel) as (Fi & Fr & Fd & Fg).
    destruct (run_ok_all (same:=same) fuel) as (Ri & Rr & Rd & Rg).
    split_and!.
    + intros u d s Hs. simpl. unfold GetDescriptorTrackImpl_body. mstep.
      destruct (resolved_descriptor_tracks_ s !! u); [done|]. mstep.
      destruct (reserved_descriptor_tracks_ s !! u) as [r|] eqn:Hr; [|done].
      apply bind_not_Err; [|done].
      apply IHr; [done|]. destruct Hs as [_ Hth]. by eapply Hth.
    + intros u r d s Hs Hr. simpl. unfold ResolveDescriptorTrack_body.
      apply bind_not_Err.
      { unfold ResolveParent.
        repeat match goal with
               | |- (if ?c then _ else _) _ <> _ => destruct c
               end; try done. by apply IHi. }
      intros parent s1 Hp.
      assert (Hs1 : sound s1).
      { apply (sound_step s); [done| |].
        - by apply (run_ok_ResolveParent _ _ _ _ Ri) in Hp as [? _].
        - by apply (framed_ResolveParent _ _ _ _ Fi) in Hp. }
      destruct (tid r) as [tid_|].
      { apply safe_ResolveThreadTrack; [apply Hs1|]. by apply Hr. }
      destruct (pid r) as [pid_|].
      { apply safe_ResolveProcessTrack. apply Hs1. }
      apply bind_not_Err; [apply never_ResolveUnderParent_any|].
      intros track_id s2 Hu.
      pose proof (run_ok_ResolveUnderParent _ _ _ _ _ Hu) as [Hext2 Hv2].
      destruct track_id as [t|].
      { apply safe_AddArgsAndName. apply Hv2; [apply Hs1|done]. }
      unfold InsertGlobalTrack. mstep.
      assert (Hs3 : sound (set_tracks (fun l => l ++ [global_row r]) s2)).
      { apply ResolveUnderParent_frame in Hu as [Hf2 _].
        apply (sound_step s2); [by apply (sound_step s1)| |];
          [apply extends_Insert|apply frame_Insert]. }
      apply bind_not_Err.
      { unfold ResolveDefaultParent.
        repeat match goal with
               | |- (if ?c then _ else _) _ <> _ => destruct c
               end; try done.
        apply bind_not_Err; [by apply IHd|done]. }
      intros p s4 Hdp. apply safe_AddArgsAndName.
      apply (ResolveDefaultParent_Ok _ _ _ _ _ _ _ Rd) in Hdp as [Hext4 _].
      apply (extends_valid_id _ _ _ Hext4). unfold valid_id. simpl.
      rewrite length_app. simpl. lia.
    + intros s Hs. simpl. unfold GetOrCreateDefaultDescriptorTrack_body.
      apply bind_not_Err; [by apply IHg|]. intros o s1 H1.
      destruct o as [t|]; [done|]. mstep.
      pose proof (Fg kNullStringId _ _ _ _ H1) as [Hf1 Hn1].
      specialize (Hn1 eq_refl).
      pose proof (Rg _ _ _ _ _ H1) as [Hext1 _].
      pose proof (sound_step _ _ Hs Hext1 Hf1) as Hs1.
      set (s2 := ReserveDescriptorChildTrack _ _ _ s1).
      assert (Hs2 : sound s2).
      { apply (sound_step s1); [done| |].
        - apply extends_ReserveDescriptorChildTrack.
        - by apply frame_reserve_default. }
      apply bind_not_Err; [by apply IHg|]. intros o s3 H3.
      destruct o as [t|]; [done|]. exfalso.
      pose proof (Fg kNullStringId _ _ _ _ H3) as [Hf3 Hn3].
      specialize (Hn3 eq_refl).
      assert (Hr2 : reserved_descriptor_tracks_ s2
                      !! kDefaultDescriptorTrackUuid
                    = Some default_track_reservation).
      { unfold s2, ReserveDescriptorChildTrack. rewrite Hn1. simpl.
        apply lookup_insert_eq. }
      apply (frame_reserved_Some _ _ _ _ Hf3) in Hr2. congruence.
    + intros u e s Hs. simpl. unfold GetDescriptorTrack_body.
      apply bind_not_Err; [by apply IHi|]. intros o s1 H1.
      destruct o as [t|]; [|done]. destruct (is_null e); [done|].
      apply safe_UpdateTrackName.
      apply Ri in H1 as [_ Hv]. apply Hv; [apply Hs|done].
Qed.
End Safety.

(** ** Bound uuids are resolved uuids (lines 264-301) *)

Section Bindings.
Context {PT : Type} {ops : ProcessTrackerOps PT} {same : SameTrack}
        {build : BuildConfig}.
Implicit Types s : State PT.
Abbreviation M := (M (PT:=PT)).

Lemma bind_call_process_tracker {A B} (f : PT -> A * PT) (k : A -> M B) s :
  bind (call_process_tracker f) k s
  = k (fst (f (process_tracker s)))
      (set_process_tracker (snd (f (process_tracker s))) s).
Proof.
  unfold bind, call_process_tracker. by destruct (f (process_tracker s)).
Qed.

Lemma bound_are_resolved_weaken uuid s :
  bound_are_resolved s -> bound_are_resolved_but uuid s.
Proof. intros [H1 H2]. split; intros k u Hk; right; eauto. Qed.

Lemma bound_are_resolved_memoize uuid t s :
  bound_are_resolved_but uuid s ->
  bound_are_resolved (set_resolved (insert uuid t) s).
Proof.
  intros [H1 H2]. split; intros k u Hk; simpl in *.
  all: destruct (decide (u = uuid)) as [->|Hne];
    [rewrite lookup_insert_eq; eauto|rewrite lookup_insert_ne by done].
  - by destruct (H1 k u Hk).
  - by destruct (H2 k u Hk).
Qed.

Lemma bound_but_same uuid s s' :
  descriptor_uuids_by_utid_ s' = descriptor_uuids_by_utid_ s ->
  descriptor_uuids_by_upid_ s' = descriptor_uuids_by_upid_ s ->
  resolved_descriptor_tracks_ s' = resolved_descriptor_tracks_ s ->
  bound_are_resolved_but uuid s -> bound_are_resolved_but uuid s'.
Proof.
  unfold bound_are_resolved_but. intros -> -> ->. done.
Qed.

Lemma bound_same s s' :
  descriptor_uuids_by_utid_ s' = descriptor_uuids_by_utid_ s ->
  descriptor_uuids_by_upid_ s' = descriptor_uuids_by_upid_ s ->
  resolved_descriptor_tracks_ s' = resolved_descriptor_tracks_ s ->
  bound_are_resolved s -> bound_are_resolved s'.
Proof.
  unfold bound_are_resolved. intros -> -> ->. done.
Qed.

Lemma bound_but_bind_utid uuid utid s s' :
  descriptor_uuids_by_utid_ s'
  = <[utid := uuid]> (descriptor_uuids_by_utid_ s) ->
  descriptor_uuids_by_upid_ s' = descriptor_uuids_by_upid_ s ->
  resolved_descriptor_tracks_ s' = resolved_descriptor_tracks_ s ->
  bound_are_resolved_but uuid s -> bound_are_resolved_but uuid s'.
Proof.
  unfold bound_are_resolved_but. intros -> -> -> [H1 H2].
  split; [|done]. intros k u Hk.
  apply lookup_insert_Some in Hk as [[_ <-]|[_ Hk]]; [by left|eauto].
Qed.

Lemma bound_but_bind_upid uuid upid s s' :
  descriptor_uuids_by_utid_ s' = descriptor_uuids_by_utid_ s ->
  descriptor_uuids_by_upid_ s'
  = <[upid := uuid]> (descriptor_uuids_by_upid_ s) ->
  resolved_descriptor_tracks_ s' = resolved_descriptor_tracks_ s ->
  bound_are_resolved_but uuid s -> bound_are_resolved_but uuid s'.
Proof.
  unfold bound_are_resolved_but. intros -> -> -> [H1 H2].
  split; [done|]. intros k u Hk.
  apply lookup_insert_Some in Hk as [[_ <-]|[_ Hk]]; [by left|eauto].
Qed.

Lemma keeps_ResolveThreadTrack uuid r tid_ :
  keeps (bound_are_resolved_but uuid) (ResolveThreadTrack uuid r tid_).
Proof.
  intros s a s' H Hs.
  unfold ResolveThreadTrack, InternThreadTrack, set_track_name_and_return,
    IndexOf, SetName in H.
  inv_ok; (eapply (bound_but_bind_utid _ _ s); [reflexivity..|exact Hs]).
Qed.

Lemma keeps_ResolveProcessTrack uuid r pid_ :
  keeps (bound_are_resolved_but uuid) (ResolveProcessTrack uuid r pid_).
Proof.
  intros s a s' H Hs.
  unfold ResolveProcessTrack, InternProcessTrack, set_track_name_and_return,
    IndexOf, SetName in H.
  inv_ok; (eapply (bound_but_bind_upid _ _ s); [reflexivity..|exact Hs]).
Qed.

Lemma keeps_ResolveUnderParent r p :
  keeps (PT:=PT) bound_are_resolved (ResolveUnderParent r p).
Proof.
  intros s a s' H.
  unfold ResolveUnderParent, IndexOfIn, utid_at, upid_at in H.
  inv_ok; by apply bound_same.
Qed.

Lemma keeps_AddArgsAndName uuid r t p :
  keeps (PT:=PT) bound_are_resolved (AddArgsAndName uuid r t p).
Proof.
  intros s a s' H.
  unfold AddArgsAndName, AddArg, set_track_name_and_return, IndexOf,
    SetName in H.
  inv_ok; by apply bound_same.
Qed.

Lemma keeps_UpdateTrackName uuid ev t :
  keeps (PT:=PT) bound_are_resolved (UpdateTrackName uuid ev t).
Proof.
  intros s a s' H.
  unfold UpdateTrackName, IndexOf, name_at, SetName in H.
  inv_ok; by apply bound_same.
Qed.

Lemma keeps_ResolveParent
    (impl : Z -> option (list Z) -> M (option TrackId)) uuid r desc :
  (forall u d, keeps bound_are_resolved (impl u d)) ->
  keeps bound_are_resolved (ResolveParent impl uuid r desc).
Proof.
  intros Hi s a s' H. unfold ResolveParent in H.
  repeat match type of H with
         | (if ?c then _ else _) _ = _ => destruct c
         end;
    inv_ok; try done.
  by eapply Hi.
Qed.

Lemma keeps_ResolveDefaultParent (dflt : M TrackId) uuid desc p :
  keeps bound_are_resolved dflt ->
  keeps bound_are_resolved (ResolveDefaultParent dflt uuid desc p).
Proof.
  intros Hd s a s' H. unfold ResolveDefaultParent in H.
  repeat match type of H with
         | (if ?c then _ else _) _ = _ => destruct c
         end;
    inv_ok; try done.
  by eapply Hd.
Qed.

Lemma bound_all fuel :
  (forall u d, keeps bound_are_resolved (GetDescriptorTrackImpl fuel u d))
  /\ (forall u r d s t s',
        ResolveDescriptorTrack fuel u r d s = Ok (t, s') ->
        bound_are_resolved s -> bound_are_resolved_but u s')
  /\ keeps bound_are_resolved (GetOrCreateDefaultDescriptorTrack fuel)
  /\ (forall u e, keeps bound_are_resolved (GetDescriptorTrack fuel u e)).
Proof.
  induction fuel as [|fuel (IHi & IHr & IHd & IHg)].
  - split_and!; unfold keeps; intros; discriminate.
  - split_and!.
    + intros u d s o s' H Hs. simpl in H.
      unfold GetDescriptorTrackImpl_body in H. inv_ok; try done.
      apply bound_are_resolved_memoize. by eapply IHr.
    + intros u r d s t s' H Hs. simpl in H.
      unfold ResolveDescriptorTrack_body in H.
      apply bind_Ok in H as (parent & s1 & Hp & H).
      pose proof (keeps_ResolveParent _ _ _ _ IHi _ _ _ Hp Hs) as Hs1.
      destruct (tid r) as [tid_|].
      { apply (keeps_ResolveThreadTrack _ _ _ _ _ _ H).
        by apply bound_are_resolved_weaken. }
      destruct (pid r) as [pid_|].
      { apply (keeps_ResolveProcessTrack _ _ _ _ _ _ H).
        by apply bound_are_resolved_weaken. }
      apply bound_are_resolved_weaken.
      apply bind_Ok in H as (o & s2 & Hu & H).
      pose proof (keeps_ResolveUnderParent _ _ _ _ _ Hu Hs1) as Hs2.
      destruct o as [t0|];
        [by apply (keeps_AddArgsAndName _ _ _ _ _ _ _ H)|].
      unfold InsertGlobalTrack in H.
      apply bind_Ok in H as (t1 & s3 & Hins & H).
      apply Insert_Ok in Hins as [-> ->].
      apply bind_Ok in H as (p & s4 & Hd & H).
      apply (keeps_AddArgsAndName _ _ _ _ _ _ _ H).
      apply (keeps_ResolveDefaultParent _ _ _ _ IHd _ _ _ Hd).
      by apply (bound_same s2).
    + intros s t s' H Hs. simpl in H.
      unfold GetOrCreateDefaultDescriptorTrack_body in H.
      apply bind_Ok in H as (o & s1 & H1 & H).
      pose proof (IHg _ _ _ _ _ H1 Hs) as Hs1.
      destruct o as [t0|]; [by apply ret_Ok in H as [_ ->]|].
      apply bind_Ok in H as (x & s2 & Hm & H).
      apply modify_Ok in Hm as ->.
      apply bind_Ok in H as (o & s3 & H3 & H).
      apply deref_Ok in H as [_ ->].
      apply (IHg _ _ _ _ _ H3).
      apply (bound_same s1); try done.
      all: unfold ReserveDescriptorChildTrack;
        destruct (reserved_descriptor_tracks_ s1 !! _); [|done];
        by destruct (IsForSameTrack _ _).
    + intros u e s o s' H Hs. simpl in H.
      unfold GetDescriptorTrack_body in H.
      apply bind_Ok in H as (o1 & s1 & H1 & H).
      pose proof (IHi _ _ _ _ _ H1 Hs) as Hs1.
      destruct o1 as [t|]; [|by apply ret_Ok in H as [_ ->]].
      destruct (is_null e); [by apply ret_Ok in H as [_ ->]|].
      by apply (keeps_UpdateTrackName _ _ _ _ _ _ H).
Qed.

Lemma processes_have_no_parent_frame s s' :
  frame s s' -> processes_have_no_parent s -> processes_have_no_parent s'.
Proof.
  unfold processes_have_no_parent.
  intros (_ & [->|[_ ->]] & _) Hs; [done|]. intros u r Hu Ht Hp.
  destruct (decide (u = kDefaultDescriptorTrackUuid)) as [->|Hne].
  - rewrite lookup_insert_eq in Hu. by injection Hu as <-.
  - rewrite lookup_insert_ne in Hu by done. by eapply Hs.
Qed.

Lemma never_dcheck_301_ResolveProcessTrack uuid r pid_ s :
  bound_are_resolved s ->
  resolved_descriptor_tracks_ s !! uuid = None ->
  ResolveProcessTrack uuid r pid_ s <> Err (CheckFailed 301).
Proof.
  intros [_ Hb] Hres. unfold ResolveProcessTrack.
  assert (Htail : forall upid s0,
            bind (InternProcessTrack upid)
              (fun track_id => set_track_name_and_return r track_id) s0
            <> Err (CheckFailed 301)).
  { intros upid s0. apply bind_not_Err; [apply never_InternProcessTrack|].
    intros t s1 _. by apply never_set_track_name_and_return. }
  rewrite bind_call_process_tracker. mstep.
  cbn [descriptor_uuids_by_upid_ set_process_tracker].
  destruct (descriptor_uuids_by_upid_ s !! _) as [old|] eqn:Hold; mstep;
    [|apply Htail].
  assert (Hne : (old =? uuid) = false).
  { apply Z.eqb_neq. intros ->. apply Hb in Hold as [? ?]. congruence. }
  unfold PERFETTO_DCHECK, PERFETTO_CHECK. rewrite Hne. simpl.
  destruct PERFETTO_DCHECK_IS_ON; mstep;
    rewrite bind_call_process_tracker; mstep; apply Htail.
Qed.

Lemma never_dcheck_301_all fuel :
  (forall u d s,
     bound_are_resolved s -> processes_have_no_parent s ->
     GetDescriptorTrackImpl fuel u d s <> Err (CheckFailed 301))
  /\ (forall u r d s,
        bound_are_resolved s -> processes_have_no_parent s ->
        resolved_descriptor_tracks_ s !! u = None ->
        (tid r = None -> is_Some (pid r) -> parent_uuid r = 0) ->
        ResolveDescriptorTrack fuel u r d s <> Err (CheckFailed 301))
  /\ (forall s,
        bound_are_resolved s -> processes_have_no_parent s ->
        GetOrCreateDefaultDescriptorTrack fuel s <> Err (CheckFailed 301))
  /\ (forall u e s,
        bound_are_resolved s -> processes_have_no_parent s ->
        GetDescriptorTrack fuel u e s <> Err (CheckFailed 301)).
Proof.
  induction fuel as [|fuel (IHi & IHr & IHd & IHg)].
  - split_and!; intros; discriminate.
  - destruct (framed_all fuel) as (Fi & Fr & Fd & Fg).
    destruct (bound_all fuel) as (Bi & Br & Bd & Bg).
    split_and!.
    + intros u d s Hb Hk. simpl. unfold GetDescriptorTrackImpl_body. mstep.
      destruct (resolved_descriptor_tracks_ s !! u) eqn:Hres; [done|]. mstep.
      destruct (reserved_descriptor_tracks_ s !! u) as [r|] eqn:Hr; [|done].
      apply bind_not_Err; [|done].
      apply IHr; try done. intros Ht Hp. by eapply Hk.
    + intros u r d s Hb Hk Hres Hpar. simpl.
      unfold ResolveDescriptorTrack_body.
      destruct (tid r) as [tid_|] eqn:Htid.
      { apply bind_not_Err; [|intros; by apply never_ResolveThreadTrack].
        unfold ResolveParent.
        repeat match goal with
               | |- (if ?c then _ else _) _ <> _ => destruct c
               end; try done. by apply IHi. }
      destruct (pid r) as [pid_|] eqn:Hpid.
      { rewrite (bind_eq_Ok _ _ _ None s).
        - by apply never_dcheck_301_ResolveProcessTrack.
        - apply ResolveParent_no_parent. apply Hpar; [done|eauto]. }
      apply bind_not_Err.
      { unfold ResolveParent.
        repeat match goal with
               | |- (if ?c then _ else _) _ <> _ => destruct c
               end; try done. by apply IHi. }
      intros parent s1 Hp.
      pose proof (framed_ResolveParent _ _ _ _ Fi _ _ _ Hp) as Hf1.
      pose proof (keeps_ResolveParent _ _ _ _ Bi _ _ _ Hp Hb) as Hb1.
      pose proof (processes_have_no_parent_frame _ _ Hf1 Hk) as Hk1.
      apply bind_not_Err; [apply never_ResolveUnderParent_any|].
      intros track_id s2 Hu.
      pose proof (ResolveUnderParent_frame _ _ _ _ _ Hu) as [Hf2 _].
      pose proof (keeps_ResolveUnderParent _ _ _ _ _ Hu Hb1) as Hb2.
      pose proof (processes_have_no_parent_frame _ _ Hf2 Hk1) as Hk2.
      destruct track_id as [t|]; [by apply never_AddArgsAndName|].
      unfold InsertGlobalTrack. mstep.
      apply bind_not_Err; [|intros; by apply never_AddArgsAndName].
      unfold ResolveDefaultParent.
      repeat match goal with
             | |- (if ?c then _ else _) _ <> _ => destruct c
             end; try done.
      all: apply bind_not_Err; [|done].
      all: apply IHd; [by apply (bound_same s2)|done].
    + intros s Hb Hk. simpl. unfold GetOrCreateDefaultDescriptorTrack_body.
      apply bind_not_Err; [by apply IHg|]. intros o s1 H1.
      destruct o as [t|]; [done|]. mstep.
      pose proof (Fg kNullStringId _ _ _ _ H1) as [Hf1 Hn1].
      specialize (Hn1 eq_refl).
      pose proof (Bg _ _ _ _ _ H1 Hb) as Hb1.
      pose proof (processes_have_no_parent_frame _ _ Hf1 Hk) as Hk1.
      apply bind_not_Err; [|intros [?|] ? ?; done].
      apply IHg.
      * apply (bound_same s1); try done.
        all: unfold ReserveDescriptorChildTrack;
          destruct (reserved_descriptor_tracks_ s1 !! _); [|done];
          by destruct (IsForSameTrack _ _).
      * apply (processes_have_no_parent_frame s1); [|done].
        by apply frame_reserve_default.
    + intros u e s Hb Hk. simpl. unfold GetDescriptorTrack_body.
      apply bind_not_Err; [by apply IHi|]. intros o s1 H1.
      destruct o as [t|]; [|done]. destruct (is_null e); [done|].
      by apply never_UpdateTrackName.
Qed.

Lemma processes_have_no_parent_Reserve (d : Declaration) s :
  processes_have_no_parent s -> processes_have_no_parent (Reserve d s).
Proof.
  intros Hs u r Hu Ht Hp. pose proof (Reserve_cases d s) as Hc.
  destruct (reserved_descriptor_tracks_ s !! declared_uuid d) as [it|] eqn:E.
  - destruct (IsForSameTrack it (candidate d)).
    + destruct (declared_timestamp d) as [ts|]; rewrite Hc in Hu;
        [|by eapply Hs].
      simpl in Hu. destruct (decide (u = declared_uuid d)) as [->|Hne].
      * rewrite lookup_insert_eq in Hu. injection Hu as <-. simpl in *.
        by eapply Hs.
      * rewrite lookup_insert_ne in Hu by done. by eapply Hs.
    + rewrite Hc in Hu. by eapply Hs.
  - rewrite Hc in Hu. simpl in Hu.
    destruct (decide (u = declared_uuid d)) as [->|Hne].
    + rewrite lookup_insert_eq in Hu. injection Hu as <-.
      destruct d; simpl in *; try done; by destruct Hp.
    + rewrite lookup_insert_ne in Hu by done. by eapply Hs.
Qed.

Lemma processes_have_no_parent_ConvertToAbsoluteCounterValue u q v s :
  processes_have_no_parent s ->
  processes_have_no_parent (snd (ConvertToAbsoluteCounterValue u q v s)).
Proof.
  intros Hs. unfold ConvertToAbsoluteCounterValue.
  destruct (reserved_descriptor_tracks_ s !! u) as [r|] eqn:Hr; [|done].
  destruct (negb (is_counter r)); [done|].
  destruct (is_incremental r); [|done].
  destruct (negb (packet_sequence_id r =? q)); [done|]. simpl.
  intros u' r' Hu' Ht Hp. simpl in Hu'.
  destruct (decide (u' = u)) as [->|Hne].
  - rewrite lookup_insert_eq in Hu'. injection Hu' as <-. simpl in *.
    by eapply Hs.
  - rewrite lookup_insert_ne in Hu' by done. by eapply Hs.
Qed.

Lemma processes_have_no_parent_OnIncrementalStateCleared q s :
  processes_have_no_parent s ->
  processes_have_no_parent (OnIncrementalStateCleared q s).
Proof.
  intros Hs u r Hu Ht Hp. rewrite OnIncrementalStateCleared_lookup in Hu.
  destruct (reserved_descriptor_tracks_ s !! u) as [r0|] eqn:Hr;
    [|discriminate].
  simpl in Hu. injection Hu as <-.
  destruct (cleared_by q r0); simpl in *; by eapply Hs.
Qed.

Lemma bound_are_resolved_Reserve (d : Declaration) s :
  bound_are_resolved s -> bound_are_resolved (Reserve d s).
Proof.
  apply bound_same; pose proof (Reserve_cases d s) as Hc;
    destruct (reserved_descriptor_tracks_ s !! declared_uuid d);
    try destruct (IsForSameTrack _ _);
    try destruct (declared_timestamp d); by rewrite Hc.
Qed.

Lemma bound_are_resolved_ConvertToAbsoluteCounterValue u q v s :
  bound_are_resolved s ->
  bound_are_resolved (snd (ConvertToAbsoluteCounterValue u q v s)).
Proof.
  apply bound_same; unfold ConvertToAbsoluteCounterValue;
    destruct (reserved_descriptor_tracks_ s !! u) as [r|]; try done;
    destruct (negb (is_counter r)); try done;
    destruct (is_incremental r); try done;
    by destruct (negb (packet_sequence_id r =? q)).
Qed.

Lemma bindings_reachable s :
  reachable s -> bound_are_resolved s /\ processes_have_no_parent s.
Proof.
  induction 1 as [pt|d s _ [Hb Hk]|u q v s _ [Hb Hk]|q s _ [Hb Hk]
                  |fuel uuid ev s r s' _ [Hb Hk] Hrun|pt s _ [Hb Hk]].
  - split; [split|]; intros k u Hu; simpl in Hu;
      by rewrite lookup_empty in Hu.
  - split; [by apply bound_are_resolved_Reserve
           |by apply processes_have_no_parent_Reserve].
  - split; [by apply bound_are_resolved_ConvertToAbsoluteCounterValue
           |by apply processes_have_no_parent_ConvertToAbsoluteCounterValue].
  - split; [by apply (bound_same s)
           |by apply processes_have_no_parent_OnIncrementalStateCleared].
  - split.
    + destruct (bound_all fuel) as (_ & _ & _ & Bg).
      by apply (Bg _ _ _ _ _ Hrun).
    + apply (processes_have_no_parent_frame s); [|done].
      by eapply frame_GetDescriptorTrack.
  - split; [by apply (bound_same s)|done].
Qed.
End Bindings.

(** ** Resolution Engine: the bound on the parent chain *)

Section ChainBound.
Context {PT : Type} {ops : ProcessTrackerOps PT} {same : SameTrack}
        {build : BuildConfig}.
Implicit Types s : State PT.






End ChainBound.

(** ** Declaration Intake: the merged timestamp *)

Section Timestamps.
Context {PT : Type} {ops : ProcessTrackerOps PT} {same : SameTrack}
        {build : BuildConfig}.
Implicit Types s : State PT.

(** The same-track predicate compares the pid, as the specification says
    of the defining identifiers. *)
Hypothesis same_track_same_pid :
  forall a b, IsForSameTrack a b = true -> pid a = pid b.

Lemma timestamped_has_pid (d : Declaration) ts :
  declared_timestamp d = Some ts ->
  is_Some (pid (candidate d)) /\ min_timestamp (candidate d) = ts.
Proof. destruct d; simpl; intros [= <-]; eauto. Qed.

Lemma untimestamped_has_none (d : Declaration) :
  declared_timestamp d = None ->
  pid (candidate d) = None
  /\ min_timestamp (candidate d) = min_timestamp default_reservation.
Proof. by destruct d. Qed.

Lemma pidless_have_no_timestamp_Reserve (d : Declaration) s :
  pidless_have_no_timestamp s -> pidless_have_no_timestamp (Reserve d s).
Proof.
  intros Hs u r Hu Hp. pose proof (Reserve_cases d s) as Hc.
  destruct (reserved_descriptor_tracks_ s !! declared_uuid d) as [it|] eqn:E.
  - destruct (IsForSameTrack it (candidate d)) eqn:Hsame.
    + destruct (declared_timestamp d) as [ts|] eqn:Hts; rewrite Hc in Hu;
        [|by eapply Hs].
      simpl in Hu. destruct (decide (u = declared_uuid d)) as [->|Hne].
      * rewrite lookup_insert_eq in Hu. injection Hu as <-. simpl in Hp.
        apply same_track_same_pid in Hsame.
        apply timestamped_has_pid in Hts as [[p Hpid] _]. congruence.
      * rewrite lookup_insert_ne in Hu by done. by eapply Hs.
    + rewrite Hc in Hu. by eapply Hs.
  - rewrite Hc in Hu. simpl in Hu.
    destruct (decide (u = declared_uuid d)) as [->|Hne].
    + rewrite lookup_insert_eq in Hu. injection Hu as <-.
      destruct (declared_timestamp d) as [ts|] eqn:Hts.
      * apply timestamped_has_pid in Hts as [[p Hpid] _]. congruence.
      * by apply untimestamped_has_none in Hts as [_ ?].
    + rewrite lookup_insert_ne in Hu by done. by eapply Hs.
Qed.

Lemma pidless_have_no_timestamp_ConvertToAbsoluteCounterValue u q v s :
  pidless_have_no_timestamp s ->
  pidless_have_no_timestamp (snd (ConvertToAbsoluteCounterValue u q v s)).
Proof.
  intros Hs. unfold ConvertToAbsoluteCounterValue.
  destruct (reserved_descriptor_tracks_ s !! u) as [r|] eqn:Hr; [|done].
  destruct (negb (is_counter r)); [done|].
  destruct (is_incremental r); [|done].
  destruct (negb (packet_sequence_id r =? q)); [done|]. simpl.
  intros u' r' Hu' Hp. simpl in Hu'.
  destruct (decide (u' = u)) as [->|Hne].
  - rewrite lookup_insert_eq in Hu'. injection Hu' as <-. simpl in *.
    by eapply Hs.
  - rewrite lookup_insert_ne in Hu' by done. by eapply Hs.
Qed.

Lemma pidless_have_no_timestamp_OnIncrementalStateCleared q s :
  pidless_have_no_timestamp s ->
  pidless_have_no_timestamp (OnIncrementalStateCleared q s).
Proof.
  intros Hs u r Hu Hp. rewrite OnIncrementalStateCleared_lookup in Hu.
  destruct (reserved_descriptor_tracks_ s !! u) as [r0|] eqn:Hr;
    [|discriminate].
  simpl in Hu. injection Hu as <-.
  destruct (cleared_by q r0); simpl in *; by eapply Hs.
Qed.

Lemma pidless_have_no_timestamp_frame s s' :
  frame s s' -> pidless_have_no_timestamp s -> pidless_have_no_timestamp s'.
Proof.
  unfold pidless_have_no_timestamp.
  intros (_ & [->|[_ ->]] & _) Hs; [done|]. intros u r Hu Hp.
  destruct (decide (u = kDefaultDescriptorTrackUuid)) as [->|Hne].
  - rewrite lookup_insert_eq in Hu. by injection Hu as <-.
  - rewrite lookup_insert_ne in Hu by done. by eapply Hs.
Qed.

Lemma pidless_have_no_timestamp_reachable s :
  reachable s -> pidless_have_no_timestamp s.
Proof.
  induction 1 as [pt|d s _ IH|u q v s _ IH|q s _ IH
                  |fuel uuid ev s r s' _ IH Hrun|pt s _ IH].
  - intros u r Hu. simpl in Hu. by rewrite lookup_empty in Hu.
  - by apply pidless_have_no_timestamp_Reserve.
  - by apply pidless_have_no_timestamp_ConvertToAbsoluteCounterValue.
  - by apply pidless_have_no_timestamp_OnIncrementalStateCleared.
  - apply (pidless_have_no_timestamp_frame s); [|done].
    by eapply frame_GetDescriptorTrack.
  - done.
Qed.

Lemma set_reserved_insert_same s uuid it :
  reserved_descriptor_tracks_ s !! uuid = Some it ->
  set_reserved (insert uuid it) s = s.
Proof.
  intros Hit. destruct s. unfold set_reserved. simpl in *.
  f_equal. by apply insert_id.
Qed.
End Timestamps.

Section TimestampClaim.
Context {PT : Type} {ops : ProcessTrackerOps PT} {same : SameTrack}
        {build : BuildConfig}.
Implicit Types s : State PT.

(** C7: for each of the four declarations, a redeclaration of an existing
    uuid whose candidate passes the same-track predicate leaves the
    reservation with the minimum of the stored [min_timestamp] and the
    candidate's, and changes nothing else.  The candidate of a process or
    thread declaration carries the declared timestamp (lines 43 and 76,
    merged at lines 66 and 100).  The candidate of a counter or child-track
    declaration carries the timestamp of the default-constructed struct,
    as does every stored reservation it can match, so that returning with
    the tracker unchanged (lines 127 and 150) leaves the minimum as
    well.  The same-track predicate, defined in the header, is taken to
    compare the pid, as the specification says of the defining
    identifiers. *)
Theorem matching_redeclaration_merges_min_timestamp (d : Declaration) s it :
  (forall a b, IsForSameTrack a b = true -> pid a = pid b) ->
  reachable s ->
  reserved_descriptor_tracks_ s !! declared_uuid d = Some it ->
  IsForSameTrack it (candidate d) = true ->
  let merged := Z.min (min_timestamp it) (min_timestamp (candidate d)) in
  Reserve d s
  = set_reserved (insert (declared_uuid d) (set_min_timestamp merged it)) s
  /\ min_timestamp <$> reserved_descriptor_tracks_ (Reserve d s)
                        !! declared_uuid d
     = Some merged
  /\ match declared_timestamp d with
     | Some timestamp => merged = Z.min (min_timestamp it) timestamp
     | None => merged = min_timestamp it /\ Reserve d s = s
     end.
Proof.
  intros same_track_same_pid Hreach Hit Hsame merged.
  apply (pidless_have_no_timestamp_reachable same_track_same_pid) in Hreach.
  pose proof (Reserve_match d s it Hit Hsame) as Hmatch.
  destruct (declared_timestamp d) as [ts|] eqn:Hts.
  - apply timestamped_has_pid in Hts as [_ Hts].
    unfold merged. rewrite Hts, Hmatch. split_and!; [done| |done].
    simpl. by rewrite lookup_insert_eq.
  - apply untimestamped_has_none in Hts as [Hpid Hts].
    assert (Hmerged : merged = min_timestamp it).
    { unfold merged. rewrite Hts.
      apply same_track_same_pid in Hsame. rewrite Hpid in Hsame.
      rewrite (Hreach _ _ Hit Hsame). apply Z.min_id. }
    rewrite Hmerged, set_min_timestamp_same, Hmatch.
    rewrite (set_reserved_insert_same _ _ _ Hit).
    split_and!; try done. by rewrite Hit.
Qed.
End TimestampClaim.

Section SafetyTheorems.
Context {PT : Type} {ops : ProcessTrackerOps PT} {same : SameTrack}
        {build : BuildConfig}.
Implicit Types s : State PT.

Lemma never_other_check_all n fuel :
  n <> 282%nat -> n <> 177%nat ->
  (PERFETTO_DCHECK_IS_ON = true -> n <> 270%nat /\ n <> 301%nat) ->
  (forall u d, never (CheckFailed n) (GetDescriptorTrackImpl fuel u d))
  /\ (forall u r d,
        never (CheckFailed n) (ResolveDescriptorTrack fuel u r d))
  /\ never (CheckFailed n) (GetOrCreateDefaultDescriptorTrack fuel)
  /\ (forall u e, never (CheckFailed n) (GetDescriptorTrack fuel u e)).
Proof.
  intros H282 H177 Hdcheck.
  assert (H1 : CheckFailed n <> NulloptDeref) by done.
  assert (H2 : CheckFailed n <> CheckFailed 282) by congruence.
  assert (H3 : CheckFailed n <> CheckFailed 177) by congruence.
  assert (H4 : PERFETTO_DCHECK_IS_ON = true ->
               CheckFailed n <> CheckFailed 270).
  { intros Hon. destruct (Hdcheck Hon). congruence. }
  assert (H5 : PERFETTO_DCHECK_IS_ON = true ->
               CheckFailed n <> CheckFailed 301).
  { intros Hon. destruct (Hdcheck Hon). congruence. }
  induction fuel as [|fuel (IHi & IHr & IHd & IHg)].
  - split_and!; intros; by apply never_fail.
  - split_and!; intros; simpl.
    + by apply never_GetDescriptorTrackImpl_body.
    + apply never_ResolveDescriptorTrack_body; [done..| |]; intros; done.
    + by apply never_GetOrCreateDefaultDescriptorTrack_body.
    + apply never_GetDescriptorTrack_body; [done..|]. by left.
Qed.

Lemma GetDescriptorTrack_check_177 fuel uuid ev s :
  resolved_are_reserved s ->
  GetDescriptorTrack fuel uuid ev s <> Err (CheckFailed 177).
Proof.
  intros Hinv H.
  destruct fuel as [|f]; [discriminate|]. simpl in H.
  unfold GetDescriptorTrack_body in H.
  apply bind_Err in H as [H|(o & s0 & Himpl & H)].
  { by apply (never_check_177_all f) in H. }
  destruct o as [t|]; [|discriminate].
  destruct (is_null ev); [discriminate|].
  pose proof (run_ok_GetDescriptorTrackImpl _ _ _ _ _ _ Himpl) as [Hext _].
  pose proof (extends_resolved_are_reserved _ _ Hext Hinv) as Hinv0.
  pose proof (GetDescriptorTrackImpl_Some _ _ _ _ _ _ Himpl) as Hres.
  destruct (Hinv0 _ _ Hres) as [res Hrsv].
  revert H. unfold UpdateTrackName, IndexOf, name_at, SetName.
  mstep. destruct (t <? _)%nat; [|discriminate]. mstep.
  destruct (negb _); [discriminate|]. mstep. rewrite Hrsv. mstep.
  destruct (_ || _ || _); [discriminate|]. mstep. discriminate.
Qed.

Lemma threads_have_pid_Reserve (d : Declaration) s :
  threads_have_pid s -> threads_have_pid (Reserve d s).
Proof.
  intros Hs u r Hu Ht. pose proof (Reserve_cases d s) as Hc.
  destruct (reserved_descriptor_tracks_ s !! declared_uuid d) as [it|] eqn:E.
  - destruct (IsForSameTrack it (candidate d)).
    + destruct (declared_timestamp d) as [ts|]; rewrite Hc in Hu;
        [|by eapply Hs].
      simpl in Hu. destruct (decide (u = declared_uuid d)) as [->|Hne].
      * rewrite lookup_insert_eq in Hu. injection Hu as <-. simpl in *.
        by eapply Hs.
      * rewrite lookup_insert_ne in Hu by done. by eapply Hs.
    + rewrite Hc in Hu. by eapply Hs.
  - rewrite Hc in Hu. simpl in Hu.
    destruct (decide (u = declared_uuid d)) as [->|Hne].
    + rewrite lookup_insert_eq in Hu. injection Hu as <-.
      destruct d; simpl in *; try done; by destruct Ht.
    + rewrite lookup_insert_ne in Hu by done. by eapply Hs.
Qed.

Lemma threads_have_pid_ConvertToAbsoluteCounterValue u q v s :
  threads_have_pid s ->
  threads_have_pid (snd (ConvertToAbsoluteCounterValue u q v s)).
Proof.
  intros Hs. unfold ConvertToAbsoluteCounterValue.
  destruct (reserved_descriptor_tracks_ s !! u) as [r|] eqn:Hr; [|done].
  destruct (negb (is_counter r)); [done|].
  destruct (is_incremental r); [|done].
  destruct (negb (packet_sequence_id r =? q)); [done|]. simpl.
  intros u' r' Hu' Ht. simpl in Hu'.
  destruct (decide (u' = u)) as [->|Hne].
  - rewrite lookup_insert_eq in Hu'. injection Hu' as <-. simpl in *.
    by eapply Hs.
  - rewrite lookup_insert_ne in Hu' by done. by eapply Hs.
Qed.

Lemma threads_have_pid_OnIncrementalStateCleared q s :
  threads_have_pid s -> threads_have_pid (OnIncrementalStateCleared q s).
Proof.
  intros Hs u r Hu Ht. rewrite OnIncrementalStateCleared_lookup in Hu.
  destruct (reserved_descriptor_tracks_ s !! u) as [r0|] eqn:Hr;
    [|discriminate].
  simpl in Hu. injection Hu as <-.
  destruct (cleared_by q r0); simpl in *; by eapply Hs.
Qed.

Lemma sound_reachable s : reachable s -> sound s.
Proof.
  induction 1 as [pt|d s _ [Hw Ht]|u q v s _ [Hw Ht]|q s _ [Hw Ht]
                  |fuel uuid ev s r s' _ Hs Hrun|pt s _ [[Hrr Hiv] Ht]].
  - split; [apply well_formed_initial|]. intros u r Hu.
    simpl in Hu. by rewrite lookup_empty in Hu.
  - split; [by apply well_formed_Reserve|by apply threads_have_pid_Reserve].
  - split; [by apply well_formed_ConvertToAbsoluteCounterValue
           |by apply threads_have_pid_ConvertToAbsoluteCounterValue].
  - split; [by apply well_formed_OnIncrementalStateCleared
           |by apply threads_have_pid_OnIncrementalStateCleared].
  - apply (sound_step s); [done| |].
    + by apply run_ok_GetDescriptorTrack in Hrun as [? _].
    + by eapply frame_GetDescriptorTrack.
  - split; [split|]; try done.
Qed.

(** X13: whatever was declared and resolved before, a resolution stops in one
    of three ways only: it returns (a row, or "unknown"); the process
    tracker fails the [PERFETTO_CHECK] of line 282; or, in a build with
    debug checks only, the [PERFETTO_DCHECK] of line 270 fails, because a
    thread track is resolved a second time.  It never dereferences the
    empty [pid] of a thread reservation (line 262), never looks up a row
    that does not exist (lines 171 and 215), always finds the default track
    it has just reserved (line 416), never fails the check of line 177 nor
    the debug check of line 301, and terminates. *)
Theorem resolution_returns_or_fails_a_check fuel uuid event_name s :
  reachable s ->
  (enough_fuel <= fuel)%nat ->
  (exists r s', GetDescriptorTrack fuel uuid event_name s = Ok (r, s'))
  \/ GetDescriptorTrack fuel uuid event_name s = Err (CheckFailed 282)
  \/ (PERFETTO_DCHECK_IS_ON = true
      /\ GetDescriptorTrack fuel uuid event_name s = Err (CheckFailed 270)).
Proof.
  intros Hreach Hfuel. apply sound_reachable in Hreach as Hs.
  apply bindings_reachable in Hreach as [Hb Hk].
  destruct (GetDescriptorTrack fuel uuid event_name s) as [[r s']|e] eqn:H;
    [left; eauto|].
  right. destruct e as [|n|].
  - by apply enough_fuel_GetDescriptorTrack in H.
  - destruct (decide (n = 282%nat)) as [->|H282]; [by left|].
    destruct (decide (n = 177%nat)) as [->|H177].
    { apply GetDescriptorTrack_check_177 in H; [done|apply Hs]. }
    destruct (decide (n = 301%nat)) as [->|H301].
    { by apply (never_dcheck_301_all fuel) in H. }
    destruct PERFETTO_DCHECK_IS_ON eqn:Hon.
    + destruct (decide (n = 270%nat)) as [->|H270]; [by right|].
      by apply (never_other_check_all n fuel) in H.
    + apply (never_other_check_all n fuel) in H; try done.
      by rewrite Hon.
  - by apply (safe_all fuel) in H.
Qed.
End SafetyTheorems.

Section Check282.
Context {PT : Type} {ops : ProcessTrackerOps PT} {same : SameTrack}
        {build : BuildConfig}.
Implicit Types s : State PT.
Abbreviation M := (M (PT:=PT)).

Lemma never_check_282_ResolveThreadTrack uuid r tid_ :
  new_thread_is_current ops ->
  never (CheckFailed 282) (ResolveThreadTrack uuid r tid_).
Proof.
  intros Hc s. unfold ResolveThreadTrack.
  assert (Htail : forall utid s0,
            bind (InternThreadTrack utid)
              (fun track_id => set_track_name_and_return r track_id) s0
            <> Err (CheckFailed 282)).
  { intros utid s0. apply bind_not_Err; [apply never_InternThreadTrack|].
    intros t s1 _. by apply never_set_track_name_and_return. }
  destruct (pid r) as [p|]; [|done]. mstep.
  rewrite bind_call_process_tracker. mstep.
  destruct (descriptor_uuids_by_utid_ _ !! _) as [old|]; mstep;
    [|apply Htail].
  apply bind_not_Err; [apply never_PERFETTO_DCHECK; by intros _|].
  intros _ s1 _. mstep.
  rewrite bind_call_process_tracker. mstep.
  rewrite bind_call_process_tracker. mstep.
  cbn [process_tracker set_process_tracker].
  rewrite Hc, Nat.eqb_refl. unfold PERFETTO_CHECK. mstep. apply Htail.
Qed.

Lemma never_check_282_all fuel :
  new_thread_is_current ops ->
  (forall u d, never (CheckFailed 282) (GetDescriptorTrackImpl fuel u d))
  /\ (forall u r d,
        never (CheckFailed 282) (ResolveDescriptorTrack fuel u r d))
  /\ never (CheckFailed 282) (GetOrCreateDefaultDescriptorTrack fuel)
  /\ (forall u e, never (CheckFailed 282) (GetDescriptorTrack fuel u e)).
Proof.
  intros Hc.
  assert (H1 : CheckFailed 282 <> NulloptDeref) by done.
  assert (H3 : CheckFailed 282 <> CheckFailed 177) by congruence.
  induction fuel as [|fuel (IHi & IHr & IHd & IHg)].
  - split_and!; intros; by apply never_fail.
  - split_and!; intros; simpl.
    + by apply never_GetDescriptorTrackImpl_body.
    + unfold ResolveDescriptorTrack_body.
      apply never_bind; [apply never_ResolveParent; intros; apply IHi|].
      intros parent.
      destruct (tid r); [by apply never_check_282_ResolveThreadTrack|].
      destruct (pid r); [by apply never_ResolveProcessTrack|].
      apply never_bind; [apply never_ResolveUnderParent|intros [t|]].
      * by apply never_AddArgsAndName.
      * apply never_bind; [apply never_Insert|intros t].
        apply never_bind;
          [apply never_ResolveDefaultParent; intros; apply IHd|intros p].
        by apply never_AddArgsAndName.
    + by apply never_GetOrCreateDefaultDescriptorTrack_body.
    + apply never_GetDescriptorTrack_body; [done..|]. by left.
Qed.

(** X14: with a process tracker that keeps the promise checked at line 282,
    and in a build without debug checks, resolution is total: from every
    state the tracker can be in, for every uuid and event name,
    [GetDescriptorTrack] returns.  In a build with debug checks it returns
    or stops at the [PERFETTO_DCHECK] of line 270, and at nothing else. *)
Theorem resolution_returns_unless_dcheck_270 fuel uuid event_name s :
  new_thread_is_current ops ->
  reachable s ->
  (enough_fuel <= fuel)%nat ->
  (exists r s',
     GetDescriptorTrack fuel uuid event_name s = Ok (r, s') /\ reachable s')
  \/ (PERFETTO_DCHECK_IS_ON = true
      /\ GetDescriptorTrack fuel uuid event_name s = Err (CheckFailed 270)).
Proof.
  intros Hc Hreach Hfuel. apply sound_reachable in Hreach as Hs.
  apply bindings_reachable in Hreach as Hbk. destruct Hbk as [Hb Hk].
  destruct (GetDescriptorTrack fuel uuid event_name s) as [[r s']|e] eqn:H.
  { left. exists r, s'. split; [done|].
    by eapply reachable_GetDescriptorTrack. }
  right. destruct e as [|n|].
  - by apply enough_fuel_GetDescriptorTrack in H.
  - destruct (decide (n = 282%nat)) as [->|H282].
    { by apply (never_check_282_all fuel Hc) in H. }
    destruct (decide (n = 177%nat)) as [->|H177].
    { apply GetDescriptorTrack_check_177 in H; [done|apply Hs]. }
    destruct (decide (n = 301%nat)) as [->|H301].
    { by apply (never_dcheck_301_all fuel) in H. }
    destruct PERFETTO_DCHECK_IS_ON eqn:Hon.
    + destruct (decide (n = 270%nat)) as [->|H270]; [done|].
      by apply (never_other_check_all n fuel) in H.
    + apply (never_other_check_all n fuel) in H; try done.
      by rewrite Hon.
  - by apply (safe_all fuel) in H.
Qed.
End Check282.

(** ** Resolution Engine: unknown uuids and the default track *)

Section Lookups.
Context {PT : Type} {ops : ProcessTrackerOps PT} {same : SameTrack}
        {build : BuildConfig}.
Implicit Types s : State PT.

(** X15: a resolution answers "unknown" exactly for a uuid that has neither a
    memoized row nor a reservation, and then the tracker is left as it
    was: nothing is reserved, created or counted for an unknown uuid. *)
Theorem unknown_uuid_resolves_to_nothing fuel uuid event_name s :
  (2 <= fuel)%nat ->
  (GetDescriptorTrack fuel uuid event_name s = Ok (None, s)
   <-> resolved_descriptor_tracks_ s !! uuid = None
       /\ reserved_descriptor_tracks_ s !! uuid = None)
  /\ (forall s',
        GetDescriptorTrack fuel uuid event_name s = Ok (None, s') ->
        s' = s).
Proof.
  intros Hf. destruct fuel as [|[|f]]; [lia..|].
  assert (Hinv : forall s',
            GetDescriptorTrack (S (S f)) uuid event_name s = Ok (None, s') ->
            s' = s
            /\ resolved_descriptor_tracks_ s !! uuid = None
            /\ reserved_descriptor_tracks_ s !! uuid = None).
  { intros s' H.
    apply GetDescriptorTrack_Ok in H as (f0 & s0 & _ & Himpl & ->).
    by apply GetDescriptorTrackImpl_None in Himpl. }
  split; [split|].
  - intros H. by apply Hinv in H as (_ & ? & ?).
  - intros [Hres Hrsv]. simpl.
    unfold GetDescriptorTrack_body, GetDescriptorTrackImpl_body.
    mstep. rewrite Hres. mstep. by rewrite Hrsv.
  - intros s' H. by apply Hinv in H as (? & _).
Qed.

(** X16: the default track is created at most once: after
    [GetOrCreateDefaultDescriptorTrack] returned a row, every later call
    returns that row and leaves the tracker as it is, and resolving the
    default track's uuid gives the same row. *)
Theorem default_track_is_created_once fuel s d s' :
  GetOrCreateDefaultDescriptorTrack fuel s = Ok (d, s') ->
  resolved_descriptor_tracks_ s' !! kDefaultDescriptorTrackUuid = Some d
  /\ (forall fuel', (3 <= fuel')%nat ->
        GetOrCreateDefaultDescriptorTrack fuel' s' = Ok (d, s'))
  /\ (forall fuel', (2 <= fuel')%nat ->
        GetDescriptorTrack fuel' kDefaultDescriptorTrackUuid kNullStringId s'
        = Ok (Some d, s')).
Proof.
  intros H. apply GetOrCreateDefaultDescriptorTrack_Ok in H as Hd.
  split_and!; [done| |].
  - intros fuel' Hf. destruct fuel' as [|[|[|f]]]; [lia..|].
    by apply GetOrCreateDefaultDescriptorTrack_memo.
  - intros fuel' Hf. destruct fuel' as [|[|f]]; [lia..|].
    by apply GetDescriptorTrack_memo.
Qed.
End Lookups.

(** The reference process tracker keeps the promise of line 282. *)
Lemma find_last_app_true {A} (p : A -> bool) (l : list A) (x : A) : forall i,
  p x = true -> find_last p (l ++ [x]) i = Some (i + length l)%nat.
Proof.
  induction l as [|y l IH]; intros i Hx; simpl.
  - rewrite Hx. f_equal. lia.
  - rewrite IH by done. f_equal. lia.
Qed.

Lemma simple_process_tracker_new_thread_is_current :
  new_thread_is_current simple_process_tracker.
Proof.
  intros tid_ pid_ pt. simpl. unfold simple_UpdateThread, simple_StartNewThread.
  simpl.
  destruct (simple_GetOrCreateProcess pid_ _) as [upid pt2] eqn:Hg.
  assert (Hth : pt_threads pt2 = pt_threads pt ++ [(tid_, None)]).
  { unfold simple_GetOrCreateProcess in Hg. simpl in Hg.
    destruct (find_last _ _ _); by injection Hg as <- <-. }
  rewrite Hth, find_last_app_true; [done|].
  simpl. by rewrite Z.eqb_refl.
Qed.

(** ** Resolution Engine: tracks without OS identifiers *)

Section PlainTracks.
Context {PT : Type} {ops : ProcessTrackerOps PT} {same : SameTrack}
        {build : BuildConfig}.
Implicit Types s : State PT.
Abbreviation M := (M (PT:=PT)).

Lemma TrackTableKind_eqb_eq a b : TrackTableKind_eqb a b = true <-> a = b.
Proof. destruct a, b; simpl; split; intros; done. Qed.

(** The two outcomes of lines 318-359. *)
Lemma ResolveUnderParent_cases r parent s a s' :
  ResolveUnderParent r parent s = Ok (a, s') ->
  (a = None /\ s' = s
   /\ forall p prow, parent = Some p -> tracks s !! p = Some prow ->
        track_table prow <> ThreadTrackTable
        /\ track_table prow <> ProcessTrackTable)
  \/ (exists p prow row,
        parent = Some p /\ tracks s !! p = Some prow
        /\ a = Some (length (tracks s))
        /\ s' = set_tracks (fun l => l ++ [row]) s
        /\ track_name row = kNullStringId
        /\ ((track_table prow = ThreadTrackTable
             /\ track_table row
                = (if is_counter r then ThreadCounterTrackTable
                   else ThreadTrackTable)
             /\ track_utid row = track_utid prow /\ track_upid row = None)
            \/ (track_table prow = ProcessTrackTable
                /\ track_table row
                   = (if is_counter r then ProcessCounterTrackTable
                      else ProcessTrackTable)
                /\ track_upid row = track_upid prow
                /\ track_utid row = None))).
Proof.
  unfold ResolveUnderParent, IndexOfIn, utid_at, upid_at. intros H.
  destruct parent as [p|]; [|apply ret_Ok in H as [-> ->]; left; done].
  rewrite bind_gets in H. lazy beta iota in H.
  destruct (tracks s !! p) as [prow|] eqn:Hp.
  2:{ rewrite bind_gets in H. lazy beta iota in H. rewrite Hp in H.
      apply ret_Ok in H as [-> ->]. left. split_and!; [done..|].
      intros ? ? [= <-] ?. congruence. }
  destruct (TrackTableKind_eqb (track_table prow) ThreadTrackTable) eqn:Ht.
  { apply TrackTableKind_eqb_eq in Ht. revert H. mstep. rewrite Hp.
    intros [= <- <-]. right. eexists p, prow, _.
    split_and!; try done. left. done. }
  rewrite bind_gets in H. lazy beta iota in H. rewrite Hp in H.
  destruct (TrackTableKind_eqb (track_table prow) ProcessTrackTable) eqn:Hq.
  { apply TrackTableKind_eqb_eq in Hq. revert H. mstep. rewrite Hp.
    intros [= <- <-]. right. eexists p, prow, _.
    split_and!; try done. right. done. }
  apply ret_Ok in H as [-> ->]. left. split_and!; [done..|].
  intros p' prow' [= <-] Hp'. rewrite Hp in Hp'. injection Hp' as <-.
  split; intros Heq; apply TrackTableKind_eqb_eq in Heq; congruence.
Qed.

(** What a successful resolution of a declared, not yet resolved track
    without OS identifiers did: it resolved the parent, appended one row,
    possibly fetched the default track, attached the provenance arguments
    and the declared name, memoized the row, and at most wrote the event
    name. *)
Lemma GetDescriptorTrack_plain_Ok fuel uuid ev s r o s' :
  reserved_descriptor_tracks_ s !! uuid = Some r ->
  resolved_descriptor_tracks_ s !! uuid = None ->
  pid r = None -> tid r = None ->
  GetDescriptorTrack fuel uuid ev s = Ok (o, s') ->
  exists f parent s1 row parent' s3,
    ResolveParent (GetDescriptorTrackImpl f) uuid r None s = Ok (parent, s1)
    /\ o = Some (length (tracks s1))
    /\ ((ResolveUnderParent r parent s1
         = Ok (Some (length (tracks s1)),
               set_tracks (fun l => l ++ [row]) s1)
         /\ parent' = parent
         /\ s3 = set_tracks (fun l => l ++ [row]) s1)
        \/ (ResolveUnderParent r parent s1 = Ok (None, s1)
            /\ row = global_row r
            /\ ResolveDefaultParent (GetOrCreateDefaultDescriptorTrack f)
                 uuid None parent
                 (set_tracks (fun l => l ++ [row]) s1)
               = Ok (parent', s3)))
    /\ let s0 := set_resolved (insert uuid (length (tracks s1)))
                   (with_provenance uuid r (length (tracks s1)) parent' s3) in
       (is_null ev = true /\ s' = s0)
       \/ (is_null ev = false
           /\ UpdateTrackName uuid ev (length (tracks s1)) s0
              = Ok (Some (length (tracks s1)), s')).
Proof.
  intros Hrsv Hres Hpid Htid H.
  apply GetDescriptorTrack_Ok in H as (f0 & s0 & -> & Himpl & Hr).
  destruct f0 as [|f1]; [discriminate|]. simpl in Himpl.
  unfold GetDescriptorTrackImpl_body in Himpl.
  rewrite bind_gets, Hres in Himpl. lazy beta iota in Himpl.
  rewrite bind_gets, Hrsv in Himpl. lazy beta iota in Himpl.
  apply bind_Ok in Himpl as (t & s2 & Hrun & Himpl).
  rewrite bind_modify in Himpl. apply ret_Ok in Himpl as [-> ->].
  destruct f1 as [|f]; [discriminate|]. simpl in Hrun.
  unfold ResolveDescriptorTrack_body in Hrun.
  apply bind_Ok in Hrun as (parent & s1 & Hp & Hrun).
  rewrite Htid, Hpid in Hrun.
  apply bind_Ok in Hrun as (track_id & s2' & Hu & Hrun).
  pose proof (ResolveUnderParent_cases _ _ _ _ _ Hu) as Hcases.
  destruct Hcases as [(-> & -> & _)|(p & prow & row & -> & Hprow & -> & ->
                                     & _)].
  - unfold InsertGlobalTrack in Hrun. rewrite bind_Insert in Hrun.
    fold (global_row r) in Hrun.
    apply bind_Ok in Hrun as (p' & s3 & Hd & Hrun).
    assert (Hlen : (length (tracks s1) < length (tracks s3))%nat).
    { apply (ResolveDefaultParent_Ok _ _ _ _ _ _ _
               (run_ok_GetOrCreateDefaultDescriptorTrack f)) in Hd
        as [(_ & Hlen & _) _].
      simpl in Hlen. rewrite length_app in Hlen. simpl in Hlen. lia. }
    rewrite AddArgsAndName_eval in Hrun by (unfold valid_id; lia).
    injection Hrun as <- <-.
    exists f, parent, s1, (global_row r), p', s3.
    split_and!; [done|done|by right; split_and!|done].
  - rewrite AddArgsAndName_eval in Hrun
      by (unfold valid_id; simpl; rewrite length_app; simpl; lia).
    injection Hrun as <- <-.
    exists f, (Some p), s1, row, (Some p), (set_tracks (fun l => l ++ [row]) s1).
    split_and!; [done|done|by left; split_and!|done].
Qed.

Lemma args_of_none s t :
  (forall t' key v, In (t', key, v) (args s) -> t' <> t) ->
  args_of s t = [].
Proof.
  unfold args_of. induction (args s) as [|[[t' key] v] l IH]; intros H;
    [done|].
  simpl. rewrite decide_False by (eapply H; by left).
  apply IH. intros ? ? ? Hin. eapply H. by right.
Qed.

Lemma args_of_app s s0 t l :
  args s = args s0 ++ l ->
  args_of s t
  = args_of s0 t
    ++ omap (fun a : TrackId * StringId * Variadic =>
               if decide (a.1.1 = t) then Some (a.1.2, a.2) else None) l.
Proof. unfold args_of. intros ->. apply omap_app. Qed.

Lemma args_of_with_provenance uuid r t p s :
  args_of (with_provenance uuid r t p s) t
  = args_of s t ++ provenance uuid r p.
Proof.
  rewrite (args_of_app _ s t _ (args_with_provenance uuid r t p s)).
  f_equal. unfold provenance.
  destruct p, (negb _); simpl; by rewrite ?decide_True.
Qed.

Lemma ResolveDefaultParent_is_Some (dflt : M TrackId) uuid parent s p' s' :
  ResolveDefaultParent dflt uuid None parent s = Ok (p', s') ->
  uuid <> 0 -> is_Some p'.
Proof.
  intros H Hu. unfold ResolveDefaultParent in H.
  destruct parent as [p|]; simpl in H.
  - apply ret_Ok in H as [-> _]. done.
  - apply Z.eqb_neq in Hu. rewrite Hu in H. simpl in H.
    apply bind_Ok in H as (d & s1 & _ & H). by apply ret_Ok in H as [-> _].
Qed.

(** X17: a successful resolution of a declared, not yet resolved track without
    OS identifiers returns a row that did not exist before the call, and
    that row is the one memoized for the uuid afterwards.  (Other rows may
    be created by the same call: for ancestors, for the default track,
    and, when the default track's parent chain leads back to the uuid, a
    second row for the uuid itself, which is not the memoized one.)  The
    returned row carries exactly the provenance arguments, in this order:
    the source "descriptor", the uuid as a signed 64-bit integer, the
    parent row if there is one, and the category if the reservation has
    one.  A track whose uuid is not 0 always has a parent row.  A name
    declared in the reservation is the name of the row, whatever event
    name is given. *)
Theorem plain_track_gets_provenance fuel uuid event_name s r o s' :
  well_formed s ->
  reserved_descriptor_tracks_ s !! uuid = Some r ->
  resolved_descriptor_tracks_ s !! uuid = None ->
  pid r = None -> tid r = None ->
  GetDescriptorTrack fuel uuid event_name s = Ok (o, s') ->
  exists t parent_track_id,
    o = Some t
    /\ (length (tracks s) <= t < length (tracks s'))%nat
    /\ resolved_descriptor_tracks_ s' !! uuid = Some t
    /\ args_of s' t = provenance uuid r parent_track_id
    /\ (uuid <> 0 -> is_Some parent_track_id)
    /\ (is_null (name r) = false ->
        track_name <$> tracks s' !! t = Some (name r)).
Proof.
  intros [Hrr Hiv] Hrsv Hres Hpid Htid H.
  destruct (GetDescriptorTrack_plain_Ok _ _ _ _ _ _ _ Hrsv Hres Hpid Htid H)
    as (f & parent & s1 & row & parent' & s3 & Hp & -> & Hplace & Hfin).
  set (t := length (tracks s1)) in *.
  pose proof (run_ok_ResolveParent _ uuid r None
                (run_ok_GetDescriptorTrackImpl f) _ _ _ Hp) as [Hext1 _].
  pose proof (extends_ids_valid _ _ Hext1 Hiv) as Hiv1.
  assert (Hlen1 : (length (tracks s) <= t)%nat) by apply Hext1.
  (* the state before the arguments are attached *)
  assert (Hs3 : (t < length (tracks s3))%nat
                /\ args_of s3 t = []
                /\ (uuid <> 0 -> is_Some parent')).
  { destruct Hplace as [(Hu & -> & ->)|(Hu & -> & Hd)].
    - split_and!.
      + simpl. rewrite length_app. simpl. lia.
      + apply args_of_none. simpl. intros t' key v Hin.
        destruct Hiv1 as (_ & _ & _ & Hargs). apply Hargs in Hin.
        unfold t. lia.
      + intros _. apply ResolveUnderParent_cases in Hu
          as [(? & _)|(p & ? & ? & -> & _)]; [done|eauto].
    - pose proof (framed_ResolveDefaultParent _ uuid None parent
                    (frame_GetOrCreateDefaultDescriptorTrack f) _ _ _ Hd)
        as Hf.
      pose proof (frame_length _ _ Hf) as Hlen. simpl in Hlen.
      rewrite length_app in Hlen. simpl in Hlen.
      split_and!.
      + unfold t. lia.
      + destruct Hf as (_ & _ & _ & _ & [new_args [Ha Hnew]]).
        apply args_of_none. rewrite Ha. intros t' key v Hin.
        apply in_app_or in Hin as [Hin|Hin].
        * simpl in Hin. destruct Hiv1 as (_ & _ & _ & Hargs).
          apply Hargs in Hin. unfold t. lia.
        * apply Hnew in Hin. simpl in Hin. rewrite length_app in Hin.
          simpl in Hin. unfold t. lia.
      + by eapply ResolveDefaultParent_is_Some. }
  destruct Hs3 as (Hlt3 & Hargs3 & Hpar).
  set (s0 := set_resolved (insert uuid t) (with_provenance uuid r t parent' s3))
    in *.
  assert (Hs0 : resolved_descriptor_tracks_ s0 !! uuid = Some t
                /\ args_of s0 t = provenance uuid r parent'
                /\ length (tracks s0) = length (tracks s3)
                /\ (is_null (name r) = false ->
                    track_name <$> tracks s0 !! t = Some (name r))).
  { split_and!.
    - unfold s0. simpl. apply lookup_insert_eq.
    - change (args_of s0 t)
        with (args_of (with_provenance uuid r t parent' s3) t).
      by rewrite args_of_with_provenance, Hargs3.
    - unfold s0. simpl. apply tracks_with_provenance_length.
    - intros Hn. unfold s0, with_provenance, add_arg. rewrite Hn.
      destruct (lookup_lt_is_Some_2 (tracks s3) t Hlt3) as [row3 Hrow3].
      destruct parent', (negb _); simpl;
        rewrite list_lookup_alter_eq, Hrow3; done. }
  destruct Hs0 as (Hres0 & Hargs0 & Hlen0 & Hname0).
  exists t, parent'.
  destruct Hfin as [[_ ->]|[Hev Hupd]].
  { split_and!; try done; lia. }
  apply UpdateTrackName_cases in Hupd as (_ & row0 & Hrow0 & Hc).
  assert (Hsame : s' = s0
                  \/ (s' = set_tracks (alter (set_track_name event_name) t) s0
                      /\ is_null (track_name row0) = true)).
  { destruct Hc as [[-> _]|(res & _ & Hn & [[-> _]|(-> & _)])]; auto. }
  destruct Hsame as [->|[-> Hnull]].
  { split_and!; try done; lia. }
  change (tracks (set_tracks (alter (set_track_name event_name) t) s0))
    with (alter (set_track_name event_name) t (tracks s0)).
  split_and!; try done; try lia.
  - rewrite length_alter. lia.
  - intros Hn. specialize (Hname0 Hn). rewrite Hrow0 in Hname0.
    injection Hname0 as Hname0. rewrite Hname0, Hn in Hnull. done.
Qed.

Lemma tracks_set_tracks (f : list TrackRow -> list TrackRow) s :
  tracks (set_tracks f s) = f (tracks s).
Proof. done. Qed.

(** The row of a track after the declared name and the event name were
    possibly written into it. *)
Lemma row_after_names uuid r t p (s3 s' : State PT) ev row :
  tracks s3 !! t = Some row ->
  let s0 := set_resolved (insert uuid t) (with_provenance uuid r t p s3) in
  s' = s0 \/ s' = set_tracks (alter (set_track_name ev) t) s0 ->
  (exists row', tracks s' !! t = Some row'
                /\ row_shape row' = row_shape row)
  /\ (forall j, j <> t -> tracks s' !! j = tracks s3 !! j)
  /\ args s' = args (with_provenance uuid r t p s3)
  /\ resolved_descriptor_tracks_ s'
     = <[uuid := t]> (resolved_descriptor_tracks_ s3).
Proof.
  intros Hrow s0 Hs'.
  assert (H0 : exists row0, tracks s0 !! t = Some row0
                            /\ row_shape row0 = row_shape row).
  { unfold s0, with_provenance, add_arg.
    destruct p, (negb _), (is_null (name r)); simpl;
      rewrite ?list_lookup_alter_eq, Hrow; simpl; eauto. }
  destruct H0 as (row0 & Hrow0 & Hshape0).
  assert (Hother : forall j, j <> t -> tracks s0 !! j = tracks s3 !! j).
  { intros j Hj. unfold s0. simpl. by apply tracks_with_provenance_other. }
  assert (Hres : resolved_descriptor_tracks_ s0
                 = <[uuid := t]> (resolved_descriptor_tracks_ s3)).
  { unfold s0. simpl. by rewrite resolved_with_provenance. }
  destruct Hs' as [-> | ->].
  - split_and!; eauto.
  - split_and!; try done.
    + rewrite tracks_set_tracks, list_lookup_alter_eq, Hrow0. simpl. eauto.
    + intros j Hj. rewrite tracks_set_tracks.
      rewrite list_lookup_alter_ne by done. by apply Hother.
Qed.

Lemma UpdateTrackName_state uuid ev t s0 s' :
  UpdateTrackName uuid ev t s0 = Ok (Some t, s') ->
  s' = s0 \/ s' = set_tracks (alter (set_track_name ev) t) s0.
Proof.
  intros H. apply UpdateTrackName_cases in H as (_ & row & _ & Hc).
  destruct Hc as [[-> _]|(res & _ & _ & [[-> _]|(-> & _)])]; auto.
Qed.

(** X18: a child of a declared parent is placed by the row of that parent
    (lines 318-372): under a thread track it becomes a thread (counter)
    track of the same thread, under a process track a process (counter)
    track of the same process, and under any other row a global (counter)
    track.  In every case the parent is resolved first and the child's
    parent argument is the parent's row. *)
Theorem child_track_follows_its_parent fuel uuid event_name s r o s' :
  well_formed s ->
  reserved_descriptor_tracks_ s !! uuid = Some r ->
  resolved_descriptor_tracks_ s !! uuid = None ->
  pid r = None -> tid r = None ->
  parent_uuid r <> 0 -> parent_uuid r <> uuid ->
  is_Some (reserved_descriptor_tracks_ s !! parent_uuid r) ->
  GetDescriptorTrack fuel uuid event_name s = Ok (o, s') ->
  exists t p row prow,
    o = Some t
    /\ resolved_descriptor_tracks_ s' !! parent_uuid r = Some p
    /\ has_parent s' t p
    /\ tracks s' !! t = Some row
    /\ tracks s' !! p = Some prow
    /\ match track_table prow with
       | ThreadTrackTable =>
           track_table row = (if is_counter r then ThreadCounterTrackTable
                              else ThreadTrackTable)
           /\ track_utid row = track_utid prow /\ track_upid row = None
       | ProcessTrackTable =>
           track_table row = (if is_counter r then ProcessCounterTrackTable
                              else ProcessTrackTable)
           /\ track_upid row = track_upid prow /\ track_utid row = None
       | _ =>
           track_table row = (if is_counter r then CounterTrackTable
                              else TrackTable)
           /\ track_utid row = None /\ track_upid row = None
       end.
Proof.
  intros [Hrr Hiv] Hrsv Hres Hpid Htid Hp0 Hpu [rp Hrp] H.
  destruct (GetDescriptorTrack_plain_Ok _ _ _ _ _ _ _ Hrsv Hres Hpid Htid H)
    as (f & parent & s1 & row & parent' & s3 & Hp & -> & Hplace & Hfin).
  set (t := length (tracks s1)) in *.
  rewrite ResolveParent_recurse in Hp; try done.
  2:{ unfold depth, kMaxAncestors. simpl. lia. }
  2:{ apply std_find_false. simpl. intros [?|[]]. done. }
  pose proof (run_ok_GetDescriptorTrackImpl _ _ _ _ _ _ Hp) as [Hext1 Hv1].
  destruct parent as [p|].
  2:{ apply GetDescriptorTrackImpl_None in Hp as (_ & _ & Hn). congruence. }
  pose proof (GetDescriptorTrackImpl_Some _ _ _ _ _ _ Hp) as Hresp.
  assert (Hlt : (p < t)%nat) by (by apply Hv1).
  destruct (lookup_lt_is_Some_2 _ _ Hlt) as [prow Hprow].
  (* both placements append one row and keep the parent *)
  assert (Hs3 : parent' = Some p
                /\ s3 = set_tracks (fun l => l ++ [row]) s1
                /\ match track_table prow with
                   | ThreadTrackTable =>
                       track_table row
                       = (if is_counter r then ThreadCounterTrackTable
                          else ThreadTrackTable)
                       /\ track_utid row = track_utid prow
                       /\ track_upid row = None
                   | ProcessTrackTable =>
                       track_table row
                       = (if is_counter r then ProcessCounterTrackTable
                          else ProcessTrackTable)
                       /\ track_upid row = track_upid prow
                       /\ track_utid row = None
                   | _ =>
                       track_table row
                       = (if is_counter r then CounterTrackTable
                          else TrackTable)
                       /\ track_utid row = None /\ track_upid row = None
                   end).
  { destruct Hplace as [(Hu & -> & ->)|(Hu & -> & Hd)].
    - split; [done|]. split; [done|].
      apply ResolveUnderParent_cases in Hu
        as [(? & _)|(p' & prow' & row' & [= <-] & Hprow' & _ & Hs & _ & Hk)];
        [done|].
      rewrite Hprow in Hprow'. injection Hprow' as <-.
      assert (row' = row) as ->.
      { apply (f_equal tracks) in Hs. simpl in Hs.
        apply app_inv_head in Hs. by injection Hs. }
      destruct Hk as [(-> & ?)|(-> & ?)]; done.
    - rewrite ResolveDefaultParent_has_parent in Hd.
      injection Hd as <- <-. split; [done|]. split; [done|].
      apply ResolveUnderParent_cases in Hu
        as [(_ & _ & Hk)|(? & ? & ? & _ & _ & ? & _)]; [|done].
      destruct (Hk p prow eq_refl Hprow) as [Hk1 Hk2].
      unfold global_row. simpl. by destruct (track_table prow). }
  destruct Hs3 as (-> & -> & Hkind).
  assert (Hrow : tracks (set_tracks (fun l => l ++ [row]) s1) !! t
                 = Some row).
  { simpl. by apply list_lookup_middle. }
  assert (Hs' : s' = set_resolved (insert uuid t)
                       (with_provenance uuid r t (Some p)
                          (set_tracks (fun l => l ++ [row]) s1))
                \/ s' = set_tracks (alter (set_track_name event_name) t)
                          (set_resolved (insert uuid t)
                             (with_provenance uuid r t (Some p)
                                (set_tracks (fun l => l ++ [row]) s1)))).
  { destruct Hfin as [[_ ->]|[_ Hupd]]; [by left|].
    by apply UpdateTrackName_state in Hupd. }
  destruct (row_after_names uuid r t (Some p) _ s' event_name row Hrow Hs')
    as ((row' & Hrow' & Hshape) & Hother & Hargs & Hres').
  exists t, p, row', prow. split_and!; try done.
  - rewrite Hres'. simpl. by rewrite lookup_insert_ne.
  - unfold has_parent, has_arg. rewrite Hargs.
    apply has_parent_with_provenance.
  - rewrite Hother by lia. simpl. by rewrite lookup_app_l.
  - injection Hshape as -> -> ->. done.
Qed.

(** X19: a parent that was never declared, or a track that names itself as
    its parent, is ignored: the track is placed as if it had no parent, as
    a global (counter) track under the default track. *)
Theorem unresolvable_parent_is_ignored fuel uuid event_name s r o s' :
  well_formed s ->
  reserved_descriptor_tracks_ s !! uuid = Some r ->
  resolved_descriptor_tracks_ s !! uuid = None ->
  pid r = None -> tid r = None ->
  uuid <> 0 ->
  parent_uuid r = uuid
  \/ (reserved_descriptor_tracks_ s !! parent_uuid r = None
      /\ resolved_descriptor_tracks_ s !! parent_uuid r = None) ->
  GetDescriptorTrack fuel uuid event_name s = Ok (o, s') ->
  exists t d row,
    o = Some t
    /\ resolved_descriptor_tracks_ s' !! kDefaultDescriptorTrackUuid = Some d
    /\ has_parent s' t d
    /\ tracks s' !! t = Some row
    /\ track_table row = (if is_counter r then CounterTrackTable
                          else TrackTable)
    /\ track_utid row = None /\ track_upid row = None.
Proof.
  intros [Hrr Hiv] Hrsv Hres Hpid Htid Hu Hparent H.
  destruct (GetDescriptorTrack_plain_Ok _ _ _ _ _ _ _ Hrsv Hres Hpid Htid H)
    as (f & parent & s1 & row & parent' & s3 & Hp & -> & Hplace & Hfin).
  assert (Hnone : parent = None /\ s1 = s).
  { destruct (decide (parent_uuid r = 0)) as [Hp0|Hp0].
    { rewrite ResolveParent_no_parent in Hp by done. by injection Hp. }
    destruct Hparent as [Hself|[Hn1 Hn2]].
    - rewrite ResolveParent_loop in Hp; [by injection Hp| |].
      + unfold depth, kMaxAncestors. simpl. lia.
      + apply std_find_true. rewrite Hself. simpl. auto.
    - destruct (decide (parent_uuid r = uuid)) as [Hself|Hne].
      { rewrite ResolveParent_loop in Hp; [by injection Hp| |].
        + unfold depth, kMaxAncestors. simpl. lia.
        + apply std_find_true. rewrite Hself. simpl. auto. }
      rewrite ResolveParent_recurse in Hp; try done.
      2:{ unfold depth, kMaxAncestors. simpl. lia. }
      2:{ apply std_find_false. simpl. intros [?|[]]. done. }
      destruct f as [|f]; [discriminate|].
      rewrite GetDescriptorTrackImpl_unknown in Hp by done.
      by injection Hp. }
  destruct Hnone as [-> ->].
  set (t := length (tracks s)) in *.
  destruct Hplace as [(Hu' & _)|(_ & -> & Hd)]; [discriminate|].
  pose proof (framed_ResolveDefaultParent _ uuid None None
                (frame_GetOrCreateDefaultDescriptorTrack f) _ _ _ Hd) as Hf.
  rewrite ResolveDefaultParent_default in Hd by done.
  apply bind_Ok in Hd as (d & s3' & Hd & Hret).
  apply ret_Ok in Hret as [-> <-].
  apply GetOrCreateDefaultDescriptorTrack_Ok in Hd.
  assert (Hrow3 : exists row3, tracks s3 !! t = Some row3
                               /\ row_shape row3 = row_shape (global_row r)).
  { destruct Hf as (_ & _ & _ & [rows Hrows] & _).
    assert (Hl : (row_shape <$> tracks s3) !! t
                 = Some (row_shape (global_row r))).
    { rewrite Hrows. apply lookup_app_l_Some. simpl.
      rewrite list_lookup_fmap. by rewrite list_lookup_middle. }
    rewrite list_lookup_fmap in Hl.
    destruct (tracks s3 !! t) as [row3|]; [|discriminate].
    cbn [fmap option_fmap option_map] in Hl.
    exists row3. split; [done|]. congruence. }
  destruct Hrow3 as (row3 & Hrow3 & Hshape3).
  assert (Hs' : s' = set_resolved (insert uuid t)
                       (with_provenance uuid r t (Some d) s3)
                \/ s' = set_tracks (alter (set_track_name event_name) t)
                          (set_resolved (insert uuid t)
                             (with_provenance uuid r t (Some d) s3))).
  { destruct Hfin as [[_ ->]|[_ Hupd]]; [by left|].
    by apply UpdateTrackName_state in Hupd. }
  destruct (row_after_names uuid r t (Some d) _ s' event_name row3 Hrow3 Hs')
    as ((row' & Hrow' & Hshape) & Hother & Hargs & Hres').
  exists t, d, row'. rewrite Hshape3 in Hshape.
  injection Hshape as -> -> ->. split_and!; try done.
  - rewrite Hres'. by rewrite lookup_insert_ne.
  - unfold has_parent, has_arg. rewrite Hargs.
    apply has_parent_with_provenance.
Qed.
End PlainTracks.

(** ** Resolution Engine: process and thread tracks, and the event name *)

Section OsTracks.
Context {PT : Type} {ops : ProcessTrackerOps PT} {same : SameTrack}
        {build : BuildConfig}.
Implicit Types s : State PT.
Abbreviation M := (M (PT:=PT)).

Lemma bind_eq_Err {A B} (m : M A) (k : A -> M B) s e :
  m s = Err e -> bind m k s = Err e.
Proof. unfold bind. by intros ->. Qed.

Lemma set_track_name_and_return_eval r t s :
  valid_id t s ->
  set_track_name_and_return r t s
  = Ok (t, if is_null (name r) then s
           else set_tracks (alter (set_track_name (name r)) t) s).
Proof.
  intros Ht. unfold set_track_name_and_return, IndexOf, SetName.
  destruct (is_null (name r)); [done|]. mstep.
  unfold valid_id in Ht. apply Nat.ltb_lt in Ht. rewrite Ht. by mstep.
Qed.

(** The row that the track tracker interns for a process, and the state
    afterwards. *)
Lemma InternProcessTrack_eval upid s :
  InternProcessTrack upid s
  = match process_tracks_ s !! upid with
    | Some t => Ok (t, s)
    | None =>
        Ok (length (tracks s),
            set_process_tracks (insert upid (length (tracks s)))
              (set_tracks
                 (fun l => l ++ [{| track_table := ProcessTrackTable;
                                    track_name := kNullStringId;
                                    track_utid := None;
                                    track_upid := Some upid |}]) s))
    end.
Proof.
  unfold InternProcessTrack. mstep.
  destruct (process_tracks_ s !! upid); [done|]. by mstep.
Qed.

Lemma InternThreadTrack_eval utid s :
  InternThreadTrack utid s
  = match thread_tracks_ s !! utid with
    | Some t => Ok (t, s)
    | None =>
        Ok (length (tracks s),
            set_thread_tracks (insert utid (length (tracks s)))
              (set_tracks
                 (fun l => l ++ [{| track_table := ThreadTrackTable;
                                    track_name := kNullStringId;
                                    track_utid := Some utid;
                                    track_upid := None |}]) s))
    end.
Proof.
  unfold InternThreadTrack. mstep.
  destruct (thread_tracks_ s !! utid); [done|]. by mstep.
Qed.

(** The tail shared by lines 287-288 and 314-315: the interned row gets
    the declared name. *)
Lemma named_interned_row r (t : TrackId) (s1 : State PT) :
  valid_id t s1 ->
  let s2 := if is_null (name r) then s1
            else set_tracks (alter (set_track_name (name r)) t) s1 in
  set_track_name_and_return r t s1 = Ok (t, s2)
  /\ args s2 = args s1
  /\ resolved_descriptor_tracks_ s2 = resolved_descriptor_tracks_ s1
  /\ reserved_descriptor_tracks_ s2 = reserved_descriptor_tracks_ s1
  /\ descriptor_uuids_by_upid_ s2 = descriptor_uuids_by_upid_ s1
  /\ descriptor_uuids_by_utid_ s2 = descriptor_uuids_by_utid_ s1
  /\ process_tracker s2 = process_tracker s1
  /\ process_tracks_ s2 = process_tracks_ s1
  /\ thread_tracks_ s2 = thread_tracks_ s1
  /\ valid_id t s2
  /\ (is_null (name r) = false ->
      track_name <$> tracks s2 !! t = Some (name r)).
Proof.
  intros Ht s2. split; [by apply set_track_name_and_return_eval|].
  unfold s2. destruct (is_null (name r)) eqn:Hn; split_and!; try done.
  - unfold valid_id. simpl. by rewrite length_alter.
  - intros _. simpl. rewrite list_lookup_alter_eq.
    unfold valid_id in Ht.
    destruct (lookup_lt_is_Some_2 _ _ Ht) as [row ->]. done.
Qed.

(** X20: resolving a declared, not yet resolved process track.  The
    process is the one the process tracker knows for the pid, unless that
    process is already bound to a descriptor track: then the pid was reused
    and a new process is started.  The process is bound to the uuid, the
    row is the process track interned for it, it gets the declared name,
    and no provenance argument is attached to it.  The resolution always
    succeeds in a build without debug checks.  With debug checks it stops
    at the [PERFETTO_DCHECK] of line 301 exactly when the process is
    already bound to this very uuid, which no state the tracker can be in
    allows. *)
Theorem process_track_resolution fuel uuid event_name s r pid_ :
  well_formed s ->
  reserved_descriptor_tracks_ s !! uuid = Some r ->
  resolved_descriptor_tracks_ s !! uuid = None ->
  tid r = None -> pid r = Some pid_ -> parent_uuid r = 0 ->
  (3 <= fuel)%nat ->
  let known := GetOrCreateProcess pid_ (process_tracker s) in
  let reused := bool_decide (is_Some (descriptor_uuids_by_upid_ s !! known.1)) in
  let started := StartNewProcess pid_ known.2 in
  let upid := if reused then started.1 else known.1 in
  let resolved_twice :=
    PERFETTO_DCHECK_IS_ON
    && bool_decide (descriptor_uuids_by_upid_ s !! known.1 = Some uuid) in
  (reachable s -> resolved_twice = false)
  /\ if resolved_twice
     then GetDescriptorTrack fuel uuid event_name s = Err (CheckFailed 301)
     else
       exists t s',
         GetDescriptorTrack fuel uuid event_name s = Ok (Some t, s')
         /\ process_tracker s' = (if reused then started.2 else known.2)
         /\ descriptor_uuids_by_upid_ s'
            = <[upid := uuid]> (descriptor_uuids_by_upid_ s)
         /\ process_tracks_ s' !! upid = Some t
         /\ resolved_descriptor_tracks_ s'
            = <[uuid := t]> (resolved_descriptor_tracks_ s)
         /\ reserved_descriptor_tracks_ s' = reserved_descriptor_tracks_ s
         /\ args s' = args s
         /\ (is_null (name r) = false ->
             track_name <$> tracks s' !! t = Some (name r)).
Proof.
  intros [Hrr Hiv] Hrsv Hres Htid Hpid Hpar Hfuel
    known reused started upid resolved_twice.
  split.
  { intros Hreach. apply bindings_reachable in Hreach as [[_ Hbound] _].
    unfold resolved_twice. destruct PERFETTO_DCHECK_IS_ON; [|done]. simpl.
    apply bool_decide_eq_false_2. intros Hk.
    apply Hbound in Hk as [? ?]. congruence. }
  destruct fuel as [|[|[|f]]]; [lia..|].
  (* the process and the state after lines 292-313 *)
  set (s1 := set_by_upid (insert upid uuid)
               (set_process_tracker (if reused then started.2 else known.2)
                  s)).
  assert (Hident :
    forall (k : UniquePid -> M TrackId),
      bind (call_process_tracker (GetOrCreateProcess pid_))
        (fun upid0 =>
           bind (gets (fun s => descriptor_uuids_by_upid_ s !! upid0))
             (fun it =>
                bind match it with
                     | None =>
                         bind (modify (set_by_upid (insert upid0 uuid)))
                           (fun _ => ret upid0)
                     | Some old_uuid =>
                         bind (PERFETTO_DCHECK 301
                                 (negb (old_uuid =? uuid)))
                           (fun _ =>
                              bind (call_process_tracker
                                      (StartNewProcess pid_))
                                (fun upid1 =>
                                   bind (modify
                                           (set_by_upid
                                              (insert upid1 uuid)))
                                     (fun _ => ret upid1)))
                     end k)) s
      = if resolved_twice then Err (CheckFailed 301) else k upid s1).
  { intros k. rewrite bind_call_process_tracker. fold known. mstep.
    cbn [descriptor_uuids_by_upid_ set_process_tracker].
    unfold s1, upid, reused, resolved_twice, PERFETTO_DCHECK.
    destruct (descriptor_uuids_by_upid_ s !! known.1) as [old|] eqn:Hb.
    - rewrite (bool_decide_eq_true_2 (is_Some _)) by eauto.
      destruct (Z.eqb_spec old uuid) as [->|Hne].
      + rewrite (bool_decide_eq_true_2 (_ = _)) by done.
        destruct PERFETTO_DCHECK_IS_ON; simpl; [done|]. mstep.
        rewrite bind_call_process_tracker. by mstep.
      + rewrite (bool_decide_eq_false_2 (_ = _)) by congruence.
        rewrite andb_false_r. unfold PERFETTO_CHECK.
        destruct PERFETTO_DCHECK_IS_ON; simpl; mstep;
          rewrite bind_call_process_tracker; by mstep.
    - rewrite (bool_decide_eq_false_2 (is_Some _))
        by (intros [? ?]; done).
      rewrite (bool_decide_eq_false_2 (_ = _)) by done.
      rewrite andb_false_r. by mstep. }
  assert (Hrdt : ResolveDescriptorTrack (S f) uuid r None s
                 = ResolveProcessTrack uuid r pid_ s).
  { simpl. unfold ResolveDescriptorTrack_body.
    rewrite (bind_eq_Ok _ _ _ _ _
               (ResolveParent_no_parent _ uuid r None s Hpar)).
    by rewrite Htid, Hpid. }
  unfold ResolveProcessTrack in Hrdt. rewrite Hident in Hrdt.
  destruct resolved_twice eqn:Htwice.
  { change (GetDescriptorTrack (S (S (S f))) uuid event_name s)
      with (GetDescriptorTrack_body
              (GetDescriptorTrackImpl_body
                 (ResolveDescriptorTrack (S f))) uuid event_name s).
    unfold GetDescriptorTrack_body, GetDescriptorTrackImpl_body.
    mstep. rewrite Hres. mstep. rewrite Hrsv. lazy beta iota.
    rewrite bind_assoc. by apply bind_eq_Err. }
  assert (Hiv1 : ids_valid s1) by done.
  (* the interned row *)
  destruct (InternProcessTrack upid s1) as [[t s2]|e] eqn:Hintern.
  2:{ rewrite InternProcessTrack_eval in Hintern.
      destruct (process_tracks_ s1 !! upid); discriminate. }
  pose proof (run_ok_InternProcessTrack _ _ _ _ Hintern) as [Hext2 Hv2].
  specialize (Hv2 Hiv1).
  assert (Hs2 : process_tracks_ s2 !! upid = Some t
                /\ args s2 = args s
                /\ resolved_descriptor_tracks_ s2
                   = resolved_descriptor_tracks_ s
                /\ reserved_descriptor_tracks_ s2
                   = reserved_descriptor_tracks_ s
                /\ descriptor_uuids_by_upid_ s2
                   = <[upid := uuid]> (descriptor_uuids_by_upid_ s)
                /\ process_tracker s2
                   = (if reused then started.2 else known.2)).
  { rewrite InternProcessTrack_eval in Hintern.
    destruct (process_tracks_ s1 !! upid) as [t0|] eqn:Ht0;
      injection Hintern as <- <-; split_and!; try done.
    simpl. apply lookup_insert_eq. }
  destruct Hs2 as (Hpt & Hargs2 & Hres2 & Hrsv2 & Hby2 & Hptr2).
  destruct (named_interned_row r t s2 Hv2)
    as (Hname & Ha & Hb & Hc & Hd & _ & He & Hf & _ & Hv3 & Hn3).
  set (s3 := if is_null (name r) then s2
             else set_tracks (alter (set_track_name (name r)) t) s2) in *.
  assert (Himpl : GetDescriptorTrackImpl (S (S f)) uuid None s
                  = Ok (Some t, set_resolved (insert uuid t) s3)).
  { apply (GetDescriptorTrackImpl_fresh _ _ _ _ r); [done..|].
    rewrite Hrdt. by rewrite (bind_eq_Ok _ _ _ _ _ Hintern). }
  exists t.
  assert (Hupd : forall ev',
            UpdateTrackName uuid ev' t (set_resolved (insert uuid t) s3)
            = Ok (Some t, set_resolved (insert uuid t) s3)).
  { intros ev'. unfold valid_id in Hv3.
    destruct (lookup_lt_is_Some_2 _ _ Hv3) as [row Hrow].
    apply (UpdateTrackName_primary _ _ _ _ row r); [done| |].
    - simpl. by rewrite Hc, Hrsv2.
    - left. rewrite Hpid. eauto. }
  exists (set_resolved (insert uuid t) s3). split.
  { simpl. unfold GetDescriptorTrack_body.
    rewrite (bind_eq_Ok _ _ _ _ _ Himpl).
    destruct (is_null event_name); [done|apply Hupd]. }
  simpl. rewrite He, Hd, Hf, Hb, Hc, Ha. split_and!; try done.
  by rewrite Hres2.
Qed.

Lemma ResolveParent_settled f uuid r s :
  resolved_descriptor_tracks_ s !! uuid = None ->
  parent_uuid r = 0
  \/ is_Some (resolved_descriptor_tracks_ s !! parent_uuid r) ->
  exists parent,
    ResolveParent (GetDescriptorTrackImpl (S f)) uuid r None s
    = Ok (parent, s).
Proof.
  intros Hres [Hp|[p Hp]].
  - exists None. by apply ResolveParent_no_parent.
  - destruct (decide (parent_uuid r = 0)) as [Hp0|Hp0].
    { exists None. by apply ResolveParent_no_parent. }
    exists (Some p). rewrite ResolveParent_recurse; try done.
    + by apply GetDescriptorTrackImpl_memo.
    + unfold depth, kMaxAncestors. simpl. lia.
    + apply std_find_false. simpl. intros [?|[]]. congruence.
Qed.

(** X21: resolving a declared, not yet resolved thread track whose parent is
    resolved already (or that has none): the thread is the one the process
    tracker finds for tid and pid, unless that thread is already bound to
    a descriptor track; then the tid was reused, a new thread is started,
    and the resolution stops at the [PERFETTO_CHECK] of line 282 if the
    process tracker does not find that new thread for the tid.  Otherwise
    the thread is bound to the uuid, the row is the thread track interned
    for it, it gets the declared name, and no provenance argument is
    attached to it.  In a build with debug checks the resolution stops at
    the [PERFETTO_DCHECK] of line 270 exactly when the thread is already
    bound to this very uuid, which no state the tracker can be in
    allows. *)
Theorem thread_track_resolution fuel uuid event_name s r pid_ tid_ :
  well_formed s ->
  reserved_descriptor_tracks_ s !! uuid = Some r ->
  resolved_descriptor_tracks_ s !! uuid = None ->
  tid r = Some tid_ -> pid r = Some pid_ ->
  parent_uuid r = 0
  \/ is_Some (resolved_descriptor_tracks_ s !! parent_uuid r) ->
  (4 <= fuel)%nat ->
  let found := UpdateThread tid_ pid_ (process_tracker s) in
  let reused :=
    bool_decide (is_Some (descriptor_uuids_by_utid_ s !! found.1)) in
  let started := StartNewThread tid_ found.2 in
  let updated := UpdateThread tid_ pid_ started.2 in
  let utid := if reused then started.1 else found.1 in
  let resolved_twice :=
    PERFETTO_DCHECK_IS_ON
    && bool_decide (descriptor_uuids_by_utid_ s !! found.1 = Some uuid) in
  (reachable s -> resolved_twice = false)
  /\ if resolved_twice
     then GetDescriptorTrack fuel uuid event_name s = Err (CheckFailed 270)
     else
       if reused && negb (updated.1 =? started.1)%nat
       then GetDescriptorTrack fuel uuid event_name s
            = Err (CheckFailed 282)
       else
         exists t s',
           GetDescriptorTrack fuel uuid event_name s = Ok (Some t, s')
           /\ process_tracker s' = (if reused then updated.2 else found.2)
           /\ descriptor_uuids_by_utid_ s'
              = <[utid := uuid]> (descriptor_uuids_by_utid_ s)
           /\ thread_tracks_ s' !! utid = Some t
           /\ resolved_descriptor_tracks_ s'
              = <[uuid := t]> (resolved_descriptor_tracks_ s)
           /\ reserved_descriptor_tracks_ s' = reserved_descriptor_tracks_ s
           /\ args s' = args s
           /\ (is_null (name r) = false ->
               track_name <$> tracks s' !! t = Some (name r)).
Proof.
  intros [Hrr Hiv] Hrsv Hres Htid Hpid Hpar Hfuel
    found reused started updated utid resolved_twice.
  split.
  { intros Hreach. apply bindings_reachable in Hreach as [[Hbound _] _].
    unfold resolved_twice. destruct PERFETTO_DCHECK_IS_ON; [|done]. simpl.
    apply bool_decide_eq_false_2. intros Hk.
    apply Hbound in Hk as [? ?]. congruence. }
  destruct fuel as [|[|[|[|f]]]]; [lia..|].
  destruct (ResolveParent_settled f uuid r s Hres Hpar)
    as [parent Hparent].
  (* lines 261-286 *)
  assert (Hident :
    forall (k : UniqueTid -> M TrackId),
      bind (deref (pid r))
        (fun pid_ =>
           bind (call_process_tracker (UpdateThread tid_ pid_))
             (fun utid0 =>
                bind (gets (fun s => descriptor_uuids_by_utid_ s !! utid0))
                  (fun it =>
                     bind match it with
                          | None =>
                              bind (modify
                                      (set_by_utid (insert utid0 uuid)))
                                (fun _ => ret utid0)
                          | Some old_uuid =>
                              bind (PERFETTO_DCHECK 270
                                      (negb (old_uuid =? uuid)))
                                (fun _ =>
                              bind (call_process_tracker
                                      (StartNewThread tid_))
                                (fun utid1 =>
                                   bind (call_process_tracker
                                           (UpdateThread tid_ pid_))
                                     (fun utid' =>
                                        bind (PERFETTO_CHECK 282
                                                (utid' =? utid1)%nat)
                                          (fun _ =>
                                             bind (modify
                                                     (set_by_utid
                                                        (insert utid1 uuid)))
                                               (fun _ => ret utid1)))))
                          end k))) s
      = if resolved_twice then Err (CheckFailed 270)
        else if reused && negb (updated.1 =? started.1)%nat
        then Err (CheckFailed 282)
        else k utid
               (set_by_utid (insert utid uuid)
                  (set_process_tracker
                     (if reused then updated.2 else found.2) s))).
  { intros k. rewrite Hpid. mstep.
    rewrite bind_call_process_tracker. fold found. mstep.
    cbn [descriptor_uuids_by_utid_ set_process_tracker].
    unfold utid, reused, resolved_twice, PERFETTO_DCHECK.
    destruct (descriptor_uuids_by_utid_ s !! found.1) as [old|] eqn:Hb.
    - rewrite (bool_decide_eq_true_2 (is_Some _)) by eauto.
      assert (Hcheck :
        (PERFETTO_DCHECK_IS_ON
         && bool_decide (Some old = Some uuid) = true
         /\ PERFETTO_DCHECK_IS_ON = true /\ (old =? uuid) = true)
        \/ (PERFETTO_DCHECK_IS_ON
            && bool_decide (Some old = Some uuid) = false
            /\ (PERFETTO_DCHECK_IS_ON = false \/ (old =? uuid) = false))).
      { destruct (Z.eqb_spec old uuid) as [->|Hne].
        - rewrite (bool_decide_eq_true_2 (_ = _)) by done.
          destruct PERFETTO_DCHECK_IS_ON; simpl; eauto.
        - rewrite (bool_decide_eq_false_2 (_ = _)) by congruence.
          rewrite andb_false_r. eauto. }
      destruct Hcheck as [(-> & -> & ->)|[-> Hpass]]; [done|].
      assert (Hdcheck : forall B (m : M B),
                bind (if PERFETTO_DCHECK_IS_ON
                      then PERFETTO_CHECK 270 (negb (old =? uuid))
                      else ret tt) (fun _ => m)
                = m).
      { intros B m. destruct Hpass as [->| ->]; [done|].
        by destruct PERFETTO_DCHECK_IS_ON. }
      mstep. rewrite Hdcheck. mstep.
      rewrite bind_call_process_tracker. mstep.
      rewrite bind_call_process_tracker. mstep.
      cbn [process_tracker set_process_tracker]. fold started updated.
      destruct (updated.1 =? started.1)%nat; simpl; [|done].
      unfold PERFETTO_CHECK. by mstep.
    - rewrite (bool_decide_eq_false_2 (is_Some _))
        by (intros [? ?]; done).
      rewrite (bool_decide_eq_false_2 (_ = _)) by done.
      rewrite andb_false_r. by mstep. }
  assert (Hrdt : ResolveDescriptorTrack (S (S f)) uuid r None s
                 = ResolveThreadTrack uuid r tid_ s).
  { simpl. unfold ResolveDescriptorTrack_body.
    rewrite (bind_eq_Ok _ _ _ _ _ Hparent). by rewrite Htid. }
  unfold ResolveThreadTrack in Hrdt. rewrite Hident in Hrdt.
  assert (Hstop : forall e,
            ResolveDescriptorTrack (S (S f)) uuid r None s = Err e ->
            GetDescriptorTrack (S (S (S (S f)))) uuid event_name s
            = Err e).
  { intros e He.
    change (GetDescriptorTrack (S (S (S (S f)))) uuid event_name s)
      with (GetDescriptorTrack_body
              (GetDescriptorTrackImpl_body
                 (ResolveDescriptorTrack (S (S f)))) uuid event_name s).
    unfold GetDescriptorTrack_body, GetDescriptorTrackImpl_body.
    mstep. rewrite Hres. mstep. rewrite Hrsv. lazy beta iota.
    rewrite bind_assoc. by apply bind_eq_Err. }
  destruct resolved_twice eqn:Htwice; [by apply Hstop|].
  destruct (reused && negb (updated.1 =? started.1)%nat) eqn:Hfail;
    [by apply Hstop|].
  set (s1 := set_by_utid (insert utid uuid)
               (set_process_tracker
                  (if reused then updated.2 else found.2) s)) in *.
  assert (Hiv1 : ids_valid s1) by done.
  destruct (InternThreadTrack utid s1) as [[t s2]|e] eqn:Hintern.
  2:{ rewrite InternThreadTrack_eval in Hintern.
      destruct (thread_tracks_ s1 !! utid); discriminate. }
  pose proof (run_ok_InternThreadTrack _ _ _ _ Hintern) as [Hext2 Hv2].
  specialize (Hv2 Hiv1).
  assert (Hs2 : thread_tracks_ s2 !! utid = Some t
                /\ args s2 = args s
                /\ resolved_descriptor_tracks_ s2
                   = resolved_descriptor_tracks_ s
                /\ reserved_descriptor_tracks_ s2
                   = reserved_descriptor_tracks_ s
                /\ descriptor_uuids_by_utid_ s2
                   = <[utid := uuid]> (descriptor_uuids_by_utid_ s)
                /\ process_tracker s2
                   = (if reused then updated.2 else found.2)).
  { rewrite InternThreadTrack_eval in Hintern.
    destruct (thread_tracks_ s1 !! utid) as [t0|] eqn:Ht0;
      injection Hintern as <- <-; split_and!; try done.
    simpl. apply lookup_insert_eq. }
  destruct Hs2 as (Hpt & Hargs2 & Hres2 & Hrsv2 & Hby2 & Hptr2).
  destruct (named_interned_row r t s2 Hv2)
    as (Hname & Ha & Hb & Hc & _ & Hd & He & _ & Hf & Hv3 & Hn3).
  set (s3 := if is_null (name r) then s2
             else set_tracks (alter (set_track_name (name r)) t) s2) in *.
  assert (Himpl : GetDescriptorTrackImpl (S (S (S f))) uuid None s
                  = Ok (Some t, set_resolved (insert uuid t) s3)).
  { apply (GetDescriptorTrackImpl_fresh _ _ _ _ r); [done..|].
    rewrite Hrdt. by rewrite (bind_eq_Ok _ _ _ _ _ Hintern). }
  exists t.
  assert (Hupd : forall ev',
            UpdateTrackName uuid ev' t (set_resolved (insert uuid t) s3)
            = Ok (Some t, set_resolved (insert uuid t) s3)).
  { intros ev'. unfold valid_id in Hv3.
    destruct (lookup_lt_is_Some_2 _ _ Hv3) as [row Hrow].
    apply (UpdateTrackName_primary _ _ _ _ row r); [done| |].
    - simpl. by rewrite Hc, Hrsv2.
    - left. rewrite Hpid. eauto. }
  exists (set_resolved (insert uuid t) s3). split.
  { simpl. unfold GetDescriptorTrack_body.
    rewrite (bind_eq_Ok _ _ _ _ _ Himpl).
    destruct (is_null event_name); [done|apply Hupd]. }
  simpl. rewrite He, Hd, Hf, Hb, Hc, Ha. split_and!; try done.
  by rewrite Hres2.
Qed.
End OsTracks.

Section MoreResolve.
Context {PT : Type} {ops : ProcessTrackerOps PT} {same : SameTrack}
        {build : BuildConfig}.
Implicit Types s : State PT.

(** X22: the event name names an unnamed track: for a memoized track without
    OS identifiers that is not a counter and whose row has no name yet, a
    resolution with a non-empty event name writes that name into the row
    and changes nothing else. *)
Theorem event_name_names_an_unnamed_track fuel uuid event_name s r t row :
  resolved_descriptor_tracks_ s !! uuid = Some t ->
  tracks s !! t = Some row ->
  is_null (track_name row) = true ->
  reserved_descriptor_tracks_ s !! uuid = Some r ->
  pid r = None -> tid r = None -> is_counter r = false ->
  is_null event_name = false ->
  (2 <= fuel)%nat ->
  GetDescriptorTrack fuel uuid event_name s
  = Ok (Some t, set_tracks (alter (set_track_name event_name) t) s)
  /\ track_name
       <$> tracks (set_tracks (alter (set_track_name event_name) t) s) !! t
     = Some event_name.
Proof.
  intros Hres Hrow Hnull Hrsv Hpid Htid Hc Hev Hf.
  destruct fuel as [|[|f]]; [lia..|]. split.
  - apply GetDescriptorTrack_memo; [done|]. rewrite Hev.
    unfold UpdateTrackName, IndexOf, name_at, SetName.
    apply lookup_lt_Some in Hrow as Hlt. apply Nat.ltb_lt in Hlt.
    mstep. rewrite Hlt. mstep. rewrite Hrow. mstep. rewrite Hnull.
    cbn [negb]. mstep. rewrite Hrsv. mstep. rewrite Hpid, Htid, Hc.
    rewrite !bool_decide_eq_false_2 by (intros [? ?]; done). simpl.
    by mstep.
  - simpl. by rewrite list_lookup_alter_eq, Hrow.
Qed.

(** X23: in every state the tracker can be in, every memoized uuid has a
    reservation, every stored row id is a row of the track table, and
    every reservation with a tid has a pid. *)
Theorem reachable_states_are_sound s :
  reachable s ->
  resolved_are_reserved s /\ ids_valid s /\ threads_have_pid s.
Proof.
  intros H. apply sound_reachable in H as [[? ?] ?]. done.
Qed.
End MoreResolve.

(** ** Instances of the further properties on the concrete scenarios *)

Lemma well_formed_state_after fuel uuid ev (s : State SimpleProcessTracker) :
  well_formed s ->
  well_formed
    (state_after (GetDescriptorTrack (same:=spec_same_track)
       (build:=debug_build) fuel uuid ev s)
       s).
Proof.
  intros Hs.
  destruct (GetDescriptorTrack fuel uuid ev s) as [[r s']|e] eqn:H; [|done].
  by eapply well_formed_GetDescriptorTrack.
Qed.

Lemma reachable_declare {build : BuildConfig} ds
    (s : State SimpleProcessTracker) :
  reachable (same:=spec_same_track) s ->
  reachable (same:=spec_same_track) (declare ds s).
Proof.
  revert s. induction ds as [|d ds IH]; intros s Hs; [done|].
  simpl. apply IH. by apply reachable_Reserve.
Qed.

Lemma reachable_fresh_tracker {build : BuildConfig} :
  reachable (same:=spec_same_track) fresh_tracker.
Proof. apply reachable_initial. Qed.

Lemma Reserve_keeps_stored_reservation_witness :
  exists ts,
    reserved_descriptor_tracks_
      (Reserve (same:=spec_same_track)
         (DeclareProcessTrack 1 kNullStringId 10 50) process_tracker_state)
      !! 1
    = Some (set_min_timestamp ts
              (process_track_reservation kNullStringId 10 100))
    /\ ts <= 100.
Proof.
  destruct (Reserve_keeps_stored_reservation (same:=spec_same_track)
              (DeclareProcessTrack 1 kNullStringId 10 50)
              process_tracker_state 1
              (process_track_reservation kNullStringId 10 100))
    as (ts & H1 & H2 & _).
  - vm_compute. reflexivity.
  - exists ts. split; [exact H1|exact H2].
Defined.

Lemma Reserve_counts_exactly_the_mismatches_witness :
  track_event_tokenizer_errors
    (Reserve (same:=spec_same_track) thread_redeclaration
       (Reserve (same:=spec_same_track) thread_redeclaration
          process_tracker_state))
  = 2%nat.
Proof.
  destruct (Reserve_counts_exactly_the_mismatches (same:=spec_same_track)
              thread_redeclaration process_tracker_state) as [_ H].
  apply H. vm_compute. reflexivity.
Defined.

Lemma Reserve_is_idempotent_when_accepted_witness :
  let d := DeclareProcessTrack 1 kNullStringId 10 50 in
  Reserve (same:=spec_same_track) d
    (Reserve (same:=spec_same_track) d process_tracker_state)
  = Reserve (same:=spec_same_track) d process_tracker_state.
Proof.
  apply (Reserve_is_idempotent_when_accepted (same:=spec_same_track)
           (DeclareProcessTrack 1 kNullStringId 10 50)
           process_tracker_state).
  - vm_compute. reflexivity.
  - intros it ts. reflexivity.
  - intros it Hit. vm_compute in Hit. injection Hit as <-.
    vm_compute. reflexivity.
Defined.

Lemma Reserve_commutes_on_different_uuids_witness :
  let d1 := DeclareProcessTrack 1 kNullStringId 10 50 in
  let d2 := DeclareChildTrack 7 3 kNullStringId in
  Reserve (same:=spec_same_track) d1
    (Reserve (same:=spec_same_track) d2 process_tracker_state)
  = Reserve (same:=spec_same_track) d2
      (Reserve (same:=spec_same_track) d1 process_tracker_state).
Proof.
  apply (Reserve_commutes_on_different_uuids (same:=spec_same_track)
           (DeclareProcessTrack 1 kNullStringId 10 50)
           (DeclareChildTrack 7 3 kNullStringId) process_tracker_state).
  simpl. lia.
Defined.

Lemma ConvertToAbsoluteCounterValue_rejects_witness :
  snd (ConvertToAbsoluteCounterValue 7 9 1 counter_tracker)
  = counter_tracker.
Proof.
  destruct (ConvertToAbsoluteCounterValue_rejects 7 9 1 counter_tracker)
    as [_ H].
  apply H. vm_compute. reflexivity.
Defined.

Lemma incremental_counter_accumulates_witness :
  fst (ConvertAll 7 5 [3; 4; -1] counter_tracker) !! 2%nat
  = Some (Some (wrap_int64
                  (0 + sum_Z (take 3
                                (map (scaled_value
                                        (counter_track_reservation 0
                                           kNullStringId kNullStringId 2
                                           true 5))
                                   [3; 4; -1]))))).
Proof.
  destruct (incremental_counter_accumulates 7 5 [3; 4; -1] counter_tracker
              (counter_track_reservation 0 kNullStringId kNullStringId 2
                 true 5) 2) as [H _].
  - vm_compute. reflexivity.
  - reflexivity.
  - reflexivity.
  - reflexivity.
  - simpl. lia.
  - exact H.
Defined.

Lemma cleared_counter_restarts_from_zero_witness :
  fst (ConvertAll 7 5 [2; 1]
         (OnIncrementalStateCleared 5
            (snd (ConvertAll 7 5 [3; 4] counter_tracker)))) !! 1%nat
  = Some (Some (wrap_int64
                  (sum_Z (take 2
                            (map (scaled_value
                                    (set_latest_value 14
                                       (counter_track_reservation 0
                                          kNullStringId kNullStringId 2
                                          true 5)))
                               [2; 1]))))).
Proof.
  apply (cleared_counter_restarts_from_zero 7 5 [2; 1]
           (snd (ConvertAll 7 5 [3; 4] counter_tracker))
           (set_latest_value 14
              (counter_track_reservation 0 kNullStringId kNullStringId 2
                 true 5)) 1).
  - vm_compute. reflexivity.
  - reflexivity.
  - reflexivity.
  - reflexivity.
  - simpl. lia.
Defined.

Lemma clear_leaves_other_counters_alone_witness :
  ConvertToAbsoluteCounterValue 7 5 3
    (OnIncrementalStateCleared 9 counter_tracker)
  = (fst (ConvertToAbsoluteCounterValue 7 5 3 counter_tracker),
     OnIncrementalStateCleared 9
       (snd (ConvertToAbsoluteCounterValue 7 5 3 counter_tracker))).
Proof.
  apply (clear_leaves_other_counters_alone 7 5 3 9 counter_tracker).
  intros r Hr. vm_compute in Hr. injection Hr as <-.
  vm_compute. reflexivity.
Defined.

Lemma resolution_keeps_memoized_rows_witness :
  match GetDescriptorTrack (same:=spec_same_track)
          (build:=debug_build) enough_fuel 3
          kNullStringId thread_tracker_resolved with
  | Ok (r, s') =>
      resolved_descriptor_tracks_ s' !! 1 = Some 0%nat
  | Err _ => False
  end.
Proof.
  destruct (GetDescriptorTrack (same:=spec_same_track)
              (build:=debug_build) enough_fuel 3
              kNullStringId thread_tracker_resolved) as [[r s']|e] eqn:H.
  - destruct (resolution_keeps_memoized_rows (same:=spec_same_track)
                (build:=debug_build)
                enough_fuel 3 kNullStringId thread_tracker_resolved r s' H)
      as [Hres _].
    apply Hres. vm_compute. reflexivity.
  - vm_compute in H. discriminate H.
Defined.

Lemma resolution_never_rewrites_reservations_witness :
  match GetDescriptorTrack (same:=spec_same_track)
          (build:=debug_build) enough_fuel 99
          kNullStringId global_tracker with
  | Ok (r, s') =>
      track_event_tokenizer_errors s'
      = track_event_tokenizer_errors global_tracker
  | Err _ => False
  end.
Proof.
  destruct (GetDescriptorTrack (same:=spec_same_track)
              (build:=debug_build) enough_fuel 99
              kNullStringId global_tracker) as [[r s']|e] eqn:H.
  - destruct (resolution_never_rewrites_reservations
                (same:=spec_same_track) enough_fuel 99 kNullStringId
                global_tracker r s' H) as (_ & _ & He).
    exact He.
  - vm_compute in H. discriminate H.
Defined.

Lemma resolution_only_annotates_new_rows_witness :
  match GetDescriptorTrack (same:=spec_same_track)
          (build:=debug_build) enough_fuel 99
          kNullStringId global_tracker with
  | Ok (r, s') =>
      exists new_args,
        args s' = args global_tracker ++ new_args
        /\ forall t key v,
             In (t, key, v) new_args ->
             (length (tracks global_tracker) <= t < length (tracks s'))%nat
  | Err _ => False
  end.
Proof.
  destruct (GetDescriptorTrack (same:=spec_same_track)
              (build:=debug_build) enough_fuel 99
              kNullStringId global_tracker) as [[r s']|e] eqn:H.
  - apply (resolution_only_annotates_new_rows (same:=spec_same_track)
             (build:=debug_build)
             enough_fuel 99 kNullStringId global_tracker r s').
    + apply well_formed_declare, well_formed_fresh_tracker.
    + exact H.
  - vm_compute in H. discriminate H.
Defined.

Lemma resolution_returns_or_fails_a_check_witness :
  (exists r s',
     GetDescriptorTrack (same:=spec_same_track) (build:=debug_build)
       enough_fuel 7 (InternString "event") thread_under_default_tracker
     = Ok (r, s'))
  \/ GetDescriptorTrack (same:=spec_same_track) (build:=debug_build)
       enough_fuel 7 (InternString "event") thread_under_default_tracker
     = Err (CheckFailed 282)
  \/ (PERFETTO_DCHECK_IS_ON (BuildConfig:=debug_build) = true
      /\ GetDescriptorTrack (same:=spec_same_track) (build:=debug_build)
           enough_fuel 7 (InternString "event")
           thread_under_default_tracker
         = Err (CheckFailed 270)).
Proof.
  apply (resolution_returns_or_fails_a_check (same:=spec_same_track)
           (build:=debug_build)
           enough_fuel 7 (InternString "event")
           thread_under_default_tracker).
  - apply reachable_declare, reachable_fresh_tracker.
  - lia.
Defined.

Lemma resolution_returns_unless_dcheck_270_witness :
  exists r s',
    GetDescriptorTrack (same:=spec_same_track) (build:=release_build)
      enough_fuel 7 (InternString "event") thread_under_default_tracker
    = Ok (r, s')
    /\ reachable (same:=spec_same_track) (build:=release_build) s'.
Proof.
  destruct (resolution_returns_unless_dcheck_270 (same:=spec_same_track)
              (build:=release_build)
              enough_fuel 7 (InternString "event")
              thread_under_default_tracker) as [H|[Hon _]].
  - apply simple_process_tracker_new_thread_is_current.
  - apply reachable_declare, reachable_fresh_tracker.
  - lia.
  - exact H.
  - discriminate Hon.
Defined.

(** The debug check of line 270 does fail on a state the tracker can be
    in.  Resolving the thread track 7 resolves its parent 8, a global
    track, hence the default track, hence the default track's declared
    parent 7 with a new descendant vector: track 7 is resolved a first
    time, and its thread is bound to uuid 7.  Back in the outer call,
    line 265 finds the thread bound to uuid 7 already.  A build with debug
    checks stops there; a build without them takes this for a reused tid,
    starts a second thread and memoizes its track instead. *)
Lemma thread_resolved_twice_fails_dcheck_270 :
  reachable (same:=spec_same_track) (build:=debug_build)
    thread_under_default_tracker
  /\ GetDescriptorTrack (same:=spec_same_track) (build:=debug_build)
       enough_fuel 7 kNullStringId thread_under_default_tracker
     = Err (CheckFailed 270)
  /\ exists s',
       GetDescriptorTrack (same:=spec_same_track) (build:=release_build)
         enough_fuel 7 kNullStringId thread_under_default_tracker
       = Ok (Some 4%nat, s')
       /\ map_to_list (descriptor_uuids_by_utid_ s')
          = [(1%nat, 7); (0%nat, 7)].
Proof.
  split_and!.
  - apply reachable_declare, reachable_fresh_tracker.
  - vm_compute. reflexivity.
  - eexists. split; [vm_compute; reflexivity|]. vm_compute. reflexivity.
Qed.

Lemma unknown_uuid_resolves_to_nothing_witness :
  GetDescriptorTrack (same:=spec_same_track) (build:=debug_build) enough_fuel 5
    (InternString "event") global_tracker = Ok (None, global_tracker).
Proof.
  destruct (unknown_uuid_resolves_to_nothing (same:=spec_same_track)
              (build:=debug_build)
              enough_fuel 5 (InternString "event") global_tracker)
    as [[_ H] _].
  - unfold enough_fuel. lia.
  - apply H. split; vm_compute; reflexivity.
Defined.

Lemma default_track_is_created_once_witness :
  match GetOrCreateDefaultDescriptorTrack (same:=spec_same_track)
          (build:=debug_build)
          enough_fuel global_tracker with
  | Ok (d, s') =>
      GetOrCreateDefaultDescriptorTrack (same:=spec_same_track)
        (build:=debug_build)
        enough_fuel s' = Ok (d, s')
  | Err _ => False
  end.
Proof.
  destruct (GetOrCreateDefaultDescriptorTrack (same:=spec_same_track)
              (build:=debug_build)
              enough_fuel global_tracker) as [[d s']|e] eqn:H.
  - destruct (default_track_is_created_once (same:=spec_same_track)
                (build:=debug_build)
                enough_fuel global_tracker d s' H) as (_ & Hagain & _).
    apply Hagain. unfold enough_fuel. lia.
  - vm_compute in H. discriminate H.
Defined.

Lemma plain_track_gets_provenance_witness :
  match GetDescriptorTrack (same:=spec_same_track)
          (build:=debug_build) enough_fuel 99
          (InternString "event") global_tracker with
  | Ok (o, s') =>
      exists t parent_track_id,
        o = Some t
        /\ (length (tracks global_tracker) <= t < length (tracks s'))%nat
        /\ resolved_descriptor_tracks_ s' !! 99 = Some t
        /\ args_of s' t
           = provenance 99 (child_track_reservation 0 kNullStringId)
               parent_track_id
        /\ (99 <> 0 -> is_Some parent_track_id)
        /\ (is_null (name (child_track_reservation 0 kNullStringId)) = false ->
            track_name <$> tracks s' !! t
            = Some (name (child_track_reservation 0 kNullStringId)))
  | Err _ => False
  end.
Proof.
  destruct (GetDescriptorTrack (same:=spec_same_track)
              (build:=debug_build) enough_fuel 99
              (InternString "event") global_tracker) as [[o s']|e] eqn:H.
  - apply (plain_track_gets_provenance (same:=spec_same_track)
             (build:=debug_build)
             enough_fuel 99 (InternString "event") global_tracker
             (child_track_reservation 0 kNullStringId) o s').
    + apply well_formed_declare, well_formed_fresh_tracker.
    + vm_compute. reflexivity.
    + vm_compute. reflexivity.
    + reflexivity.
    + reflexivity.
    + exact H.
  - vm_compute in H. discriminate H.
Defined.

Lemma child_track_follows_its_parent_witness :
  match GetDescriptorTrack (same:=spec_same_track)
          (build:=debug_build) enough_fuel 3
          kNullStringId thread_tracker with
  | Ok (o, s') =>
      exists t p row prow,
        o = Some t
        /\ resolved_descriptor_tracks_ s' !! 2 = Some p
        /\ has_parent s' t p
        /\ tracks s' !! t = Some row
        /\ tracks s' !! p = Some prow
        /\ match track_table prow with
           | ThreadTrackTable =>
               track_table row = ThreadTrackTable
               /\ track_utid row = track_utid prow /\ track_upid row = None
           | ProcessTrackTable =>
               track_table row = ProcessTrackTable
               /\ track_upid row = track_upid prow /\ track_utid row = None
           | _ =>
               track_table row = TrackTable
               /\ track_utid row = None /\ track_upid row = None
           end
  | Err _ => False
  end.
Proof.
  destruct (GetDescriptorTrack (same:=spec_same_track)
              (build:=debug_build) enough_fuel 3
              kNullStringId thread_tracker) as [[o s']|e] eqn:H.
  - apply (child_track_follows_its_parent (same:=spec_same_track)
             (build:=debug_build)
             enough_fuel 3 kNullStringId thread_tracker
             (child_track_reservation 2 kNullStringId) o s').
    + apply well_formed_declare, well_formed_fresh_tracker.
    + vm_compute. reflexivity.
    + vm_compute. reflexivity.
    + reflexivity.
    + reflexivity.
    + discriminate.
    + discriminate.
    + eexists. vm_compute. reflexivity.
    + exact H.
  - vm_compute in H. discriminate H.
Defined.

Lemma unresolvable_parent_is_ignored_witness :
  match GetDescriptorTrack (same:=spec_same_track)
          (build:=debug_build) enough_fuel 4
          kNullStringId thread_tracker with
  | Ok (o, s') =>
      exists t d row,
        o = Some t
        /\ resolved_descriptor_tracks_ s' !! kDefaultDescriptorTrackUuid
           = Some d
        /\ has_parent s' t d
        /\ tracks s' !! t = Some row
        /\ track_table row = TrackTable
        /\ track_utid row = None /\ track_upid row = None
  | Err _ => False
  end.
Proof.
  destruct (GetDescriptorTrack (same:=spec_same_track)
              (build:=debug_build) enough_fuel 4
              kNullStringId thread_tracker) as [[o s']|e] eqn:H.
  - apply (unresolvable_parent_is_ignored (same:=spec_same_track)
             (build:=debug_build)
             enough_fuel 4 kNullStringId thread_tracker
             (child_track_reservation 44 kNullStringId) o s').
    + apply well_formed_declare, well_formed_fresh_tracker.
    + vm_compute. reflexivity.
    + vm_compute. reflexivity.
    + reflexivity.
    + reflexivity.
    + discriminate.
    + right. split; vm_compute; reflexivity.
    + exact H.
  - vm_compute in H. discriminate H.
Defined.

Lemma process_track_resolution_witness :
  exists t s',
    GetDescriptorTrack (same:=spec_same_track) (build:=debug_build)
      enough_fuel 1 (InternString "event") thread_tracker = Ok (Some t, s')
    /\ args s' = args thread_tracker
    /\ track_name <$> tracks s' !! t = Some (InternString "proc").
Proof.
  destruct (process_track_resolution (same:=spec_same_track)
              (build:=debug_build)
              enough_fuel 1 (InternString "event") thread_tracker
              (process_track_reservation (InternString "proc") 10 100) 10)
    as [_ Hthm].
  - apply well_formed_declare, well_formed_fresh_tracker.
  - vm_compute. reflexivity.
  - vm_compute. reflexivity.
  - reflexivity.
  - reflexivity.
  - reflexivity.
  - unfold enough_fuel. lia.
  - destruct (_ && _) in Hthm.
    { vm_compute in Hthm. discriminate Hthm. }
    destruct Hthm as (t & s' & H & _ & _ & _ & _ & _ & Hargs & Hname).
    exists t, s'. split; [exact H|]. split; [exact Hargs|].
    apply Hname. reflexivity.
Defined.

Lemma thread_track_resolution_witness :
  exists t s',
    GetDescriptorTrack (same:=spec_same_track) (build:=debug_build)
      enough_fuel 2 (InternString "event") thread_tracker_resolved
    = Ok (Some t, s')
    /\ args s' = args thread_tracker_resolved
    /\ track_name <$> tracks s' !! t = Some (InternString "main").
Proof.
  destruct (thread_track_resolution (same:=spec_same_track)
              (build:=debug_build)
              enough_fuel 2 (InternString "event") thread_tracker_resolved
              (thread_track_reservation 1 (InternString "main") 10 11 100)
              10 11) as [_ Hthm].
  - apply well_formed_state_after, well_formed_declare,
      well_formed_fresh_tracker.
  - vm_compute. reflexivity.
  - vm_compute. reflexivity.
  - reflexivity.
  - reflexivity.
  - right. eexists. vm_compute. reflexivity.
  - unfold enough_fuel. lia.
  - destruct (PERFETTO_DCHECK_IS_ON && _) in Hthm.
    { vm_compute in Hthm. discriminate Hthm. }
    destruct (bool_decide _ && _) in Hthm.
    { vm_compute in Hthm. discriminate Hthm. }
    destruct Hthm as (t & s' & H & _ & _ & _ & _ & _ & Hargs & Hname).
    exists t, s'. split; [exact H|]. split; [exact Hargs|].
    apply Hname. reflexivity.
Defined.

Lemma event_name_names_an_unnamed_track_witness :
  GetDescriptorTrack (same:=spec_same_track) (build:=debug_build) enough_fuel 99
    (InternString "event") global_resolved
  = Ok (Some 0%nat,
        set_tracks (alter (set_track_name (InternString "event")) 0%nat)
          global_resolved).
Proof.
  destruct (event_name_names_an_unnamed_track (same:=spec_same_track)
              (build:=debug_build)
              enough_fuel 99 (InternString "event") global_resolved
              (child_track_reservation 0 kNullStringId) 0%nat
              {| track_table := TrackTable; track_name := kNullStringId;
                 track_utid := None; track_upid := None |}) as [H _].
  - vm_compute. reflexivity.
  - vm_compute. reflexivity.
  - reflexivity.
  - vm_compute. reflexivity.
  - reflexivity.
  - reflexivity.
  - reflexivity.
  - reflexivity.
  - unfold enough_fuel. lia.
  - exact H.
Defined.

Lemma reachable_states_are_sound_witness :
  resolved_are_reserved thread_tracker
  /\ ids_valid thread_tracker
  /\ threads_have_pid thread_tracker.
Proof.
  apply (reachable_states_are_sound (same:=spec_same_track)
        (build:=debug_build) thread_tracker).
  apply reachable_declare, reachable_fresh_tracker.
Defined.

Lemma option_Z_eqb_eq (a b : option Z) : option_Z_eqb a b = true -> a = b.
Proof.
  destruct a, b; simpl; try done. intros H. apply Z.eqb_eq in H. by subst.
Qed.

Lemma IsForSameTrack_spec_same_pid a b :
  IsForSameTrack_spec a b = true -> pid a = pid b.
Proof.
  unfold IsForSameTrack_spec. rewrite !andb_true_iff.
  intros [[[[[[[_ H] _] _] _] _] _] _]. by apply option_Z_eqb_eq.
Qed.

Lemma matching_redeclaration_merges_min_timestamp_witness :
  (let s := process_tracker_state in
   let d := DeclareProcessTrack 1 kNullStringId 10 50 in
   Reserve (same:=spec_same_track) d s
   = set_reserved
       (insert 1
          (set_min_timestamp (Z.min 100 50)
             (process_track_reservation kNullStringId 10 100))) s
   /\ min_timestamp
        <$> reserved_descriptor_tracks_
              (Reserve (same:=spec_same_track) d s) !! 1
      = Some (Z.min 100 50))
  /\ (let s := declare [DeclareChildTrack 7 3 kNullStringId] fresh_tracker in
      let d := DeclareChildTrack 7 3 (InternString "again") in
      min_timestamp
        <$> reserved_descriptor_tracks_
              (Reserve (same:=spec_same_track) d s) !! 7
      = Some (Z.min 0 0)
      /\ Reserve (same:=spec_same_track) d s = s).
Proof.
  split.
  - destruct (matching_redeclaration_merges_min_timestamp
                (ops:=simple_process_tracker) (same:=spec_same_track)
                (build:=debug_build)
                (DeclareProcessTrack 1 kNullStringId 10 50)
                process_tracker_state
                (process_track_reservation kNullStringId 10 100))
      as (Hstate & Hmin & _).
    + apply IsForSameTrack_spec_same_pid.
    + apply reachable_declare, reachable_fresh_tracker.
    + vm_compute. reflexivity.
    + vm_compute. reflexivity.
    + split; [exact Hstate|exact Hmin].
  - destruct (matching_redeclaration_merges_min_timestamp
                (ops:=simple_process_tracker) (same:=spec_same_track)
                (build:=debug_build)
                (DeclareChildTrack 7 3 (InternString "again"))
                (declare [DeclareChildTrack 7 3 kNullStringId] fresh_tracker)
                (child_track_reservation 3 kNullStringId))
      as (_ & Hmin & _ & Hsame).
    + apply IsForSameTrack_spec_same_pid.
    + apply reachable_declare, reachable_fresh_tracker.
    + vm_compute. reflexivity.
    + vm_compute. reflexivity.
    + split; [exact Hmin|exact Hsame].
Defined.


